(** * async_core: a shallow embedding of the scheduler core and of the
      coroutine value slot

    The development follows [include/dkuk/async_core.hpp] (class
    [dkuk::async_core]) and the coroutine header (class
    [dkuk::coroutine_context]).

    Conventions.
    - [std::size_t] identifiers and counters are [nat]; the values of the
      [enum class]es [poll] and [delay] are kept as their underlying
      integers ([Z]), because a [static_cast] can put any integer there and
      [fixed_worker_parameters_] exists for exactly that case.
    - A [std::vector] is a list, read with [!!] and written with
      [<[i:=x]>]; [vector::at] is modelled with its range check.
    - Pointers to nodes are indices into the node array; a pointer to an
      io_context is the index of the node that owns it.
    - What a C++ call can do besides returning is a [result]: it may throw,
      run into undefined behaviour, or not return ([OutOfFuel]): a loop
      modelled with fuel that runs out of it, a call that waits for
      another thread, or a call in which the program is ended. *)

From Stdlib Require Import ZArith String Lia.
From stdpp Require Import base option list functions.

Open Scope string_scope.
Open Scope list_scope.
Open Scope nat_scope.

(** ** Exceptions and results *)

Inductive exn : Type :=
| out_of_range (what : string)
| logic_error (what : string)
| invalid_argument (what : string)
| system_error (code : Z)
| coroutine_expired
| std_exception (what : string)     (* any other class derived from std::exception *)
| foreign_exception (tag : Z).      (* a thrown object that is not a std::exception *)

(** [catch (const std::exception &)] matches exactly these. *)
Definition is_std_exception (e : exn) : bool :=
  match e with
  | foreign_exception _ => false
  | _ => true
  end.

Inductive result (A : Type) : Type :=
| Ok (a : A)
| Throw (e : exn)
| Undefined
| OutOfFuel.
Arguments Ok {A} a.
Arguments Throw {A} e.
Arguments Undefined {A}.
Arguments OutOfFuel {A}.

Definition result_bind {A B} (r : result A) (k : A -> result B) : result B :=
  match r with
  | Ok a => k a
  | Throw e => Throw e
  | Undefined => Undefined
  | OutOfFuel => OutOfFuel
  end.

Notation "'let*' x ':=' e 'in' k" := (result_bind e (fun x => k))
  (at level 10, x name, e at level 100, k at level 200, only parsing).

(** [vector::at]: range-checked access. *)
Definition vector_at {A} (v : list A) (i : nat) : result A :=
  match v !! i with
  | Some x => Ok x
  | None => Throw (out_of_range "vector::at")
  end.

(** ** Worker parameters *)

Module worker.

(** [enum class poll], by underlying value. *)
Definition poll_disabled : Z := 0.
Definition poll_one : Z := 1.
Definition poll_all : Z := 2.
Definition run_one : Z := 3.

(** [enum class delay], by underlying value. *)
Definition no_delay : Z := 0.
Definition yield : Z := 1.
Definition sleep : Z := 2.

Definition default_delay : Z := 500 * 1000 * 1000.

Record parameters : Type := mk_parameters {
  self_poll_policy : Z;
  children_poll_policy : Z;
  delay_rounds : nat;
  delay_policy : Z;
  delay_value : Z
}.

(** The default member initialisers of [struct parameters]. *)
Definition default_parameters : parameters :=
  {| self_poll_policy := poll_all;
     children_poll_policy := poll_one;
     delay_rounds := 1;
     delay_policy := yield;
     delay_value := default_delay |}.

(** The enumerators of [poll] (the [case] labels of the two switches). *)
Definition is_poll (v : Z) : bool :=
  (v =? poll_disabled)%Z || (v =? poll_one)%Z || (v =? poll_all)%Z || (v =? run_one)%Z.

(** The enumerators of [delay]. *)
Definition is_delay (v : Z) : bool :=
  (v =? no_delay)%Z || (v =? yield)%Z || (v =? sleep)%Z.

End worker.

Import worker.

(** [async_core::fixed_worker_parameters_]: the record is taken by value
    and patched field by field. *)
Definition fixed_worker_parameters_ (params : parameters) : parameters :=
  let p1 :=
    if is_poll (self_poll_policy params) then params
    else {| self_poll_policy := self_poll_policy default_parameters;
            children_poll_policy := children_poll_policy params;
            delay_rounds := delay_rounds params;
            delay_policy := delay_policy params;
            delay_value := delay_value params |} in
  let p2 :=
    if is_poll (children_poll_policy p1) then p1
    else {| self_poll_policy := self_poll_policy p1;
            children_poll_policy := children_poll_policy default_parameters;
            delay_rounds := delay_rounds p1;
            delay_policy := delay_policy p1;
            delay_value := delay_value p1 |} in
  let p3 :=
    if delay_rounds p2 <? 1 then
         {| self_poll_policy := self_poll_policy p2;
            children_poll_policy := children_poll_policy p2;
            delay_rounds := delay_rounds default_parameters;
            delay_policy := delay_policy p2;
            delay_value := delay_value p2 |}
    else p2 in
  if is_delay (delay_policy p3) then p3
  else {| self_poll_policy := self_poll_policy p3;
          children_poll_policy := children_poll_policy p3;
          delay_rounds := delay_rounds p3;
          delay_policy := delay_policy default_parameters;
          delay_value := delay_value p3 |}.

(** ** The context tree (the blueprint) *)

Module context_tree.

(** [context_tree::node]. *)
Record node : Type := mk_node {
  parent_id_ : nat;
  children_count_ : nat;
  worker_parameters_ : list parameters;
  concurrency_hint_ : option Z;
  enabled_ : bool
}.

(** The tree is its vector [nodes_]. *)
Abbreviation t := (list node).

Definition empty : t := [].

Definition incr_children (n : node) : node :=
  {| parent_id_ := parent_id_ n;
     children_count_ := S (children_count_ n);
     worker_parameters_ := worker_parameters_ n;
     concurrency_hint_ := concurrency_hint_ n;
     enabled_ := enabled_ n |}.

Definition with_workers (n : node) (ws : list parameters) : node :=
  {| parent_id_ := parent_id_ n;
     children_count_ := children_count_ n;
     worker_parameters_ := ws;
     concurrency_hint_ := concurrency_hint_ n;
     enabled_ := enabled_ n |}.

(** [add_context_]: returns the tree after the call and the new id. *)
Definition add_context_ (nodes_ : t) (parent_id workers_count : nat)
    (enabled : bool) (concurrency_hint : option Z) : result (t * nat) :=
  let new_id := length nodes_ in
  if (new_id <=? parent_id) && negb (parent_id =? 0) then
    Throw (out_of_range "Incorrect context parent id")
  else
    let nodes1 :=
      nodes_ ++ [ {| parent_id_ := parent_id;
                     children_count_ := 0;
                     worker_parameters_ := replicate workers_count default_parameters;
                     concurrency_hint_ := concurrency_hint;
                     enabled_ := enabled |} ] in
    let nodes2 :=
      if negb (new_id =? 0) then alter incr_children parent_id nodes1 else nodes1 in
    Ok (nodes2, new_id).

Definition add_context (nodes_ : t) (parent_id workers_count : nat) (enabled : bool)
    : result (t * nat) :=
  add_context_ nodes_ parent_id workers_count enabled None.

(** [set_worker_parameters]: both accesses are [vector::at]. *)
Definition set_worker_parameters (nodes_ : t) (context_id worker : nat)
    (params : parameters) : result t :=
  let* n := vector_at nodes_ context_id in
  let* _ := vector_at (worker_parameters_ n) worker in
  Ok (<[context_id :=
          with_workers n (<[worker := fixed_worker_parameters_ params]>
                            (worker_parameters_ n))]> nodes_).

(** [add_worker(context_id, parameters)]. *)
Definition add_worker (nodes_ : t) (context_id : nat) (params : parameters)
    : result (t * nat) :=
  let* n := vector_at nodes_ context_id in
  let worker_id := length (worker_parameters_ n) in
  Ok (<[context_id :=
          with_workers n (worker_parameters_ n ++ [fixed_worker_parameters_ params])]>
        nodes_,
      worker_id).

(** [add_worker(context_id)]: [emplace_back()] of a default record. *)
Definition add_worker_default (nodes_ : t) (context_id : nat) : result (t * nat) :=
  let* n := vector_at nodes_ context_id in
  let worker_id := length (worker_parameters_ n) in
  Ok (<[context_id := with_workers n (worker_parameters_ n ++ [default_parameters])]>
        nodes_,
      worker_id).

(** The record held by slot [worker] of node [context_id]. *)
Definition stored (nodes_ : t) (context_id worker : nat) : option parameters :=
  n ← nodes_ !! context_id; worker_parameters_ n !! worker.

(** What [add_context_] maintains: node 0 is its own parent, every other
    node has a parent with a smaller id. *)
Definition topological (nodes_ : t) : Prop :=
  forall i n, nodes_ !! i = Some n ->
    (i = 0 /\ parent_id_ n = 0) \/ (0 < i /\ parent_id_ n < i).

End context_tree.

(** ** The scheduler: state, nodes, events *)

(** [enum class state]. *)
Inductive state : Type := idle | starting | running | stopping.

Definition state_eqb (a b : state) : bool :=
  match a, b with
  | idle, idle | starting, starting | running, running | stopping, stopping => true
  | _, _ => false
  end.

Inductive mutex : Type := stop_mutex_ | join_mutex_.

(** What an operation of the scheduler does to the world outside the
    object, in program order. The record of the scheduler keeps them in a
    ghost field, so that "did nothing" and "did this before that" can be
    stated. *)
Inductive event : Type :=
| ev_construct (id : nat)            (* placement new of node [id] *)
| ev_destroy (id : nat)              (* [~node()] of node [id] *)
| ev_free_storage                    (* [delete [] nodes_ptr_] *)
| ev_lock (m : mutex)
| ev_unlock (m : mutex)
| ev_state (from to : state)         (* a store to [state_] *)
| ev_pin (id : nat)                  (* [work_guard_.emplace(...)] *)
| ev_launch (id slot : nat)          (* [workers_.emplace_back(thread)] *)
| ev_unpin (id : nat)                (* [work_guard_ = boost::none] *)
| ev_stop_context (id : nat)         (* [io_context_.stop()] *)
| ev_join_thread (id slot : nat)     (* [worker.join()] *)
| ev_terminate.                      (* [std::terminate()] *)

(** A launched [std::thread]: it runs [worker_run_] on its node with the
    parameters of one slot. *)
Record thread : Type := mk_thread {
  thread_slot : nat;
  thread_parameters : parameters
}.

(** [async_core::node]. *)
Record node : Type := mk_rt_node {
  children_ptrs_ : list nat;
  workers_ : list thread;
  work_guard_ : bool;                  (* the optional guard is engaged *)
  worker_parameters_ : list parameters;
  enabled_ : bool;
  io_stopped_ : bool                   (* [io_context_.stopped()] after [stop()] *)
}.

Definition new_node (n : context_tree.node) : node :=
  {| children_ptrs_ := [];
     workers_ := [];
     work_guard_ := false;
     worker_parameters_ := context_tree.worker_parameters_ n;
     enabled_ := if context_tree.enabled_ n then true else false;
     io_stopped_ := false |}.

Definition push_child (child : nat) (n : node) : node :=
  {| children_ptrs_ := children_ptrs_ n ++ [child];
     workers_ := workers_ n;
     work_guard_ := work_guard_ n;
     worker_parameters_ := worker_parameters_ n;
     enabled_ := enabled_ n;
     io_stopped_ := io_stopped_ n |}.

Definition set_guard (g : bool) (n : node) : node :=
  {| children_ptrs_ := children_ptrs_ n;
     workers_ := workers_ n;
     work_guard_ := g;
     worker_parameters_ := worker_parameters_ n;
     enabled_ := enabled_ n;
     io_stopped_ := io_stopped_ n |}.

Definition set_workers (ws : list thread) (n : node) : node :=
  {| children_ptrs_ := children_ptrs_ n;
     workers_ := ws;
     work_guard_ := work_guard_ n;
     worker_parameters_ := worker_parameters_ n;
     enabled_ := enabled_ n;
     io_stopped_ := io_stopped_ n |}.

Definition set_io_stopped (n : node) : node :=
  {| children_ptrs_ := children_ptrs_ n;
     workers_ := workers_ n;
     work_guard_ := work_guard_ n;
     worker_parameters_ := worker_parameters_ n;
     enabled_ := enabled_ n;
     io_stopped_ := true |}.

(** What the code has no say in: whether constructing a node in place
    throws (the io_context, the copied vector), and whether launching a
    thread throws. [None] is a normal return. *)
Record host : Type := mk_host {
  node_ctor_throws : nat -> option exn;
  thread_ctor_throws : nat -> nat -> option exn
}.

(** A host on which nothing fails. *)
Definition calm_host : host :=
  {| node_ctor_throws := fun _ => None;
     thread_ctor_throws := fun _ _ => None |}.

(** ** [node_array] *)

Module node_array.

(** [delete_nodes_]: the do-while destroys [nodes_initialized - 1] down
    to [0]; the storage is freed when it was allocated ([size_ > 0]). *)
Fixpoint destroy_down (nodes_initialized : nat) : list event :=
  match nodes_initialized with
  | 0 => []
  | S k => ev_destroy k :: destroy_down k
  end.

Definition delete_nodes_ (size_ nodes_initialized : nat) : list event :=
  destroy_down nodes_initialized ++ (if size_ =? 0 then [] else [ev_free_storage]).

(** [at(i)] on the array under construction: the range check is against
    [size_]; reading a slot that holds no node yet is undefined. *)
Definition at_ (size_ : nat) (arr : list node) (i : nat) : result node :=
  if i <? size_ then
    match arr !! i with
    | Some n => Ok n
    | None => Undefined
    end
  else Throw (out_of_range "Incorrect context id").

(** The body of the constructor's [for] loop. [arr] is the initialised
    prefix, so [nodes_initialized] is its length. *)
Fixpoint construct_loop (h : host) (size_ : nat) (descs : list context_tree.node)
    (arr : list node) (log : list event) : result unit * list node * list event :=
  match descs with
  | [] => (Ok tt, arr, log)
  | n :: rest =>
    let nodes_initialized := length arr in
    match node_ctor_throws h nodes_initialized with
    | Some e => (Throw e, arr, log)
    | None =>
      let arr1 := arr ++ [new_node n] in
      let log1 := log ++ [ev_construct nodes_initialized] in
      let current_id := S nodes_initialized - 1 in
      if context_tree.parent_id_ n =? current_id then
        construct_loop h size_ rest arr1 log1
      else
        match at_ size_ arr1 (context_tree.parent_id_ n) with
        | Ok p =>
          construct_loop h size_ rest
            (<[context_tree.parent_id_ n := push_child current_id p]> arr1) log1
        | Throw e => (Throw e, arr1, log1)
        | Undefined => (Undefined, arr1, log1)
        | OutOfFuel => (OutOfFuel, arr1, log1)
        end
    end
  end.

(** [node_array::node_array(const context_tree &)]: the loop inside
    [try], and [catch (...) { delete_nodes_(nodes_initialized); throw; }]. *)
Definition ctor (h : host) (t : context_tree.t) : result (list node) * list event :=
  let size_ := length t in
  match construct_loop h size_ t [] [] with
  | (Ok _, arr, log) => (Ok arr, log)
  | (Throw e, arr, log) => (Throw e, log ++ delete_nodes_ size_ (length arr))
  | (Undefined, _, log) => (Undefined, log)
  | (OutOfFuel, _, log) => (OutOfFuel, log)
  end.

(** [~node_array()]. *)
Definition dtor (arr : list node) : list event :=
  delete_nodes_ (length arr) (length arr).

End node_array.

(** ** [async_core] *)

(** The exception sink: [None] is an empty [std::function]; a sink that is
    called returns ([None]) or throws ([Some e]). *)
Definition exception_handler_type : Type := option (exn -> option exn).

Record async_core : Type := mk_async_core {
  state_ : state;
  nodes_ : list node;
  exception_handler_ : exception_handler_type;
  joined_ : bool;
  trace_ : list event                  (* ghost: the events so far *)
}.

Definition emit (e : event) (c : async_core) : async_core :=
  {| state_ := state_ c; nodes_ := nodes_ c;
     exception_handler_ := exception_handler_ c;
     joined_ := joined_ c; trace_ := trace_ c ++ [e] |}.

(** A store to the atomic [state_]. *)
Definition store_state (s : state) (c : async_core) : async_core :=
  {| state_ := s; nodes_ := nodes_ c;
     exception_handler_ := exception_handler_ c;
     joined_ := joined_ c; trace_ := trace_ c ++ [ev_state (state_ c) s] |}.

Definition set_nodes (ns : list node) (c : async_core) : async_core :=
  {| state_ := state_ c; nodes_ := ns;
     exception_handler_ := exception_handler_ c;
     joined_ := joined_ c; trace_ := trace_ c |}.

Definition set_joined (b : bool) (c : async_core) : async_core :=
  {| state_ := state_ c; nodes_ := nodes_ c;
     exception_handler_ := exception_handler_ c;
     joined_ := b; trace_ := trace_ c |}.

Definition get_state (c : async_core) : state := state_ c.

(** [node_array::empty()]. *)
Definition nodes_empty (c : async_core) : bool := length (nodes_ c) =? 0.

(** *** [order_nodes_] *)

(** The inner [for] over the children of the node under the iterator:
    an unvisited child is marked and appended. [visited[child_id]] outside
    the vector is undefined. *)
Fixpoint visit_children (children : list nat) (ordered : list nat) (visited : list bool)
    : result (list nat * list bool) :=
  match children with
  | [] => Ok (ordered, visited)
  | child_id :: rest =>
    match visited !! child_id with
    | None => Undefined
    | Some true => visit_children rest ordered visited
    | Some false => visit_children rest (ordered ++ [child_id]) (<[child_id := true]> visited)
    end
  end.

(** The [while (ordered_node_ptrs.size() < nodes_.size())] loop;
    [ordered_it] is the index [it]. Dereferencing it past the end of the
    vector is undefined. One unit of fuel per iteration. *)
Fixpoint order_loop (fuel : nat) (nodes : list node) (ordered : list nat)
    (visited : list bool) (it : nat) : result (list nat) :=
  if length ordered <? length nodes then
    match fuel with
    | 0 => OutOfFuel
    | S fuel' =>
      match ordered !! it with
      | None => Undefined
      | Some p =>
        match nodes !! p with
        | None => Undefined
        | Some n =>
          let* ov := visit_children (children_ptrs_ n) ordered visited in
          order_loop fuel' nodes (fst ov) (snd ov) (S it)
        end
      end
    end
  else Ok ordered.

(** [order_nodes_]: [nodes_.front()] is [at(0)]. The loop runs at most
    once per node, which is the fuel it gets. *)
Definition order_nodes_ (nodes : list node) : result (list nat) :=
  match nodes with
  | [] => Throw (out_of_range "Incorrect context id")
  | _ :: _ =>
    order_loop (length nodes) nodes [0] (<[0 := true]> (replicate (length nodes) false)) 0
  end.

(** *** [start_workers_] *)

(** The inner [for] of [start_workers_]: one thread per slot of node [id]. *)
Fixpoint launch_workers (h : host) (id : nat) (slot : nat) (params : list parameters)
    (c : async_core) : result unit * async_core :=
  match params with
  | [] => (Ok tt, c)
  | p :: rest =>
    match thread_ctor_throws h id slot with
    | Some e => (Throw e, c)
    | None =>
      let c1 := set_nodes (alter (fun n => set_workers (workers_ n ++ [mk_thread slot p]) n)
                                 id (nodes_ c)) c in
      launch_workers h id (S slot) rest (emit (ev_launch id slot) c1)
    end
  end.

(** The outer [for] of [start_workers_], over the reversed ordering. *)
Fixpoint start_nodes (h : host) (ids : list nat) (c : async_core)
    : result unit * async_core :=
  match ids with
  | [] => (Ok tt, c)
  | id :: rest =>
    match nodes_ c !! id with
    | None => (Undefined, c)
    | Some n =>
      let c1 := emit (ev_pin id) (set_nodes (alter (set_guard true) id (nodes_ c)) c) in
      match launch_workers h id 0 (worker_parameters_ n) c1 with
      | (Ok _, c2) => start_nodes h rest c2
      | (r, c2) => (r, c2)
      end
    end
  end.

Definition start_workers_ (h : host) (c : async_core) : result unit * async_core :=
  if nodes_empty c then (Ok tt, c)
  else
    match order_nodes_ (nodes_ c) with
    | Ok ordered_node_ptrs => start_nodes h (reverse ordered_node_ptrs) c
    | Throw e => (Throw e, c)
    | Undefined => (Undefined, c)
    | OutOfFuel => (OutOfFuel, c)
    end.

(** *** [stop_workers_], [join_workers_] *)

Definition stop_workers_ (c : async_core) : async_core :=
  let ids := seq 0 (length (nodes_ c)) in
  let c1 := set_nodes (set_guard false <$> nodes_ c) c in
  let c2 := foldl (fun c id => emit (ev_unpin id) c) c1 ids in
  let c3 := set_nodes (set_io_stopped <$> nodes_ c2) c2 in
  foldl (fun c id => emit (ev_stop_context id) c) c3 ids.

(** The joins of one node, in the order of its vector. *)
Definition join_events (id : nat) (n : node) : list event :=
  (fun w => ev_join_thread id (thread_slot w)) <$> workers_ n.

(** [join_workers_]. Every [worker.join()] is taken to return. In
    [stop()] the threads have been told to leave their loops: [stopping] is
    stored and every io_context is stopped before the joins. [join()]
    comes to it only when the threads have returned by themselves. *)
Definition join_workers_ (c : async_core) : bool * async_core :=
  if negb (joined_ c) then
    let c1 := emit (ev_lock join_mutex_) (set_joined true c) in
    let joins := mjoin (imap join_events (nodes_ c1)) in
    let c2 := foldl (fun c e => emit e c) c1 joins in
    let c3 := set_nodes (set_workers [] <$> nodes_ c2) c2 in
    let c4 := set_joined false c3 in
    let c5 := store_state idle c4 in
    (true, emit (ev_unlock join_mutex_) c5)
  else (false, set_joined true c).

(** *** [start], [stop], the destructor, the constructors

    [join()] follows the worker loop, which decides whether it returns. *)

Definition start (h : host) (c : async_core) : result unit * async_core :=
  if nodes_empty c then (Ok tt, c)
  else
    let c1 := emit (ev_unlock join_mutex_)
                (emit (ev_lock join_mutex_) (emit (ev_lock stop_mutex_) c)) in
    let c2 := store_state starting c1 in
    match start_workers_ h c2 with
    | (Ok _, c3) =>
      (Ok tt, emit (ev_unlock stop_mutex_) (store_state running c3))
    | (Throw e, c3) =>
      (Throw e, emit (ev_unlock stop_mutex_) (store_state idle c3))
    | (r, c3) => (r, c3)
    end.

Definition stop (c : async_core) : result unit * async_core :=
  if nodes_empty c then (Ok tt, c)
  else
    let c1 := emit (ev_lock stop_mutex_) c in
    let c2 := store_state stopping c1 in
    let c3 := stop_workers_ c2 in
    let c4 := snd (join_workers_ c3) in
    (Ok tt, emit (ev_unlock stop_mutex_) c4).

(** [~async_core()]: [stop()], then the members, of which [nodes_] has a
    visible destructor. *)
Definition dtor (c : async_core) : result unit * async_core :=
  match stop c with
  | (Ok _, c1) =>
    (Ok tt, foldl (fun c e => emit e c) c1 (node_array.dtor (nodes_ c1)))
  | (r, c1) => (r, c1)
  end.

(** The member [nodes_] of a scheduler whose constructor is left by an
    exception: [~async_core()] is not run, so that nothing has stopped or
    joined the threads. [delete_nodes_] destroys the nodes from the last one
    down, and [~node()] of a node that holds a thread destroys a joinable
    [std::thread], which ends the program. The flag says whether every node
    was destroyed. *)
Fixpoint destroy_unjoined (nodes_initialized : nat) (arr : list node) : bool * list event :=
  match nodes_initialized with
  | 0 => (true, [])
  | S k =>
    match workers_ <$> arr !! k with
    | Some [] =>
      let '(done, evs) := destroy_unjoined k arr in (done, ev_destroy k :: evs)
    | _ => (false, [ev_destroy k; ev_terminate])
    end
  end.

(** The constructors: the member [nodes_] is built from the tree, then
    [start()] when asked to. The events of the node array come first. When
    [start()] throws, the members are destroyed and the exception goes on to
    the caller, unless the program is ended on the way; the call does not
    return then. *)
Definition make (h : host) (t : context_tree.t) (exception_handler : exception_handler_type)
    (start_immediately : bool) : result async_core * list event :=
  match node_array.ctor h t with
  | (Ok arr, log) =>
    let c := {| state_ := idle; nodes_ := arr;
                exception_handler_ := exception_handler;
                joined_ := false; trace_ := log |} in
    if start_immediately then
      match start h c with
      | (Ok _, c1) => (Ok c1, trace_ c1)
      | (Throw e, c1) =>
        match destroy_unjoined (length (nodes_ c1)) (nodes_ c1) with
        | (true, evs) => (Throw e, trace_ c1 ++ evs ++ [ev_free_storage])
        | (false, evs) => (OutOfFuel, trace_ c1 ++ evs)
        end
      | (Undefined, c1) => (Undefined, trace_ c1)
      | (OutOfFuel, c1) => (OutOfFuel, trace_ c1)
      end
    else (Ok c, log)
  | (Throw e, log) => (Throw e, log)
  | (Undefined, log) => (Undefined, log)
  | (OutOfFuel, log) => (OutOfFuel, log)
  end.

(** ** The worker loop *)

(** The four member functions of io_context a worker calls. *)
Inductive poll_method : Type := m_poll_one | m_poll | m_run_one | m_run.

(** [worker_get_poll_method_]; [None] is the null member pointer. *)
Definition worker_get_poll_method_ (poll_policy : Z) : option poll_method :=
  if (poll_policy =? poll_disabled)%Z then None
  else if (poll_policy =? poll_one)%Z then Some m_poll_one
  else if (poll_policy =? poll_all)%Z then Some m_poll
  else if (poll_policy =? run_one)%Z then Some m_run_one
  else None.

(** What a worker does that is visible outside of it. *)
Inductive action : Type :=
| act_poll (context : nat) (m : poll_method)   (* [(context.*poll_method)()] *)
| act_sink (e : exn)                           (* [exception_handler_(e)] *)
| act_yield                                    (* [std::this_thread::yield()] *)
| act_sleep (ns : Z).                          (* [std::this_thread::sleep_for] *)

(** What a worker meets during one pass of its loop: the value of
    [state_] it reads in the loop condition, what each io_context does when
    one of its member functions is called (the number of handlers run, or
    the exception that escaped a handler), and whether the io_context is
    stopped afterwards. *)
Record round : Type := mk_round {
  seen_state : state;
  poll_outcome : nat -> poll_method -> result nat;
  stopped_after : nat -> bool
}.

(** How the thread function has ended, as far as the rounds given go. *)
Inductive outcome : Type :=
| returned                   (* the thread function returned *)
| still_running              (* the rounds ran out with the loop still going *)
| terminated (e : exn)       (* an exception left the thread function *)
| went_wrong.                (* undefined behaviour *)

(** [worker_poll_context_]. *)
Definition worker_poll_context_ (exception_handler : exception_handler_type)
    (r : round) (context : nat) (m : poll_method) : result nat * list action :=
  match poll_outcome r context m with
  | Ok n => (Ok n, [act_poll context m])
  | Throw e =>
    if is_std_exception e then
      match exception_handler with
      | Some handler =>
        match handler e with
        | None => (Ok 0, [act_poll context m; act_sink e])
        | Some e' => (Throw e', [act_poll context m; act_sink e])
        end
      | None => (Ok 0, [act_poll context m])
      end
    else (Throw e, [act_poll context m])
  | Undefined => (Undefined, [act_poll context m])
  | OutOfFuel => (OutOfFuel, [act_poll context m])
  end.

(** [worker_poll_contexts_]. *)
Fixpoint worker_poll_contexts_ (exception_handler : exception_handler_type)
    (r : round) (child_context_ptrs : list nat) (m : poll_method)
    : result nat * list action :=
  match child_context_ptrs with
  | [] => (Ok 0, [])
  | child :: rest =>
    match worker_poll_context_ exception_handler r child m with
    | (Ok n, a) =>
      match worker_poll_contexts_ exception_handler r rest m with
      | (Ok k, b) => (Ok (n + k), a ++ b)
      | (x, b) => (x, a ++ b)
      end
    | (x, a) => (x, a)
    end
  end.

(** [worker_delay_]. *)
Definition worker_delay_ (params : parameters) : list action :=
  if (delay_policy params =? no_delay)%Z then []
  else if (delay_policy params =? yield)%Z then [act_yield]
  else if (delay_policy params =? sleep)%Z then [act_sleep (delay_value params)]
  else [].

Definition outcome_of {A} (r : result A) : outcome :=
  match r with
  | Throw e => terminated e
  | _ => went_wrong
  end.

(** The [while] loop of [worker_run_single_], one round per pass. *)
Fixpoint worker_run_single_loop (exception_handler : exception_handler_type)
    (params : parameters) (context : nat) (wait_rounds : nat) (rounds : list round)
    : outcome * list action :=
  match rounds with
  | [] => (still_running, [])
  | r :: rest =>
    if state_eqb (seen_state r) stopping then (returned, [])
    else
      let delayed := delay_rounds params <=? wait_rounds in
      let wait_rounds1 := if delayed then 0 else wait_rounds in
      let d := if delayed then worker_delay_ params else [] in
      match worker_poll_context_ exception_handler r context m_run with
      | (Ok _, a) =>
        let wait_rounds2 :=
          if stopped_after r context then S wait_rounds1 else wait_rounds1 in
        let '(o, tr) :=
          worker_run_single_loop exception_handler params context wait_rounds2 rest in
        (o, d ++ a ++ tr)
      | (x, a) => (outcome_of x, d ++ a)
      end
  end.

Definition worker_run_single_ (exception_handler : exception_handler_type)
    (params : parameters) (context : nat) (rounds : list round) : outcome * list action :=
  worker_run_single_loop exception_handler params context 0 rounds.

(** One pass of the body of [worker_run_multiple_] after the delay: the
    self poll, then the children. *)
Definition poll_self_and_children (exception_handler : exception_handler_type)
    (r : round) (self_poll_method : option (nat * poll_method))
    (children_poll_method : option poll_method) (child_context_ptrs : list nat)
    : result nat * list action :=
  let '(x, a) :=
    match self_poll_method with
    | Some (self, m) => worker_poll_context_ exception_handler r self m
    | None => (Ok 0, [])
    end in
  match x with
  | Ok n =>
    match children_poll_method with
    | Some m =>
      match worker_poll_contexts_ exception_handler r child_context_ptrs m with
      | (Ok k, b) => (Ok (n + k), a ++ b)
      | (y, b) => (y, a ++ b)
      end
    | None => (Ok n, a)
    end
  | _ => (x, a)
  end.

(** The [while] loop of [worker_run_multiple_]. *)
Fixpoint worker_run_multiple_loop (exception_handler : exception_handler_type)
    (params : parameters) (self_poll_method : option (nat * poll_method))
    (children_poll_method : option poll_method) (child_context_ptrs : list nat)
    (wait_rounds : nat) (rounds : list round) : outcome * list action :=
  match rounds with
  | [] => (still_running, [])
  | r :: rest =>
    if state_eqb (seen_state r) stopping then (returned, [])
    else
      let delayed := delay_rounds params <=? wait_rounds in
      let wait_rounds1 := if delayed then 0 else wait_rounds in
      let d := if delayed then worker_delay_ params else [] in
      match poll_self_and_children exception_handler r self_poll_method
              children_poll_method child_context_ptrs with
      | (Ok executed, a) =>
        let wait_rounds2 := if executed =? 0 then S wait_rounds1 else wait_rounds1 in
        let '(o, tr) :=
          worker_run_multiple_loop exception_handler params self_poll_method
            children_poll_method child_context_ptrs wait_rounds2 rest in
        (o, d ++ a ++ tr)
      | (x, a) => (outcome_of x, d ++ a)
      end
  end.

Definition worker_run_multiple_ (exception_handler : exception_handler_type)
    (params : parameters) (self_context_ptr : option nat)
    (child_context_ptrs : list nat) (rounds : list round) : outcome * list action :=
  let self_poll_method :=
    match self_context_ptr with
    | None => None
    | Some self =>
      match worker_get_poll_method_ (self_poll_policy params) with
      | Some m => Some (self, m)
      | None => None
      end
    end in
  let children_poll_method := worker_get_poll_method_ (children_poll_policy params) in
  worker_run_multiple_loop exception_handler params self_poll_method
    children_poll_method child_context_ptrs 0 rounds.

(** The [while (!nodes_queue_.empty())] loop of
    [worker_get_child_contexts_to_run_]: pop the front, keep it when it is
    enabled, push its children. One unit of fuel per pop. *)
Fixpoint collect_child_contexts (fuel : nat) (nodes : list node) (nodes_queue_ : list nat)
    (child_context_ptrs : list nat) : result (list nat) :=
  match nodes_queue_ with
  | [] => Ok child_context_ptrs
  | node_ptr :: popped =>
    match fuel with
    | 0 => OutOfFuel
    | S fuel' =>
      match nodes !! node_ptr with
      | None => Undefined
      | Some n =>
        collect_child_contexts fuel' nodes (popped ++ children_ptrs_ n)
          (if enabled_ n then child_context_ptrs ++ [node_ptr] else child_context_ptrs)
      end
    end
  end.

(** [worker_get_child_contexts_to_run_]; no node is popped twice, so the
    number of nodes is fuel enough. *)
Definition worker_get_child_contexts_to_run_ (nodes : list node) (n : node)
    (params : parameters) : result (list nat) :=
  if negb (children_poll_policy params =? poll_disabled)%Z then
    collect_child_contexts (length nodes) nodes (children_ptrs_ n) []
  else Ok [].

(** The three regimes [worker_run_] chooses from, with the queues each
    is given. *)
Inductive regime : Type :=
| single_queue (context : nat)
| multi_queue (self_context_ptr : option nat) (child_context_ptrs : list nat)
| no_queue.

(** The [if]/[else if] cascade of [worker_run_]. *)
Definition worker_regime (self_context_ptr : option nat) (child_context_ptrs : list nat)
    : regime :=
  match child_context_ptrs, self_context_ptr with
  | [], Some self =>          (* [empty() && self_context_ptr != nullptr] *)
    single_queue self
  | [child], None =>          (* [size() == 1 && self_context_ptr == nullptr] *)
    single_queue child
  | _, _ =>                   (* [size() > 1 || self_context_ptr != nullptr] *)
    if (1 <? length child_context_ptrs) || bool_decide (self_context_ptr <> None)
    then multi_queue self_context_ptr child_context_ptrs
    else no_queue
  end.

(** [self_context_ptr] of [worker_run_] for the worker of node [id]. *)
Definition worker_self_context (id : nat) (n : node) (params : parameters) : option nat :=
  if negb (self_poll_policy params =? poll_disabled)%Z && enabled_ n then Some id else None.

(** [worker_run_], for the worker of node [id] with the parameters of one
    of its slots. *)
Definition worker_run_ (c : async_core) (id : nat) (params : parameters)
    (rounds : list round) : outcome * list action :=
  match nodes_ c !! id with
  | None => (went_wrong, [])
  | Some n =>
    let self_context_ptr := worker_self_context id n params in
    match worker_get_child_contexts_to_run_ (nodes_ c) n params with
    | Ok child_context_ptrs =>
      match worker_regime self_context_ptr child_context_ptrs with
      | single_queue context =>
        worker_run_single_ (exception_handler_ c) params context rounds
      | multi_queue self children =>
        worker_run_multiple_ (exception_handler_ c) params self children rounds
      | no_queue => (returned, [])
      end
    | Throw e => (terminated e, [])
    | _ => (went_wrong, [])
    end
  end.

(** ** The coroutine value slot and its caller *)

Module coroutine.

(** [coroutine_context]: the weak pointer to the coroutine record (it
    can still be locked, or it has expired) and the pointer to an
    external error code. Addresses are natural numbers. *)
Record coroutine_context : Type := mk_context {
  alive : bool;
  ec_ptr_ : option nat
}.

(** [operator[]]: a copy with the external error code installed. *)
Definition with_error_code (c : coroutine_context) (ec : nat) : coroutine_context :=
  {| alive := alive c; ec_ptr_ := Some ec |}.

(** [best_ec_] returns a reference: to the external error code, or to
    the one it was given. *)
Inductive ec_ref : Type := external_ec (addr : nat) | internal_ec.

Definition best_ec_ (c : coroutine_context) : ec_ref :=
  match ec_ptr_ c with
  | Some addr => external_ec addr
  | None => internal_ec
  end.

(** [value<T...>] without an error code. *)
Module value.
Record t (T : Type) : Type := mk {
  context_ : coroutine_context;
  ready_ : nat;
  value_ : T
}.
Arguments mk {T}.
Arguments context_ {T}.
Arguments ready_ {T}.
Arguments value_ {T}.

(** The constructor; [init] is what [value_] holds before any store. *)
Definition make {T} (context : coroutine_context) (init : T) : t T :=
  {| context_ := context; ready_ := 0; value_ := init |}.

(** [set]: the counter is incremented; at 2 the arguments are stored. *)
Definition set {T} (args : T) (v : t T) : bool * t T :=
  let ready := S (ready_ v) in
  if ready =? 2 then
    (true, {| context_ := context_ v; ready_ := ready; value_ := args |})
  else
    (false, {| context_ := context_ v; ready_ := ready; value_ := value_ v |}).
End value.

(** [value<boost::system::error_code, T...>]. *)
Module value_ec.
Record t (T : Type) : Type := mk {
  context_ : coroutine_context;
  ready_ : nat;
  ec_ : Z;
  value_ : T
}.
Arguments mk {T}.
Arguments context_ {T}.
Arguments ready_ {T}.
Arguments ec_ {T}.
Arguments value_ {T}.

Definition make {T} (context : coroutine_context) (init : T) : t T :=
  {| context_ := context; ready_ := 0; ec_ := 0%Z; value_ := init |}.
End value_ec.

(** [caller<T...>]: the shared pointer keeps the record alive, so only
    the pointer to the slot is modelled. *)
Record caller : Type := mk_caller {
  value_ptr_ : option nat
}.

(** What [get()] comes to on the coroutine's side. *)
Inductive get_outcome (T : Type) : Type :=
| got (v : T)          (* [get()] returns *)
| parked               (* the coroutine has yielded inside [get()] *)
| raised (e : exn).    (* [get()] throws *)
Arguments got {T} v.
Arguments parked {T}.
Arguments raised {T} e.

Section World.
Context {T : Type}.

(** The memory the slot, the caller and the strand share: the slots of
    both kinds and the external error codes by address, the number of
    resumptions posted to the strand and not yet run, and whether the
    coroutine is suspended. *)
Record world : Type := mk_world {
  slots : nat -> value.t T;
  ec_slots : nat -> value_ec.t T;
  error_codes : nat -> Z;
  posted : nat;
  suspended : bool
}.

Definition set_slot (a : nat) (v : value.t T) (w : world) : world :=
  {| slots := <[a := v]> (slots w); ec_slots := ec_slots w;
     error_codes := error_codes w; posted := posted w; suspended := suspended w |}.

Definition set_ec_slot (a : nat) (v : value_ec.t T) (w : world) : world :=
  {| slots := slots w; ec_slots := <[a := v]> (ec_slots w);
     error_codes := error_codes w; posted := posted w; suspended := suspended w |}.

Definition set_error_code (a : nat) (ec : Z) (w : world) : world :=
  {| slots := slots w; ec_slots := ec_slots w;
     error_codes := <[a := ec]> (error_codes w);
     posted := posted w; suspended := suspended w |}.

(** [continue_]: [coro_start] posts a [primitive_caller] to the strand. *)
Definition continue_ (w : world) : world :=
  {| slots := slots w; ec_slots := ec_slots w; error_codes := error_codes w;
     posted := S (posted w); suspended := suspended w |}.

(** [coro_yield]: control goes back to the strand. *)
Definition park (w : world) : world :=
  {| slots := slots w; ec_slots := ec_slots w; error_codes := error_codes w;
     posted := posted w; suspended := true |}.

(** The strand runs one posted [primitive_caller]: [coro_call] switches
    into the coroutine, which goes on after its [yield_]. *)
Definition resume (w : world) : option world :=
  match posted w with
  | 0 => None
  | S k =>
    Some {| slots := slots w; ec_slots := ec_slots w; error_codes := error_codes w;
            posted := k; suspended := false |}
  end.

(** [coroutine_context::get_caller()], without a slot. *)
Definition get_caller (c : coroutine_context) : result caller :=
  if alive c then Ok {| value_ptr_ := None |} else Throw coroutine_expired.

(** [coroutine_context::get_caller(value)]. *)
Definition get_caller_for (c : coroutine_context) (value : nat) : result caller :=
  if alive c then Ok {| value_ptr_ := Some value |} else Throw coroutine_expired.

(** [caller::bind_value]. *)
Definition bind_value (value : nat) (c : caller) : caller :=
  {| value_ptr_ := Some value |}.

(** [caller::get_context()]: a context made from the shared pointer
    alone. *)
Definition get_context (c : caller) : coroutine_context :=
  {| alive := true; ec_ptr_ := None |}.

(** [caller::operator()] on a slot without error code. *)
Definition call (c : caller) (args : T) (w : world) : result unit * world :=
  match value_ptr_ c with
  | None => (Throw (logic_error "Incorrect coroutine caller: Value not bound"), w)
  | Some a =>
    let '(resumes, v) := value.set args (slots w a) in
    let w1 := set_slot a v w in
    if resumes then (Ok tt, continue_ w1) else (Ok tt, w1)
  end.

(** [value<T...>::get()] up to its return or its [yield_()]. *)
Definition get (a : nat) (w : world) : get_outcome T * world :=
  let v := slots w a in
  let ready := S (value.ready_ v) in
  let v1 := {| value.context_ := value.context_ v; value.ready_ := ready;
               value.value_ := value.value_ v |} in
  let w1 := set_slot a v1 w in
  if negb (ready =? 2) then
    if alive (value.context_ v) then (parked, park w1)
    else (raised coroutine_expired, w1)
  else (got (value.value_ v1), w1).

(** The rest of [get()] after the coroutine has been resumed. *)
Definition get_resumed (a : nat) (w : world) : get_outcome T :=
  got (value.value_ (slots w a)).

(** [value<error_code, T...>::set], with the write through [best_ec_]. *)
Definition set_ec (a : nat) (ec : Z) (args : T) (w : world) : bool * world :=
  let v := ec_slots w a in
  let ready := S (value_ec.ready_ v) in
  if ready =? 2 then
    match best_ec_ (value_ec.context_ v) with
    | external_ec addr =>
      (true,
       set_ec_slot a {| value_ec.context_ := value_ec.context_ v;
                        value_ec.ready_ := ready;
                        value_ec.ec_ := value_ec.ec_ v;
                        value_ec.value_ := args |}
         (set_error_code addr ec w))
    | internal_ec =>
      (true,
       set_ec_slot a {| value_ec.context_ := value_ec.context_ v;
                        value_ec.ready_ := ready;
                        value_ec.ec_ := ec;
                        value_ec.value_ := args |} w)
    end
  else
    (false,
     set_ec_slot a {| value_ec.context_ := value_ec.context_ v;
                      value_ec.ready_ := ready;
                      value_ec.ec_ := value_ec.ec_ v;
                      value_ec.value_ := value_ec.value_ v |} w).

(** [caller::operator()] on a slot with error code. *)
Definition call_ec (c : caller) (ec : Z) (args : T) (w : world) : result unit * world :=
  match value_ptr_ c with
  | None => (Throw (logic_error "Incorrect coroutine caller: Value not bound"), w)
  | Some a =>
    let '(resumes, w1) := set_ec a ec args w in
    if resumes then (Ok tt, continue_ w1) else (Ok tt, w1)
  end.

(** The tail of [value<error_code, T...>::get()]: the internal error
    code is looked at, never the external one. *)
Definition get_ec_finish (v : value_ec.t T) : get_outcome T :=
  if negb (value_ec.ec_ v =? 0)%Z then raised (system_error (value_ec.ec_ v))
  else got (value_ec.value_ v).

(** [value<error_code, T...>::get()] up to its return or its [yield_()]. *)
Definition get_ec (a : nat) (w : world) : get_outcome T * world :=
  let v := ec_slots w a in
  let ready := S (value_ec.ready_ v) in
  let v1 := {| value_ec.context_ := value_ec.context_ v; value_ec.ready_ := ready;
               value_ec.ec_ := value_ec.ec_ v; value_ec.value_ := value_ec.value_ v |} in
  let w1 := set_ec_slot a v1 w in
  if negb (ready =? 2) then
    if alive (value_ec.context_ v) then (parked, park w1)
    else (raised coroutine_expired, w1)
  else (get_ec_finish v1, w1).

(** The rest of it after the coroutine has been resumed. *)
Definition get_ec_resumed (a : nat) (w : world) : get_outcome T :=
  get_ec_finish (ec_slots w a).

(** [async_result<caller<error_code, T...>>]: the slot is built at
    address [a] from [c.get_context()], and the caller is bound to it. *)
Definition async_result_ec (c : caller) (a : nat) (init : T) (w : world)
    : caller * world :=
  (bind_value a c, set_ec_slot a (value_ec.make (get_context c) init) w).

End World.
Arguments world T : clear implicits.

(** A world with fresh slots everywhere, made from [context]. *)
Definition fresh_world {T} (context : coroutine_context) (init : T) : world T :=
  {| slots := fun _ => value.make context init;
     ec_slots := fun _ => value_ec.make context init;
     error_codes := fun _ => 0%Z;
     posted := 0;
     suspended := false |}.

End coroutine.

(** ** [join()] *)

(** Whether the thread function of a thread of node [id] returns without
    the state [stopping]: [worker_run_] returns at once when the worker has
    no queue, and otherwise goes round its loop for as long as it does not
    read [stopping]. With no round to read, it is seen which of the two. *)
Definition returns_at_once (c : async_core) (id : nat) (w : thread) : bool :=
  match fst (worker_run_ c id (thread_parameters w) []) with
  | returned => true
  | _ => false
  end.

(** Every thread held by a node has returned. *)
Definition threads_have_returned (c : async_core) : bool :=
  forallb (fun b : bool => b)
    (imap (fun id n => forallb (returns_at_once c id) (workers_ n)) (nodes_ c)).

(** [join()]: [if (state_ != state::running || !join_workers_()) throw].
    In [join_workers_] the call [worker.join()] returns when the thread
    function has returned. The state is [running] and nothing in [join()]
    changes it before the joins, so that a thread in its loop stays there
    until another thread calls [stop()]: with such a thread held, the call
    does not return, and nothing follows it among calls made one after the
    other; the record is then left as the call found it. *)
Definition join (c : async_core) : result unit * async_core :=
  if negb (state_eqb (state_ c) running) then
    (Throw (invalid_argument "Core is not joinable"), c)
  else if negb (joined_ c) && negb (threads_have_returned c) then
    (OutOfFuel, c)
  else
    match join_workers_ c with
    | (true, c1) => (Ok tt, c1)
    | (false, c1) => (Throw (invalid_argument "Core is not joinable"), c1)
    end.

(** ** Sequences of calls on one scheduler *)

Inductive op : Type := op_start | op_stop | op_join | op_dtor.

Definition run_op (h : host) (o : op) (c : async_core) : result unit * async_core :=
  match o with
  | op_start => start h c
  | op_stop => stop c
  | op_join => join c
  | op_dtor => dtor c
  end.

(** The calls one after the other, from one thread. A call that throws
    leaves an object that can be called again; nothing is called on a
    destroyed object, and after undefined behaviour, or a call that does
    not return, nothing more is run. *)
Fixpoint run_ops (h : host) (ops : list op) (c : async_core) : async_core :=
  match ops with
  | [] => c
  | op_dtor :: _ => snd (dtor c)
  | o :: rest =>
    match run_op h o c with
    | (Ok _, c1) => run_ops h rest c1
    | (Throw _, c1) => run_ops h rest c1
    | (_, c1) => c1
    end
  end.

(** The stores to [state_] among some events, as pairs (old, new). *)
Fixpoint transitions (evs : list event) : list (state * state) :=
  match evs with
  | [] => []
  | ev_state a b :: rest => (a, b) :: transitions rest
  | _ :: rest => transitions rest
  end.

(** The transitions the description of the state variable lists. *)
Definition legal_transition (t : state * state) : bool :=
  match t with
  | (idle, starting) | (starting, running) | (starting, idle)
  | (running, stopping) | (stopping, idle) => true
  | _ => false
  end.

(** The transitions the operations perform when they are called one after
    the other: the listed ones, and three more, because [start] and [stop]
    store without looking at the state and [join] stores [idle] itself. *)
Definition performed_transition (t : state * state) : bool :=
  legal_transition t ||
  match t with
  | (idle, stopping) | (running, starting) | (running, idle) => true
  | _ => false
  end.

(** A root without worker slots. *)
Definition one_node_tree_no_worker : context_tree.t :=
  [ {| context_tree.parent_id_ := 0;
       context_tree.children_count_ := 0;
       context_tree.worker_parameters_ := [];
       context_tree.concurrency_hint_ := None;
       context_tree.enabled_ := true |} ].

(** The scheduler made from it without starting it. *)
Definition idle_root : async_core :=
  {| state_ := idle;
     nodes_ := new_node <$> one_node_tree_no_worker;
     exception_handler_ := None;
     joined_ := false;
     trace_ := [ev_construct 0] |}.

(** [quiet c c']: from [c] to [c'] the state and the [joined_] flag are
    the same and the events in between hold no store to the state. *)
Definition quiet (c c' : async_core) : Prop :=
  state_ c' = state_ c /\ joined_ c' = joined_ c /\
  exception_handler_ c' = exception_handler_ c /\
  exists evs, trace_ c' = trace_ c ++ evs /\ transitions evs = [].

(** What holds of a scheduler between two calls. *)
Definition at_rest (c : async_core) : Prop :=
  (state_ c = idle \/ state_ c = running) /\ joined_ c = false /\
  Forall (fun t => performed_transition t = true) (transitions (trace_ c)).

(** ** The tree a node array stands for *)

(** The parent of node [i] in the tree. *)
Definition parent_of (t : context_tree.t) (i : nat) : nat :=
  default 0 (context_tree.parent_id_ <$> t !! i).

(** The children of [p] among the first [k] nodes, by increasing id: the
    nodes other than [p] whose parent is [p]. *)
Definition children_upto (t : context_tree.t) (k p : nat) : list nat :=
  filter (fun i => parent_of t i = p /\ i <> p) (seq 0 k).

Definition children_of (t : context_tree.t) (p : nat) : list nat :=
  children_upto t (length t) p.

(** Node [n] of the array is what the constructor makes of descriptor [d]
    once the first [k] nodes are linked. *)
Definition node_realizes (t : context_tree.t) (k p : nat) (d : context_tree.node)
    (n : node) : Prop :=
  children_ptrs_ n = children_upto t k p /\
  worker_parameters_ n = context_tree.worker_parameters_ d /\
  enabled_ n = context_tree.enabled_ d /\
  workers_ n = [] /\
  work_guard_ n = false.

(** The array holds the nodes of the tree, each with its children in the
    order in which they were added. *)
Definition realizes (t : context_tree.t) (arr : list node) : Prop :=
  length arr = length t /\
  forall p d, t !! p = Some d ->
    exists n, arr !! p = Some n /\ node_realizes t (length t) p d n.

(** The array is linked like the tree: node [p] points to the children
    of [p], in the order in which they were added. This is what is left of
    [realizes] once threads run. *)
Definition linked (t : context_tree.t) (arr : list node) : Prop :=
  children_ptrs_ <$> arr = children_of t <$> seq 0 (length t).

(** ** The ordering of the nodes *)

(** [x] comes before [y] in [l]. *)
Definition before (l : list nat) (x y : nat) : Prop :=
  exists i j, l !! i = Some x /\ l !! j = Some y /\ i < j.

(** [d] is below [a] in the tree: [a] is the parent of [d], or is above
    the parent of [d]. The root (node 0, its own parent) is below nothing. *)
Inductive descendant (t : context_tree.t) : nat -> nat -> Prop :=
| descendant_child d :
    0 < d -> d < length t -> descendant t (parent_of t d) d
| descendant_below a d :
    0 < d -> d < length t -> descendant t a (parent_of t d) -> descendant t a d.

(** The bookkeeping of [order_nodes_]: the vector [visited] says of every
    node whether it is in [ordered]. *)
Definition visited_agrees (size_ : nat) (visited : list bool) (ordered : list nat) : Prop :=
  length visited = size_ /\
  forall c, c < size_ -> visited !! c = Some (bool_decide (c ∈ ordered)).

(** What the loop of [order_nodes_] keeps true, [it] being the position of
    its iterator: no node twice, the root first, only nodes of the tree, and
    after the root the children of the nodes before the iterator, list after
    list; every node but the first has its parent before it and before the
    iterator. *)
Definition order_invariant (t : context_tree.t) (ordered : list nat) (it : nat) : Prop :=
  NoDup ordered /\
  ordered !! 0 = Some 0 /\
  (forall x, x ∈ ordered -> x < length t) /\
  it <= length ordered /\
  ordered = [0] ++ (take it ordered ≫= children_of t) /\
  (forall k x, ordered !! k = Some x -> 0 < k ->
     exists j, j < k /\ j < it /\ ordered !! j = Some (parent_of t x)).

(** The events of [start_workers_] for one node, and for a list of nodes:
    the pin, then one launch per worker slot. *)
Definition worker_slots (nodes : list node) (id : nat) : nat :=
  from_option (fun n => length (worker_parameters_ n)) 0 (nodes !! id).

Definition node_start_events (nodes : list node) (id : nat) : list event :=
  ev_pin id :: (ev_launch id <$> seq 0 (worker_slots nodes id)).

Definition start_events (nodes : list node) (ids : list nat) : list event :=
  ids ≫= node_start_events nodes.

(** The worker parameters of the nodes, which nothing in [start] changes. *)
Definition worker_parameters_of (c : async_core) : list (list parameters) :=
  worker_parameters_ <$> nodes_ c.

(** ** Reading the trace of a worker *)

Definition is_poll_action (a : action) : bool :=
  match a with
  | act_poll _ _ => true
  | _ => false
  end.

Definition is_delay_action (a : action) : bool :=
  match a with
  | act_yield | act_sleep _ => true
  | _ => false
  end.

(** The rounds before the first one in which the worker reads [stopping]. *)
Fixpoint live_rounds (rounds : list round) : list round :=
  match rounds with
  | [] => []
  | r :: rest =>
    if state_eqb (seen_state r) stopping then [] else r :: live_rounds rest
  end.

(** What the loop of [worker_get_child_contexts_to_run_] keeps true for
    the worker of node [n0]: no node is met twice, and every node met is
    below [n0], as a child of [n0] or of a node that was popped. *)
Definition collect_invariant (t : context_tree.t) (n0 : nat)
    (popped nodes_queue_ : list nat) : Prop :=
  NoDup (popped ++ nodes_queue_) /\
  forall x, x ∈ popped ++ nodes_queue_ ->
    n0 < x /\ x < length t /\ (parent_of t x = n0 \/ parent_of t x ∈ popped).

(** ** Sample inputs *)

(** A root with one worker slot, and a record with every field out of
    range. *)
Definition one_node_tree : context_tree.t :=
  [ {| context_tree.parent_id_ := 0;
       context_tree.children_count_ := 0;
       context_tree.worker_parameters_ := [default_parameters];
       context_tree.concurrency_hint_ := None;
       context_tree.enabled_ := true |} ].

Definition wild_parameters : parameters :=
  {| self_poll_policy := 7; children_poll_policy := (-1);
     delay_rounds := 0; delay_policy := 42; delay_value := 5 |}.

(** A round in which the task run on io_context 0 throws a
    [std::runtime_error], and one in which it throws an [int]. *)
Definition round_throwing (e : exn) : round :=
  {| seen_state := running;
     poll_outcome := fun _ _ => Throw e;
     stopped_after := fun _ => false |}.

Definition quiet_sink : exception_handler_type := Some (fun _ => None).


(** A root with two children, each node with one worker slot, and a host
    on which the construction of node 2 throws. *)
Definition three_node_tree : context_tree.t :=
  [ {| context_tree.parent_id_ := 0; context_tree.children_count_ := 2;
       context_tree.worker_parameters_ := [default_parameters];
       context_tree.concurrency_hint_ := None; context_tree.enabled_ := true |};
    {| context_tree.parent_id_ := 0; context_tree.children_count_ := 0;
       context_tree.worker_parameters_ := [default_parameters];
       context_tree.concurrency_hint_ := None; context_tree.enabled_ := true |};
    {| context_tree.parent_id_ := 0; context_tree.children_count_ := 0;
       context_tree.worker_parameters_ := [default_parameters];
       context_tree.concurrency_hint_ := None; context_tree.enabled_ := true |} ].

Definition failing_host : host :=
  {| node_ctor_throws := fun i => if i =? 2 then Some (std_exception "bad_alloc") else None;
     thread_ctor_throws := fun _ _ => None |}.

(** A root with the children 1 and 3, and node 2 under node 1. Node 3 has
    two worker slots, the others one. *)
Definition four_node_tree : context_tree.t :=
  [ {| context_tree.parent_id_ := 0; context_tree.children_count_ := 2;
       context_tree.worker_parameters_ := [default_parameters];
       context_tree.concurrency_hint_ := None; context_tree.enabled_ := true |};
    {| context_tree.parent_id_ := 0; context_tree.children_count_ := 1;
       context_tree.worker_parameters_ := [default_parameters];
       context_tree.concurrency_hint_ := None; context_tree.enabled_ := true |};
    {| context_tree.parent_id_ := 1; context_tree.children_count_ := 0;
       context_tree.worker_parameters_ := [default_parameters];
       context_tree.concurrency_hint_ := None; context_tree.enabled_ := true |};
    {| context_tree.parent_id_ := 0; context_tree.children_count_ := 0;
       context_tree.worker_parameters_ := [default_parameters; default_parameters];
       context_tree.concurrency_hint_ := None; context_tree.enabled_ := true |} ].

(** The scheduler made from [four_node_tree] without starting it. *)
Definition four_node_core : async_core :=
  {| state_ := idle;
     nodes_ :=
       [ {| children_ptrs_ := [1; 3]; workers_ := []; work_guard_ := false;
            worker_parameters_ := [default_parameters];
            enabled_ := true; io_stopped_ := false |};
         {| children_ptrs_ := [2]; workers_ := []; work_guard_ := false;
            worker_parameters_ := [default_parameters];
            enabled_ := true; io_stopped_ := false |};
         {| children_ptrs_ := []; workers_ := []; work_guard_ := false;
            worker_parameters_ := [default_parameters];
            enabled_ := true; io_stopped_ := false |};
         {| children_ptrs_ := []; workers_ := []; work_guard_ := false;
            worker_parameters_ := [default_parameters; default_parameters];
            enabled_ := true; io_stopped_ := false |} ];
     exception_handler_ := None;
     joined_ := false;
     trace_ := [ev_construct 0; ev_construct 1; ev_construct 2; ev_construct 3] |}.

(** A round in which the scheduler is seen in state [s], every call runs
    one handler, and the io_context is stopped afterwards or not. *)
Definition busy_round (s : state) (stopped : bool) : round :=
  {| seen_state := s;
     poll_outcome := fun _ _ => Ok 1;
     stopped_after := fun _ => stopped |}.

(** ** The tree builder as a sequence of calls *)

(** The public calls of [context_tree]. *)
Inductive tree_call : Type :=
| call_add_context (parent_id workers_count : nat) (enabled : bool)
    (concurrency_hint : option Z)
| call_set_worker_parameters (context_id worker : nat) (params : parameters)
| call_add_worker (context_id : nat) (params : parameters)
| call_add_worker_default (context_id : nat).

(** One call on a tree. Each of them throws, if it does, before it writes,
    so that the tree is then as it was. *)
Definition run_tree_call (nodes_ : context_tree.t) (c : tree_call) : context_tree.t :=
  match c with
  | call_add_context parent_id workers_count enabled concurrency_hint =>
    match context_tree.add_context_ nodes_ parent_id workers_count enabled
            concurrency_hint with
    | Ok (nodes', _) => nodes'
    | _ => nodes_
    end
  | call_set_worker_parameters context_id worker params =>
    match context_tree.set_worker_parameters nodes_ context_id worker params with
    | Ok nodes' => nodes'
    | _ => nodes_
    end
  | call_add_worker context_id params =>
    match context_tree.add_worker nodes_ context_id params with
    | Ok (nodes', _) => nodes'
    | _ => nodes_
    end
  | call_add_worker_default context_id =>
    match context_tree.add_worker_default nodes_ context_id with
    | Ok (nodes', _) => nodes'
    | _ => nodes_
    end
  end.

(** The tree a program gets from a default-constructed [context_tree] by
    these calls. *)
Definition build_tree (calls : list tree_call) : context_tree.t :=
  foldl run_tree_call context_tree.empty calls.

(** The counter of every node is the number of its children. *)
Definition counted (nodes_ : context_tree.t) : Prop :=
  forall p n, nodes_ !! p = Some n ->
    context_tree.children_count_ n = length (children_of nodes_ p).

(** Every field of the record is a value its type names, and the number
    of rounds is positive. *)
Definition in_range (p : parameters) : bool :=
  is_poll (self_poll_policy p) && is_poll (children_poll_policy p) &&
  (1 <=? delay_rounds p) && is_delay (delay_policy p).

Definition all_in_range (nodes_ : context_tree.t) : Prop :=
  forall id slot p, context_tree.stored nodes_ id slot = Some p -> in_range p = true.

(** The three properties together. *)
Definition well_formed (nodes_ : context_tree.t) : Prop :=
  context_tree.topological nodes_ /\ counted nodes_ /\ all_in_range nodes_.

(** ** More of the interface of the scheduler *)

(** [joinable()]. *)
Definition joinable (c : async_core) : bool :=
  state_eqb (state_ c) running && negb (joined_ c).

(** [get_io_context(context_id)]: [nodes_.at(context_id).io_context_]. The
    io_context is named by the index of its node. *)
Definition get_io_context (c : async_core) (context_id : nat) : result nat :=
  let* _ := node_array.at_ (length (nodes_ c)) (nodes_ c) context_id in
  Ok context_id.

(** ** Threads launched, threads joined *)

(** The threads the inner loop of [start_workers_] makes from the slots
    of a node, the first of them being slot [slot]. *)
Definition threads_from (slot : nat) (params : list parameters) : list thread :=
  imap (fun i p => mk_thread (slot + i) p) params.

(** A node after [start_workers_] has been at it: pinned, one more thread
    per slot. *)
Definition started (n : node) : node :=
  set_workers (workers_ n ++ threads_from 0 (worker_parameters_ n)) (set_guard true n).

(** A node after [stop_workers_] and [join_workers_]. *)
Definition stopped (n : node) : node :=
  set_workers [] (set_io_stopped (set_guard false n)).

(** The slots of the threads launched for node [id] among some events, and
    of those joined, in the order of the events. *)
Fixpoint launched_slots (id : nat) (evs : list event) : list nat :=
  match evs with
  | [] => []
  | ev_launch i slot :: rest =>
    if i =? id then slot :: launched_slots id rest else launched_slots id rest
  | _ :: rest => launched_slots id rest
  end.

Fixpoint joined_slots (id : nat) (evs : list event) : list nat :=
  match evs with
  | [] => []
  | ev_join_thread i slot :: rest =>
    if i =? id then slot :: joined_slots id rest else joined_slots id rest
  | _ :: rest => joined_slots id rest
  end.

(** The slots of the threads node [id] holds in [workers_]. *)
Definition pending (c : async_core) (id : nat) : list nat :=
  from_option (fun n => thread_slot <$> workers_ n) [] (nodes_ c !! id).

(** Every thread launched so far has been joined or is held by its node;
    nothing else has been joined. *)
Definition accounted (c : async_core) : Prop :=
  forall id, launched_slots id (trace_ c) = joined_slots id (trace_ c) ++ pending c id.

(** The events [stop_workers_] and [join_workers_] add for an array. *)
Definition stop_events (nodes : list node) : list event :=
  (ev_unpin <$> seq 0 (length nodes)) ++ (ev_stop_context <$> seq 0 (length nodes)).

Definition all_join_events (nodes : list node) : list event :=
  mjoin (imap join_events nodes).

Definition is_destroy (e : event) : bool :=
  match e with
  | ev_destroy _ => true
  | _ => false
  end.

(** From [c] to [c'] threads were launched and none was joined: the new
    events hold the launches of the threads the nodes hold in addition, and
    no join. *)
Definition launches (c c' : async_core) : Prop :=
  exists evs,
    trace_ c' = trace_ c ++ evs /\
    length (nodes_ c') = length (nodes_ c) /\
    (forall i, pending c' i = pending c i ++ launched_slots i evs) /\
    (forall i, joined_slots i evs = []).

(** What holds of a scheduler of [size] nodes between two calls made one
    after the other. *)
Definition sound (size : nat) (c : async_core) : Prop :=
  accounted c /\ joined_ c = false /\ length (nodes_ c) = size.

(** The events of [stop()] on a scheduler with nodes. *)
Definition stop_trace (c : async_core) : list event :=
  [ev_lock stop_mutex_; ev_state (state_ c) stopping]
  ++ stop_events (nodes_ c)
  ++ [ev_lock join_mutex_]
  ++ all_join_events (nodes_ c)
  ++ [ev_state stopping idle; ev_unlock join_mutex_; ev_unlock stop_mutex_].

(** A host on which the thread of slot 0 of node 1 cannot be launched. *)
Definition thread_failing_host : host :=
  {| node_ctor_throws := fun _ => None;
     thread_ctor_throws := fun id slot =>
       if (id =? 1) && (slot =? 0) then Some (system_error 11) else None |}.

(** ** More on the worker *)

(** The flag [enabled_] of the node a pointer points to. *)
Definition enabled_at (nodes : list node) (x : nat) : bool :=
  from_option enabled_ false (nodes !! x).

(** What the loop of [worker_get_child_contexts_to_run_] keeps true
    besides [collect_invariant]: the children of [n0] and of every node
    popped have been met. *)
Definition collect_complete (t : context_tree.t) (n0 : nat)
    (popped nodes_queue_ : list nat) : Prop :=
  (forall c, c ∈ children_of t n0 -> c ∈ popped ++ nodes_queue_) /\
  (forall p c, p ∈ popped -> c ∈ children_of t p -> c ∈ popped ++ nodes_queue_).

(** The calls one pass of [worker_run_multiple_] makes when nothing is
    thrown: the self poll, if there is one, then every child in the order
    of the vector. *)
Definition pass_polls (self_poll_method : option (nat * poll_method))
    (children_poll_method : option poll_method) (child_context_ptrs : list nat)
    : list action :=
  match self_poll_method with
  | Some (self, m) => [act_poll self m]
  | None => []
  end ++
  match children_poll_method with
  | Some m => (fun child => act_poll child m) <$> child_context_ptrs
  | None => []
  end.

(** The number of handlers a call has run; 0 when it has not returned. *)
Definition executed_by (r : result nat) : nat :=
  match r with
  | Ok n => n
  | _ => 0
  end.

(** A tree made by four calls, one of which throws. *)
Definition sample_calls : list tree_call :=
  [ call_add_context 0 1 true None;
    call_add_context 0 2 false None;
    call_add_context 7 1 true None;
    call_add_context 1 0 true (Some 2%Z);
    call_add_worker 1 wild_parameters ].

(** The node array the constructor makes of the tree of [sample_calls]. *)
Definition sample_nodes : list node :=
  match fst (node_array.ctor calm_host (build_tree sample_calls)) with
  | Ok arr => arr
  | _ => []
  end.

(** A round in which nothing is ready on any io_context. *)
Definition idle_round (s : state) : round :=
  {| seen_state := s;
     poll_outcome := fun _ _ => Ok 0;
     stopped_after := fun _ => false |}.

(** The two member pointers [worker_run_multiple_] computes before its
    loop. *)
Definition self_poll_method_of (params : parameters) (self_context_ptr : option nat)
    : option (nat * poll_method) :=
  match self_context_ptr with
  | None => None
  | Some self =>
    match worker_get_poll_method_ (self_poll_policy params) with
    | Some m => Some (self, m)
    | None => None
    end
  end.

Definition children_poll_method_of (params : parameters) : option poll_method :=
  worker_get_poll_method_ (children_poll_policy params).

(** ** The shared state of a future and a promise *)

Module future.

(** The two [std::future_errc] values the header throws. *)
Inductive future_errc : Type := promise_already_satisfied | no_state.

(** What a call on a shared state, a future or a promise throws: a
    [std::future_error], or the exception the state holds. *)
Inductive thrown : Type :=
| future_error (code : future_errc)
| rethrown (e : exn).

(** What such a call comes to. *)
Inductive answer (A : Type) : Type :=
| done (a : A)          (* the call returns *)
| threw (t : thrown)    (* the call throws *)
| blocks                (* the call waits on [ready_condition_] *)
| undefined_.           (* [boost::optional::get] on an empty optional *)
Arguments done {A} a.
Arguments threw {A} t.
Arguments blocks {A}.
Arguments undefined_ {A}.

(** [coroutine_future_state<T>]. Handlers are named by numbers. The
    handlers the state has posted to its io_context are kept in a ghost
    field, oldest first. A [std::exception_ptr] may be null. *)
Record coroutine_future_state (T : Type) : Type := mk_state {
  handlers_ : list nat;
  ready_ : bool;
  value_ : option T;
  exception_ptr_ : option exn;
  posted_ : list nat
}.
Arguments mk_state {T}.
Arguments handlers_ {T}.
Arguments ready_ {T}.
Arguments value_ {T}.
Arguments exception_ptr_ {T}.
Arguments posted_ {T}.

(** The constructor. *)
Definition make_state {T} : coroutine_future_state T :=
  {| handlers_ := []; ready_ := false; value_ := None; exception_ptr_ := None;
     posted_ := [] |}.

Definition ready {T} (s : coroutine_future_state T) : bool := ready_ s.

(** [notify_ready_]: the flag, then every queued handler is posted and
    the vector is cleared. *)
Definition notify_ready_ {T} (s : coroutine_future_state T) : coroutine_future_state T :=
  {| handlers_ := []; ready_ := true; value_ := value_ s;
     exception_ptr_ := exception_ptr_ s; posted_ := posted_ s ++ handlers_ s |}.

Definition set_value {T} (value : T) (s : coroutine_future_state T)
    : answer unit * coroutine_future_state T :=
  if ready s then (threw (future_error promise_already_satisfied), s)
  else
    (done tt,
     notify_ready_ {| handlers_ := handlers_ s; ready_ := ready_ s; value_ := Some value;
                      exception_ptr_ := exception_ptr_ s; posted_ := posted_ s |}).

Definition set_exception {T} (exception_ptr : option exn) (s : coroutine_future_state T)
    : answer unit * coroutine_future_state T :=
  if ready s then (threw (future_error promise_already_satisfied), s)
  else
    (done tt,
     notify_ready_ {| handlers_ := handlers_ s; ready_ := ready_ s; value_ := value_ s;
                      exception_ptr_ := exception_ptr; posted_ := posted_ s |}).

(** [wait()] returns once the state is ready. *)
Definition wait {T} (s : coroutine_future_state T) : answer unit :=
  if ready_ s then done tt else blocks.

(** [get()]: [wait()], then the exception if there is one, else a copy of
    the value. *)
Definition get {T} (s : coroutine_future_state T) : answer T :=
  match wait s with
  | done _ =>
    match exception_ptr_ s with
    | Some e => threw (rethrown e)
    | None =>
      match value_ s with
      | Some v => done v
      | None => undefined_
      end
    end
  | threw t => threw t
  | blocks => blocks
  | undefined_ => undefined_
  end.

(** [async_wait(handler)]: posted at once when the state is ready, queued
    otherwise. *)
Definition async_wait {T} (handler : nat) (s : coroutine_future_state T)
    : coroutine_future_state T :=
  if ready s then
    {| handlers_ := handlers_ s; ready_ := ready_ s; value_ := value_ s;
       exception_ptr_ := exception_ptr_ s; posted_ := posted_ s ++ [handler] |}
  else
    {| handlers_ := handlers_ s ++ [handler]; ready_ := ready_ s; value_ := value_ s;
       exception_ptr_ := exception_ptr_ s; posted_ := posted_ s |}.

(** The calls a program makes on one shared state. *)
Inductive call (T : Type) : Type :=
| call_set_value (value : T)
| call_set_exception (exception_ptr : option exn)
| call_async_wait (handler : nat)
| call_get.
Arguments call_set_value {T} value.
Arguments call_set_exception {T} exception_ptr.
Arguments call_async_wait {T} handler.
Arguments call_get {T}.

Definition run_call {T} (c : call T) (s : coroutine_future_state T)
    : coroutine_future_state T :=
  match c with
  | call_set_value value => snd (set_value value s)
  | call_set_exception exception_ptr => snd (set_exception exception_ptr s)
  | call_async_wait handler => async_wait handler s
  | call_get => s
  end.

(** The calls one after the other, on a state just made. *)
Definition run_calls {T} (calls : list (call T)) : coroutine_future_state T :=
  foldl (fun s c => run_call c s) make_state calls.

(** The handlers given to [async_wait] among some calls, in order. *)
Fixpoint waiters {T} (calls : list (call T)) : list nat :=
  match calls with
  | [] => []
  | call_async_wait handler :: rest => handler :: waiters rest
  | _ :: rest => waiters rest
  end.

(** What [get()] answers once the first of the two setters among some
    calls has run, and [blocks] when there is none. *)
Fixpoint first_set {T} (calls : list (call T)) : answer T :=
  match calls with
  | [] => blocks
  | call_set_value value :: _ => done value
  | call_set_exception (Some e) :: _ => threw (rethrown e)
  | call_set_exception None :: _ => undefined_
  | _ :: rest => first_set rest
  end.

(** *** [coroutine_future<T>] and [coroutine_promise<T>] *)

(** Both hold a shared pointer to a state; states live at addresses. *)
Record coroutine_future : Type := mk_future { future_state_ptr_ : option nat }.
Record coroutine_promise : Type := mk_promise { promise_state_ptr_ : option nat }.

Definition heap (T : Type) : Type := nat -> coroutine_future_state T.

(** [coroutine_promise(io_context)]: [make_shared] gives a state at an
    address of its choice. *)
Definition new_promise {T} (address : nat) (h : heap T) : coroutine_promise * heap T :=
  (mk_promise (Some address), <[address := make_state]> h).

(** [coroutine_future(io_context)]: no state. *)
Definition new_future : coroutine_future := mk_future None.

(** The move constructors: the new object, and what is left of the old
    one. *)
Definition move_promise (p : coroutine_promise) : coroutine_promise * coroutine_promise :=
  (mk_promise (promise_state_ptr_ p), mk_promise None).

Definition move_future (f : coroutine_future) : coroutine_future * coroutine_future :=
  (mk_future (future_state_ptr_ f), mk_future None).

Definition get_future (p : coroutine_promise) : coroutine_future :=
  mk_future (promise_state_ptr_ p).

Definition promise_set_value {T} (p : coroutine_promise) (value : T) (h : heap T)
    : answer unit * heap T :=
  match promise_state_ptr_ p with
  | Some a => let '(r, s) := set_value value (h a) in (r, <[a := s]> h)
  | None => (threw (future_error no_state), h)
  end.

Definition promise_set_exception {T} (p : coroutine_promise) (exception_ptr : option exn)
    (h : heap T) : answer unit * heap T :=
  match promise_state_ptr_ p with
  | Some a => let '(r, s) := set_exception exception_ptr (h a) in (r, <[a := s]> h)
  | None => (threw (future_error no_state), h)
  end.

Definition future_valid (f : coroutine_future) : bool :=
  match future_state_ptr_ f with
  | Some _ => true
  | None => false
  end.

Definition future_ready {T} (f : coroutine_future) (h : heap T) : answer bool :=
  match future_state_ptr_ f with
  | Some a => done (ready (h a))
  | None => threw (future_error no_state)
  end.

Definition future_get {T} (f : coroutine_future) (h : heap T) : answer T :=
  match future_state_ptr_ f with
  | Some a => get (h a)
  | None => threw (future_error no_state)
  end.

Definition future_wait {T} (f : coroutine_future) (h : heap T) : answer unit :=
  match future_state_ptr_ f with
  | Some a => wait (h a)
  | None => threw (future_error no_state)
  end.

Definition future_async_wait {T} (f : coroutine_future) (handler : nat) (h : heap T)
    : answer unit * heap T :=
  match future_state_ptr_ f with
  | Some a => (done tt, <[a := async_wait handler (h a)]> h)
  | None => (threw (future_error no_state), h)
  end.

End future.

(** ** The coroutine record, [spawn], [spawn_with_future] *)

Module coro.

(** What is posted to the io_context: a [primitive_caller] of the
    coroutine; a [caller] of the coroutine, bound to the slot at which the
    coroutine waits, which posts a [primitive_caller] when it is run; or a
    handler that has nothing to do with the coroutine. *)
Inductive handler : Type :=
| h_resume
| h_caller
| h_other.

(** What the function of the coroutine does, as far as the record can
    tell: it returns, it throws, or it posts some handlers, calls
    [coro_yield] and goes on when it is resumed. *)
Inductive body (T : Type) : Type :=
| body_return (v : T)
| body_throw (e : exn)
| body_yield (posts : list handler) (rest : body T).
Arguments body_return {T} v.
Arguments body_throw {T} e.
Arguments body_yield {T} posts rest.

(** How a call that switches into the coroutine ends. *)
Inductive call_result : Type :=
| call_returns
| call_throws (e : exn)
| call_terminates.      (* an exception left the context function: [std::terminate] *)

(** A [std::future_error], as an exception object. *)
Definition future_error_object : exn := logic_error "std::future_error".

(** [coro_data], with the io_context its strand posts to and, for
    [spawn_with_future], the shared state of the promise the lambda holds.
    The continuation [coro_caller_] is what is left of the function; [None]
    is a continuation that is not valid. *)
Record world (T : Type) : Type := mk_world {
  coro_caller_ : option (body T);
  exception_ptr_ : option exn;
  with_future_ : bool;
  result_state_ : future.coroutine_future_state T;
  queue_ : list handler
}.
Arguments mk_world {T}.
Arguments coro_caller_ {T}.
Arguments exception_ptr_ {T}.
Arguments with_future_ {T}.
Arguments result_state_ {T}.
Arguments queue_ {T}.

(** The end of the function given to [callcc]: the user's function for
    [spawn], the lambda for [spawn_with_future], which stores the result or
    the [std::exception] into the promise. The exception that leaves it, if
    any, and the shared state afterwards. *)
Definition function_ends {T} (with_future : bool) (ending : T + exn)
    (s : future.coroutine_future_state T) : option exn * future.coroutine_future_state T :=
  if with_future then
    match ending with
    | inl v =>
      match future.set_value v s with
      | (future.done _, s1) => (None, s1)
      | (_, s1) =>
        (* [catch (const std::exception &)] *)
        match future.set_exception (Some future_error_object) s1 with
        | (future.done _, s2) => (None, s2)
        | (_, s2) => (Some future_error_object, s2)
        end
      end
    | inr e =>
      if is_std_exception e then
        match future.set_exception (Some e) s with
        | (future.done _, s1) => (None, s1)
        | (_, s1) => (Some future_error_object, s1)
        end
      else (Some e, s)
    end
  else
    match ending with
    | inl _ => (None, s)
    | inr e => (Some e, s)
    end.

(** The rest of [coro_call] when the function has come to its end:
    [wrap_fn] keeps a [std::exception] in [exception_ptr_] and returns, and
    [coro_call] rethrows what is kept. Any other exception leaves the
    context function. *)
Definition coro_ends {T} (w : world T) (ending : T + exn) : call_result * world T :=
  match function_ends (with_future_ w) ending (result_state_ w) with
  | (None, s) =>
    let w1 := {| coro_caller_ := None; exception_ptr_ := exception_ptr_ w;
                 with_future_ := with_future_ w; result_state_ := s;
                 queue_ := queue_ w |} in
    match exception_ptr_ w1 with
    | Some e => (call_throws e, w1)
    | None => (call_returns, w1)
    end
  | (Some e, s) =>
    if is_std_exception e then
      (call_throws e,
       {| coro_caller_ := None; exception_ptr_ := Some e;
          with_future_ := with_future_ w; result_state_ := s; queue_ := queue_ w |})
    else (call_terminates, w)
  end.

(** [coro_call]: [coroutine_expired] without a valid continuation;
    otherwise the coroutine runs up to its next [coro_yield] or to its end;
    then the exception kept, if there is one, is rethrown. *)
Definition coro_call {T} (w : world T) : call_result * world T :=
  match coro_caller_ w with
  | None => (call_throws coroutine_expired, w)
  | Some (body_yield posts rest) =>
    let w1 := {| coro_caller_ := Some rest; exception_ptr_ := exception_ptr_ w;
                 with_future_ := with_future_ w; result_state_ := result_state_ w;
                 queue_ := queue_ w ++ posts |} in
    match exception_ptr_ w1 with
    | Some e => (call_throws e, w1)
    | None => (call_returns, w1)
    end
  | Some (body_return v) => coro_ends w (inl v)
  | Some (body_throw e) => coro_ends w (inr e)
  end.

(** [coro_start], which is all of [continue_]: a [primitive_caller] is
    posted. *)
Definition coro_start {T} (w : world T) : world T :=
  {| coro_caller_ := coro_caller_ w; exception_ptr_ := exception_ptr_ w;
     with_future_ := with_future_ w; result_state_ := result_state_ w;
     queue_ := queue_ w ++ [h_resume] |}.

(** The constructor of [coro_data]: [callcc] enters the function, which
    yields at once (the false start), so that the continuation kept is the
    whole of the user's function. *)
Definition make_coro_data {T} (with_future : bool) (fn : body T) (queue : list handler)
    : world T :=
  {| coro_caller_ := Some fn; exception_ptr_ := None; with_future_ := with_future;
     result_state_ := future.make_state; queue_ := queue |}.

(** [spawn(io_context, fn, args...)]. *)
Definition spawn {T} (fn : body T) (queue : list handler) : world T :=
  coro_start (make_coro_data false fn queue).

(** [spawn_with_future(io_context, fn, args...)]: the promise and its
    future, then [spawn] with the lambda. *)
Definition spawn_with_future {T} (fn : body T) (queue : list handler) : world T :=
  coro_start (make_coro_data true fn queue).

(** [io_context::run_one_for]: the oldest handler is run, if there is one
    before the time is over. *)
Definition run_one_for {T} (w : world T) : call_result * world T :=
  match queue_ w with
  | [] => (call_returns, w)
  | h_resume :: rest =>
    coro_call {| coro_caller_ := coro_caller_ w; exception_ptr_ := exception_ptr_ w;
                 with_future_ := with_future_ w; result_state_ := result_state_ w;
                 queue_ := rest |}
  | h_caller :: rest =>
    (call_returns,
     {| coro_caller_ := coro_caller_ w; exception_ptr_ := exception_ptr_ w;
        with_future_ := with_future_ w; result_state_ := result_state_ w;
        queue_ := rest ++ [h_resume] |})
  | h_other :: rest =>
    (call_returns,
     {| coro_caller_ := coro_caller_ w; exception_ptr_ := exception_ptr_ w;
        with_future_ := with_future_ w; result_state_ := result_state_ w;
        queue_ := rest |})
  end.

(** How [run_until_complete] ends. *)
Inductive run_result (T : Type) : Type :=
| run_returns (w : world T)
| run_throws (e : exn) (w : world T)
| run_terminates
| run_out_of_fuel.
Arguments run_returns {T} w.
Arguments run_throws {T} e w.
Arguments run_terminates {T}.
Arguments run_out_of_fuel {T}.

(** [run_until_complete]: [while (!result_future.ready())
    io_context.run_one_for(...)]. One unit of fuel per pass. *)
Fixpoint run_until_complete {T} (fuel : nat) (w : world T) : run_result T :=
  if future.ready (result_state_ w) then run_returns w
  else
    match fuel with
    | 0 => run_out_of_fuel
    | S fuel' =>
      match run_one_for w with
      | (call_returns, w1) => run_until_complete fuel' w1
      | (call_throws e, w1) => run_throws e w1
      | (call_terminates, _) => run_terminates
      end
    end.

(** The number of times the function yields, and how it ends. *)
Fixpoint yields {T} (b : body T) : nat :=
  match b with
  | body_yield _ rest => S (yields rest)
  | _ => 0
  end.

Fixpoint ending {T} (b : body T) : T + exn :=
  match b with
  | body_return v => inl v
  | body_throw e => inr e
  | body_yield _ rest => ending rest
  end.

(** What is left of the function after [k] yields. *)
Fixpoint rest_after {T} (k : nat) (b : body T) : body T :=
  match k, b with
  | S k', body_yield _ rest => rest_after k' rest
  | _, _ => b
  end.

(** The handlers the function posts in its first [k] segments. *)
Fixpoint posted_by {T} (k : nat) (b : body T) : list handler :=
  match k, b with
  | S k', body_yield posts rest => posts ++ posted_by k' rest
  | _, _ => []
  end.

(** What [coro_call] answers at the end of a function that ends so, when
    nothing is kept in the promise of [spawn_with_future]. *)
Definition last_call {T} (with_future : bool) (e : T + exn) : call_result :=
  match e with
  | inl _ => call_returns
  | inr e =>
    if is_std_exception e then (if with_future then call_returns else call_throws e)
    else call_terminates
  end.

(** [coro_call] [n] times in a row, as long as it returns. *)
Fixpoint coro_calls {T} (n : nat) (w : world T) : call_result * world T :=
  match n with
  | 0 => (call_returns, w)
  | S k =>
    match coro_call w with
    | (call_returns, w1) => coro_calls k w1
    | r => r
    end
  end.

(** A function that, like [async_apply] of the tests, posts the handler
    of its operation to its own io_context before it yields; the handler
    resumes the coroutine when it is run. *)
Fixpoint posts_its_handler {T} (b : body T) : Prop :=
  match b with
  | body_yield posts rest => posts = [h_caller] /\ posts_its_handler rest
  | _ => True
  end.

End coro.

(** ** [context_group] *)

Module context_group.

(** [std::size_t] is taken to have 64 bits. *)
Definition size_max : N := 2 ^ 64.

Record t : Type := mk {
  index_ : N;
  contexts_ : list nat
}.

(** The loop of the constructor: a context is appended when the filter
    did not hold it yet. *)
Fixpoint ctor_loop (input : list nat) (contexts_filter : list nat) (contexts : list nat)
    : list nat :=
  match input with
  | [] => contexts
  | context :: rest =>
    if bool_decide (context ∈ contexts_filter) then ctor_loop rest contexts_filter contexts
    else ctor_loop rest (context :: contexts_filter) (contexts ++ [context])
  end.

Definition ctor (input : list nat) : t :=
  {| index_ := 0; contexts_ := ctor_loop input [] [] |}.

(** [index_.fetch_add(1)]. *)
Definition fetch_add (g : t) : N * t :=
  (index_ g, {| index_ := (index_ g + 1) mod size_max; contexts_ := contexts_ g |}).

(** [get_io_context()]. *)
Definition get_io_context (g : t) : result nat * t :=
  match contexts_ g with
  | [] => (Throw (out_of_range "Empty context group"), g)
  | _ :: _ =>
    let '(i, g1) := fetch_add g in
    (vector_at (contexts_ g) (N.to_nat (i mod N.of_nat (length (contexts_ g)))), g1)
  end.

Definition size (g : t) : nat := length (contexts_ g).

Definition empty (g : t) : bool := length (contexts_ g) =? 0.

(** [get_io_context()] [n] times in a row: the contexts returned, as long
    as it returns. *)
Fixpoint get_io_contexts (n : nat) (g : t) : list nat * t :=
  match n with
  | 0 => ([], g)
  | S k =>
    match get_io_context g with
    | (Ok context, g1) => let '(l, g2) := get_io_contexts k g1 in (context :: l, g2)
    | (_, g1) => ([], g1)
    end
  end.

End context_group.

(** ** The idle counter of the two worker loops *)

(** The head of a pass: [worker_delay_] when [wait_rounds] has reached
    [delay_rounds]. *)
Definition pass_delay (params : parameters) (wait_rounds : nat) : list action :=
  if delay_rounds params <=? wait_rounds then worker_delay_ params else [].

(** The value of [wait_rounds] at the end of the pass: set back to 0 by
    the delay, and incremented when the pass ended idle. *)
Definition next_wait_rounds (params : parameters) (wait_rounds : nat) (idle : bool) : nat :=
  let wait_rounds1 := if delay_rounds params <=? wait_rounds then 0 else wait_rounds in
  if idle then S wait_rounds1 else wait_rounds1.

(** The two halves of a pass of [worker_run_multiple_]. *)
Definition poll_self (exception_handler : exception_handler_type) (r : round)
    (self_poll_method : option (nat * poll_method)) : result nat * list action :=
  match self_poll_method with
  | Some (self, m) => worker_poll_context_ exception_handler r self m
  | None => (Ok 0, [])
  end.

Definition poll_children (exception_handler : exception_handler_type) (r : round)
    (children_poll_method : option poll_method) (child_context_ptrs : list nat)
    : result nat * list action :=
  match children_poll_method with
  | Some m => worker_poll_contexts_ exception_handler r child_context_ptrs m
  | None => (Ok 0, [])
  end.

(** The counter without the loop. [idle] says of every pass whether it
    ended idle; [idle_passes idle k] of the first [k] passes did. *)
Definition idle_passes (idle : list bool) (k : nat) : nat :=
  length (List.filter (fun b : bool => b) (take k idle)).

(** [worker_delay_] is due at the head of pass [i] (from 0) when the pass
    before it ended idle and made the number of idle passes a multiple of
    [delay_rounds]. *)
Definition delay_due (delay_rounds : nat) (idle : list bool) (i : nat) : bool :=
  match i with
  | 0 => false
  | S j => default false (idle !! j) && (idle_passes idle i mod delay_rounds =? 0)
  end.

(** The value of [wait_rounds] at the head of pass [k]. *)
Definition wait_rounds_at (delay_rounds : nat) (idle : list bool) (k : nat) : nat :=
  if delay_due delay_rounds idle k then delay_rounds
  else idle_passes idle k mod delay_rounds.

(** What a loop does whose passes made the calls [polls] and ended idle
    as [idle] says: before the calls of a pass, the delay when it is due. *)
Definition passes_trace (params : parameters) (idle : list bool)
    (polls : list (list action)) : list action :=
  mjoin (imap (fun i a =>
                 (if delay_due (delay_rounds params) idle i
                  then worker_delay_ params else []) ++ a)
              polls).

(** Whether each pass of the two loops ended idle, and the calls it made. *)
Definition single_idle (context : nat) (r : round) : bool := stopped_after r context.

Definition single_polls (exception_handler : exception_handler_type) (context : nat)
    (r : round) : list action :=
  snd (worker_poll_context_ exception_handler r context m_run).

Definition multiple_idle (exception_handler : exception_handler_type)
    (self_poll_method : option (nat * poll_method))
    (children_poll_method : option poll_method) (child_context_ptrs : list nat)
    (r : round) : bool :=
  executed_by (fst (poll_self_and_children exception_handler r self_poll_method
                      children_poll_method child_context_ptrs)) =? 0.

Definition multiple_polls (exception_handler : exception_handler_type)
    (self_poll_method : option (nat * poll_method))
    (children_poll_method : option poll_method) (child_context_ptrs : list nat)
    (r : round) : list action :=
  snd (poll_self_and_children exception_handler r self_poll_method
         children_poll_method child_context_ptrs).

(** ** More sample inputs *)

(** A round in which every call runs [k] handlers. *)
Definition round_running (s : state) (k : nat) (stopped : bool) : round :=
  {| seen_state := s;
     poll_outcome := fun _ _ => Ok k;
     stopped_after := fun _ => stopped |}.

(** A disabled root without children and with one worker slot: its worker
    has no queue. The scheduler made from it, not started. *)
Definition disabled_root_tree : context_tree.t :=
  [ {| context_tree.parent_id_ := 0;
       context_tree.children_count_ := 0;
       context_tree.worker_parameters_ := [default_parameters];
       context_tree.concurrency_hint_ := None;
       context_tree.enabled_ := false |} ].

Definition disabled_root : async_core :=
  {| state_ := idle;
     nodes_ := new_node <$> disabled_root_tree;
     exception_handler_ := None;
     joined_ := false;
     trace_ := [ev_construct 0] |}.

(** A host on which the first thread [start()] launches, the one of slot
    0 of node 2, cannot be launched. *)
Definition first_thread_failing_host : host :=
  {| node_ctor_throws := fun _ => None;
     thread_ctor_throws := fun id slot =>
       if (id =? 2) && (slot =? 0) then Some (system_error 11) else None |}.

(** * Properties *)

(** ** Worker parameters stored in the tree *)

Section FixedParameters.

Lemma default_parameters_fixed :
  fixed_worker_parameters_ default_parameters = default_parameters.
Proof. reflexivity. Qed.

(** The four fields [fixed_worker_parameters_] can touch, and the one it
    cannot. *)
Lemma fixed_self_poll p :
  self_poll_policy (fixed_worker_parameters_ p) =
  if is_poll (self_poll_policy p) then self_poll_policy p else poll_all.
Proof.
  unfold fixed_worker_parameters_.
  repeat (case_match; simpl); reflexivity.
Qed.

Lemma fixed_children_poll p :
  children_poll_policy (fixed_worker_parameters_ p) =
  if is_poll (children_poll_policy p) then children_poll_policy p else poll_one.
Proof.
  unfold fixed_worker_parameters_.
  destruct (is_poll (self_poll_policy p)); simpl;
    destruct (is_poll (children_poll_policy p)) eqn:E; simpl;
    repeat (case_match; simpl); reflexivity.
Qed.

Lemma fixed_delay_rounds p :
  delay_rounds (fixed_worker_parameters_ p) =
  if delay_rounds p <? 1 then 1 else delay_rounds p.
Proof.
  unfold fixed_worker_parameters_.
  destruct (is_poll (self_poll_policy p)); simpl;
    destruct (is_poll (children_poll_policy p)); simpl;
    destruct (delay_rounds p <? 1) eqn:E; simpl;
    repeat (case_match; simpl); reflexivity.
Qed.

Lemma fixed_delay_policy p :
  delay_policy (fixed_worker_parameters_ p) =
  if is_delay (delay_policy p) then delay_policy p else yield.
Proof.
  unfold fixed_worker_parameters_.
  destruct (is_poll (self_poll_policy p)); simpl;
    destruct (is_poll (children_poll_policy p)); simpl;
    destruct (delay_rounds p <? 1); simpl;
    destruct (is_delay (delay_policy p)) eqn:E; simpl; reflexivity.
Qed.

Lemma fixed_delay_value p :
  delay_value (fixed_worker_parameters_ p) = delay_value p.
Proof.
  unfold fixed_worker_parameters_.
  repeat (case_match; simpl); reflexivity.
Qed.

(** A record with every field in range comes back as it went in. *)
Lemma fixed_in_range p :
  is_poll (self_poll_policy p) = true ->
  is_poll (children_poll_policy p) = true ->
  1 <= delay_rounds p ->
  is_delay (delay_policy p) = true ->
  fixed_worker_parameters_ p = p.
Proof.
  intros Hs Hc Hr Hd. unfold fixed_worker_parameters_.
  rewrite Hs; simpl. rewrite Hc; simpl.
  destruct (delay_rounds p <? 1) eqn:E.
  - apply Nat.ltb_lt in E. lia.
  - rewrite Hd. reflexivity.
Qed.

(** Whatever goes in, what comes out is in range. *)
Lemma fixed_is_in_range p :
  let q := fixed_worker_parameters_ p in
  is_poll (self_poll_policy q) = true /\
  is_poll (children_poll_policy q) = true /\
  1 <= delay_rounds q /\
  is_delay (delay_policy q) = true.
Proof.
  simpl. rewrite fixed_self_poll, fixed_children_poll, fixed_delay_rounds,
    fixed_delay_policy.
  repeat split.
  - destruct (is_poll (self_poll_policy p)) eqn:E; [exact E | reflexivity].
  - destruct (is_poll (children_poll_policy p)) eqn:E; [exact E | reflexivity].
  - destruct (delay_rounds p <? 1) eqn:E; [lia | apply Nat.ltb_ge in E; lia].
  - destruct (is_delay (delay_policy p)) eqn:E; [exact E | reflexivity].
Qed.

End FixedParameters.

Section StoredParameters.

Import context_tree.

Lemma stored_insert (nodes : context_tree.t) id n ws slot :
  nodes !! id = Some n ->
  stored (<[id := with_workers n ws]> nodes) id slot = ws !! slot.
Proof.
  intros Hn. unfold stored.
  rewrite list_lookup_insert_eq by (eapply lookup_lt_Some; eauto).
  reflexivity.
Qed.

Lemma add_worker_stores (nodes : context_tree.t) id n p :
  nodes !! id = Some n ->
  exists nodes',
    add_worker nodes id p = Ok (nodes', length (context_tree.worker_parameters_ n)) /\
    stored nodes' id (length (context_tree.worker_parameters_ n)) =
      Some (fixed_worker_parameters_ p).
Proof.
  intros Hn. unfold add_worker, vector_at. rewrite Hn. simpl.
  eexists. split; [reflexivity|].
  rewrite (stored_insert _ _ _ _ _ Hn).
  rewrite lookup_app_r by lia.
  rewrite Nat.sub_diag. reflexivity.
Qed.

Lemma set_worker_parameters_stores (nodes : context_tree.t) id n slot p :
  nodes !! id = Some n ->
  slot < length (context_tree.worker_parameters_ n) ->
  exists nodes',
    set_worker_parameters nodes id slot p = Ok nodes' /\
    stored nodes' id slot = Some (fixed_worker_parameters_ p).
Proof.
  intros Hn Hslot. unfold set_worker_parameters, vector_at. rewrite Hn. simpl.
  destruct (lookup_lt_is_Some_2 _ _ Hslot) as [old Hold]. rewrite Hold. simpl.
  eexists. split; [reflexivity|].
  rewrite (stored_insert _ _ _ _ _ Hn).
  apply list_lookup_insert_eq. exact Hslot.
Qed.

End StoredParameters.

(** C5. Every record that [add_worker] or [set_worker_parameters] stores
    in the tree is the caller's record with a self poll outside the
    enumeration replaced by [poll_all], a children poll outside the
    enumeration replaced by [poll_one], [delay_rounds < 1] replaced by 1 and
    a delay policy outside the enumeration replaced by [yield]; values in
    range, and the delay value, are stored as given; both calls return
    normally on an existing node (and slot). *)
Theorem C5_stored_parameters_are_normalized
    (nodes : context_tree.t) (id : nat) (n : context_tree.node) (p : parameters) :
  nodes !! id = Some n ->
  let q := fixed_worker_parameters_ p in
  (self_poll_policy q
     = if is_poll (self_poll_policy p) then self_poll_policy p else poll_all) /\
  (children_poll_policy q
     = if is_poll (children_poll_policy p) then children_poll_policy p else poll_one) /\
  (delay_rounds q = if delay_rounds p <? 1 then 1 else delay_rounds p) /\
  (delay_policy q
     = if is_delay (delay_policy p) then delay_policy p else yield) /\
  delay_value q = delay_value p /\
  (exists nodes',
     context_tree.add_worker nodes id p
       = Ok (nodes', length (context_tree.worker_parameters_ n)) /\
     context_tree.stored nodes' id (length (context_tree.worker_parameters_ n)) = Some q) /\
  (forall slot, slot < length (context_tree.worker_parameters_ n) ->
     exists nodes',
       context_tree.set_worker_parameters nodes id slot p = Ok nodes' /\
       context_tree.stored nodes' id slot = Some q).
Proof.
  intros Hn q. subst q.
  split; [apply fixed_self_poll|].
  split; [apply fixed_children_poll|].
  split; [apply fixed_delay_rounds|].
  split; [apply fixed_delay_policy|].
  split; [apply fixed_delay_value|].
  split.
  - apply add_worker_stores. exact Hn.
  - intros slot Hslot. eapply set_worker_parameters_stores; eauto.
Qed.

Lemma C5_witness :
  fixed_worker_parameters_ wild_parameters
    = {| self_poll_policy := poll_all; children_poll_policy := poll_one;
         delay_rounds := 1; delay_policy := yield; delay_value := 5 |} /\
  (exists nodes',
     context_tree.add_worker one_node_tree 0 wild_parameters = Ok (nodes', 1) /\
     context_tree.stored nodes' 0 1 = Some (fixed_worker_parameters_ wild_parameters)).
Proof.
  split; [reflexivity|].
  pose proof (C5_stored_parameters_are_normalized one_node_tree 0 _ wild_parameters
                eq_refl) as H.
  simpl in H.
  destruct H as (_ & _ & _ & _ & _ & Hadd & _).
  exact Hadd.
Defined.

(** ** The value slot, the caller and the two orders of arrival *)

Section ValueSlot.

Import coroutine.
Context {T : Type}.
Implicit Types (w : world T) (a : nat) (args : T).

Lemma slots_set_slot w a v : slots (set_slot a v w) a = v.
Proof. simpl. apply fn_lookup_insert. Qed.

Lemma ec_slots_set_ec_slot w a (v : value_ec.t T) : ec_slots (set_ec_slot a v w) a = v.
Proof. simpl. apply fn_lookup_insert. Qed.

(** The coroutine arrives first: it counts to 1 and yields. *)
Lemma get_first_parks w a :
  value.ready_ (slots w a) = 0 ->
  alive (value.context_ (slots w a)) = true ->
  exists w1,
    get a w = (parked, w1) /\
    value.ready_ (slots w1 a) = 1 /\
    value.context_ (slots w1 a) = value.context_ (slots w a) /\
    posted w1 = posted w /\
    suspended w1 = true.
Proof.
  intros Hr Ha. unfold get. rewrite Hr, Ha. simpl.
  eexists. split; [reflexivity|]. simpl.
  rewrite fn_lookup_insert. simpl. auto.
Qed.

(** The handler arrives second: it counts to 2, stores and resumes. *)
Lemma call_second_stores_and_resumes w a args :
  value.ready_ (slots w a) = 1 ->
  exists w1,
    call (mk_caller (Some a)) args w = (Ok tt, w1) /\
    value.value_ (slots w1 a) = args /\
    value.ready_ (slots w1 a) = 2 /\
    posted w1 = S (posted w).
Proof.
  intros Hr. unfold call, value.set. simpl. rewrite Hr. simpl.
  eexists. split; [reflexivity|]. simpl.
  rewrite fn_lookup_insert. simpl. auto.
Qed.

(** The handler arrives first: it counts to 1 and does not resume. *)
Lemma call_first_does_not_resume w a args :
  value.ready_ (slots w a) = 0 ->
  exists w1,
    call (mk_caller (Some a)) args w = (Ok tt, w1) /\
    value.ready_ (slots w1 a) = 1 /\
    value.value_ (slots w1 a) = value.value_ (slots w a) /\
    posted w1 = posted w /\
    suspended w1 = suspended w.
Proof.
  intros Hr. unfold call, value.set. simpl. rewrite Hr. simpl.
  eexists. split; [reflexivity|]. simpl.
  rewrite fn_lookup_insert. simpl. auto.
Qed.

(** The coroutine arrives second: it counts to 2 and goes on at once. *)
Lemma get_second_proceeds w a :
  value.ready_ (slots w a) = 1 ->
  exists w1,
    get a w = (got (value.value_ (slots w a)), w1) /\
    value.ready_ (slots w1 a) = 2 /\
    posted w1 = posted w /\
    suspended w1 = suspended w.
Proof.
  intros Hr. unfold get. rewrite Hr. simpl.
  eexists. split; [reflexivity|]. simpl.
  rewrite fn_lookup_insert. simpl. auto.
Qed.

End ValueSlot.

(** C1, as amended. On a fresh slot [a] of a live coroutine and a caller
    bound to it: when the coroutine arrives first, [get()] counts to 1 and
    yields, the caller then counts to 2, writes its arguments into the slot
    and posts the resumption to the strand, and the resumed [get()] returns
    exactly these arguments; when the handler arrives first, it counts to 1
    and posts no resumption, and [get()] then counts to 2 and returns without
    yielding. *)
Theorem C1_two_step_counter {T : Type} (w : coroutine.world T) (a : nat) (args : T) :
  coroutine.value.ready_ (coroutine.slots w a) = 0 ->
  coroutine.alive (coroutine.value.context_ (coroutine.slots w a)) = true ->
  (exists w1 w2 w3,
     coroutine.get a w = (coroutine.parked, w1) /\
     coroutine.value.ready_ (coroutine.slots w1 a) = 1 /\
     coroutine.call (coroutine.mk_caller (Some a)) args w1 = (Ok tt, w2) /\
     coroutine.value.ready_ (coroutine.slots w2 a) = 2 /\
     coroutine.value.value_ (coroutine.slots w2 a) = args /\
     coroutine.posted w2 = S (coroutine.posted w) /\
     coroutine.resume w2 = Some w3 /\
     coroutine.suspended w3 = false /\
     coroutine.get_resumed a w3 = coroutine.got args) /\
  (exists w1 w2 x,
     coroutine.call (coroutine.mk_caller (Some a)) args w = (Ok tt, w1) /\
     coroutine.value.ready_ (coroutine.slots w1 a) = 1 /\
     coroutine.posted w1 = coroutine.posted w /\
     coroutine.get a w1 = (coroutine.got x, w2) /\
     coroutine.value.ready_ (coroutine.slots w2 a) = 2 /\
     coroutine.posted w2 = coroutine.posted w /\
     coroutine.suspended w2 = coroutine.suspended w).
Proof.
  intros Hr Ha. split.
  - destruct (get_first_parks w a Hr Ha) as (w1 & Hg & Hr1 & _ & Hp1 & _).
    destruct (call_second_stores_and_resumes w1 a args Hr1)
      as (w2 & Hc & Hv & Hr2 & Hp2).
    exists w1, w2.
    eexists. repeat split; try eassumption.
    + rewrite Hp2, Hp1. reflexivity.
    + unfold coroutine.resume. rewrite Hp2. reflexivity.
    + reflexivity.
    + unfold coroutine.get_resumed. simpl. rewrite Hv. reflexivity.
  - destruct (call_first_does_not_resume w a args Hr)
      as (w1 & Hc & Hr1 & _ & Hp1 & Hs1).
    destruct (get_second_proceeds w1 a Hr1) as (w2 & Hg & Hr2 & Hp2 & Hs2).
    exists w1, w2. eexists. repeat split; try eassumption.
    + rewrite Hp2. exact Hp1.
    + rewrite Hs2. exact Hs1.
Qed.

Lemma C1_witness :
  let w := coroutine.fresh_world (coroutine.mk_context true None) 0 in
  exists w1 w2 w3,
    coroutine.get 3 w = (coroutine.parked, w1) /\
    coroutine.value.ready_ (coroutine.slots w1 3) = 1 /\
    coroutine.call (coroutine.mk_caller (Some 3)) 7 w1 = (Ok tt, w2) /\
    coroutine.value.ready_ (coroutine.slots w2 3) = 2 /\
    coroutine.value.value_ (coroutine.slots w2 3) = 7 /\
    coroutine.posted w2 = 1 /\
    coroutine.resume w2 = Some w3 /\
    coroutine.suspended w3 = false /\
    coroutine.get_resumed 3 w3 = coroutine.got 7.
Proof.
  intros w.
  exact (proj1 (C1_two_step_counter w 3 7 eq_refl eq_refl)).
Defined.

(** C1, as stated, fails where the handler is the first to arrive: on a
    fresh slot holding 0 the caller is invoked with 7; nothing is written
    into the slot, no resumption is posted, and [get()] returns the 0 that
    was there. *)
Lemma C1_counterexample :
  let w := coroutine.fresh_world (coroutine.mk_context true None) 0 in
  let w1 := snd (coroutine.call (coroutine.mk_caller (Some 3)) 7 w) in
  coroutine.value.value_ (coroutine.slots w1 3) = 0 /\
  coroutine.posted w1 = 0 /\
  fst (coroutine.get 3 w1) = coroutine.got 0 /\
  ~ (coroutine.value.value_ (coroutine.slots w1 3) = 7 /\ coroutine.posted w1 = 1).
Proof.
  simpl. repeat split.
  intros [H _]. vm_compute in H. discriminate H.
Qed.

(** ** The slot with an error code *)

Section ErrorCodeSlot.

Import coroutine.
Context {T : Type}.
Implicit Types (w : world T) (a : nat) (args : T) (ec : Z).

(** The coroutine arrived first and an external error code is installed:
    the code goes to the external variable, the internal one stays 0, and
    the resumed [get()] returns. *)
Lemma call_ec_second_external w a addr ec args :
  value_ec.ready_ (ec_slots w a) = 1 ->
  value_ec.ec_ (ec_slots w a) = 0%Z ->
  ec_ptr_ (value_ec.context_ (ec_slots w a)) = Some addr ->
  exists w1 w2,
    call_ec (mk_caller (Some a)) ec args w = (Ok tt, w1) /\
    error_codes w1 addr = ec /\
    posted w1 = S (posted w) /\
    resume w1 = Some w2 /\
    get_ec_resumed a w2 = got args.
Proof.
  intros Hr He Hp. unfold call_ec, set_ec, best_ec_. simpl.
  rewrite Hr, Hp. simpl.
  eexists. eexists. split; [reflexivity|]. simpl.
  rewrite !fn_lookup_insert.
  repeat split.
  unfold get_ec_resumed, get_ec_finish. simpl.
  rewrite fn_lookup_insert. simpl. rewrite He. reflexivity.
Qed.

(** The coroutine arrived first and no external error code is installed:
    the code goes to the internal variable, and the resumed [get()] throws
    exactly when it is not 0. *)
Lemma call_ec_second_internal w a ec args :
  value_ec.ready_ (ec_slots w a) = 1 ->
  ec_ptr_ (value_ec.context_ (ec_slots w a)) = None ->
  exists w1 w2,
    call_ec (mk_caller (Some a)) ec args w = (Ok tt, w1) /\
    value_ec.ec_ (ec_slots w1 a) = ec /\
    posted w1 = S (posted w) /\
    resume w1 = Some w2 /\
    get_ec_resumed a w2 =
      (if (ec =? 0)%Z then got args else raised (system_error ec)).
Proof.
  intros Hr Hp. unfold call_ec, set_ec, best_ec_. simpl.
  rewrite Hr, Hp. simpl.
  eexists. eexists. split; [reflexivity|]. simpl.
  rewrite !fn_lookup_insert.
  repeat split.
  unfold get_ec_resumed, get_ec_finish. simpl.
  rewrite fn_lookup_insert. simpl.
  destruct (ec =? 0)%Z; reflexivity.
Qed.

(** A slot made by [async_result] for a caller has no external error
    code, whatever context the caller was made from. *)
Lemma async_result_ec_forgets_external c a init w :
  let '(c1, w1) := async_result_ec c a init w in
  value_ptr_ c1 = Some a /\
  best_ec_ (value_ec.context_ (ec_slots w1 a)) = internal_ec.
Proof.
  unfold async_result_ec. simpl. rewrite fn_lookup_insert. simpl. auto.
Qed.

End ErrorCodeSlot.

(** C8 at the failing input. The handler completes with error code [ec]
    before the coroutine has called [get()], on a fresh slot without
    external error code: the code is stored nowhere (the internal error code
    is still 0, no external one is written), no resumption is posted, and
    [get()] then returns normally, also when [ec] is not 0. *)
Theorem C8_error_code_lost_when_handler_first {T : Type}
    (init args : T) (ec : Z) (a : nat) :
  let w := coroutine.fresh_world (coroutine.mk_context true None) init in
  let w1 := snd (coroutine.call_ec (coroutine.mk_caller (Some a)) ec args w) in
  fst (coroutine.call_ec (coroutine.mk_caller (Some a)) ec args w) = Ok tt /\
  coroutine.value_ec.ec_ (coroutine.ec_slots w1 a) = 0%Z /\
  (forall addr, coroutine.error_codes w1 addr = 0%Z) /\
  coroutine.posted w1 = 0 /\
  fst (coroutine.get_ec a w1) = coroutine.got init.
Proof.
  simpl. unfold coroutine.call_ec, coroutine.set_ec, coroutine.get_ec. simpl.
  rewrite !fn_lookup_insert. simpl.
  repeat split.
Qed.

(** The same defect with an external error code installed: the code
    reaches neither the external nor the internal variable. *)
Lemma error_code_lost_when_handler_first_external :
  let w := coroutine.fresh_world (coroutine.mk_context true (Some 9)) 0 in
  let w1 := snd (coroutine.call_ec (coroutine.mk_caller (Some 3)) 5%Z 7 w) in
  coroutine.error_codes w1 9 = 0%Z /\
  coroutine.value_ec.ec_ (coroutine.ec_slots w1 3) = 0%Z /\
  fst (coroutine.get_ec 3 w1) = coroutine.got 0.
Proof. vm_compute. auto. Qed.

(** With [ctx[ec]] as the completion token of an asynchronous operation,
    the handler is a caller made from the token and the slot is the one
    [async_result] makes: the error code 5 of a completion in the usual
    order goes to the internal error code, the external one at address 9
    stays as it was, and the resumed [get()] throws. *)
Lemma error_code_through_async_result :
  let token := coroutine.with_error_code (coroutine.mk_context true None) 9 in
  let w := coroutine.fresh_world token 0 in
  match coroutine.get_caller token with
  | Ok c =>
    let '(c1, w1) := coroutine.async_result_ec c 3 0 w in
    let w2 := snd (coroutine.get_ec 3 w1) in
    let w3 := snd (coroutine.call_ec c1 5%Z 7 w2) in
    fst (coroutine.get_ec 3 w1) = coroutine.parked /\
    coroutine.error_codes w3 9 = 0%Z /\
    coroutine.get_ec_resumed 3 w3 = coroutine.raised (system_error 5)
  | _ => False
  end.
Proof. vm_compute. auto. Qed.

(** ** A caller without a slot *)

(** C10. A caller from [get_caller()] has no slot: invoking it throws the
    logic error "Incorrect coroutine caller: Value not bound" and changes
    nothing, so no resumption is posted; once [bind_value] has been called,
    the same invocation returns normally. *)
Theorem C10_unbound_caller_throws {T : Type}
    (context : coroutine.coroutine_context) (c : coroutine.caller)
    (w : coroutine.world T) (args : T) (ec : Z) :
  coroutine.get_caller context = Ok c ->
  coroutine.call c args w
    = (Throw (logic_error "Incorrect coroutine caller: Value not bound"), w) /\
  coroutine.call_ec c ec args w
    = (Throw (logic_error "Incorrect coroutine caller: Value not bound"), w) /\
  (forall a, fst (coroutine.call (coroutine.bind_value a c) args w) = Ok tt) /\
  (forall a, fst (coroutine.call_ec (coroutine.bind_value a c) ec args w) = Ok tt).
Proof.
  unfold coroutine.get_caller. intros H.
  destruct (coroutine.alive context); [|discriminate H].
  injection H as <-.
  split; [reflexivity|]. split; [reflexivity|]. split.
  - intros a. unfold coroutine.call, coroutine.bind_value. simpl.
    destruct (coroutine.value.set args (coroutine.slots w a)) as [[] v]; reflexivity.
  - intros a. unfold coroutine.call_ec, coroutine.bind_value. simpl.
    destruct (coroutine.set_ec a ec args w) as [[] w1]; reflexivity.
Qed.

Lemma C10_witness :
  let context := coroutine.mk_context true None in
  let w := coroutine.fresh_world context 0 in
  coroutine.call (coroutine.mk_caller None) 7 w
    = (Throw (logic_error "Incorrect coroutine caller: Value not bound"), w) /\
  coroutine.posted (snd (coroutine.call (coroutine.mk_caller None) 7 w)) = 0 /\
  fst (coroutine.call (coroutine.bind_value 3 (coroutine.mk_caller None)) 7 w) = Ok tt.
Proof.
  intros context w.
  destruct (C10_unbound_caller_throws context (coroutine.mk_caller None) w 7 0%Z eq_refl)
    as (H1 & _ & H3 & _).
  split; [exact H1|]. split; [reflexivity|]. exact (H3 3).
Defined.

(** ** Exceptions that escape a task *)

Section PollContext.

Variable exception_handler : exception_handler_type.
Variable r : round.
Variable context : nat.
Variable m : poll_method.

Lemma poll_context_returns n :
  poll_outcome r context m = Ok n ->
  worker_poll_context_ exception_handler r context m = (Ok n, [act_poll context m]).
Proof. intros H. unfold worker_poll_context_. rewrite H. reflexivity. Qed.

Lemma poll_context_sink_returns e handler :
  poll_outcome r context m = Throw e ->
  is_std_exception e = true ->
  exception_handler = Some handler ->
  handler e = None ->
  worker_poll_context_ exception_handler r context m
    = (Ok 0, [act_poll context m; act_sink e]).
Proof.
  intros H Hs Hh He. unfold worker_poll_context_. rewrite H, Hs, Hh, He. reflexivity.
Qed.

Lemma poll_context_sink_throws e handler e' :
  poll_outcome r context m = Throw e ->
  is_std_exception e = true ->
  exception_handler = Some handler ->
  handler e = Some e' ->
  worker_poll_context_ exception_handler r context m
    = (Throw e', [act_poll context m; act_sink e]).
Proof.
  intros H Hs Hh He. unfold worker_poll_context_. rewrite H, Hs, Hh, He. reflexivity.
Qed.

Lemma poll_context_no_sink e :
  poll_outcome r context m = Throw e ->
  is_std_exception e = true ->
  exception_handler = None ->
  worker_poll_context_ exception_handler r context m = (Ok 0, [act_poll context m]).
Proof.
  intros H Hs Hh. unfold worker_poll_context_. rewrite H, Hs, Hh. reflexivity.
Qed.

Lemma poll_context_foreign e :
  poll_outcome r context m = Throw e ->
  is_std_exception e = false ->
  worker_poll_context_ exception_handler r context m = (Throw e, [act_poll context m]).
Proof.
  intros H Hs. unfold worker_poll_context_. rewrite H, Hs. reflexivity.
Qed.

End PollContext.

(** C7, as stated, fails in two ways. A scheduler made without a sink
    catches the exception of the task and passes it to nobody; and an
    exception that is not a [std::exception] is not caught: it ends the
    worker although the sink never threw. *)
Lemma C7_counterexample :
  (worker_poll_context_ None (round_throwing (std_exception "boom")) 0 m_run
     = (Ok 0, [act_poll 0 m_run]) /\
   ~ In (act_sink (std_exception "boom"))
        (snd (worker_poll_context_ None (round_throwing (std_exception "boom")) 0 m_run))) /\
  (worker_poll_context_ quiet_sink (round_throwing (foreign_exception 1)) 0 m_run
     = (Throw (foreign_exception 1), [act_poll 0 m_run]) /\
   worker_run_single_ quiet_sink default_parameters 0
       [round_throwing (foreign_exception 1); round_throwing (foreign_exception 1)]
     = (terminated (foreign_exception 1), [act_poll 0 m_run])).
Proof.
  split; split; try reflexivity.
  simpl. intros [H | [ ]]. discriminate H.
Qed.

(** ** The state variable *)

Section Quiet.

Lemma transitions_app l k : transitions (l ++ k) = transitions l ++ transitions k.
Proof.
  induction l as [|e l IH]; [reflexivity|].
  destruct e; simpl; rewrite ?IH; reflexivity.
Qed.

Lemma quiet_refl c : quiet c c.
Proof.
  repeat split. exists []. rewrite app_nil_r. auto.
Qed.

Lemma quiet_trans c1 c2 c3 : quiet c1 c2 -> quiet c2 c3 -> quiet c1 c3.
Proof.
  intros (Hs1 & Hj1 & Hh1 & e1 & Ht1 & Hq1) (Hs2 & Hj2 & Hh2 & e2 & Ht2 & Hq2).
  repeat split; try congruence.
  exists (e1 ++ e2). split.
  - rewrite Ht2, Ht1, app_assoc. reflexivity.
  - rewrite transitions_app, Hq1, Hq2. reflexivity.
Qed.

Lemma quiet_emit e c : transitions [e] = [] -> quiet c (emit e c).
Proof. intros H. repeat split. exists [e]. auto. Qed.

Lemma quiet_set_nodes ns c : quiet c (set_nodes ns c).
Proof. repeat split. exists []. simpl. rewrite app_nil_r. auto. Qed.

Lemma quiet_foldl_emit {A} (f : A -> event) (l : list A) c :
  (forall x, transitions [f x] = []) ->
  quiet c (foldl (fun c x => emit (f x) c) c l).
Proof.
  intros Hf. revert c. induction l as [|x l IH]; intros c; simpl.
  - apply quiet_refl.
  - eapply quiet_trans; [|apply IH]. apply quiet_emit, Hf.
Qed.

Lemma foldl_emit_trace (l : list event) c :
  trace_ (foldl (fun c e => emit e c) c l) = trace_ c ++ l /\
  state_ (foldl (fun c e => emit e c) c l) = state_ c /\
  joined_ (foldl (fun c e => emit e c) c l) = joined_ c /\
  nodes_ (foldl (fun c e => emit e c) c l) = nodes_ c /\
  exception_handler_ (foldl (fun c e => emit e c) c l) = exception_handler_ c.
Proof.
  revert c. induction l as [|e l IH]; intros c; simpl.
  - rewrite app_nil_r. auto.
  - destruct (IH (emit e c)) as (Ht & Hs & Hj & Hn & Hh).
    rewrite Ht, Hs, Hj, Hn, Hh. simpl. rewrite <- app_assoc. auto.
Qed.

Lemma quiet_launch_workers h id params : forall slot c r c',
  launch_workers h id slot params c = (r, c') -> quiet c c'.
Proof.
  induction params as [|p rest IH]; intros slot c r c' H; simpl in H.
  - injection H as _ <-. apply quiet_refl.
  - destruct (thread_ctor_throws h id slot).
    + injection H as _ <-. apply quiet_refl.
    + apply IH in H. eapply quiet_trans; [|exact H].
      eapply quiet_trans; [apply quiet_set_nodes|].
      apply quiet_emit. reflexivity.
Qed.

Lemma quiet_start_nodes h ids : forall c r c',
  start_nodes h ids c = (r, c') -> quiet c c'.
Proof.
  induction ids as [|id rest IH]; intros c r c' H; simpl in H.
  - injection H as _ <-. apply quiet_refl.
  - destruct (nodes_ c !! id) as [n|].
    + destruct (launch_workers _ _ _ _ _) as [r1 c2] eqn:E.
      apply quiet_launch_workers in E.
      assert (quiet c c2) as Hq.
      { eapply quiet_trans; [|exact E].
        eapply quiet_trans; [apply quiet_set_nodes|].
        apply quiet_emit. reflexivity. }
      destruct r1.
      * apply IH in H. eapply quiet_trans; eauto.
      * injection H as _ <-. exact Hq.
      * injection H as _ <-. exact Hq.
      * injection H as _ <-. exact Hq.
    + injection H as _ <-. apply quiet_refl.
Qed.

Lemma quiet_start_workers h c r c' :
  start_workers_ h c = (r, c') -> quiet c c'.
Proof.
  unfold start_workers_. intros H.
  destruct (nodes_empty c).
  - injection H as _ <-. apply quiet_refl.
  - destruct (order_nodes_ (nodes_ c)).
    + eapply quiet_start_nodes; eauto.
    + injection H as _ <-. apply quiet_refl.
    + injection H as _ <-. apply quiet_refl.
    + injection H as _ <-. apply quiet_refl.
Qed.

Lemma quiet_stop_workers c : quiet c (stop_workers_ c).
Proof.
  unfold stop_workers_.
  eapply quiet_trans; [apply quiet_set_nodes|].
  eapply quiet_trans; [apply (quiet_foldl_emit ev_unpin); reflexivity|].
  eapply quiet_trans; [apply quiet_set_nodes|].
  apply (quiet_foldl_emit ev_stop_context). reflexivity.
Qed.

Lemma transitions_join_events l :
  transitions (mjoin (imap join_events l)) = [].
Proof.
  assert (forall id n, transitions (join_events id n) = []) as Hj.
  { intros id n. unfold join_events.
    induction (workers_ n) as [|w ws IH]; [reflexivity|exact IH]. }
  assert (forall k, transitions (mjoin (imap (fun i => join_events (k + i)) l)) = []) as H.
  { induction l as [|n l IH]; intros k; [reflexivity|].
    simpl. rewrite transitions_app, Hj. simpl.
    rewrite <- (IH (S k)). f_equal. f_equal. apply imap_ext.
    intros i x _. simpl. f_equal. lia. }
  exact (H 0).
Qed.

End Quiet.

Section Transitions.

Variable h : host.

(** What [join_workers_] does when nobody else is joining. *)
Lemma join_workers_transitions c :
  joined_ c = false ->
  exists c' evs,
    join_workers_ c = (true, c') /\
    state_ c' = idle /\ joined_ c' = false /\
    trace_ c' = trace_ c ++ evs /\
    transitions evs = [(state_ c, idle)].
Proof.
  intros Hj. unfold join_workers_. rewrite Hj. simpl.
  eexists. eexists. split; [reflexivity|].
  split; [reflexivity|]. split; [reflexivity|].
  simpl.
  destruct (foldl_emit_trace
              (mjoin (imap join_events (nodes_ c)))
              (emit (ev_lock join_mutex_) (set_joined true c)))
    as (Ht & Hs & _ & _ & _).
  rewrite Ht, Hs. simpl.
  rewrite <- !app_assoc.
  split; [reflexivity|].
  rewrite !transitions_app, transitions_join_events. reflexivity.
Qed.

(** [start] on a scheduler with nodes. *)
Lemma start_transitions c :
  nodes_empty c = false ->
  exists r c' evs,
    start h c = (r, c') /\
    joined_ c' = joined_ c /\
    trace_ c' = trace_ c ++ evs /\
    match r with
    | Ok _ => state_ c' = running /\
              transitions evs = [(state_ c, starting); (starting, running)]
    | Throw _ => state_ c' = idle /\
                 transitions evs = [(state_ c, starting); (starting, idle)]
    | _ => state_ c' = starting /\ transitions evs = [(state_ c, starting)]
    end.
Proof.
  intros Hne. unfold start. rewrite Hne.
  destruct (start_workers_ h _) as [r c3] eqn:E.
  apply quiet_start_workers in E.
  destruct E as (Hs & Hj & _ & evs & Ht & Hq). simpl in Hs, Hj, Ht.
  destruct r; eexists; eexists; eexists; (split; [reflexivity|]); simpl;
    rewrite Ht, Hs, <- ?app_assoc; (split; [exact Hj|]);
    (split; [reflexivity|]); (split; [reflexivity|]);
    simpl; rewrite ?transitions_app, Hq; reflexivity.
Qed.

(** [stop] on a scheduler with nodes, when nobody else is joining. *)
Lemma stop_transitions c :
  nodes_empty c = false ->
  joined_ c = false ->
  exists c' evs,
    stop c = (Ok tt, c') /\
    state_ c' = idle /\ joined_ c' = false /\
    trace_ c' = trace_ c ++ evs /\
    transitions evs = [(state_ c, stopping); (stopping, idle)].
Proof.
  intros Hne Hj. unfold stop. rewrite Hne.
  set (c2 := store_state stopping (emit (ev_lock stop_mutex_) c)).
  destruct (quiet_stop_workers c2) as (Hs & Hj3 & _ & evs & Ht & Hq).
  destruct (join_workers_transitions (stop_workers_ c2)) as (c4 & evs' & E & Hs4 & Hj4 & Ht4 & Hq4).
  { rewrite Hj3. exact Hj. }
  rewrite E. simpl.
  eexists. eexists. split; [reflexivity|]. simpl.
  rewrite Ht4, Ht. simpl. rewrite <- !app_assoc.
  repeat split; try assumption.
  simpl. rewrite !transitions_app, Hq, Hq4, Hs. reflexivity.
Qed.

(** [join] when nobody else is joining. *)
Lemma join_transitions c :
  joined_ c = false ->
  exists r c' evs,
    join c = (r, c') /\ joined_ c' = false /\
    trace_ c' = trace_ c ++ evs /\
    ((state_ c = running /\ r = Ok tt /\ state_ c' = idle /\
      transitions evs = [(running, idle)]) \/
     (state_ c <> running /\ r = Throw (invalid_argument "Core is not joinable") /\
      c' = c /\ evs = []) \/
     (state_ c = running /\ r = OutOfFuel /\ c' = c /\ evs = [])).
Proof.
  intros Hj. unfold join.
  destruct (state_eqb (state_ c) running) eqn:E; simpl.
  - assert (state_ c = running) as Hr by (destruct (state_ c); try discriminate; auto).
    rewrite Hj. simpl.
    destruct (threads_have_returned c); simpl.
    + destruct (join_workers_transitions c Hj) as (c' & evs & Hw & Hs & Hj' & Ht & Hq).
      rewrite Hw. exists (Ok tt), c', evs.
      repeat split; try assumption.
      left. rewrite Hr in Hq. auto.
    + exists OutOfFuel, c, []. rewrite app_nil_r. repeat split; try assumption.
      right. right. auto.
  - exists (Throw (invalid_argument "Core is not joinable")), c, [].
    rewrite app_nil_r. repeat split; try assumption.
    right. left. repeat split. intros Hr. rewrite Hr in E. discriminate.
Qed.

Lemma start_empty c : nodes_empty c = true -> start h c = (Ok tt, c).
Proof. intros H. unfold start. rewrite H. reflexivity. Qed.

Lemma stop_empty c : nodes_empty c = true -> stop c = (Ok tt, c).
Proof. intros H. unfold stop. rewrite H. reflexivity. Qed.

Lemma dtor_empty c : nodes_empty c = true -> dtor c = (Ok tt, c).
Proof.
  intros H. unfold dtor. rewrite (stop_empty c H).
  unfold nodes_empty in H. apply Nat.eqb_eq in H.
  unfold node_array.dtor, node_array.delete_nodes_. rewrite H. reflexivity.
Qed.

Lemma at_rest_start c :
  at_rest c ->
  match start h c with
  | (Ok _, c') | (Throw _, c') => at_rest c'
  | (_, c') => Forall (fun t => performed_transition t = true) (transitions (trace_ c'))
  end.
Proof.
  intros (Hs & Hj & Hf).
  destruct (nodes_empty c) eqn:Hne.
  - rewrite (start_empty c Hne). repeat split; assumption.
  - destruct (start_transitions c Hne) as (r & c' & evs & E & Hj' & Ht & Hr).
    rewrite E.
    assert (performed_transition (state_ c, starting) = true) as Hp
      by (destruct Hs as [-> | ->]; reflexivity).
    destruct r; destruct Hr as (Hs' & Hq);
      try (split; [auto|split; [congruence|]]);
      rewrite Ht, transitions_app, Hq; apply Forall_app; (split; [exact Hf|]);
      repeat constructor; exact Hp.
Qed.

Lemma at_rest_stop c : at_rest c -> at_rest (snd (stop c)).
Proof.
  intros (Hs & Hj & Hf).
  destruct (nodes_empty c) eqn:Hne.
  - rewrite (stop_empty c Hne). repeat split; assumption.
  - destruct (stop_transitions c Hne Hj) as (c' & evs & E & Hs' & Hj' & Ht & Hq).
    rewrite E. simpl. split; [auto|]. split; [exact Hj'|].
    rewrite Ht, transitions_app, Hq. apply Forall_app. split; [exact Hf|].
    repeat constructor. destruct Hs as [-> | ->]; reflexivity.
Qed.

Lemma at_rest_join c : at_rest c -> at_rest (snd (join c)).
Proof.
  intros (Hs & Hj & Hf).
  destruct (join_transitions c Hj) as (r & c' & evs & E & Hj' & Ht & Hr).
  rewrite E. simpl.
  destruct Hr as [(Hrun & -> & Hs' & Hq) | [(_ & -> & -> & ->) | (_ & -> & -> & ->)]].
  - split; [auto|]. split; [exact Hj'|].
    rewrite Ht, transitions_app, Hq. apply Forall_app. split; [exact Hf|].
    repeat constructor.
  - repeat split; assumption.
  - repeat split; assumption.
Qed.

Lemma at_rest_dtor c :
  at_rest c ->
  Forall (fun t => performed_transition t = true) (transitions (trace_ (snd (dtor c)))).
Proof.
  intros Hc. pose proof (at_rest_stop c Hc) as (_ & _ & Hf).
  unfold dtor. destruct (stop c) as [r c1] eqn:E. simpl in Hf.
  assert (r = Ok tt) as ->.
  { unfold stop in E. destruct (nodes_empty c); injection E as <- _; reflexivity. }
  simpl.
  destruct (foldl_emit_trace (node_array.dtor (nodes_ c1)) c1) as (Ht & _).
  rewrite Ht, transitions_app. apply Forall_app. split; [exact Hf|].
  assert (transitions (node_array.dtor (nodes_ c1)) = []) as ->; [|constructor].
  unfold node_array.dtor, node_array.delete_nodes_.
  rewrite transitions_app.
  assert (forall k, transitions (node_array.destroy_down k) = []) as ->.
  { induction k; [reflexivity | exact IHk]. }
  destruct (_ =? 0); reflexivity.
Qed.

Lemma run_ops_performed ops : forall c,
  at_rest c ->
  Forall (fun t => performed_transition t = true) (transitions (trace_ (run_ops h ops c))).
Proof.
  induction ops as [|o rest IH]; intros c Hc.
  - exact (proj2 (proj2 Hc)).
  - destruct o; simpl.
    + pose proof (at_rest_start c Hc) as H.
      destruct (start h c) as [[ | | | ] c1]; auto.
    + pose proof (at_rest_stop c Hc) as H.
      destruct (stop c) as [r c1] eqn:E. simpl in H.
      destruct r; auto; exact (proj2 (proj2 H)).
    + pose proof (at_rest_join c Hc) as H.
      destruct (join c) as [r c1] eqn:E. simpl in H.
      destruct r; auto; exact (proj2 (proj2 H)).
    + apply at_rest_dtor. exact Hc.
Qed.

(** The events of the constructor of the node array hold no store to
    the state. *)
Lemma construct_loop_quiet size_ descs : forall arr log r arr' log',
  node_array.construct_loop h size_ descs arr log = (r, arr', log') ->
  exists evs, log' = log ++ evs /\ transitions evs = [].
Proof.
  induction descs as [|n rest IH]; intros arr log r arr' log' H; simpl in H.
  - injection H as _ _ <-. exists []. rewrite app_nil_r. auto.
  - destruct (node_ctor_throws h (length arr)).
    + injection H as _ _ <-. exists []. rewrite app_nil_r. auto.
    + assert (forall arr1,
        node_array.construct_loop h size_ rest arr1 (log ++ [ev_construct (length arr)])
          = (r, arr', log') ->
        exists evs, log' = log ++ evs /\ transitions evs = []) as Hrec.
      { intros arr1 H1. apply IH in H1. destruct H1 as (evs & -> & Hq).
        exists (ev_construct (length arr) :: evs).
        rewrite <- app_assoc. auto. }
      destruct (_ =? _); [eapply Hrec; eauto|].
      destruct (node_array.at_ _ _ _); [eapply Hrec; eauto| | |];
        injection H as _ _ <-; exists [ev_construct (length arr)]; auto.
Qed.

Lemma make_at_rest t exception_handler start_immediately c log :
  make h t exception_handler start_immediately = (Ok c, log) ->
  at_rest c.
Proof.
  unfold make, node_array.ctor. intros H.
  destruct (node_array.construct_loop _ _ _ _ _) as [[r arr] log0] eqn:E.
  apply construct_loop_quiet in E. destruct E as (evs & -> & Hq). simpl in *.
  destruct r; try discriminate H.
  set (c0 := {| state_ := idle; nodes_ := arr; exception_handler_ := exception_handler;
                joined_ := false; trace_ := evs |}) in *.
  assert (at_rest c0) as H0.
  { repeat split; auto. simpl. rewrite Hq. constructor. }
  destruct start_immediately.
  - pose proof (at_rest_start c0 H0) as Hs.
    destruct (start h c0) as [[ | | | ] c1]; try discriminate H.
    + injection H as <- _. exact Hs.
    + destruct (destroy_unjoined _ _) as [[] ?]; discriminate H.
  - injection H as <- _. exact H0.
Qed.

End Transitions.

(** C2, as amended. On a scheduler made from a tree, under any sequence
    of calls of [start], [stop] and [join] from one thread, with a
    destruction at the end or not, every store to the state variable is one
    of idle->starting, starting->running, starting->idle, running->stopping,
    stopping->idle, or one of idle->stopping ([stop], or the destructor, on
    an idle scheduler), running->starting ([start] on a running scheduler)
    and running->idle ([join] on a running scheduler whose threads have
    returned). *)
Theorem C2_transitions_performed
    (h : host) (t : context_tree.t) (exception_handler : exception_handler_type)
    (start_immediately : bool) (c : async_core) (log : list event) (ops : list op) :
  make h t exception_handler start_immediately = (Ok c, log) ->
  Forall (fun t => performed_transition t = true)
         (transitions (trace_ (run_ops h ops c))).
Proof.
  intros H. apply run_ops_performed. eapply make_at_rest. exact H.
Qed.

Lemma C2_witness :
  Forall (fun t => performed_transition t = true)
    (transitions
       (trace_ (run_ops calm_host [op_start; op_join; op_start; op_stop; op_dtor]
                  idle_root))).
Proof.
  exact (C2_transitions_performed calm_host one_node_tree_no_worker None false
           idle_root [ev_construct 0]
           [op_start; op_join; op_start; op_stop; op_dtor] eq_refl).
Defined.

(** C2, as stated, fails: [stop] on a scheduler that was never started
    (which is also what its destructor does) stores [stopping] over [idle];
    a second [start] stores [starting] over [running]; [join] on a running
    scheduler without threads stores [idle] over [running]. *)
Lemma C2_counterexample :
  let c := idle_root in
  make calm_host one_node_tree_no_worker None false = (Ok c, [ev_construct 0]) /\
  transitions (trace_ (run_ops calm_host [op_stop] c))
    = [(idle, stopping); (stopping, idle)] /\
  transitions (trace_ (run_ops calm_host [op_start; op_start] c))
    = [(idle, starting); (starting, running); (running, starting); (starting, running)] /\
  transitions (trace_ (run_ops calm_host [op_start; op_join] c))
    = [(idle, starting); (starting, running); (running, idle)] /\
  legal_transition (idle, stopping) = false /\
  legal_transition (running, starting) = false /\
  legal_transition (running, idle) = false.
Proof. vm_compute. repeat split. Qed.

(** ** The empty blueprint *)

Lemma join_not_running c :
  state_ c <> running ->
  join c = (Throw (invalid_argument "Core is not joinable"), c).
Proof.
  intros H. unfold join.
  destruct (state_ c); try reflexivity. contradiction.
Qed.

Lemma run_ops_empty h ops c :
  nodes_empty c = true -> state_ c = idle -> run_ops h ops c = c.
Proof.
  intros Hn Hs. induction ops as [|o rest IH]; [reflexivity|].
  destruct o; simpl.
  - rewrite (start_empty h c Hn). exact IH.
  - rewrite (stop_empty c Hn). exact IH.
  - rewrite join_not_running by (rewrite Hs; discriminate). exact IH.
  - rewrite (dtor_empty c Hn). reflexivity.
Qed.

(** C9. The scheduler made from the empty tree is idle and has done
    nothing; [start] and [stop] return it as it is (no mutex locked, no
    thread launched, no store to the state: the ghost trace is part of the
    record), and so does every sequence of calls, so that it is idle for
    good. *)
Theorem C9_empty_blueprint
    (h : host) (exception_handler : exception_handler_type)
    (start_immediately : bool) (ops : list op) :
  exists c,
    make h [] exception_handler start_immediately = (Ok c, []) /\
    state_ c = idle /\
    trace_ c = [] /\
    start h c = (Ok tt, c) /\
    stop c = (Ok tt, c) /\
    run_ops h ops c = c /\
    state_ (run_ops h ops c) = idle.
Proof.
  exists {| state_ := idle; nodes_ := []; exception_handler_ := exception_handler;
            joined_ := false; trace_ := [] |}.
  split.
  - unfold make. simpl. destruct start_immediately; reflexivity.
  - split; [reflexivity|]. split; [reflexivity|].
    split; [reflexivity|]. split; [reflexivity|].
    rewrite run_ops_empty by reflexivity. split; reflexivity.
Qed.

(** ** The constructor of the node array *)

Section NodeArrayCtor.

Variable h : host.
Variable t : context_tree.t.
Hypothesis Htopo : context_tree.topological t.

Lemma topological_parent_le i d :
  t !! i = Some d -> context_tree.parent_id_ d <= i.
Proof. intros H. destruct (Htopo i d H) as [[-> ->] | [_ Hlt]]; lia. Qed.

Lemma parent_of_lookup i d :
  t !! i = Some d -> parent_of t i = context_tree.parent_id_ d.
Proof. intros H. unfold parent_of. rewrite H. reflexivity. Qed.

Lemma parent_of_le i : parent_of t i <= i.
Proof.
  unfold parent_of. destruct (t !! i) as [d|] eqn:E; simpl; [|lia].
  eapply topological_parent_le; eauto.
Qed.

Lemma destroy_down_reverse k :
  node_array.destroy_down k = ev_destroy <$> reverse (seq 0 k).
Proof.
  induction k as [|k IH]; [reflexivity|].
  rewrite seq_S, reverse_app. simpl. rewrite IH. reflexivity.
Qed.

(** The loop up to the node whose construction throws. *)
Lemma construct_loop_throws k e : forall descs done arr log,
  t = done ++ descs ->
  length arr = length done ->
  length done <= k < length t ->
  (forall i, i < k -> node_ctor_throws h i = None) ->
  node_ctor_throws h k = Some e ->
  exists arr',
    node_array.construct_loop h (length t) descs arr log
      = (Throw e, arr',
         log ++ (ev_construct <$> seq (length done) (k - length done))) /\
    length arr' = k.
Proof.
  induction descs as [|d rest IH]; intros done arr log Ht Hlen Hk Hnone He.
  - subst t. rewrite app_nil_r in Hk. lia.
  - simpl. destruct (decide (length done = k)) as [Heq | Hne].
    + rewrite Hlen, Heq, He. exists arr.
      rewrite Nat.sub_diag. simpl. rewrite app_nil_r.
      split; [reflexivity | congruence].
    + rewrite Hlen, Hnone by lia.
      assert (t !! length done = Some d) as Hd.
      { subst t. rewrite lookup_app_r by lia. rewrite Nat.sub_diag. reflexivity. }
      pose proof (topological_parent_le _ _ Hd) as Hle.
      rewrite ?Nat.sub_0_r.
      assert (k - length done = S (k - S (length done))) as Hsub by lia.
      assert (forall arr1, length arr1 = S (length done) ->
        exists arr',
          node_array.construct_loop h (length t) rest arr1
            (log ++ [ev_construct (length done)])
          = (Throw e, arr',
             log ++ (ev_construct <$> seq (length done) (k - length done))) /\
          length arr' = k) as Hrec.
      { intros arr1 Hlen1.
        destruct (IH (done ++ [d]) arr1 (log ++ [ev_construct (length done)]))
          as (arr' & Hloop & Hlen'); auto.
        - rewrite <- app_assoc. exact Ht.
        - rewrite length_app. simpl. lia.
        - rewrite length_app. simpl. lia.
        - exists arr'. split; [|exact Hlen'].
          rewrite Hloop. rewrite length_app. simpl.
          rewrite Hsub. simpl. rewrite <- app_assoc. simpl.
          replace (length done + 1) with (S (length done)) by lia. reflexivity. }
      destruct (context_tree.parent_id_ d =? length done) eqn:Heqb.
      * apply Hrec. rewrite length_app. simpl. lia.
      * apply Nat.eqb_neq in Heqb.
        unfold node_array.at_.
        assert (context_tree.parent_id_ d < length t) as Hlt by lia.
        apply Nat.ltb_lt in Hlt. rewrite Hlt.
        destruct (lookup_lt_is_Some_2 (arr ++ [new_node d]) (context_tree.parent_id_ d))
          as [p Hp].
        { rewrite length_app. simpl. lia. }
        rewrite Hp. apply Hrec.
        rewrite length_insert, length_app. simpl. lia.
Qed.

Lemma children_upto_S k p :
  children_upto t (S k) p =
  children_upto t k p ++ (if decide (parent_of t k = p /\ k <> p) then [k] else []).
Proof.
  unfold children_upto. rewrite seq_S, list.filter_app. reflexivity.
Qed.

Lemma children_upto_le k p : k <= S p -> children_upto t k p = [].
Proof.
  intros Hk. unfold children_upto.
  induction k as [|k IH]; [reflexivity|].
  rewrite seq_S, list.filter_app, IH by lia. simpl.
  rewrite filter_cons, filter_nil.
  destruct (decide _) as [[Hp Hne] | _]; [|reflexivity].
  pose proof (parent_of_le k). lia.
Qed.

(** The loop when no construction throws. *)
Lemma construct_loop_ok :
  (forall i, node_ctor_throws h i = None) ->
  forall descs done arr log,
  t = done ++ descs ->
  length arr = length done ->
  (forall p d, done !! p = Some d ->
     exists n, arr !! p = Some n /\ node_realizes t (length done) p d n) ->
  exists arr',
    node_array.construct_loop h (length t) descs arr log
      = (Ok tt, arr', log ++ (ev_construct <$> seq (length done) (length descs))) /\
    realizes t arr'.
Proof.
  intros Hnone.
  induction descs as [|d rest IH]; intros done arr log Ht Hlen Hinv.
  - simpl. exists arr. rewrite app_nil_r. split; [reflexivity|].
    rewrite app_nil_r in Ht. subst done. split; [exact Hlen|]. exact Hinv.
  - simpl. rewrite Hnone, Hlen.
    assert (t !! length done = Some d) as Hd.
    { subst t. rewrite lookup_app_r by lia. rewrite Nat.sub_diag. reflexivity. }
    pose proof (topological_parent_le _ _ Hd) as Hle.
    pose proof (parent_of_lookup _ _ Hd) as Hpar.
    rewrite ?Nat.sub_0_r.
    assert (forall arr1, length arr1 = S (length done) ->
      (forall p d0, (done ++ [d]) !! p = Some d0 ->
         exists n, arr1 !! p = Some n /\ node_realizes t (S (length done)) p d0 n) ->
      exists arr',
        node_array.construct_loop h (length t) rest arr1
          (log ++ [ev_construct (length done)])
        = (Ok tt, arr',
           log ++ ev_construct (length done)
               :: (ev_construct <$> seq (S (length done)) (length rest))) /\
        realizes t arr') as Hrec.
    { intros arr1 Hlen1 Hinv1.
      destruct (IH (done ++ [d]) arr1 (log ++ [ev_construct (length done)]))
        as (arr' & Hloop & Hreal).
      - rewrite <- app_assoc. exact Ht.
      - rewrite length_app. simpl. lia.
      - rewrite length_app. simpl.
        replace (length done + 1) with (S (length done)) by lia. exact Hinv1.
      - exists arr'. split; [|exact Hreal].
        rewrite Hloop, length_app. simpl.
        replace (length done + 1) with (S (length done)) by lia.
        rewrite <- app_assoc. reflexivity. }
    destruct (context_tree.parent_id_ d =? length done) eqn:Heqb.
    + apply Nat.eqb_eq in Heqb.
      apply Hrec; [rewrite length_app; simpl; lia|].
      intros p d0 Hp0.
      destruct (decide (p < length done)) as [Hlt | Hge].
      * rewrite lookup_app_l in Hp0 by lia.
        destruct (Hinv p d0 Hp0) as (n & Hn & Hc & Hrest).
        exists n. rewrite lookup_app_l by lia. split; [exact Hn|].
        split; [|exact Hrest].
        rewrite children_upto_S, Hc.
        destruct (decide _) as [[Hp Hne] | _]; [|rewrite app_nil_r; reflexivity].
        rewrite Hpar in Hp. lia.
      * assert (p = length done) as ->.
        { apply lookup_lt_Some in Hp0. rewrite length_app in Hp0. simpl in Hp0. lia. }
        rewrite lookup_app_r in Hp0 by lia. rewrite Nat.sub_diag in Hp0.
        injection Hp0 as <-.
        exists (new_node d). rewrite lookup_app_r by lia.
        rewrite Hlen, Nat.sub_diag. split; [reflexivity|].
        unfold node_realizes. simpl.
        rewrite children_upto_le by lia.
        destruct (context_tree.enabled_ d); auto.
    + apply Nat.eqb_neq in Heqb.
      unfold node_array.at_.
      assert (context_tree.parent_id_ d < length t) as Hlt.
      { apply lookup_lt_Some in Hd. lia. }
      apply Nat.ltb_lt in Hlt. rewrite Hlt.
      assert (context_tree.parent_id_ d < length done) as Hpd by lia.
      destruct (lookup_lt_is_Some_2 done (context_tree.parent_id_ d) Hpd) as [dp Hdp].
      destruct (Hinv _ _ Hdp) as (np & Hnp & Hcp & Hrestp).
      rewrite lookup_app_l by lia. rewrite Hnp.
      apply Hrec; [rewrite length_insert, length_app; simpl; lia|].
      intros p d0 Hp0.
      destruct (decide (p < length done)) as [Hlt' | Hge].
      * rewrite lookup_app_l in Hp0 by lia.
        destruct (decide (p = context_tree.parent_id_ d)) as [-> | Hne].
        -- exists (push_child (length done) np).
           rewrite list_lookup_insert_eq by (rewrite length_app; simpl; lia).
           split; [reflexivity|].
           assert (d0 = dp) as -> by congruence.
           unfold node_realizes. simpl.
           rewrite children_upto_S, Hcp.
           destruct (decide _) as [_ | Hn]; [|exfalso; apply Hn; split; [exact Hpar|lia]].
           split; [reflexivity|]. exact Hrestp.
        -- destruct (Hinv p d0 Hp0) as (n & Hn & Hc & Hrest).
           exists n. rewrite list_lookup_insert_ne by congruence.
           rewrite lookup_app_l by lia. split; [exact Hn|].
           split; [|exact Hrest].
           rewrite children_upto_S, Hc.
           destruct (decide _) as [[Hp _] | _]; [|rewrite app_nil_r; reflexivity].
           rewrite Hpar in Hp. congruence.
      * assert (p = length done) as ->.
        { apply lookup_lt_Some in Hp0. rewrite length_app in Hp0. simpl in Hp0. lia. }
        rewrite lookup_app_r in Hp0 by lia. rewrite Nat.sub_diag in Hp0.
        injection Hp0 as <-.
        exists (new_node d).
        rewrite list_lookup_insert_ne by lia.
        rewrite lookup_app_r by lia.
        rewrite Hlen, Nat.sub_diag. split; [reflexivity|].
        unfold node_realizes. simpl.
        rewrite children_upto_le by lia.
        destruct (context_tree.enabled_ d); auto.
Qed.

(** The constructor on a host where no construction throws. *)
Lemma ctor_ok :
  (forall i, node_ctor_throws h i = None) ->
  exists arr,
    node_array.ctor h t = (Ok arr, ev_construct <$> seq 0 (length t)) /\
    realizes t arr.
Proof.
  intros Hnone.
  destruct (construct_loop_ok Hnone t [] [] []) as (arr & Hloop & Hreal); auto.
  { intros p d Hp. rewrite lookup_nil in Hp. discriminate Hp. }
  exists arr. unfold node_array.ctor. rewrite Hloop. simpl. auto.
Qed.

End NodeArrayCtor.

(** What [add_context_] keeps true of every tree it builds. *)
Lemma add_context_topological (t : context_tree.t) parent_id workers_count enabled hint t' id :
  context_tree.topological t ->
  context_tree.add_context_ t parent_id workers_count enabled hint = Ok (t', id) ->
  context_tree.topological t' /\ id = length t /\ length t' = S (length t).
Proof.
  unfold context_tree.add_context_. intros Ht H.
  destruct ((length t <=? parent_id) && negb (parent_id =? 0)) eqn:Hguard;
    [discriminate H|].
  injection H as <- <-.
  assert (parent_id < length t \/ parent_id = 0) as Hp.
  { apply andb_false_iff in Hguard. destruct Hguard as [Hg | Hg].
    - apply Nat.leb_gt in Hg. auto.
    - apply negb_false_iff, Nat.eqb_eq in Hg. auto. }
  split; [|split; [reflexivity|]].
  - intros i n Hi.
    assert (forall j n0 m, (t ++ [n0]) !! j = Some m ->
              context_tree.parent_id_ n0 = parent_id ->
              (j = 0 /\ context_tree.parent_id_ m = 0) \/
              (0 < j /\ context_tree.parent_id_ m < j)) as Hcase.
    { intros j n0 m Hj Hpar.
      destruct (decide (j < length t)) as [Hlt | Hge].
      - rewrite lookup_app_l in Hj by lia. apply (Ht j m Hj).
      - assert (j = length t) as ->.
        { apply lookup_lt_Some in Hj. rewrite length_app in Hj. simpl in Hj. lia. }
        rewrite lookup_app_r in Hj by lia. rewrite Nat.sub_diag in Hj.
        injection Hj as <-. rewrite Hpar. lia. }
    destruct (negb (length t =? 0)) eqn:Hz.
    + destruct (decide (i = parent_id)) as [-> | Hne].
      * rewrite list_lookup_alter_eq in Hi.
        destruct ((t ++ [_]) !! parent_id) as [n0|] eqn:E; [|discriminate Hi].
        simpl in Hi. injection Hi as <-. simpl.
        eapply Hcase in E; [exact E | reflexivity].
      * rewrite list_lookup_alter_ne in Hi by congruence.
        eapply Hcase in Hi; [exact Hi | reflexivity].
    + eapply Hcase in Hi; [exact Hi | reflexivity].
  - destruct (negb (length t =? 0)); rewrite ?length_alter, length_app; simpl; lia.
Qed.

(** The calls that touch worker slots leave the parents alone. *)
Lemma with_workers_topological (t : context_tree.t) id n ws :
  context_tree.topological t ->
  t !! id = Some n ->
  context_tree.topological (<[id := context_tree.with_workers n ws]> t).
Proof.
  intros Ht Hn i m Hi.
  destruct (decide (i = id)) as [-> | Hne].
  - rewrite list_lookup_insert_eq in Hi by (eapply lookup_lt_Some; eauto).
    injection Hi as <-. simpl. exact (Ht id n Hn).
  - rewrite list_lookup_insert_ne in Hi by congruence. exact (Ht i m Hi).
Qed.

Lemma add_worker_topological (t : context_tree.t) id p t' w :
  context_tree.topological t ->
  context_tree.add_worker t id p = Ok (t', w) ->
  context_tree.topological t'.
Proof.
  unfold context_tree.add_worker, vector_at. intros Ht H.
  destruct (t !! id) as [n|] eqn:Hn; [|discriminate H].
  simpl in H. injection H as <- _. apply with_workers_topological; assumption.
Qed.

Lemma set_worker_parameters_topological (t : context_tree.t) id slot p t' :
  context_tree.topological t ->
  context_tree.set_worker_parameters t id slot p = Ok t' ->
  context_tree.topological t'.
Proof.
  unfold context_tree.set_worker_parameters, vector_at. intros Ht H.
  destruct (t !! id) as [n|] eqn:Hn; [|discriminate H]. simpl in H.
  destruct (context_tree.worker_parameters_ n !! slot); [|discriminate H].
  simpl in H. injection H as <-. apply with_workers_topological; assumption.
Qed.

Lemma empty_topological : context_tree.topological [].
Proof. intros i n H. rewrite lookup_nil in H. discriminate H. Qed.

(** C6. The nodes are constructed in place in the order of their ids.
    When the construction of node [k] is the first to throw, the nodes
    [k-1] down to [0] are destroyed in this order, the storage is freed, and
    the constructor of the node array, and with it the one of the scheduler,
    ends with the exception that was thrown. *)
Theorem C6_construction_unwinds
    (h : host) (t : context_tree.t) (k : nat) (e : exn)
    (exception_handler : exception_handler_type) (start_immediately : bool) :
  context_tree.topological t ->
  k < length t ->
  (forall i, i < k -> node_ctor_throws h i = None) ->
  node_ctor_throws h k = Some e ->
  node_array.ctor h t
    = (Throw e,
       (ev_construct <$> seq 0 k) ++ (ev_destroy <$> reverse (seq 0 k))
         ++ [ev_free_storage]) /\
  make h t exception_handler start_immediately
    = (Throw e,
       (ev_construct <$> seq 0 k) ++ (ev_destroy <$> reverse (seq 0 k))
         ++ [ev_free_storage]).
Proof.
  intros Htopo Hk Hnone He.
  assert (node_array.ctor h t
    = (Throw e,
       (ev_construct <$> seq 0 k) ++ (ev_destroy <$> reverse (seq 0 k))
         ++ [ev_free_storage])) as Hctor.
  { destruct (construct_loop_throws h t Htopo k e t [] [] []) as (arr' & Hloop & Hlen);
      auto.
    { simpl. lia. }
    unfold node_array.ctor. rewrite Hloop. simpl.
    rewrite Nat.sub_0_r, Hlen.
    unfold node_array.delete_nodes_. rewrite destroy_down_reverse.
    destruct (length t =? 0) eqn:Hz; [apply Nat.eqb_eq in Hz; lia|].
    reflexivity. }
  split; [exact Hctor|].
  unfold make. rewrite Hctor. reflexivity.
Qed.

Lemma C6_witness :
  node_array.ctor failing_host three_node_tree
    = (Throw (std_exception "bad_alloc"),
       [ev_construct 0; ev_construct 1; ev_destroy 1; ev_destroy 0; ev_free_storage]).
Proof.
  refine (proj1 (C6_construction_unwinds failing_host three_node_tree 2
                   (std_exception "bad_alloc") None true _ _ _ _)).
  - intros i n H. destruct i as [|[|[|i]]]; simpl in H; try discriminate H;
      injection H as <-; simpl; lia.
  - simpl. lia.
  - intros i Hi. destruct i as [|[|i]]; [reflexivity | reflexivity | lia].
  - reflexivity.
Defined.

Lemma realizes_linked (t : context_tree.t) (arr : list node) :
  realizes t arr -> linked t arr.
Proof.
  intros (Hlen & Hnodes). unfold linked. apply list_eq. intros i.
  rewrite !list_lookup_fmap.
  destruct (decide (i < length t)) as [Hi | Hi].
  - destruct (lookup_lt_is_Some_2 t i Hi) as [d Hd].
    destruct (Hnodes i d Hd) as (n & Hn & Hc & _).
    rewrite Hn, lookup_seq_lt by lia. simpl. rewrite Hc. reflexivity.
  - rewrite lookup_ge_None_2 by lia.
    rewrite lookup_ge_None_2 by (rewrite length_seq; lia). reflexivity.
Qed.

(** ** The breadth-first ordering *)

Section Children.

Variable t : context_tree.t.
Hypothesis Htopo : context_tree.topological t.

Lemma elem_of_children_upto k p c :
  c ∈ children_upto t k p <-> c < k /\ parent_of t c = p /\ c <> p.
Proof.
  unfold children_upto. rewrite list_elem_of_filter, elem_of_seq.
  split; [intros ((? & ?) & ?) | intros (? & ? & ?)]; repeat split; auto; lia.
Qed.

Lemma elem_of_children_of p c :
  c ∈ children_of t p <-> c < length t /\ parent_of t c = p /\ c <> p.
Proof. apply elem_of_children_upto. Qed.

Lemma children_of_above p c : c ∈ children_of t p -> p < c.
Proof.
  intros (_ & Hp & Hne)%elem_of_children_of.
  pose proof (parent_of_le t Htopo c). lia.
Qed.

Lemma NoDup_children_of p : NoDup (children_of t p).
Proof. apply list.NoDup_filter, NoDup_seq. Qed.

(** The children of a node are listed by increasing id, which is the
    order in which [add_context_] added them. *)
Lemma children_upto_increasing k p : forall i j a b,
  children_upto t k p !! i = Some a ->
  children_upto t k p !! j = Some b ->
  i < j -> a < b.
Proof.
  induction k as [|k IH]; intros i j a b Ha Hb Hij.
  - change (children_upto t 0 p) with (@nil nat) in Ha.
    rewrite lookup_nil in Ha. discriminate Ha.
  - rewrite children_upto_S in Ha, Hb.
    destruct (decide (j < length (children_upto t k p))) as [Hj | Hj].
    + rewrite lookup_app_l in Ha, Hb by lia. eauto.
    + rewrite lookup_app_l in Ha by (apply lookup_lt_Some in Hb;
        rewrite length_app in Hb; destruct (decide _); simpl in Hb; lia).
      apply list_elem_of_lookup_2, elem_of_children_upto in Ha.
      rewrite lookup_app_r in Hb by lia.
      destruct (decide _); [|rewrite lookup_nil in Hb; discriminate Hb].
      apply list_elem_of_lookup_2, list_elem_of_singleton in Hb. lia.
Qed.

Lemma parent_below x : 0 < x -> x < length t -> parent_of t x < x.
Proof.
  intros H0 Hx. unfold parent_of.
  destruct (lookup_lt_is_Some_2 t x Hx) as [d Hd]. rewrite Hd. simpl.
  destruct (Htopo x d Hd) as [[-> _] | [_ Hlt]]; lia.
Qed.

Lemma child_of_parent x : 0 < x -> x < length t -> x ∈ children_of t (parent_of t x).
Proof.
  intros H0 Hx. apply elem_of_children_of.
  pose proof (parent_below x H0 Hx). repeat split; auto. lia.
Qed.

End Children.

Section OrderNodes.

Variable t : context_tree.t.
Variable arr : list node.
Hypothesis Htopo : context_tree.topological t.
Hypothesis Hlinked : linked t arr.

Lemma linked_length : length arr = length t.
Proof.
  rewrite <- (length_fmap children_ptrs_ arr), Hlinked, length_fmap, length_seq.
  reflexivity.
Qed.

Lemma linked_children p :
  p < length t ->
  exists n, arr !! p = Some n /\ children_ptrs_ n = children_of t p.
Proof.
  intros Hp.
  assert ((children_ptrs_ <$> arr) !! p = Some (children_of t p)) as H.
  { rewrite Hlinked, list_lookup_fmap, lookup_seq_lt by lia. reflexivity. }
  rewrite list_lookup_fmap in H.
  destruct (arr !! p) as [n|]; [|discriminate H].
  simpl in H. injection H as H. eauto.
Qed.

(** The inner loop on children none of which is in the ordering yet:
    all of them are appended, in their order. *)
Lemma visit_children_fresh : forall cs ordered visited,
  visited_agrees (length t) visited ordered ->
  (forall c, c ∈ cs -> c < length t) ->
  NoDup cs ->
  (forall c, c ∈ cs -> c ∉ ordered) ->
  exists visited',
    visit_children cs ordered visited = Ok (ordered ++ cs, visited') /\
    visited_agrees (length t) visited' (ordered ++ cs).
Proof.
  induction cs as [|c rest IH]; intros ordered visited Hv Hlt Hnd Hfresh.
  - exists visited. simpl. rewrite app_nil_r. auto.
  - simpl. destruct Hv as (Hlen & Hv).
    rewrite Hv by (apply Hlt; left).
    rewrite bool_decide_eq_false_2 by (apply Hfresh; left).
    apply list.NoDup_cons in Hnd. destruct Hnd as (Hc & Hnd).
    destruct (IH (ordered ++ [c]) (<[c := true]> visited)) as (visited' & Hvis & Hv').
    + split; [rewrite length_insert; exact Hlen|].
      intros c' Hc'. destruct (decide (c' = c)) as [-> | Hne].
      * rewrite list_lookup_insert_eq by (rewrite Hlen; apply Hlt; left).
        rewrite bool_decide_eq_true_2; [reflexivity|].
        apply elem_of_app. right. left.
      * rewrite list_lookup_insert_ne by congruence.
        rewrite Hv by exact Hc'. f_equal.
        apply bool_decide_ext. rewrite elem_of_app, list_elem_of_singleton. tauto.
    + intros c' Hc'. apply Hlt. right. exact Hc'.
    + exact Hnd.
    + intros c' Hc' [Hin | Heq%list_elem_of_singleton]%elem_of_app.
      * apply (Hfresh c'); [right; exact Hc' | exact Hin].
      * subst c'. contradiction.
    + exists visited'. rewrite <- app_assoc in Hvis, Hv'. auto.
Qed.

(** Everything in the ordering but the root is a child of a node before
    the iterator. *)
Lemma order_invariant_elem ordered it x :
  order_invariant t ordered it ->
  x ∈ ordered ->
  x = 0 \/ exists j p, j < it /\ ordered !! j = Some p /\ x ∈ children_of t p.
Proof.
  intros (_ & _ & _ & _ & Heq & _) Hx.
  rewrite Heq in Hx. apply elem_of_app in Hx.
  destruct Hx as [->%list_elem_of_singleton | Hx]; [left; reflexivity|].
  right. apply list_elem_of_bind in Hx. destruct Hx as (p & Hxp & Hp).
  apply elem_of_take in Hp. destruct Hp as (j & Hj & Hlt). eauto.
Qed.

(** As long as nodes are missing, the iterator is inside the vector. *)
Lemma order_invariant_progress ordered it :
  order_invariant t ordered it ->
  length ordered < length t ->
  it < length ordered.
Proof.
  intros Hinv Hmissing.
  destruct (decide (it < length ordered)) as [|Hge]; [assumption|exfalso].
  pose proof Hinv as (Hnd & H0 & Hlt & Hit & Heq & Hpar).
  assert (forall x, x < length t -> x ∈ ordered) as Hall.
  { intros x. induction x as [x IHx] using lt_wf_ind. intros Hx.
    destruct (decide (x = 0)) as [-> | Hpos].
    - eapply list_elem_of_lookup_2. exact H0.
    - pose proof (parent_below t Htopo x ltac:(lia) Hx) as Hp.
      pose proof (IHx _ Hp ltac:(lia)) as Hin.
      rewrite Heq. apply elem_of_app. right.
      apply list_elem_of_bind. exists (parent_of t x). split.
      + apply child_of_parent; [exact Htopo | lia | exact Hx].
      + rewrite take_ge by lia. exact Hin. }
  assert (seq 0 (length t) ⊆+ ordered) as Hsub.
  { apply NoDup_submseteq; [apply NoDup_seq|].
    intros x Hx%elem_of_seq. apply Hall. lia. }
  apply submseteq_length in Hsub. rewrite length_seq in Hsub. lia.
Qed.

Lemma order_invariant_length ordered it :
  order_invariant t ordered it -> length ordered <= length t.
Proof.
  intros (Hnd & _ & Hlt & _).
  assert (ordered ⊆+ seq 0 (length t)) as Hsub.
  { apply NoDup_submseteq; [exact Hnd|].
    intros x Hx. apply elem_of_seq. specialize (Hlt x Hx). lia. }
  apply submseteq_length in Hsub. rewrite length_seq in Hsub. exact Hsub.
Qed.

(** One pass of the loop: the children of the node under the iterator
    are appended. *)
Lemma order_invariant_step ordered it p :
  order_invariant t ordered it ->
  ordered !! it = Some p ->
  (forall c, c ∈ children_of t p -> c ∉ ordered) /\
  order_invariant t (ordered ++ children_of t p) (S it).
Proof.
  intros Hinv Hp.
  pose proof Hinv as (Hnd & H0 & Hlt & Hit & Heq & Hpar).
  pose proof (lookup_lt_Some _ _ _ Hp) as Hitlt.
  assert (forall c, c ∈ children_of t p -> c ∉ ordered) as Hfresh.
  { intros c Hc Hin.
    destruct (order_invariant_elem _ _ _ Hinv Hin) as [-> | (j & p' & Hj & Hp' & Hc')].
    - apply children_of_above in Hc; [lia | exact Htopo].
    - apply elem_of_children_of in Hc, Hc'.
      assert (p' = p) as -> by (destruct Hc as (_ & <- & _); destruct Hc' as (_ & <- & _);
                                reflexivity).
      pose proof (NoDup_lookup _ _ _ _ Hnd Hp' Hp). lia. }
  split; [exact Hfresh|].
  split; [|split; [|split; [|split; [|split]]]].
  - apply list.NoDup_app. split; [exact Hnd|]. split.
    + intros x Hx Hc. exact (Hfresh x Hc Hx).
    + apply NoDup_children_of.
  - rewrite lookup_app_l by lia. exact H0.
  - intros x [Hx | Hx]%elem_of_app; [auto|].
    apply elem_of_children_of in Hx. tauto.
  - rewrite length_app. lia.
  - rewrite take_app_le by lia.
    rewrite (take_S_r _ _ _ Hp), bind_app, bind_singleton.
    rewrite app_assoc, <- Heq. reflexivity.
  - intros k x Hk Hpos.
    destruct (decide (k < length ordered)) as [Hlt' | Hge].
    + rewrite lookup_app_l in Hk by lia.
      destruct (Hpar k x Hk Hpos) as (j & Hjk & Hjit & Hj).
      exists j. rewrite lookup_app_l by lia. repeat split; auto.
    + rewrite lookup_app_r in Hk by lia.
      apply list_elem_of_lookup_2, elem_of_children_of in Hk.
      destruct Hk as (_ & Hpx & _).
      exists it. rewrite lookup_app_l by lia. rewrite Hpx.
      repeat split; auto; lia.
Qed.

(** The loop, with fuel for the passes that are left. *)
Lemma order_loop_ok : forall fuel ordered visited it,
  order_invariant t ordered it ->
  visited_agrees (length t) visited ordered ->
  length t <= fuel + it ->
  exists order it',
    order_loop fuel arr ordered visited it = Ok order /\
    order_invariant t order it' /\
    length order = length t.
Proof.
  induction fuel as [|fuel IH]; intros ordered visited it Hinv Hv Hfuel;
    pose proof (order_invariant_length _ _ Hinv) as Hle;
    pose proof linked_length as Hlen;
    simpl; rewrite Hlen;
    destruct (length ordered <? length t) eqn:Hmissing.
  - apply Nat.ltb_lt in Hmissing.
    pose proof (order_invariant_progress _ _ Hinv Hmissing). lia.
  - apply Nat.ltb_ge in Hmissing. exists ordered, it.
    split; [reflexivity|]. split; [exact Hinv | lia].
  - apply Nat.ltb_lt in Hmissing.
    pose proof (order_invariant_progress _ _ Hinv Hmissing) as Hit.
    destruct (lookup_lt_is_Some_2 _ _ Hit) as [p Hp]. rewrite Hp.
    assert (p < length t) as Hplt.
    { destruct Hinv as (_ & _ & Hlt & _). apply Hlt.
      eapply list_elem_of_lookup_2; eauto. }
    destruct (linked_children p Hplt) as (n & Hn & Hc). rewrite Hn, Hc.
    destruct (order_invariant_step _ _ _ Hinv Hp) as (Hfresh & Hinv').
    destruct (visit_children_fresh (children_of t p) ordered visited Hv)
      as (visited' & Hvis & Hv').
    + intros c Hcin. apply elem_of_children_of in Hcin. tauto.
    + apply NoDup_children_of.
    + exact Hfresh.
    + rewrite Hvis. simpl. apply IH; auto. lia.
  - apply Nat.ltb_ge in Hmissing. exists ordered, it.
    split; [reflexivity|]. split; [exact Hinv | lia].
Qed.

End OrderNodes.

Section OrderNodesResult.

Variable t : context_tree.t.
Variable arr : list node.
Hypothesis Htopo : context_tree.topological t.
Hypothesis Hlinked : linked t arr.
Hypothesis Hnonempty : 0 < length t.

(** [order_nodes_] returns, and what it returns satisfies the invariant
    of its loop and holds as many nodes as the tree. *)
Lemma order_nodes_ok :
  exists order it,
    order_nodes_ arr = Ok order /\
    order_invariant t order it /\
    length order = length t.
Proof.
  pose proof (linked_length t arr Hlinked) as Hlen.
  unfold order_nodes_. destruct arr as [|n0 arr0] eqn:Harr; [simpl in Hlen; lia|].
  rewrite <- Harr in *. rewrite Hlen.
  apply (order_loop_ok t arr Htopo Hlinked); [| |lia].
  - split; [|split; [|split; [|split; [|split]]]].
    + apply NoDup_singleton.
    + reflexivity.
    + intros x ->%list_elem_of_singleton. exact Hnonempty.
    + simpl. lia.
    + reflexivity.
    + intros k x Hk Hpos. destruct k; [lia|]. simpl in Hk.
      rewrite lookup_nil in Hk. discriminate Hk.
  - split; [rewrite length_insert, length_replicate; reflexivity|].
    intros c Hc. destruct (decide (c = 0)) as [-> | Hne].
    + rewrite list_lookup_insert_eq by (rewrite length_replicate; lia).
      rewrite bool_decide_eq_true_2; [reflexivity | left].
    + rewrite list_lookup_insert_ne by congruence.
      rewrite lookup_replicate_2 by lia.
      rewrite bool_decide_eq_false_2; [reflexivity|].
      intros ->%list_elem_of_singleton. congruence.
Qed.

Variable order : list nat.
Variable it : nat.
Hypothesis Hinv : order_invariant t order it.
Hypothesis Hlength : length order = length t.

(** Every node exactly once. *)
Lemma order_permutation : order ≡ₚ seq 0 (length t).
Proof.
  destruct Hinv as (Hnd & _ & Hlt & _).
  apply submseteq_length_Permutation.
  - apply NoDup_submseteq; [exact Hnd|].
    intros x Hx. apply elem_of_seq. specialize (Hlt x Hx). lia.
  - rewrite length_seq. lia.
Qed.

Lemma order_complete x : x < length t -> x ∈ order.
Proof.
  intros Hx. rewrite order_permutation. apply elem_of_seq. lia.
Qed.

(** Every node but the root after its parent. *)
Lemma order_parent_first x :
  0 < x -> x < length t -> before order (parent_of t x) x.
Proof.
  intros Hpos Hx.
  destruct (proj1 (list_elem_of_lookup _ _) (order_complete x Hx)) as (k & Hk).
  destruct Hinv as (_ & H0 & _ & _ & _ & Hpar).
  assert (0 < k) as Hkpos.
  { destruct k; [|lia]. rewrite H0 in Hk. injection Hk as <-. lia. }
  destruct (Hpar k x Hk Hkpos) as (j & Hjk & _ & Hj).
  exists j, k. auto.
Qed.

Lemma before_trans a b c :
  before order a b -> before order b c -> before order a c.
Proof.
  intros (i & j & Hi & Hj & Hij) (j' & k & Hj' & Hk & Hjk).
  destruct Hinv as (Hnd & _).
  pose proof (NoDup_lookup _ _ _ _ Hnd Hj Hj') as ->.
  exists i, k. repeat split; auto. lia.
Qed.

(** Every node after all the nodes it is below. *)
Lemma order_ancestors_first a d : descendant t a d -> before order a d.
Proof.
  induction 1 as [d Hpos Hd | a d Hpos Hd _ IH].
  - apply order_parent_first; assumption.
  - eapply before_trans; [exact IH|]. apply order_parent_first; assumption.
Qed.

(** The children of one node in the order in which they were added. *)
Lemma order_siblings a b :
  0 < a -> a < b -> b < length t -> parent_of t a = parent_of t b ->
  before order a b.
Proof.
  intros Hpos Hab Hb Hsame.
  pose proof (child_of_parent t Htopo a Hpos ltac:(lia)) as Ha'.
  pose proof (child_of_parent t Htopo b ltac:(lia) Hb) as Hb'.
  rewrite <- Hsame in Hb'.
  set (p := parent_of t a) in *.
  apply list_elem_of_lookup in Ha', Hb'.
  destruct Ha' as (i' & Hi'). destruct Hb' as (j' & Hj').
  assert (i' < j') as Hij.
  { destruct (decide (i' < j')) as [|Hge]; [assumption|exfalso].
    destruct (decide (i' = j')) as [-> | Hne]; [rewrite Hi' in Hj'; injection Hj'; lia|].
    pose proof (children_upto_increasing t _ _ _ _ _ _ Hj' Hi' ltac:(lia)). lia. }
  destruct (order_parent_first a Hpos ltac:(lia)) as (j & k & Hj & Hk & Hjk).
  fold p in Hj.
  pose proof Hinv as (Hnd & H0 & _ & _ & Heq & Hpar).
  assert (0 < k) as Hkpos by lia.
  destruct (Hpar k a Hk Hkpos) as (j0 & _ & Hj0it & Hj0). fold p in Hj0.
  pose proof (NoDup_lookup _ _ _ _ Hnd Hj Hj0) as <-.
  assert (take it order !! j = Some p) as Htake by (rewrite lookup_take_lt by lia; exact Hj).
  apply list_elem_of_split_length in Htake.
  destruct Htake as (l1 & l2 & Hsplit & _).
  rewrite Hsplit in Heq.
  rewrite bind_app, bind_cons in Heq.
  set (pre := [0] ++ l1 ≫= children_of t) in *.
  assert (order = pre ++ children_of t p ++ l2 ≫= children_of t) as Heq'.
  { rewrite Heq at 1. unfold pre. rewrite <- !app_assoc. reflexivity. }
  exists (length pre + i'), (length pre + j').
  rewrite Heq'. repeat split; [| |lia].
  - rewrite lookup_app_r by lia.
    replace (length pre + i' - length pre) with i' by lia.
    rewrite lookup_app_l by (eapply lookup_lt_Some; eauto). exact Hi'.
  - rewrite lookup_app_r by lia.
    replace (length pre + j' - length pre) with j' by lia.
    rewrite lookup_app_l by (eapply lookup_lt_Some; eauto). exact Hj'.
Qed.

(** The breadth-first equation: after the root come the children of the
    first node of the list, then those of the second, and so on. *)
Lemma order_breadth_first : order = 0 :: (order ≫= children_of t).
Proof.
  pose proof Hinv as (Hnd & H0 & Hlt & Hit & Heq & Hpar).
  rewrite <- (take_drop it order) at 2.
  rewrite bind_app.
  assert (drop it order ≫= children_of t = []) as ->.
  { apply elem_of_nil_inv. intros c Hc.
    apply list_elem_of_bind in Hc. destruct Hc as (x & Hcx & Hx).
    pose proof Hcx as (Hclt & Hcp & Hcne)%elem_of_children_of.
    pose proof (children_of_above t Htopo _ _ Hcx) as Habove.
    destruct (order_invariant_elem t order it c Hinv (order_complete c Hclt))
      as [-> | (j & p' & Hj & Hp' & Hc')]; [lia|].
    apply elem_of_children_of in Hc'. destruct Hc' as (_ & Hcp' & _).
    assert (p' = x) as -> by congruence.
    apply list_elem_of_lookup in Hx. destruct Hx as (k & Hk).
    rewrite lookup_drop in Hk.
    pose proof (NoDup_lookup _ _ _ _ Hnd Hp' Hk). lia. }
  rewrite app_nil_r. exact Heq.
Qed.

End OrderNodesResult.

(** ** Pins and launches, leaves first *)

Section StartWorkers.

Variable h : host.

Lemma fmap_alter_same {A B} (g : A -> B) (f : A -> A) (l : list A) i :
  (forall x, g (f x) = g x) -> g <$> alter f i l = g <$> l.
Proof.
  intros Hgf. revert i. induction l as [|x l IH]; intros i; [reflexivity|].
  destruct i; simpl; f_equal; [apply Hgf | apply IH].
Qed.

Lemma worker_slots_same nodes nodes' id :
  worker_parameters_ <$> nodes' = worker_parameters_ <$> nodes ->
  worker_slots nodes' id = worker_slots nodes id.
Proof.
  intros H. unfold worker_slots.
  assert ((worker_parameters_ <$> nodes') !! id = (worker_parameters_ <$> nodes) !! id)
    as Hid by (rewrite H; reflexivity).
  rewrite !list_lookup_fmap in Hid.
  destruct (nodes' !! id), (nodes !! id); simpl in *; congruence.
Qed.

Lemma start_events_same nodes nodes' ids :
  worker_parameters_ <$> nodes' = worker_parameters_ <$> nodes ->
  start_events nodes' ids = start_events nodes ids.
Proof.
  intros H. unfold start_events.
  induction ids as [|id ids IH]; [reflexivity|].
  rewrite !bind_cons, IH. unfold node_start_events.
  rewrite (worker_slots_same _ _ _ H). reflexivity.
Qed.

(** The launches of one node: all of them, or those before the first
    thread that cannot be started. *)
Lemma launch_workers_events id : forall params slot c r c',
  launch_workers h id slot params c = (r, c') ->
  exists evs,
    trace_ c' = trace_ c ++ evs /\
    evs `prefix_of` (ev_launch id <$> seq slot (length params)) /\
    worker_parameters_of c' = worker_parameters_of c /\
    state_ c' = state_ c /\ joined_ c' = joined_ c /\
    ((r = Ok tt /\ evs = ev_launch id <$> seq slot (length params)) \/
     (exists e, r = Throw e)) /\
    ((forall s, thread_ctor_throws h id s = None) -> r = Ok tt).
Proof.
  induction params as [|p rest IH]; intros slot c r c' H; simpl in H.
  - injection H as <- <-. exists []. rewrite app_nil_r.
    repeat split; auto; apply prefix_nil.
  - destruct (thread_ctor_throws h id slot) as [e|] eqn:Hthrow.
    + injection H as <- <-. exists []. rewrite app_nil_r.
      split; [reflexivity|]. split; [apply prefix_nil|].
      split; [reflexivity|]. split; [reflexivity|]. split; [reflexivity|].
      split; [right; eauto|].
      intros Hnone. rewrite Hnone in Hthrow. discriminate Hthrow.
    + apply IH in H. destruct H as (evs & Ht & Hpre & Hw & Hs & Hj & Hr & Hcalm).
      exists (ev_launch id slot :: evs).
      split; [rewrite Ht; simpl; rewrite <- app_assoc; reflexivity|].
      split; [simpl; apply prefix_cons; exact Hpre|].
      split; [rewrite Hw; unfold worker_parameters_of; simpl;
              apply fmap_alter_same; reflexivity|].
      split; [rewrite Hs; reflexivity|].
      split; [rewrite Hj; reflexivity|].
      split; [|exact Hcalm].
      destruct Hr as [[-> ->] | He]; [left; auto | right; exact He].
Qed.

(** The pins and launches of a list of nodes: all of them, or those
    before the first thread that cannot be started. *)
Lemma start_nodes_events : forall ids c r c',
  (forall id, id ∈ ids -> id < length (nodes_ c)) ->
  start_nodes h ids c = (r, c') ->
  exists evs,
    trace_ c' = trace_ c ++ evs /\
    evs `prefix_of` start_events (nodes_ c) ids /\
    worker_parameters_of c' = worker_parameters_of c /\
    state_ c' = state_ c /\ joined_ c' = joined_ c /\
    ((r = Ok tt /\ evs = start_events (nodes_ c) ids) \/ (exists e, r = Throw e)) /\
    ((forall id s, thread_ctor_throws h id s = None) -> r = Ok tt).
Proof.
  induction ids as [|id rest IH]; intros c r c' Hids H; simpl in H.
  - injection H as <- <-. exists []. rewrite app_nil_r.
    repeat split; auto; apply prefix_nil.
  - destruct (lookup_lt_is_Some_2 (nodes_ c) id (Hids id ltac:(left))) as [n Hn].
    rewrite Hn in H.
    destruct (launch_workers _ _ _ _ _) as [r1 c2] eqn:E.
    apply launch_workers_events in E.
    destruct E as (evs1 & Ht1 & Hpre1 & Hw1 & Hs1 & Hj1 & Hr1 & Hcalm1).
    assert (worker_parameters_of c2 = worker_parameters_of c) as Hw.
    { rewrite Hw1. unfold worker_parameters_of. simpl.
      apply fmap_alter_same. reflexivity. }
    assert (start_events (nodes_ c) (id :: rest)
            = ev_pin id :: (ev_launch id <$> seq 0 (length (worker_parameters_ n)))
                ++ start_events (nodes_ c) rest) as Hfull.
    { unfold start_events. rewrite bind_cons. unfold node_start_events at 1.
      unfold worker_slots. rewrite Hn. reflexivity. }
    rewrite Hfull.
    destruct Hr1 as [[-> ->] | (e & ->)].
    + apply IH in H.
      * destruct H as (evs2 & Ht2 & Hpre2 & Hw2 & Hs2 & Hj2 & Hr2 & Hcalm2).
        rewrite (start_events_same (nodes_ c) (nodes_ c2) rest Hw) in Hpre2, Hr2.
        exists (ev_pin id :: (ev_launch id <$> seq 0 (length (worker_parameters_ n)))
                  ++ evs2).
        split; [rewrite Ht2, Ht1; simpl; rewrite <- !app_assoc; reflexivity|].
        split; [apply prefix_cons, prefix_app; exact Hpre2|].
        split; [congruence|].
        split; [rewrite Hs2, Hs1; reflexivity|].
        split; [rewrite Hj2, Hj1; reflexivity|].
        split; [|exact Hcalm2].
        destruct Hr2 as [[-> ->] | He]; [left; auto | right; exact He].
      * intros id' Hid'.
        assert (length (nodes_ c2) = length (nodes_ c)) as ->.
        { rewrite <- (length_fmap worker_parameters_ (nodes_ c2)).
          rewrite <- (length_fmap worker_parameters_ (nodes_ c)).
          unfold worker_parameters_of in Hw. rewrite Hw. reflexivity. }
        apply Hids. right. exact Hid'.
    + injection H as <- <-.
      exists (ev_pin id :: evs1).
      split; [rewrite Ht1; simpl; rewrite <- !app_assoc; reflexivity|].
      split; [apply prefix_cons, prefix_app_r; exact Hpre1|].
      split; [exact Hw|].
      split; [rewrite Hs1; reflexivity|].
      split; [rewrite Hj1; reflexivity|].
      split; [right; eauto|].
      intros Hnone. specialize (Hcalm1 (Hnone id)). discriminate Hcalm1.
Qed.

End StartWorkers.

(** When a node is pinned, every node that comes before it in the list
    has been pinned and has all its threads. *)
Lemma pinned_after_earlier nodes (ids : list nat) evs i j d a :
  NoDup ids ->
  ids !! i = Some d -> ids !! j = Some a -> i < j ->
  evs `prefix_of` start_events nodes ids ->
  ev_pin a ∈ evs ->
  exists l1 l2 l3, evs = l1 ++ node_start_events nodes d ++ l2 ++ ev_pin a :: l3.
Proof.
  intros Hnd Hi Hj Hij (k & Hfull) Hpin.
  pose proof (take_drop_middle _ _ _ Hj) as Hsplit.
  unfold start_events in Hfull. rewrite <- Hsplit, bind_app, bind_cons in Hfull.
  set (P := take j ids ≫= node_start_events nodes) in *.
  set (R := drop (S j) ids ≫= node_start_events nodes) in *.
  assert (ev_pin a ∉ P) as HnotP.
  { intros Hin. apply list_elem_of_bind in Hin. destruct Hin as (x & Hx & Hxin).
    unfold node_start_events in Hx. apply elem_of_cons in Hx.
    destruct Hx as [Hx | Hx].
    - injection Hx as <-.
      apply elem_of_take in Hxin. destruct Hxin as (i' & Hi' & Hlt).
      pose proof (NoDup_lookup _ _ _ _ Hnd Hi' Hj). lia.
    - apply list_elem_of_fmap in Hx. destruct Hx as (s & Hs & _). discriminate Hs. }
  symmetry in Hfull. apply List.app_eq_app in Hfull.
  destruct Hfull as (l & [[Hevs Htail] | [HP _]]).
  - assert (ev_pin a ∈ l) as Hl.
    { rewrite Hevs in Hpin. apply elem_of_app in Hpin. tauto. }
    destruct l as [|e l']; [apply elem_of_nil in Hl; contradiction|].
    unfold node_start_events in Htail at 1. simpl in Htail.
    injection Htail as <- _.
    assert (take j ids !! i = Some d) as Htake by (rewrite lookup_take_lt by lia; exact Hi).
    pose proof (take_drop_middle _ _ _ Htake) as Hsplit'.
    exists (take i (take j ids) ≫= node_start_events nodes),
           (drop (S i) (take j ids) ≫= node_start_events nodes), l'.
    rewrite Hevs. unfold P. rewrite <- Hsplit' at 1.
    rewrite bind_app, bind_cons, <- !app_assoc. reflexivity.
  - exfalso. apply HnotP. rewrite HP. apply elem_of_app. left. exact Hpin.
Qed.

(** C4. For a tree with at least one node on a host where the nodes can
    be constructed: the scheduler is made, [order_nodes_] returns an ordering
    that holds every node exactly once, begins with the root and goes on with
    the children of its first node, then those of its second node, and so on
    (so every node comes after its parent, and the children of one node in
    the order in which they were added); between locking and its last store
    to the state, [start] pins the nodes and launches their threads, node
    after node along the reversed ordering, up to the end or up to the first
    thread that cannot be started (all of it, with a normal return and the
    state [running], when every thread can be); so whenever a node is pinned,
    every node below it has been pinned and has had all its threads launched
    before. *)
Theorem C4_breadth_first_then_leaves_first
    (h : host) (t : context_tree.t) (exception_handler : exception_handler_type) :
  context_tree.topological t ->
  0 < length t ->
  (forall i, node_ctor_throws h i = None) ->
  exists c order r c' evs,
    make h t exception_handler false = (Ok c, ev_construct <$> seq 0 (length t)) /\
    realizes t (nodes_ c) /\
    order_nodes_ (nodes_ c) = Ok order /\
    order ≡ₚ seq 0 (length t) /\
    order = 0 :: (order ≫= children_of t) /\
    (forall x, 0 < x -> x < length t -> before order (parent_of t x) x) /\
    (forall a b, 0 < a -> a < b -> b < length t -> parent_of t a = parent_of t b ->
       before order a b) /\
    start h c = (r, c') /\
    trace_ c' =
      trace_ c
      ++ [ev_lock stop_mutex_; ev_lock join_mutex_; ev_unlock join_mutex_;
          ev_state idle starting]
      ++ evs
      ++ [ev_state starting (state_ c'); ev_unlock stop_mutex_] /\
    evs `prefix_of` start_events (nodes_ c) (reverse order) /\
    ((forall id slot, thread_ctor_throws h id slot = None) ->
       r = Ok tt /\ state_ c' = running /\
       evs = start_events (nodes_ c) (reverse order)) /\
    (forall a d, descendant t a d -> ev_pin a ∈ evs ->
       exists l1 l2 l3,
         evs = l1 ++ node_start_events (nodes_ c) d ++ l2 ++ ev_pin a :: l3).
Proof.
  intros Htopo Hnonempty Hnodes.
  destruct (ctor_ok h t Htopo Hnodes) as (arr & Hctor & Hreal).
  pose proof (realizes_linked t arr Hreal) as Hlinked.
  destruct (order_nodes_ok t arr Htopo Hlinked Hnonempty)
    as (order & it & Horder & Hinv & Hlen).
  set (c := {| state_ := idle; nodes_ := arr; exception_handler_ := exception_handler;
               joined_ := false; trace_ := ev_construct <$> seq 0 (length t) |}).
  assert (length arr = length t) as Harr by (destruct Hreal; assumption).
  assert (nodes_empty c = false) as Hne.
  { unfold nodes_empty. simpl. apply Nat.eqb_neq. lia. }
  set (c2 := store_state starting
               (emit (ev_unlock join_mutex_)
                  (emit (ev_lock join_mutex_) (emit (ev_lock stop_mutex_) c)))).
  destruct (start_nodes h (reverse order) c2) as [r3 c3] eqn:Hstart.
  pose proof Hstart as Hevents. apply start_nodes_events in Hevents.
  2:{ intros id Hid. rewrite elem_of_reverse in Hid. simpl. rewrite Harr.
      pose proof Hinv as (_ & _ & Hlt & _). apply Hlt. exact Hid. }
  destruct Hevents as (evs & Ht3 & Hpre & _ & Hs3 & _ & Hr3 & Hcalm).
  assert (start h c
          = (r3, emit (ev_unlock stop_mutex_)
                   (store_state (match r3 with Ok _ => running | _ => idle end) c3)))
    as Hrun.
  { unfold start. rewrite Hne. fold c2. unfold start_workers_.
    assert (nodes_empty c2 = false) as -> by exact Hne.
    change (nodes_ c2) with arr. rewrite Horder, Hstart.
    destruct Hr3 as [[-> _] | (e & ->)]; reflexivity. }
  exists c, order, r3. eexists. exists evs.
  split; [unfold make; rewrite Hctor; reflexivity|].
  split; [exact Hreal|].
  split; [exact Horder|].
  split; [eapply order_permutation; eauto|].
  split; [eapply order_breadth_first; eauto|].
  split; [intros x; eapply order_parent_first; eauto|].
  split; [intros a b; eapply order_siblings; eauto|].
  split; [exact Hrun|].
  split; [|split; [exact Hpre|split]].
  - simpl. rewrite Ht3, Hs3. simpl. rewrite <- !app_assoc. reflexivity.
  - intros Hthreads. specialize (Hcalm Hthreads). subst r3.
    destruct Hr3 as [[_ ->] | (e & He)]; [|discriminate He]. auto.
  - intros a d Hdesc Hpin.
    assert (before order a d) as (i & j & Hi & Hj & Hij)
      by (eapply order_ancestors_first; eauto).
    pose proof (lookup_lt_Some _ _ _ Hi) as Hilt.
    pose proof (lookup_lt_Some _ _ _ Hj) as Hjlt.
    apply (pinned_after_earlier arr (reverse order) evs
             (length order - S j) (length order - S i) d a).
    + rewrite reverse_Permutation. destruct Hinv as (Hnd & _). exact Hnd.
    + rewrite reverse_lookup by lia.
      replace (length order - S (length order - S j)) with j by lia. exact Hj.
    + rewrite reverse_lookup by lia.
      replace (length order - S (length order - S i)) with i by lia. exact Hi.
    + lia.
    + exact Hpre.
    + exact Hpin.
Qed.

Lemma four_node_tree_topological : context_tree.topological four_node_tree.
Proof.
  intros i n H. destruct i as [|[|[|[|i]]]]; simpl in H; try discriminate H;
    injection H as <-; simpl; lia.
Qed.

Lemma C4_witness :
  exists c order r c' evs,
    make calm_host four_node_tree None false
      = (Ok c, ev_construct <$> seq 0 (length four_node_tree)) /\
    realizes four_node_tree (nodes_ c) /\
    order_nodes_ (nodes_ c) = Ok order /\
    order ≡ₚ seq 0 (length four_node_tree) /\
    order = 0 :: (order ≫= children_of four_node_tree) /\
    (forall x, 0 < x -> x < length four_node_tree ->
       before order (parent_of four_node_tree x) x) /\
    (forall a b, 0 < a -> a < b -> b < length four_node_tree ->
       parent_of four_node_tree a = parent_of four_node_tree b -> before order a b) /\
    start calm_host c = (r, c') /\
    trace_ c' =
      trace_ c
      ++ [ev_lock stop_mutex_; ev_lock join_mutex_; ev_unlock join_mutex_;
          ev_state idle starting]
      ++ evs
      ++ [ev_state starting (state_ c'); ev_unlock stop_mutex_] /\
    evs `prefix_of` start_events (nodes_ c) (reverse order) /\
    ((forall id slot, thread_ctor_throws calm_host id slot = None) ->
       r = Ok tt /\ state_ c' = running /\
       evs = start_events (nodes_ c) (reverse order)) /\
    (forall a d, descendant four_node_tree a d -> ev_pin a ∈ evs ->
       exists l1 l2 l3,
         evs = l1 ++ node_start_events (nodes_ c) d ++ l2 ++ ev_pin a :: l3).
Proof.
  apply (C4_breadth_first_then_leaves_first calm_host four_node_tree None).
  - exact four_node_tree_topological.
  - simpl. lia.
  - reflexivity.
Defined.

(** The same on the sample tree, by computation: the ordering is root,
    its children 1 and 3, then node 2; the pins and launches run through it
    backwards. *)
Example four_node_start :
  make calm_host four_node_tree None false
    = (Ok four_node_core, trace_ four_node_core) /\
  order_nodes_ (nodes_ four_node_core) = Ok [0; 1; 3; 2] /\
  trace_ (snd (start calm_host four_node_core))
    = trace_ four_node_core ++
      [ev_lock stop_mutex_; ev_lock join_mutex_; ev_unlock join_mutex_;
       ev_state idle starting;
       ev_pin 2; ev_launch 2 0;
       ev_pin 3; ev_launch 3 0; ev_launch 3 1;
       ev_pin 1; ev_launch 1 0;
       ev_pin 0; ev_launch 0 0;
       ev_state starting running; ev_unlock stop_mutex_].
Proof. repeat split. Qed.

(** ** The regimes of a worker *)

Section CollectChildren.

Variable t : context_tree.t.
Variable arr : list node.
Hypothesis Htopo : context_tree.topological t.
Hypothesis Hlinked : linked t arr.
Variable n0 : nat.

Lemma collect_invariant_length popped queue :
  collect_invariant t n0 popped queue ->
  length popped + length queue < length t \/ length t = 0.
Proof.
  intros (Hnd & Hx).
  assert (popped ++ queue ⊆+ seq 1 (length t - 1)) as Hsub.
  { apply NoDup_submseteq; [exact Hnd|].
    intros x Hin. apply elem_of_seq. specialize (Hx x Hin). lia. }
  apply submseteq_length in Hsub. rewrite length_seq, length_app in Hsub.
  destruct (length t); [right; reflexivity | left; lia].
Qed.

Lemma collect_invariant_pop popped p queue :
  collect_invariant t n0 popped (p :: queue) ->
  collect_invariant t n0 (popped ++ [p]) (queue ++ children_of t p).
Proof.
  intros (Hnd & Hx).
  assert (forall c, c ∈ children_of t p -> c ∉ popped ++ p :: queue) as Hfresh.
  { intros c Hc Hin.
    pose proof Hc as (_ & Hpc & _)%elem_of_children_of.
    destruct (Hx c Hin) as (_ & _ & [Hroot | Hpopped]).
    - rewrite Hpc in Hroot.
      destruct (Hx p) as (Hlt & _); [apply elem_of_app; right; left|]. lia.
    - rewrite Hpc in Hpopped.
      apply list.NoDup_app in Hnd. destruct Hnd as (_ & Hdisj & _).
      apply (Hdisj p Hpopped). left. }
  split.
  - rewrite <- app_assoc. simpl.
    replace (popped ++ p :: queue ++ children_of t p)
      with ((popped ++ p :: queue) ++ children_of t p)
      by (rewrite <- app_assoc; reflexivity).
    apply list.NoDup_app. split; [exact Hnd|]. split.
    + intros x Hin Hc. exact (Hfresh x Hc Hin).
    + apply NoDup_children_of.
  - intros x Hin.
    assert (x ∈ popped ++ p :: queue \/ x ∈ children_of t p) as [Hold | Hnew].
    { rewrite !elem_of_app in Hin. rewrite elem_of_app, elem_of_cons.
      rewrite list_elem_of_singleton in Hin. tauto. }
    + destruct (Hx x Hold) as (H1 & H2 & H3).
      split; [exact H1|]. split; [exact H2|].
      destruct H3 as [H3 | H3]; [left; exact H3|].
      right. apply elem_of_app. left. exact H3.
    + pose proof (children_of_above t Htopo _ _ Hnew) as Habove.
      pose proof Hnew as (Hlt & Hpar & _)%elem_of_children_of.
      destruct (Hx p) as (Hp & _); [apply elem_of_app; right; left|].
      split; [lia|]. split; [exact Hlt|].
      right. rewrite Hpar. apply elem_of_app. right. left.
Qed.

(** The loop returns with the fuel it is given: the nodes it has kept are
    nodes below [n0], none twice. *)
Lemma collect_child_contexts_ok : forall fuel queue popped kept,
  collect_invariant t n0 popped queue ->
  length t <= fuel + length popped ->
  NoDup kept ->
  (forall x, x ∈ kept -> x ∈ popped) ->
  exists children,
    collect_child_contexts fuel arr queue kept = Ok children /\
    NoDup children /\
    (forall x, x ∈ children -> n0 < x /\ x < length t).
Proof.
  induction fuel as [|fuel IH]; intros queue popped kept Hinv Hfuel Hnd Hkept.
  - destruct queue as [|p queue].
    + exists kept. split; [reflexivity|]. split; [exact Hnd|].
      intros x Hx. destruct Hinv as (_ & Hall).
      destruct (Hall x) as (H1 & H2 & _); [apply elem_of_app; left; auto | auto].
    + pose proof (collect_invariant_length _ _ Hinv) as Hlen. simpl in Hlen.
      destruct Hinv as (_ & Hall).
      destruct (Hall p) as (_ & H2 & _); [apply elem_of_app; right; left | lia].
  - destruct queue as [|p queue].
    + exists kept. split; [reflexivity|]. split; [exact Hnd|].
      intros x Hx. destruct Hinv as (_ & Hall).
      destruct (Hall x) as (H1 & H2 & _); [apply elem_of_app; left; auto | auto].
    + simpl.
      assert (p < length t) as Hp.
      { destruct Hinv as (_ & Hall).
        destruct (Hall p) as (_ & H2 & _); [apply elem_of_app; right; left | exact H2]. }
      destruct (linked_children t arr Hlinked p Hp) as (n & Hn & Hc).
      rewrite Hn, Hc.
      pose proof (collect_invariant_length _ _ Hinv) as Hlen. simpl in Hlen.
      apply (IH _ (popped ++ [p])).
      * apply collect_invariant_pop. exact Hinv.
      * rewrite length_app. simpl. lia.
      * destruct (enabled_ n); [|exact Hnd].
        apply list.NoDup_app. split; [exact Hnd|]. split; [|apply NoDup_singleton].
        intros x Hx ->%list_elem_of_singleton.
        destruct Hinv as (Hnd' & _).
        apply list.NoDup_app in Hnd'. destruct Hnd' as (_ & Hdisj & _).
        apply (Hdisj p (Hkept p Hx)). left.
      * intros x Hx. apply elem_of_app.
        destruct (enabled_ n); [|left; auto].
        apply elem_of_app in Hx. destruct Hx as [Hx | Hx]; [left; auto | right; exact Hx].
Qed.

(** [worker_get_child_contexts_to_run_] returns for the worker of every
    node of the tree. *)
Lemma worker_get_child_contexts_ok n params :
  n0 < length t ->
  arr !! n0 = Some n ->
  exists children,
    worker_get_child_contexts_to_run_ arr n params = Ok children /\
    NoDup children /\
    (forall x, x ∈ children -> n0 < x /\ x < length t).
Proof.
  intros Hn0 Hn. unfold worker_get_child_contexts_to_run_.
  destruct (negb _).
  - destruct (linked_children t arr Hlinked n0 Hn0) as (n' & Hn' & Hc).
    assert (n' = n) as -> by congruence. rewrite Hc.
    rewrite (linked_length t arr Hlinked).
    apply (collect_child_contexts_ok _ _ []).
    + split; [apply NoDup_children_of|].
      intros x Hx. simpl in Hx.
      pose proof (children_of_above t Htopo _ _ Hx).
      apply elem_of_children_of in Hx. destruct Hx as (H1 & H2 & _). auto.
    + simpl. lia.
    + constructor.
    + intros x Hx. apply elem_of_nil in Hx. contradiction.
  - exists []. split; [reflexivity|]. split; [constructor|].
    intros x Hx. apply elem_of_nil in Hx. contradiction.
Qed.

End CollectChildren.

(** [start] leaves the links between the nodes as they are, whatever
    happens to the threads. *)
Lemma launch_workers_links h id : forall params slot c r c',
  launch_workers h id slot params c = (r, c') ->
  children_ptrs_ <$> nodes_ c' = children_ptrs_ <$> nodes_ c.
Proof.
  induction params as [|p rest IH]; intros slot c r c' H; simpl in H.
  - injection H as _ <-. reflexivity.
  - destruct (thread_ctor_throws h id slot).
    + injection H as _ <-. reflexivity.
    + apply IH in H. rewrite H. simpl. apply fmap_alter_same. reflexivity.
Qed.

Lemma start_nodes_links h : forall ids c r c',
  start_nodes h ids c = (r, c') ->
  children_ptrs_ <$> nodes_ c' = children_ptrs_ <$> nodes_ c.
Proof.
  induction ids as [|id rest IH]; intros c r c' H; simpl in H.
  - injection H as _ <-. reflexivity.
  - destruct (nodes_ c !! id) as [n|]; [|injection H as _ <-; reflexivity].
    destruct (launch_workers _ _ _ _ _) as [r1 c2] eqn:E.
    apply launch_workers_links in E. simpl in E.
    rewrite fmap_alter_same in E by reflexivity.
    destruct r1; [apply IH in H; congruence | | |]; injection H as _ <-; exact E.
Qed.

Lemma start_keeps_linked h t c :
  linked t (nodes_ c) -> linked t (nodes_ (snd (start h c))).
Proof.
  unfold linked. intros Hl.
  assert (children_ptrs_ <$> nodes_ (snd (start h c)) = children_ptrs_ <$> nodes_ c)
    as ->; [|exact Hl].
  unfold start. destruct (nodes_empty c); [reflexivity|].
  destruct (start_workers_ h _) as [r c3] eqn:E.
  assert (children_ptrs_ <$> nodes_ c3 = children_ptrs_ <$> nodes_ c) as H3.
  { unfold start_workers_ in E.
    destruct (nodes_empty _); [injection E as _ <-; reflexivity|].
    destruct (order_nodes_ _); [|injection E as _ <-; reflexivity..].
    apply start_nodes_links in E. exact E. }
  destruct r; exact H3.
Qed.

Section SingleQueue.

Variable exception_handler : exception_handler_type.
Variable params : parameters.
Variable context : nat.

Lemma poll_context_polls r m :
  List.filter is_poll_action (snd (worker_poll_context_ exception_handler r context m))
    = [act_poll context m].
Proof.
  unfold worker_poll_context_.
  destruct (poll_outcome r context m) as [k|e| |]; try reflexivity.
  destruct (is_std_exception e); [|reflexivity].
  destruct exception_handler as [handler|]; [|reflexivity].
  destruct (handler e); reflexivity.
Qed.

Lemma poll_context_delays r m :
  List.filter is_delay_action (snd (worker_poll_context_ exception_handler r context m))
    = [].
Proof.
  unfold worker_poll_context_.
  destruct (poll_outcome r context m) as [k|e| |]; try reflexivity.
  destruct (is_std_exception e); [|reflexivity].
  destruct exception_handler as [handler|]; [|reflexivity].
  destruct (handler e); reflexivity.
Qed.

Lemma delay_polls : List.filter is_poll_action (worker_delay_ params) = [].
Proof. unfold worker_delay_. repeat case_match; reflexivity. Qed.

(** One pass of the loop, in full: the delay when the idle rounds have
    reached [delay_rounds] (and the count starts again), the call of [run],
    one more idle round when the io_context is stopped after it. *)
Lemma single_loop_pass wait_rounds r rest k a :
  state_eqb (seen_state r) stopping = false ->
  worker_poll_context_ exception_handler r context m_run = (Ok k, a) ->
  let delayed := delay_rounds params <=? wait_rounds in
  let wait_rounds1 := if delayed then 0 else wait_rounds in
  let wait_rounds2 := if stopped_after r context then S wait_rounds1 else wait_rounds1 in
  worker_run_single_loop exception_handler params context wait_rounds (r :: rest)
    = (fst (worker_run_single_loop exception_handler params context wait_rounds2 rest),
       (if delayed then worker_delay_ params else []) ++ a ++
       snd (worker_run_single_loop exception_handler params context wait_rounds2 rest)).
Proof.
  intros Hs Hp. simpl. rewrite Hs, Hp.
  destruct (worker_run_single_loop _ _ _ _ rest) as [o tr]. reflexivity.
Qed.

(** The only member function the loop calls is [run], and only on its
    one io_context. *)
Lemma single_loop_only_runs : forall rounds wait_rounds,
  exists k,
    List.filter is_poll_action
      (snd (worker_run_single_loop exception_handler params context wait_rounds rounds))
      = replicate k (act_poll context m_run) /\
    k <= length (live_rounds rounds).
Proof.
  induction rounds as [|r rest IH]; intros wait_rounds; simpl.
  - exists 0. split; [reflexivity | lia].
  - destruct (state_eqb (seen_state r) stopping); [exists 0; split; [reflexivity|simpl; lia]|].
    pose proof (poll_context_polls r m_run) as Hpolls.
    destruct (worker_poll_context_ exception_handler r context m_run) as [x a].
    simpl in Hpolls.
    assert (forall d, d = worker_delay_ params \/ d = [] ->
              List.filter is_poll_action d = []) as Hd.
    { intros d [-> | ->]; [apply delay_polls | reflexivity]. }
    destruct x as [n|e| |].
    + match goal with
      | |- context [worker_run_single_loop _ _ _ ?w rest] => destruct (IH w) as (k & Hk & Hle)
      end.
      destruct (worker_run_single_loop _ _ _ _ rest) as [o tr]. simpl in *.
      exists (S k). rewrite !List.filter_app, Hpolls, Hk, Hd.
      * split; [reflexivity | lia].
      * destruct (_ <=? _); auto.
    + exists 1. simpl. rewrite List.filter_app, Hpolls, Hd.
      * split; [reflexivity | lia].
      * destruct (_ <=? _); auto.
    + exists 1. simpl. rewrite List.filter_app, Hpolls, Hd.
      * split; [reflexivity | lia].
      * destruct (_ <=? _); auto.
    + exists 1. simpl. rewrite List.filter_app, Hpolls, Hd.
      * split; [reflexivity | lia].
      * destruct (_ <=? _); auto.
Qed.

(** When no call ends the worker, [run] is called once in every round
    before the first one that reads [stopping], and the thread function
    returns in that round. *)
Lemma single_loop_until_stopping : forall rounds wait_rounds,
  (forall r, r ∈ live_rounds rounds ->
     exists k a, worker_poll_context_ exception_handler r context m_run = (Ok k, a)) ->
  List.filter is_poll_action
    (snd (worker_run_single_loop exception_handler params context wait_rounds rounds))
    = replicate (length (live_rounds rounds)) (act_poll context m_run) /\
  fst (worker_run_single_loop exception_handler params context wait_rounds rounds)
    = (if length (live_rounds rounds) <? length rounds then returned else still_running).
Proof.
  induction rounds as [|r rest IH]; intros wait_rounds Hok; simpl in *.
  - auto.
  - destruct (state_eqb (seen_state r) stopping) eqn:Hs; [auto|].
    destruct (Hok r ltac:(left)) as (k & a & Hp).
    pose proof (poll_context_polls r m_run) as Hpolls.
    rewrite Hp in *. simpl in Hpolls.
    match goal with
    | |- context [worker_run_single_loop _ _ _ ?w rest] =>
      destruct (IH w) as (Hk & Ho)
    end.
    { intros r' Hr'. apply Hok. right. exact Hr'. }
    destruct (worker_run_single_loop _ _ _ _ rest) as [o tr]. simpl in *.
    rewrite !List.filter_app, Hpolls, Hk.
    assert (List.filter is_poll_action
              (if delay_rounds params <=? wait_rounds then worker_delay_ params else [])
            = []) as ->.
    { destruct (_ <=? _); [apply delay_polls | reflexivity]. }
    split; [reflexivity|]. rewrite Ho.
    change (S (length (live_rounds rest)) <? S (length rest))
      with (length (live_rounds rest) <? length rest). reflexivity.
Qed.

(** Without an io_context found stopped there is no idle round and no
    delay. *)
Lemma single_loop_no_delay : forall rounds wait_rounds,
  wait_rounds < delay_rounds params ->
  (forall r, r ∈ rounds -> stopped_after r context = false) ->
  List.filter is_delay_action
    (snd (worker_run_single_loop exception_handler params context wait_rounds rounds))
    = [].
Proof.
  induction rounds as [|r rest IH]; intros wait_rounds Hw Hns; simpl.
  - reflexivity.
  - destruct (state_eqb (seen_state r) stopping); [reflexivity|].
    assert ((delay_rounds params <=? wait_rounds) = false) as -> by (apply Nat.leb_gt; lia).
    rewrite (Hns r) by left.
    pose proof (poll_context_delays r m_run) as Hd.
    destruct (worker_poll_context_ exception_handler r context m_run) as [x a].
    simpl in Hd.
    destruct x; simpl; try exact Hd.
    specialize (IH wait_rounds Hw ltac:(intros r' Hr'; apply Hns; right; exact Hr')).
    destruct (worker_run_single_loop _ _ _ _ rest) as [o tr]. simpl in *.
    rewrite List.filter_app, Hd, IH. reflexivity.
Qed.

End SingleQueue.

(** The cascade of [worker_run_], case by case. *)
Lemma worker_regime_single_self self :
  worker_regime (Some self) [] = single_queue self.
Proof. reflexivity. Qed.

Lemma worker_regime_single_child child :
  worker_regime None [child] = single_queue child.
Proof. reflexivity. Qed.

Lemma worker_regime_multi self children :
  (self <> None \/ children <> []) ->
  ~ (exists context, (self = Some context /\ children = []) \/
                     (self = None /\ children = [context])) ->
  worker_regime self children = multi_queue self children.
Proof.
  intros Hnonempty Hnot. unfold worker_regime.
  destruct children as [|c1 [|c2 rest]], self as [s|]; simpl; try reflexivity.
  - exfalso. apply Hnot. exists s. left. auto.
  - destruct Hnonempty as [H | H]; congruence.
  - exfalso. apply Hnot. exists c1. right. auto.
Qed.

Lemma four_node_core_linked : linked four_node_tree (nodes_ four_node_core).
Proof. reflexivity. Qed.

(** * More of the tree builder *)

Section TreeBuilder.

Import context_tree.

Lemma add_context_lookup (t : context_tree.t) parent_id workers_count enabled hint :
  parent_id < length t \/ parent_id = 0 ->
  exists t',
    add_context_ t parent_id workers_count enabled hint = Ok (t', length t) /\
    length t' = S (length t) /\
    t' !! length t
      = Some {| parent_id_ := parent_id; children_count_ := 0;
                worker_parameters_ := replicate workers_count default_parameters;
                concurrency_hint_ := hint; enabled_ := enabled |} /\
    (forall i n, t !! i = Some n ->
       t' !! i = Some (if decide (i = parent_id) then incr_children n else n)).
Proof.
  intros Hp. unfold add_context_.
  assert ((length t <=? parent_id) && negb (parent_id =? 0) = false) as ->.
  { destruct Hp as [Hp | ->].
    - apply Nat.leb_gt in Hp. rewrite Hp. reflexivity.
    - apply andb_false_r. }
  destruct t as [|n0 t0] eqn:Et.
  - simpl. eexists. split; [reflexivity|]. split; [reflexivity|].
    split; [reflexivity|]. intros i n Hn. destruct i; discriminate.
  - rewrite <- Et in *.
    assert (parent_id < length t) as Hlt by (subst t; simpl in *; lia).
    assert (negb (length t =? 0) = true) as -> by (subst t; reflexivity).
    eexists. split; [reflexivity|].
    split; [rewrite length_alter, length_app; simpl; lia|].
    split.
    + rewrite list_lookup_alter_ne by lia.
      rewrite lookup_app_r by lia. rewrite Nat.sub_diag. reflexivity.
    + intros i n Hn. rewrite list_lookup_alter.
      destruct (decide (parent_id = i)) as [->|Hne].
      * rewrite lookup_app_l by lia. rewrite Hn. simpl.
        destruct (decide (i = i)); [reflexivity | congruence].
      * rewrite lookup_app_l by (eapply lookup_lt_Some; eauto). rewrite Hn.
        destruct (decide (i = parent_id)); [congruence | reflexivity].
Qed.

Lemma add_context_throws (t : context_tree.t) parent_id workers_count enabled hint :
  length t <= parent_id -> parent_id <> 0 ->
  add_context_ t parent_id workers_count enabled hint
    = Throw (out_of_range "Incorrect context parent id").
Proof.
  intros Hle Hne. unfold add_context_.
  apply Nat.leb_le in Hle. rewrite Hle.
  apply Nat.eqb_neq in Hne. rewrite Hne. reflexivity.
Qed.

(** Either the parent is a node of the tree (or is 0), or the call throws. *)
Lemma add_context_cases (t : context_tree.t) parent_id :
  (parent_id < length t \/ parent_id = 0) \/ (length t <= parent_id /\ parent_id <> 0).
Proof. lia. Qed.

Lemma parent_of_app_l (t : context_tree.t) (t' : context_tree.t) i :
  length t' = S (length t) ->
  (forall j n, t !! j = Some n -> exists n', t' !! j = Some n' /\ parent_id_ n' = parent_id_ n) ->
  i < length t -> parent_of t' i = parent_of t i.
Proof.
  intros Hlen Hsame Hi.
  destruct (lookup_lt_is_Some_2 t i Hi) as [n Hn].
  destruct (Hsame _ _ Hn) as (n' & Hn' & Hp).
  unfold parent_of. rewrite Hn, Hn'. simpl. exact Hp.
Qed.

Lemma children_upto_agree (t t' : context_tree.t) k p :
  (forall i, i < k -> parent_of t' i = parent_of t i) ->
  children_upto t' k p = children_upto t k p.
Proof.
  induction k as [|k IH]; intros H.
  - reflexivity.
  - rewrite !children_upto_S. rewrite IH by (intros; apply H; lia).
    rewrite H by lia. reflexivity.
Qed.

Lemma counted_add_context (t : context_tree.t) parent_id workers_count enabled hint t' id :
  topological t -> counted t ->
  add_context_ t parent_id workers_count enabled hint = Ok (t', id) ->
  counted t'.
Proof.
  intros Htopo Hcount Hadd.
  destruct (add_context_topological _ _ _ _ _ _ _ Htopo Hadd) as (Htopo' & -> & Hlen).
  destruct (add_context_cases t parent_id) as [Hp | [Hle Hne]];
    [| rewrite add_context_throws in Hadd by assumption; discriminate].
  destruct (add_context_lookup t parent_id workers_count enabled hint Hp)
    as (t2 & Hadd2 & _ & Hnew & Hold).
  rewrite Hadd in Hadd2. injection Hadd2 as <-.
  assert (forall i, i < length t -> parent_of t' i = parent_of t i) as Hpar.
  { intros i Hi. apply parent_of_app_l; [exact Hlen| |exact Hi].
    intros j n Hn. rewrite (Hold _ _ Hn). eexists. split; [reflexivity|].
    destruct (decide (j = parent_id)); reflexivity. }
  assert (parent_of t' (length t) = parent_id) as Hparnew.
  { unfold parent_of. rewrite Hnew. reflexivity. }
  intros p n' Hn'.
  unfold children_of. rewrite Hlen.
  destruct (decide (p = length t)) as [->|Hpne].
  - rewrite Hnew in Hn'. injection Hn' as <-. simpl.
    rewrite (children_upto_le t' Htopo') by lia. reflexivity.
  - assert (p < length t) as Hplt.
    { apply lookup_lt_Some in Hn'. lia. }
    destruct (lookup_lt_is_Some_2 t p Hplt) as [n Hn].
    rewrite (Hold _ _ Hn) in Hn'. injection Hn' as <-.
    rewrite children_upto_S, (children_upto_agree t t') by exact Hpar.
    rewrite Hparnew, length_app.
    pose proof (Hcount _ _ Hn) as Hc. unfold children_of in Hc.
    destruct (decide (p = parent_id)) as [->|Hpp].
    + destruct (decide (parent_id = parent_id /\ length t <> parent_id)) as [_|Hno];
        [| exfalso; apply Hno; split; [reflexivity | lia]].
      simpl. lia.
    + destruct (decide (parent_id = p /\ length t <> p)) as [[Heq _]|_];
        [congruence|].
      simpl. lia.
Qed.

Lemma children_of_with_workers (t : context_tree.t) id n ws p :
  t !! id = Some n ->
  children_of (<[id := with_workers n ws]> t) p = children_of t p.
Proof.
  intros Hn. unfold children_of. rewrite length_insert.
  apply children_upto_agree. intros i _. unfold parent_of.
  destruct (decide (i = id)) as [->|Hne].
  - rewrite list_lookup_insert_eq by (eapply lookup_lt_Some; eauto).
    rewrite Hn. reflexivity.
  - rewrite list_lookup_insert_ne by congruence. reflexivity.
Qed.

Lemma counted_with_workers (t : context_tree.t) id n ws :
  counted t -> t !! id = Some n -> counted (<[id := with_workers n ws]> t).
Proof.
  intros Hcount Hn p n' Hn'.
  rewrite (children_of_with_workers _ _ _ _ _ Hn).
  destruct (decide (p = id)) as [->|Hne].
  - rewrite list_lookup_insert_eq in Hn' by (eapply lookup_lt_Some; eauto).
    injection Hn' as <-. simpl. apply (Hcount _ _ Hn).
  - rewrite list_lookup_insert_ne in Hn' by congruence. apply (Hcount _ _ Hn').
Qed.

Lemma in_range_fixed p : in_range (fixed_worker_parameters_ p) = true.
Proof.
  destruct (fixed_is_in_range p) as (H1 & H2 & H3 & H4).
  unfold in_range. rewrite H1, H2, H4.
  apply Nat.leb_le in H3. rewrite H3. reflexivity.
Qed.

Lemma in_range_is_fixed p : in_range p = true -> fixed_worker_parameters_ p = p.
Proof.
  unfold in_range. intros H.
  apply andb_prop in H as [H H4]. apply andb_prop in H as [H H3].
  apply andb_prop in H as [H1 H2]. apply Nat.leb_le in H3.
  apply fixed_in_range; assumption.
Qed.

Lemma all_in_range_add_context (t : context_tree.t) parent_id workers_count enabled hint
    t' id :
  all_in_range t ->
  add_context_ t parent_id workers_count enabled hint = Ok (t', id) ->
  all_in_range t'.
Proof.
  intros Hall Hadd.
  destruct (add_context_cases t parent_id) as [Hp | [Hle Hne]];
    [| rewrite add_context_throws in Hadd by assumption; discriminate].
  destruct (add_context_lookup t parent_id workers_count enabled hint Hp)
    as (t2 & Hadd2 & Hlen & Hnew & Hold).
  rewrite Hadd in Hadd2. injection Hadd2 as <- ->.
  intros i slot p. unfold stored.
  destruct (decide (i < length t)) as [Hi|Hi].
  - destruct (lookup_lt_is_Some_2 t i Hi) as [n Hn].
    rewrite (Hold _ _ Hn). simpl.
    intros Hs. apply (Hall i slot p). unfold stored. rewrite Hn. simpl.
    destruct (decide (i = parent_id)); exact Hs.
  - destruct (decide (i = length t)) as [->|Hne].
    + rewrite Hnew. simpl. intros Hs.
      apply lookup_replicate in Hs as [-> _]. reflexivity.
    + rewrite lookup_ge_None_2 by lia. discriminate.
Qed.

Lemma all_in_range_with_workers (t : context_tree.t) id n ws :
  all_in_range t -> t !! id = Some n ->
  (forall slot p, ws !! slot = Some p -> in_range p = true) ->
  all_in_range (<[id := with_workers n ws]> t).
Proof.
  intros Hall Hn Hws i slot p. unfold stored.
  destruct (decide (i = id)) as [->|Hne].
  - rewrite list_lookup_insert_eq by (eapply lookup_lt_Some; eauto). simpl.
    apply Hws.
  - rewrite list_lookup_insert_ne by congruence. apply (Hall i slot p).
Qed.

Lemma stored_in_node (t : context_tree.t) id n slot p :
  all_in_range t -> t !! id = Some n ->
  worker_parameters_ n !! slot = Some p -> in_range p = true.
Proof.
  intros Hall Hn Hp. apply (Hall id slot p). unfold stored. rewrite Hn. exact Hp.
Qed.

(** Each public call keeps the three properties. *)
Lemma well_formed_call (t : context_tree.t) (c : tree_call) :
  well_formed t -> well_formed (run_tree_call t c).
Proof.
  intros (Htopo & Hcount & Hall).
  destruct c as [parent_id workers_count enabled hint | id slot p | id p | id];
    simpl.
  - destruct (add_context_ t parent_id workers_count enabled hint)
      as [[t' i]| | |] eqn:E; try (repeat split; assumption).
    split; [eapply add_context_topological; eauto|].
    split; [eapply counted_add_context; eauto | eapply all_in_range_add_context; eauto].
  - destruct (set_worker_parameters t id slot p) as [t'| | |] eqn:E;
      try (repeat split; assumption).
    split; [eapply set_worker_parameters_topological; eauto|].
    unfold set_worker_parameters, vector_at in E.
    destruct (t !! id) as [n|] eqn:Hn; [|discriminate]. simpl in E.
    destruct (worker_parameters_ n !! slot) as [old|] eqn:Hold; [|discriminate].
    simpl in E. injection E as <-.
    split; [apply counted_with_workers; assumption|].
    apply all_in_range_with_workers; [assumption..|].
    intros s q Hq.
    destruct (decide (s = slot)) as [->|Hne].
    + rewrite list_lookup_insert_eq in Hq by (eapply lookup_lt_Some; eauto).
      injection Hq as <-. apply in_range_fixed.
    + rewrite list_lookup_insert_ne in Hq by congruence.
      eapply stored_in_node; eauto.
  - destruct (add_worker t id p) as [[t' w]| | |] eqn:E;
      try (repeat split; assumption).
    split; [eapply add_worker_topological; eauto|].
    unfold add_worker, vector_at in E.
    destruct (t !! id) as [n|] eqn:Hn; [|discriminate]. simpl in E.
    injection E as <- <-.
    split; [apply counted_with_workers; assumption|].
    apply all_in_range_with_workers; [assumption..|].
    intros s q Hq. apply lookup_app_Some in Hq as [Hq | [_ Hq]].
    + eapply stored_in_node; eauto.
    + apply list_lookup_singleton_Some in Hq as [_ <-]. apply in_range_fixed.
  - destruct (add_worker_default t id) as [[t' w]| | |] eqn:E;
      try (repeat split; assumption).
    unfold add_worker_default, vector_at in E.
    destruct (t !! id) as [n|] eqn:Hn; [|discriminate]. simpl in E.
    injection E as <- <-.
    split; [apply with_workers_topological; assumption|].
    split; [apply counted_with_workers; assumption|].
    apply all_in_range_with_workers; [assumption..|].
    intros s q Hq. apply lookup_app_Some in Hq as [Hq | [_ Hq]].
    + eapply stored_in_node; eauto.
    + apply list_lookup_singleton_Some in Hq as [_ <-]. reflexivity.
Qed.

Lemma well_formed_empty : well_formed context_tree.empty.
Proof.
  split; [apply empty_topological|].
  split.
  - intros p n Hn. destruct p; discriminate.
  - intros id slot p Hs. unfold stored in Hs. destruct id; discriminate.
Qed.

Lemma well_formed_foldl (calls : list tree_call) : forall t,
  well_formed t -> well_formed (foldl run_tree_call t calls).
Proof.
  induction calls as [|c calls IH]; intros t Ht; simpl.
  - exact Ht.
  - apply IH. apply well_formed_call. exact Ht.
Qed.

Lemma build_tree_well_formed calls : well_formed (build_tree calls).
Proof. apply well_formed_foldl. apply well_formed_empty. Qed.

End TreeBuilder.

(** X1. [add_context_] (and so each [add_context]) throws
    [out_of_range] when the parent id is neither an existing node nor 0;
    otherwise it returns the previous size as the new id, appends one node
    with the given parent, flag and hint and [workers_count] default worker
    records, and changes nothing in the old nodes but the child counter of
    the parent. *)
Theorem X1_add_context_appends
    (t : context_tree.t) (parent_id workers_count : nat) (enabled : bool)
    (hint : option Z) :
  (length t <= parent_id -> parent_id <> 0 ->
     context_tree.add_context_ t parent_id workers_count enabled hint
       = Throw (out_of_range "Incorrect context parent id") /\
     context_tree.add_context t parent_id workers_count enabled
       = Throw (out_of_range "Incorrect context parent id")) /\
  (parent_id < length t \/ parent_id = 0 ->
     exists t',
       context_tree.add_context_ t parent_id workers_count enabled hint
         = Ok (t', length t) /\
       length t' = S (length t) /\
       t' !! length t
         = Some {| context_tree.parent_id_ := parent_id;
                   context_tree.children_count_ := 0;
                   context_tree.worker_parameters_ :=
                     replicate workers_count default_parameters;
                   context_tree.concurrency_hint_ := hint;
                   context_tree.enabled_ := enabled |} /\
       (forall i n, t !! i = Some n ->
          t' !! i = Some (if decide (i = parent_id)
                          then context_tree.incr_children n else n))).
Proof.
  split.
  - intros Hle Hne. split; [|unfold context_tree.add_context];
      apply add_context_throws; assumption.
  - apply add_context_lookup.
Qed.

Lemma X1_witness :
  context_tree.add_context_ one_node_tree 5 2 true None
    = Throw (out_of_range "Incorrect context parent id") /\
  exists t',
    context_tree.add_context_ one_node_tree 0 2 false (Some 4%Z) = Ok (t', 1) /\
    length t' = 2 /\
    context_tree.children_count_ <$> t' !! 0 = Some 1.
Proof.
  destruct (X1_add_context_appends one_node_tree 5 2 true None) as [Hbad _].
  destruct (X1_add_context_appends one_node_tree 0 2 false (Some 4%Z)) as [_ Hgood].
  split.
  - apply Hbad; simpl; lia.
  - destruct (Hgood (or_intror eq_refl)) as (t' & Hadd & Hlen & _ & Hold).
    exists t'. split; [exact Hadd|]. split; [exact Hlen|].
    rewrite (Hold 0 _ eq_refl). reflexivity.
Defined.

(** X2. Whatever calls a program makes on a default-constructed
    [context_tree], in whatever order and whether they throw or not, the
    tree it holds has node 0 as its own parent and every other parent below
    its child, the child counter of every node equal to the number of its
    children, and every stored worker record in range. *)
Theorem X2_built_tree_is_well_formed (calls : list tree_call) :
  context_tree.topological (build_tree calls) /\
  counted (build_tree calls) /\
  all_in_range (build_tree calls).
Proof. apply build_tree_well_formed. Qed.

(** X3. [set_worker_parameters] returns exactly when the node and the
    slot exist, and throws [out_of_range] from [vector::at] otherwise. When
    it returns, the tree has the same nodes with the same parents, counters
    and flags, and every other slot of every node holds what it held. *)
Theorem X3_set_worker_parameters_checked
    (t : context_tree.t) (id slot : nat) (p : parameters) :
  match context_tree.set_worker_parameters t id slot p with
  | Ok t' =>
    is_Some (context_tree.stored t id slot) /\
    length t' = length t /\
    context_tree.parent_id_ <$> t' = context_tree.parent_id_ <$> t /\
    context_tree.children_count_ <$> t' = context_tree.children_count_ <$> t /\
    context_tree.enabled_ <$> t' = context_tree.enabled_ <$> t /\
    (forall slot', is_Some (context_tree.stored t' id slot')
                   <-> is_Some (context_tree.stored t id slot')) /\
    (forall id' slot', (id', slot') <> (id, slot) ->
       context_tree.stored t' id' slot' = context_tree.stored t id' slot')
  | Throw e => e = out_of_range "vector::at" /\ context_tree.stored t id slot = None
  | _ => False
  end.
Proof.
  unfold context_tree.set_worker_parameters, context_tree.stored, vector_at.
  destruct (t !! id) as [n|] eqn:Hn; simpl; [|split; reflexivity].
  destruct (context_tree.worker_parameters_ n !! slot) as [old|] eqn:Hold; simpl;
    [|split; reflexivity].
  assert (id < length t) as Hid by (eapply lookup_lt_Some; eauto).
  assert (slot < length (context_tree.worker_parameters_ n)) as Hslot
    by (eapply lookup_lt_Some; eauto).
  split; [eexists; reflexivity|].
  split; [apply length_insert|].
  assert (forall {B} (g : context_tree.node -> B) ws,
            g (context_tree.with_workers n ws) = g n ->
            g <$> <[id := context_tree.with_workers n ws]> t = g <$> t) as Hfmap.
  { intros B g ws Hg. apply list_eq. intros i.
    rewrite !list_lookup_fmap.
    destruct (decide (i = id)) as [->|Hne].
    - rewrite list_lookup_insert_eq by exact Hid. rewrite Hn. simpl. congruence.
    - rewrite list_lookup_insert_ne by congruence. reflexivity. }
  split; [apply Hfmap; reflexivity|].
  split; [apply Hfmap; reflexivity|].
  split; [apply Hfmap; reflexivity|].
  split.
  - intros slot'. rewrite list_lookup_insert_eq by exact Hid. simpl.
    rewrite !lookup_lt_is_Some, length_insert. reflexivity.
  - intros id' slot' Hne.
    destruct (decide (id' = id)) as [->|Hid'].
    + rewrite list_lookup_insert_eq by exact Hid. rewrite Hn. simpl.
      apply list_lookup_insert_ne. congruence.
    + rewrite list_lookup_insert_ne by congruence. reflexivity.
Qed.

(** X4. Both [add_worker] overloads return exactly when the node exists
    and throw [out_of_range] otherwise. When they return, the new worker id
    is the number of slots the node had, the node has one slot more, holding
    the normalized record (or the default record), and every slot that was
    there holds what it held. *)
Theorem X4_add_worker_appends (t : context_tree.t) (id : nat) (p : parameters) :
  match context_tree.add_worker t id p, context_tree.add_worker_default t id with
  | Ok (t1, w1), Ok (t2, w2) =>
    exists n,
      t !! id = Some n /\
      w1 = length (context_tree.worker_parameters_ n) /\ w2 = w1 /\
      length t1 = length t /\ length t2 = length t /\
      context_tree.stored t1 id w1 = Some (fixed_worker_parameters_ p) /\
      context_tree.stored t2 id w2 = Some default_parameters /\
      context_tree.stored t1 id (S w1) = None /\
      context_tree.stored t2 id (S w2) = None /\
      (forall id' slot', (id', slot') <> (id, w1) ->
         context_tree.stored t1 id' slot' = context_tree.stored t id' slot' /\
         context_tree.stored t2 id' slot' = context_tree.stored t id' slot')
  | Throw e1, Throw e2 =>
    e1 = out_of_range "vector::at" /\ e2 = e1 /\ length t <= id
  | _, _ => False
  end.
Proof.
  unfold context_tree.add_worker, context_tree.add_worker_default,
    context_tree.stored, vector_at.
  destruct (t !! id) as [n|] eqn:Hn; simpl.
  - assert (id < length t) as Hid by (eapply lookup_lt_Some; eauto).
    exists n. split; [reflexivity|]. split; [reflexivity|]. split; [reflexivity|].
    split; [apply length_insert|]. split; [apply length_insert|].
    rewrite !list_lookup_insert_eq by exact Hid. simpl.
    split; [rewrite lookup_app_r, Nat.sub_diag by lia; reflexivity|].
    split; [rewrite lookup_app_r, Nat.sub_diag by lia; reflexivity|].
    split; [apply lookup_ge_None_2; rewrite length_app; simpl; lia|].
    split; [apply lookup_ge_None_2; rewrite length_app; simpl; lia|].
    intros id' slot' Hne.
    destruct (decide (id' = id)) as [->|Hid'].
    + rewrite !list_lookup_insert_eq by exact Hid. rewrite Hn. simpl.
      assert (slot' <> length (context_tree.worker_parameters_ n)) by congruence.
      destruct (decide (slot' < length (context_tree.worker_parameters_ n))).
      * rewrite !lookup_app_l by lia. split; reflexivity.
      * rewrite !lookup_ge_None_2 by (rewrite ?length_app; simpl; lia).
        split; reflexivity.
    + rewrite !list_lookup_insert_ne by congruence. split; reflexivity.
  - split; [reflexivity|]. split; [reflexivity|].
    apply lookup_ge_None_1. exact Hn.
Qed.

(** X5. [fixed_worker_parameters_] always returns a record in range, and
    leaves a record in range as it is; so it is idempotent. *)
Theorem X5_fixed_worker_parameters_idempotent (p : parameters) :
  in_range (fixed_worker_parameters_ p) = true /\
  fixed_worker_parameters_ (fixed_worker_parameters_ p) = fixed_worker_parameters_ p /\
  (fixed_worker_parameters_ p = p <-> in_range p = true).
Proof.
  split; [apply in_range_fixed|].
  split; [apply in_range_is_fixed, in_range_fixed|].
  split.
  - intros <-. apply in_range_fixed.
  - apply in_range_is_fixed.
Qed.

(** * More of the scheduler *)

(** ** Launches and joins among the events *)

Lemma launched_slots_app id l k :
  launched_slots id (l ++ k) = launched_slots id l ++ launched_slots id k.
Proof.
  induction l as [|e l IH]; [reflexivity|].
  destruct e; simpl; try exact IH.
  case_match; simpl; rewrite IH; reflexivity.
Qed.

Lemma joined_slots_app id l k :
  joined_slots id (l ++ k) = joined_slots id l ++ joined_slots id k.
Proof.
  induction l as [|e l IH]; [reflexivity|].
  destruct e; simpl; try exact IH.
  case_match; simpl; rewrite IH; reflexivity.
Qed.

Lemma launched_slots_fmap {A} (f : A -> event) id (l : list A) :
  (forall x, launched_slots id [f x] = []) -> launched_slots id (f <$> l) = [].
Proof.
  intros H. induction l as [|x l IH]; [reflexivity|].
  change (f <$> x :: l) with ([f x] ++ (f <$> l)).
  rewrite launched_slots_app, H, IH. reflexivity.
Qed.

Lemma joined_slots_fmap {A} (f : A -> event) id (l : list A) :
  (forall x, joined_slots id [f x] = []) -> joined_slots id (f <$> l) = [].
Proof.
  intros H. induction l as [|x l IH]; [reflexivity|].
  change (f <$> x :: l) with ([f x] ++ (f <$> l)).
  rewrite joined_slots_app, H, IH. reflexivity.
Qed.

Lemma joined_slots_join_events id j n :
  joined_slots id (join_events j n) = if j =? id then thread_slot <$> workers_ n else [].
Proof.
  unfold join_events. generalize (workers_ n). intros ws.
  induction ws as [|w ws IH].
  - simpl. destruct (j =? id); reflexivity.
  - rewrite !fmap_cons. cbn [joined_slots]. rewrite IH.
    destruct (j =? id); reflexivity.
Qed.

Lemma launched_slots_join_events id j n : launched_slots id (join_events j n) = [].
Proof. apply launched_slots_fmap. reflexivity. Qed.

Lemma all_join_events_snoc nodes n :
  all_join_events (nodes ++ [n]) = all_join_events nodes ++ join_events (length nodes) n.
Proof.
  unfold all_join_events. rewrite imap_app, join_app. simpl.
  rewrite Nat.add_0_r, app_nil_r. reflexivity.
Qed.

Lemma joined_slots_all_join_events id nodes :
  joined_slots id (all_join_events nodes)
    = from_option (fun n => thread_slot <$> workers_ n) [] (nodes !! id).
Proof.
  induction nodes as [|n nodes IH] using rev_ind.
  - destruct id; reflexivity.
  - rewrite all_join_events_snoc, joined_slots_app, IH, joined_slots_join_events.
    destruct (decide (id < length nodes)) as [Hlt|Hge].
    + rewrite lookup_app_l by exact Hlt.
      assert ((length nodes =? id) = false) as -> by (apply Nat.eqb_neq; lia).
      apply app_nil_r.
    + rewrite (lookup_ge_None_2 nodes) by lia. simpl.
      destruct (decide (id = length nodes)) as [->|Hne].
      * rewrite Nat.eqb_refl, lookup_app_r, Nat.sub_diag by lia. reflexivity.
      * assert ((length nodes =? id) = false) as -> by (apply Nat.eqb_neq; lia).
        rewrite lookup_ge_None_2 by (rewrite length_app; simpl; lia). reflexivity.
Qed.

Lemma launched_slots_all_join_events id nodes :
  launched_slots id (all_join_events nodes) = [].
Proof.
  induction nodes as [|n nodes IH] using rev_ind; [reflexivity|].
  rewrite all_join_events_snoc, launched_slots_app, IH, launched_slots_join_events.
  reflexivity.
Qed.

Lemma all_join_events_same nodes nodes' :
  workers_ <$> nodes' = workers_ <$> nodes ->
  all_join_events nodes' = all_join_events nodes.
Proof.
  intros H. unfold all_join_events.
  assert (forall l : list node,
            imap join_events l
              = imap (fun i ws => (fun w => ev_join_thread i (thread_slot w)) <$> ws)
                  (workers_ <$> l)) as Himap.
  { intros l. rewrite imap_fmap. reflexivity. }
  rewrite !Himap, H. reflexivity.
Qed.

Lemma pending_same c c' :
  workers_ <$> nodes_ c' = workers_ <$> nodes_ c -> forall i, pending c' i = pending c i.
Proof.
  intros H i. unfold pending.
  assert (workers_ <$> nodes_ c' !! i = workers_ <$> nodes_ c !! i) as Hi
    by (rewrite <- !list_lookup_fmap, H; reflexivity).
  destruct (nodes_ c' !! i), (nodes_ c !! i); simpl in *; congruence.
Qed.

(** ** Launching *)

Lemma launches_refl c : launches c c.
Proof.
  exists []. rewrite app_nil_r. repeat split; auto.
  intros i. rewrite app_nil_r. reflexivity.
Qed.

Lemma launches_trans c1 c2 c3 : launches c1 c2 -> launches c2 c3 -> launches c1 c3.
Proof.
  intros (e1 & Ht1 & Hl1 & Hp1 & Hj1) (e2 & Ht2 & Hl2 & Hp2 & Hj2).
  exists (e1 ++ e2).
  split; [rewrite Ht2, Ht1, app_assoc; reflexivity|].
  split; [congruence|].
  split.
  - intros i. rewrite Hp2, Hp1, launched_slots_app, app_assoc. reflexivity.
  - intros i. rewrite joined_slots_app, Hj1, Hj2. reflexivity.
Qed.

Lemma launches_emit e c :
  (forall i, launched_slots i [e] = []) -> (forall i, joined_slots i [e] = []) ->
  launches c (emit e c).
Proof.
  intros Hl Hj. exists [e]. split; [reflexivity|]. split; [reflexivity|].
  split; [|exact Hj].
  intros i. rewrite Hl, app_nil_r. reflexivity.
Qed.

Lemma launches_store_state s c : launches c (store_state s c).
Proof.
  exists [ev_state (state_ c) s]. split; [reflexivity|]. split; [reflexivity|].
  split; [|reflexivity].
  intros i. rewrite app_nil_r. reflexivity.
Qed.

Lemma launches_set_nodes ns c :
  workers_ <$> ns = workers_ <$> nodes_ c -> launches c (set_nodes ns c).
Proof.
  intros H. exists []. split; [simpl; rewrite app_nil_r; reflexivity|].
  split.
  - simpl. rewrite <- (length_fmap workers_ ns), H, length_fmap. reflexivity.
  - split; [|reflexivity]. intros i. rewrite app_nil_r.
    apply pending_same. exact H.
Qed.

Lemma launches_launch_workers h id : forall params slot c r c',
  id < length (nodes_ c) ->
  launch_workers h id slot params c = (r, c') -> launches c c'.
Proof.
  induction params as [|p rest IH]; intros slot c r c' Hid Hrun; simpl in Hrun.
  - injection Hrun as <- <-. apply launches_refl.
  - destruct (thread_ctor_throws h id slot) as [e|].
    + injection Hrun as <- <-. apply launches_refl.
    + apply IH in Hrun; [|simpl; rewrite length_alter; exact Hid].
      eapply launches_trans; [|exact Hrun].
      exists [ev_launch id slot]. split; [reflexivity|].
      split; [simpl; apply length_alter|].
      split; [|reflexivity].
      intros i. unfold pending. simpl.
      destruct (decide (i = id)) as [->|Hne].
      * rewrite list_lookup_alter_eq, Nat.eqb_refl.
        destruct (lookup_lt_is_Some_2 _ _ Hid) as [n ->]. simpl.
        rewrite fmap_app. reflexivity.
      * rewrite list_lookup_alter_ne by congruence.
        assert ((id =? i) = false) as -> by (apply Nat.eqb_neq; congruence).
        rewrite app_nil_r. reflexivity.
Qed.

Lemma launches_start_nodes h : forall ids c r c',
  start_nodes h ids c = (r, c') -> launches c c'.
Proof.
  induction ids as [|id rest IH]; intros c r c' Hrun; simpl in Hrun.
  - injection Hrun as <- <-. apply launches_refl.
  - destruct (nodes_ c !! id) as [n|] eqn:Hn;
      [|injection Hrun as <- <-; apply launches_refl].
    assert (id < length (nodes_ c)) as Hid by (eapply lookup_lt_Some; eauto).
    set (c1 := emit (ev_pin id) (set_nodes (alter (set_guard true) id (nodes_ c)) c))
      in Hrun.
    assert (launches c c1) as H1.
    { eapply launches_trans; [|apply launches_emit; reflexivity].
      apply launches_set_nodes. apply fmap_alter_same. reflexivity. }
    destruct (launch_workers h id 0 (worker_parameters_ n) c1) as [r2 c2] eqn:E.
    assert (launches c1 c2) as H2.
    { eapply launches_launch_workers; [|exact E].
      subst c1. simpl. rewrite length_alter. exact Hid. }
    destruct r2 as [[]|e| |].
    + eapply launches_trans; [exact H1|].
      eapply launches_trans; [exact H2|]. eapply IH; exact Hrun.
    + injection Hrun as <- <-. eapply launches_trans; eauto.
    + injection Hrun as <- <-. eapply launches_trans; eauto.
    + injection Hrun as <- <-. eapply launches_trans; eauto.
Qed.

Lemma launches_start_workers h c r c' :
  start_workers_ h c = (r, c') -> launches c c'.
Proof.
  unfold start_workers_. intros Hrun.
  destruct (nodes_empty c); [injection Hrun as <- <-; apply launches_refl|].
  destruct (order_nodes_ (nodes_ c)) as [order|e| |].
  - eapply launches_start_nodes; exact Hrun.
  - injection Hrun as <- <-. apply launches_refl.
  - injection Hrun as <- <-. apply launches_refl.
  - injection Hrun as <- <-. apply launches_refl.
Qed.

Lemma launches_start h c : launches c (snd (start h c)).
Proof.
  unfold start.
  destruct (nodes_empty c); [apply launches_refl|].
  set (c2 := store_state starting _).
  assert (launches c c2) as H2.
  { subst c2. eapply launches_trans; [|apply launches_store_state].
    eapply launches_trans; [|apply launches_emit; reflexivity].
    eapply launches_trans; [|apply launches_emit; reflexivity].
    apply launches_emit; reflexivity. }
  destruct (start_workers_ h c2) as [r c3] eqn:E.
  apply launches_start_workers in E.
  destruct r as [[]|e| |]; simpl.
  - eapply launches_trans; [exact H2|].
    eapply launches_trans; [exact E|].
    eapply launches_trans; [apply launches_store_state|].
    apply launches_emit; reflexivity.
  - eapply launches_trans; [exact H2|].
    eapply launches_trans; [exact E|].
    eapply launches_trans; [apply launches_store_state|].
    apply launches_emit; reflexivity.
  - eapply launches_trans; eauto.
  - eapply launches_trans; eauto.
Qed.

Lemma launches_accounted c c' : launches c c' -> accounted c -> accounted c'.
Proof.
  intros (evs & Ht & _ & Hp & Hj) Hacc i.
  rewrite Ht, launched_slots_app, joined_slots_app, Hj, Hp, (Hacc i), app_nil_r.
  rewrite app_assoc. reflexivity.
Qed.

(** ** Stopping and joining *)

Lemma foldl_emit_fmap {A} (f : A -> event) (l : list A) c :
  foldl (fun c x => emit (f x) c) c l = foldl (fun c e => emit e c) c (f <$> l).
Proof. symmetry. apply foldl_fmap. Qed.

Lemma stop_workers_spec c :
  nodes_ (stop_workers_ c) = set_io_stopped <$> (set_guard false <$> nodes_ c) /\
  trace_ (stop_workers_ c) = trace_ c ++ stop_events (nodes_ c) /\
  state_ (stop_workers_ c) = state_ c /\
  joined_ (stop_workers_ c) = joined_ c /\
  exception_handler_ (stop_workers_ c) = exception_handler_ c.
Proof.
  unfold stop_workers_, stop_events.
  rewrite (foldl_emit_fmap ev_unpin), (foldl_emit_fmap ev_stop_context).
  set (ids := seq 0 (length (nodes_ c))).
  set (c1 := set_nodes (set_guard false <$> nodes_ c) c).
  destruct (foldl_emit_trace (ev_unpin <$> ids) c1) as (Ht1 & Hs1 & Hj1 & Hn1 & Hh1).
  set (c2 := foldl (fun c e => emit e c) c1 (ev_unpin <$> ids)) in *.
  destruct (foldl_emit_trace (ev_stop_context <$> ids)
              (set_nodes (set_io_stopped <$> nodes_ c2) c2))
    as (Ht2 & Hs2 & Hj2 & Hn2 & Hh2).
  rewrite Ht2, Hs2, Hj2, Hn2, Hh2. simpl.
  rewrite Ht1, Hs1, Hj1, Hn1, Hh1. simpl.
  rewrite app_assoc. auto.
Qed.

Lemma join_workers_spec c :
  joined_ c = false ->
  exists c',
    join_workers_ c = (true, c') /\
    state_ c' = idle /\ joined_ c' = false /\
    exception_handler_ c' = exception_handler_ c /\
    nodes_ c' = set_workers [] <$> nodes_ c /\
    trace_ c' = trace_ c ++ [ev_lock join_mutex_] ++ all_join_events (nodes_ c)
                  ++ [ev_state (state_ c) idle; ev_unlock join_mutex_].
Proof.
  intros Hj. unfold join_workers_. rewrite Hj. simpl.
  eexists. split; [reflexivity|].
  destruct (foldl_emit_trace
              (mjoin (imap join_events (nodes_ c)))
              (emit (ev_lock join_mutex_) (set_joined true c)))
    as (Ht & Hs & _ & Hn & Hh).
  simpl. rewrite Ht, Hs, Hn, Hh. simpl.
  rewrite <- !app_assoc. auto.
Qed.

Lemma join_workers_busy c :
  joined_ c = true -> join_workers_ c = (false, c).
Proof.
  intros Hj. unfold join_workers_. rewrite Hj. simpl.
  destruct c; simpl in *; subst; reflexivity.
Qed.

Lemma stopped_fmap (nodes : list node) :
  set_workers [] <$> (set_io_stopped <$> (set_guard false <$> nodes)) = stopped <$> nodes.
Proof. rewrite <- !list_fmap_compose. reflexivity. Qed.

Lemma stop_spec c :
  nodes_empty c = false ->
  joined_ c = false ->
  exists c',
    stop c = (Ok tt, c') /\
    state_ c' = idle /\ joined_ c' = false /\
    exception_handler_ c' = exception_handler_ c /\
    nodes_ c' = stopped <$> nodes_ c /\
    trace_ c' = trace_ c ++ stop_trace c.
Proof.
  intros Hne Hj. unfold stop. rewrite Hne.
  set (c2 := store_state stopping (emit (ev_lock stop_mutex_) c)).
  destruct (stop_workers_spec c2) as (Hn3 & Ht3 & Hs3 & Hj3 & Hh3).
  destruct (join_workers_spec (stop_workers_ c2)) as (c4 & Hrun & Hs4 & Hj4 & Hh4 & Hn4 & Ht4).
  { rewrite Hj3. exact Hj. }
  rewrite Hrun. simpl.
  eexists. split; [reflexivity|]. simpl.
  split; [exact Hs4|]. split; [exact Hj4|].
  split; [rewrite Hh4, Hh3; reflexivity|].
  split; [rewrite Hn4, Hn3; apply stopped_fmap|].
  rewrite Ht4, Ht3, Hs3. unfold stop_trace. simpl.
  rewrite (all_join_events_same (nodes_ c) (nodes_ (stop_workers_ c2))).
  - rewrite <- !app_assoc. simpl. rewrite <- ?app_assoc. reflexivity.
  - rewrite Hn3. simpl. rewrite <- !list_fmap_compose. reflexivity.
Qed.

Lemma launched_slots_stop_events id nodes : launched_slots id (stop_events nodes) = [].
Proof.
  unfold stop_events.
  rewrite launched_slots_app, !launched_slots_fmap by reflexivity. reflexivity.
Qed.

Lemma joined_slots_stop_events id nodes : joined_slots id (stop_events nodes) = [].
Proof.
  unfold stop_events.
  rewrite joined_slots_app, !joined_slots_fmap by reflexivity. reflexivity.
Qed.

Lemma joined_slots_stop_trace id c : joined_slots id (stop_trace c) = pending c id.
Proof.
  unfold stop_trace.
  rewrite !joined_slots_app, joined_slots_stop_events, joined_slots_all_join_events.
  simpl. rewrite app_nil_r. reflexivity.
Qed.

Lemma launched_slots_stop_trace id c : launched_slots id (stop_trace c) = [].
Proof.
  unfold stop_trace.
  rewrite !launched_slots_app, launched_slots_stop_events, launched_slots_all_join_events.
  reflexivity.
Qed.

Lemma pending_stopped c c' :
  nodes_ c' = stopped <$> nodes_ c -> forall id, pending c' id = [].
Proof.
  intros H id. unfold pending. rewrite H, list_lookup_fmap.
  destruct (nodes_ c !! id); reflexivity.
Qed.

Lemma pending_empty c id : nodes_empty c = true -> pending c id = [].
Proof.
  unfold nodes_empty, pending. intros H. apply Nat.eqb_eq in H.
  destruct (nodes_ c); [|discriminate]. destruct id; reflexivity.
Qed.

(** ** What the calls keep *)

Lemma sound_start h size c : sound size c -> sound size (snd (start h c)).
Proof.
  intros (Hacc & Hj & Hlen).
  pose proof (launches_start h c) as Hl.
  split; [eapply launches_accounted; eauto|].
  split.
  - destruct (nodes_empty c) eqn:E.
    + rewrite start_empty by exact E. exact Hj.
    + destruct (start_transitions h c E) as (r & c' & evs & Hrun & Hj' & _).
      rewrite Hrun. simpl. congruence.
  - destruct Hl as (_ & _ & Hl & _). congruence.
Qed.

Lemma sound_stop size c : sound size c -> sound size (snd (stop c)).
Proof.
  intros (Hacc & Hj & Hlen).
  destruct (nodes_empty c) eqn:E.
  - rewrite stop_empty by exact E. repeat split; assumption.
  - destruct (stop_spec c E Hj) as (c' & Hrun & _ & Hj' & _ & Hn & Ht).
    rewrite Hrun. simpl.
    split; [|split; [exact Hj'|rewrite Hn, length_fmap; exact Hlen]].
    intros id. rewrite Ht, launched_slots_app, joined_slots_app.
    rewrite launched_slots_stop_trace, joined_slots_stop_trace.
    rewrite (pending_stopped c c' Hn), !app_nil_r. apply Hacc.
Qed.

Lemma sound_join size c : sound size c -> sound size (snd (join c)).
Proof.
  intros (Hacc & Hj & Hlen). unfold join.
  destruct (state_eqb (state_ c) running); simpl; [|repeat split; assumption].
  rewrite Hj. simpl.
  destruct (threads_have_returned c); simpl; [|repeat split; assumption].
  destruct (join_workers_spec c Hj) as (c' & Hrun & _ & Hj' & _ & Hn & Ht).
  rewrite Hrun. simpl.
  split; [|split; [exact Hj'|rewrite Hn, length_fmap; exact Hlen]].
  intros id. rewrite Ht, !launched_slots_app, !joined_slots_app.
  rewrite launched_slots_all_join_events, joined_slots_all_join_events.
  assert (pending c' id = []) as ->.
  { unfold pending. rewrite Hn, list_lookup_fmap. destruct (nodes_ c !! id); reflexivity. }
  simpl. rewrite !app_nil_r. apply Hacc.
Qed.

Lemma launched_slots_node_array_dtor id arr : launched_slots id (node_array.dtor arr) = [].
Proof.
  unfold node_array.dtor, node_array.delete_nodes_.
  rewrite launched_slots_app, destroy_down_reverse, launched_slots_fmap by reflexivity.
  destruct (length arr =? 0); reflexivity.
Qed.

Lemma joined_slots_node_array_dtor id arr : joined_slots id (node_array.dtor arr) = [].
Proof.
  unfold node_array.dtor, node_array.delete_nodes_.
  rewrite joined_slots_app, destroy_down_reverse, joined_slots_fmap by reflexivity.
  destruct (length arr =? 0); reflexivity.
Qed.

Lemma dtor_after_stop c :
  dtor c = (Ok tt, foldl (fun c e => emit e c) (snd (stop c))
                     (node_array.dtor (nodes_ (snd (stop c))))).
Proof.
  unfold dtor.
  assert (exists c1, stop c = (Ok tt, c1)) as [c1 E].
  { unfold stop. destruct (nodes_empty c); eexists; reflexivity. }
  rewrite E. reflexivity.
Qed.

Lemma sound_dtor size c : sound size c -> sound size (snd (dtor c)).
Proof.
  intros Hs. apply sound_stop in Hs. destruct Hs as (Hacc & Hj & Hlen).
  rewrite dtor_after_stop. simpl.
  destruct (foldl_emit_trace (node_array.dtor (nodes_ (snd (stop c)))) (snd (stop c)))
    as (Ht & _ & Hj' & Hn & _).
  split; [|split; congruence].
  intros id. unfold pending. rewrite Ht, Hn, launched_slots_app, joined_slots_app.
  rewrite launched_slots_node_array_dtor, joined_slots_node_array_dtor, !app_nil_r.
  apply Hacc.
Qed.

Lemma sound_run_ops h size ops : forall c,
  sound size c -> sound size (run_ops h ops c).
Proof.
  induction ops as [|o ops IH]; intros c Hs; [exact Hs|].
  destruct o; simpl.
  - pose proof (sound_start h size c Hs) as H1.
    destruct (start h c) as [[[]|e| |] c1]; simpl in *; auto.
  - pose proof (sound_stop size c Hs) as H1.
    destruct (stop c) as [[[]|e| |] c1]; simpl in *; auto.
  - pose proof (sound_join size c Hs) as H1.
    destruct (join c) as [[[]|e| |] c1]; simpl in *; auto.
  - apply sound_dtor. exact Hs.
Qed.

Lemma construct_loop_fresh h size_ : forall descs arr log r arr' log',
  node_array.construct_loop h size_ descs arr log = (r, arr', log') ->
  Forall (fun n => workers_ n = []) arr ->
  Forall (fun n => workers_ n = []) arr' /\
  (r = Ok tt -> length arr' = length arr + length descs) /\
  exists evs, log' = log ++ evs /\
    forall i, launched_slots i evs = [] /\ joined_slots i evs = [].
Proof.
  induction descs as [|d rest IH]; intros arr log r arr' log' Hrun Hall; simpl in Hrun.
  - injection Hrun as <- <- <-.
    split; [exact Hall|]. split; [intros _; simpl; lia|].
    exists []. rewrite app_nil_r. auto.
  - assert (forall r1 arr1 log1 evs0,
              (r1 = Ok tt -> length arr1 = S (length arr) + length rest) ->
              Forall (fun n => workers_ n = []) arr1 ->
              (forall i, launched_slots i evs0 = [] /\ joined_slots i evs0 = []) ->
              log1 = log ++ evs0 ->
              Forall (fun n => workers_ n = []) arr1 /\
              (r1 = Ok tt -> length arr1 = length arr + length (d :: rest)) /\
              exists evs, log1 = log ++ evs /\
                forall i, launched_slots i evs = [] /\ joined_slots i evs = []) as Hdone.
    { intros r1 arr1 log1 evs0 Hlen1 Hall1 Hevs0 ->.
      split; [exact Hall1|]. split; [intros Hr; rewrite (Hlen1 Hr); simpl; lia|].
      exists evs0. auto. }
    destruct (node_ctor_throws h (length arr)) as [e|].
    { injection Hrun as <- <- <-.
      apply (Hdone _ _ _ []); [discriminate|exact Hall|auto|rewrite app_nil_r; reflexivity]. }
    assert (Forall (fun n => workers_ n = []) (arr ++ [new_node d])) as Hall1.
    { apply list.Forall_app. split; [exact Hall|]. constructor; [reflexivity|constructor]. }
    assert (forall arr1,
              length arr1 = S (length arr) ->
              Forall (fun n => workers_ n = []) arr1 ->
              node_array.construct_loop h size_ rest arr1
                (log ++ [ev_construct (length arr)]) = (r, arr', log') ->
              Forall (fun n => workers_ n = []) arr' /\
              (r = Ok tt -> length arr' = length arr + length (d :: rest)) /\
              exists evs, log' = log ++ evs /\
                forall i, launched_slots i evs = [] /\ joined_slots i evs = []) as Hrec.
    { intros arr1 Hlen1 Hall2 Hrun1.
      destruct (IH _ _ _ _ _ Hrun1 Hall2) as (Hall' & Hlen' & evs & -> & Hevs).
      split; [exact Hall'|].
      split; [intros Hr; rewrite (Hlen' Hr), Hlen1; simpl; lia|].
      exists ([ev_construct (length arr)] ++ evs).
      split; [rewrite app_assoc; reflexivity|].
      intros i. rewrite launched_slots_app, joined_slots_app.
      destruct (Hevs i) as [-> ->]. auto. }
    rewrite ?Nat.sub_0_r in Hrun.
    destruct (context_tree.parent_id_ d =? length arr).
    { apply (Hrec (arr ++ [new_node d]));
        [rewrite length_app; simpl; lia | exact Hall1 | exact Hrun]. }
    unfold node_array.at_ in Hrun.
    destruct (context_tree.parent_id_ d <? size_).
    + destruct ((arr ++ [new_node d]) !! context_tree.parent_id_ d) as [p|] eqn:Hp.
      * eapply Hrec; [| |exact Hrun].
        -- rewrite length_insert, length_app. simpl. lia.
        -- apply Forall_insert; [exact Hall1|].
           rewrite list.Forall_forall in Hall1.
           apply (Hall1 p). eapply list_elem_of_lookup_2. exact Hp.
      * injection Hrun as <- <- <-.
        apply (Hdone _ _ _ [ev_construct (length arr)]);
          [discriminate | exact Hall1 | auto | reflexivity].
    + injection Hrun as <- <- <-.
      apply (Hdone _ _ _ [ev_construct (length arr)]);
        [discriminate | exact Hall1 | auto | reflexivity].
Qed.

Lemma make_sound h t exception_handler start_immediately c log :
  make h t exception_handler start_immediately = (Ok c, log) ->
  sound (length t) c.
Proof.
  unfold make, node_array.ctor. intros Hmake.
  destruct (node_array.construct_loop h (length t) t [] []) as [[r arr] log0] eqn:E.
  destruct (construct_loop_fresh _ _ _ _ _ _ _ _ E (Forall_nil _))
    as (Hall & Hlen & evs & -> & Hevs).
  destruct r as [[]|e| |]; try discriminate.
  set (c0 := {| state_ := idle; nodes_ := arr; exception_handler_ := exception_handler;
                joined_ := false; trace_ := [] ++ evs |}) in Hmake.
  assert (sound (length t) c0) as H0.
  { split; [|split; [reflexivity|simpl; rewrite Hlen by reflexivity; reflexivity]].
    intros id. unfold pending. simpl.
    destruct (Hevs id) as [-> ->]. simpl.
    destruct (arr !! id) as [n|] eqn:Hn; [|reflexivity]. simpl.
    rewrite list.Forall_forall in Hall.
    rewrite (Hall n) by (eapply list_elem_of_lookup_2; exact Hn). reflexivity. }
  destruct start_immediately.
  - pose proof (sound_start h _ _ H0) as H1.
    destruct (start h c0) as [[[]|e| |] c1]; try discriminate.
    + injection Hmake as <- _. exact H1.
    + destruct (destroy_unjoined _ _) as [[] ?]; discriminate Hmake.
  - injection Hmake as <- _. exact H0.
Qed.

(** X6. [get_io_context(id)] returns the io_context of node [id] for
    exactly the ids the tree had when the scheduler was made, in whichever
    state the calls made since have left it, and throws [out_of_range] for
    every other id. *)
Theorem X6_get_io_context_checked
    (h : host) (t : context_tree.t) (exception_handler : exception_handler_type)
    (start_immediately : bool) (c : async_core) (log : list event) (ops : list op)
    (id : nat) :
  make h t exception_handler start_immediately = (Ok c, log) ->
  get_io_context (run_ops h ops c) id
    = if id <? length t then Ok id else Throw (out_of_range "Incorrect context id").
Proof.
  intros Hmake.
  destruct (sound_run_ops h _ ops c (make_sound _ _ _ _ _ _ Hmake)) as (_ & _ & Hlen).
  unfold get_io_context, node_array.at_. rewrite Hlen.
  destruct (id <? length t) eqn:E; [|reflexivity].
  apply Nat.ltb_lt in E.
  destruct (lookup_lt_is_Some_2 (nodes_ (run_ops h ops c)) id) as [n ->]; [lia|].
  reflexivity.
Qed.

Lemma X6_witness :
  get_io_context (run_ops calm_host [op_start; op_stop] idle_root) 0 = Ok 0 /\
  get_io_context (run_ops calm_host [op_start; op_stop] idle_root) 1
    = Throw (out_of_range "Incorrect context id").
Proof.
  split.
  - apply (X6_get_io_context_checked calm_host one_node_tree_no_worker None false
             idle_root [ev_construct 0] [op_start; op_stop] 0 eq_refl).
  - apply (X6_get_io_context_checked calm_host one_node_tree_no_worker None false
             idle_root [ev_construct 0] [op_start; op_stop] 1 eq_refl).
Defined.

Lemma joinable_idle c : state_ c = idle -> joinable c = false.
Proof. unfold joinable. intros ->. reflexivity. Qed.

Lemma nodes_empty_false c : 0 < length (nodes_ c) -> nodes_empty c = false.
Proof. unfold nodes_empty. intros H. apply Nat.eqb_neq. lia. Qed.

(** X7. [stop()] on a scheduler with nodes returns, in whichever state
    it is called: it stores [stopping], releases the guard of every node,
    then stops every io_context, then joins the threads every node holds,
    node by node, and stores [idle]. Afterwards no node holds a thread or a
    guard, and the scheduler is not joinable. *)
Theorem X7_stop_reaps_every_thread (c : async_core) :
  0 < length (nodes_ c) ->
  joined_ c = false ->
  exists c',
    stop c = (Ok tt, c') /\
    get_state c' = idle /\
    joinable c' = false /\
    nodes_ c' = stopped <$> nodes_ c /\
    trace_ c' = trace_ c ++ stop_trace c /\
    (forall id, pending c' id = [] /\ joined_slots id (stop_trace c) = pending c id).
Proof.
  intros Hlen Hj.
  destruct (stop_spec c (nodes_empty_false c Hlen) Hj)
    as (c' & Hrun & Hs & _ & _ & Hn & Ht).
  exists c'. split; [exact Hrun|]. split; [exact Hs|].
  split; [apply joinable_idle; exact Hs|].
  split; [exact Hn|]. split; [exact Ht|].
  intros id. split; [eapply pending_stopped; eauto | apply joined_slots_stop_trace].
Qed.

Lemma X7_witness :
  exists c',
    stop (snd (start calm_host four_node_core)) = (Ok tt, c') /\
    get_state c' = idle /\
    joined_slots 3 (stop_trace (snd (start calm_host four_node_core))) = [0; 1] /\
    pending c' 3 = [].
Proof.
  destruct (X7_stop_reaps_every_thread (snd (start calm_host four_node_core)))
    as (c' & Hrun & Hs & _ & _ & _ & Hp); [vm_compute; lia | reflexivity |].
  exists c'. split; [exact Hrun|]. split; [exact Hs|].
  destruct (Hp 3) as [Hp3 Hj3]. split; [|exact Hp3].
  rewrite Hj3. reflexivity.
Defined.

(** X8. Whatever calls are made one after the other on a scheduler, the
    threads launched for a node are, in the order of their launch, those
    joined so far followed by those the node still holds; and once [stop()]
    or the destructor has run, every thread launched has been joined exactly
    once and no node holds one. *)
Theorem X8_every_thread_is_joined_once
    (h : host) (t : context_tree.t) (exception_handler : exception_handler_type)
    (start_immediately : bool) (c : async_core) (log : list event) (ops : list op) :
  make h t exception_handler start_immediately = (Ok c, log) ->
  let c1 := run_ops h ops c in
  (forall id,
     launched_slots id (trace_ c1) = joined_slots id (trace_ c1) ++ pending c1 id) /\
  (forall id,
     pending (snd (stop c1)) id = [] /\
     launched_slots id (trace_ (snd (stop c1)))
       = joined_slots id (trace_ (snd (stop c1)))) /\
  (forall id,
     pending (snd (dtor c1)) id = [] /\
     launched_slots id (trace_ (snd (dtor c1)))
       = joined_slots id (trace_ (snd (dtor c1)))).
Proof.
  intros Hmake c1.
  pose proof (sound_run_ops h _ ops c (make_sound _ _ _ _ _ _ Hmake)) as Hs.
  fold c1 in Hs.
  assert (forall id, pending (snd (stop c1)) id = []) as Hstop.
  { intros id. destruct Hs as (_ & Hj & _).
    destruct (nodes_empty c1) eqn:E.
    - rewrite stop_empty by exact E. apply pending_empty. exact E.
    - destruct (stop_spec c1 E Hj) as (c' & Hrun & _ & _ & _ & Hn & _).
      rewrite Hrun. eapply pending_stopped; eauto. }
  assert (forall id, pending (snd (dtor c1)) id = []) as Hdtor.
  { intros id. rewrite dtor_after_stop. simpl.
    destruct (foldl_emit_trace (node_array.dtor (nodes_ (snd (stop c1)))) (snd (stop c1)))
      as (_ & _ & _ & Hn & _).
    unfold pending. rewrite Hn. apply Hstop. }
  split; [apply Hs|].
  split; intros id.
  - split; [apply Hstop|].
    destruct (sound_stop _ _ Hs) as (Hacc & _).
    rewrite (Hacc id), Hstop, app_nil_r. reflexivity.
  - split; [apply Hdtor|].
    destruct (sound_dtor _ _ Hs) as (Hacc & _).
    rewrite (Hacc id), Hdtor, app_nil_r. reflexivity.
Qed.

Lemma X8_witness :
  let c1 := run_ops thread_failing_host [op_start; op_start] four_node_core in
  launched_slots 3 (trace_ c1) = [0; 1; 0; 1] /\
  pending c1 3 = [0; 1; 0; 1] /\
  launched_slots 3 (trace_ (snd (stop c1))) = joined_slots 3 (trace_ (snd (stop c1))).
Proof.
  pose proof (X8_every_thread_is_joined_once thread_failing_host four_node_tree None false
                four_node_core (trace_ four_node_core) [op_start; op_start] eq_refl)
    as (_ & Hstop & _).
  split; [reflexivity|]. split; [reflexivity|].
  apply (Hstop 3).
Defined.

(** X9. When [start()] throws because a thread could not be launched,
    the state is [idle] again and the scheduler is not joinable, so that
    [join()] throws; but the threads launched before the failure are still
    held by their nodes, not joined. It is the next [stop()] that joins
    them. *)
Theorem X9_failed_start_keeps_its_threads
    (h : host) (c c' : async_core) (e : exn) :
  joined_ c = false ->
  start h c = (Throw e, c') ->
  get_state c' = idle /\
  joinable c' = false /\
  join c' = (Throw (invalid_argument "Core is not joinable"), c') /\
  exists evs c'',
    trace_ c' = trace_ c ++ evs /\
    (forall id, pending c' id = pending c id ++ launched_slots id evs) /\
    (forall id, joined_slots id evs = []) /\
    stop c' = (Ok tt, c'') /\
    trace_ c'' = trace_ c' ++ stop_trace c' /\
    (forall id,
       joined_slots id (stop_trace c') = pending c id ++ launched_slots id evs /\
       pending c'' id = []).
Proof.
  intros Hj Hstart.
  destruct (nodes_empty c) eqn:E.
  { rewrite start_empty in Hstart by exact E. discriminate. }
  destruct (start_transitions h c E) as (r & c1 & evs0 & Hrun & Hj1 & _ & Hr).
  rewrite Hstart in Hrun. injection Hrun as <- <-.
  destruct Hr as [Hs _].
  pose proof (launches_start h c) as Hl. rewrite Hstart in Hl. simpl in Hl.
  destruct Hl as (evs & Ht & Hlen & Hp & Hjs).
  split; [exact Hs|]. split; [apply joinable_idle; exact Hs|].
  split; [apply join_not_running; rewrite Hs; discriminate|].
  assert (nodes_empty c' = false) as E'.
  { unfold nodes_empty in *. rewrite Hlen. exact E. }
  destruct (stop_spec c' E') as (c'' & Hstop & _ & _ & _ & Hn & Ht'); [congruence|].
  exists evs, c''. split; [exact Ht|]. split; [exact Hp|]. split; [exact Hjs|].
  split; [exact Hstop|]. split; [exact Ht'|].
  intros id. rewrite joined_slots_stop_trace, Hp.
  split; [reflexivity | eapply pending_stopped; eauto].
Qed.

Lemma X9_witness :
  let c' := snd (start thread_failing_host four_node_core) in
  start thread_failing_host four_node_core = (Throw (system_error 11), c') /\
  get_state c' = idle /\
  pending c' 3 = [0; 1] /\
  join c' = (Throw (invalid_argument "Core is not joinable"), c') /\
  joined_slots 3 (stop_trace c') = [0; 1].
Proof.
  assert (start thread_failing_host four_node_core
            = (Throw (system_error 11), snd (start thread_failing_host four_node_core)))
    as Hstart by (vm_compute; reflexivity).
  destruct (X9_failed_start_keeps_its_threads thread_failing_host four_node_core
              (snd (start thread_failing_host four_node_core)) (system_error 11)
              eq_refl Hstart)
    as (Hs & _ & Hjoin & _).
  split; [exact Hstart|]. split; [exact Hs|]. split; [vm_compute; reflexivity|].
  split; [exact Hjoin | vm_compute; reflexivity].
Defined.

Lemma filter_is_destroy_fmap {A} (f : A -> event) (l : list A) :
  (forall x, is_destroy (f x) = false) -> List.filter is_destroy (f <$> l) = [].
Proof.
  intros H. induction l as [|x l IH]; [reflexivity|].
  rewrite fmap_cons. simpl. rewrite H. exact IH.
Qed.

Lemma filter_is_destroy_all_join_events nodes :
  List.filter is_destroy (all_join_events nodes) = [].
Proof.
  induction nodes as [|n nodes IH] using rev_ind; [reflexivity|].
  rewrite all_join_events_snoc, List.filter_app, IH.
  unfold join_events. rewrite filter_is_destroy_fmap by reflexivity. reflexivity.
Qed.

(** X11. The destructor of a scheduler with nodes does what [stop()]
    does and then destroys the nodes from the last one down to node 0 and
    frees the storage: no node is destroyed before the threads of every node
    have been joined. *)
Theorem X11_destructor_joins_then_destroys (c : async_core) :
  0 < length (nodes_ c) ->
  joined_ c = false ->
  exists c',
    dtor c = (Ok tt, c') /\
    get_state c' = idle /\
    trace_ c' = trace_ c ++ stop_trace c
                  ++ (ev_destroy <$> reverse (seq 0 (length (nodes_ c))))
                  ++ [ev_free_storage] /\
    List.filter is_destroy (stop_trace c) = [] /\
    (forall id, joined_slots id (stop_trace c) = pending c id).
Proof.
  intros Hlen Hj.
  destruct (stop_spec c (nodes_empty_false c Hlen) Hj)
    as (c1 & Hrun & Hs & _ & _ & Hn & Ht).
  rewrite dtor_after_stop, Hrun. simpl.
  destruct (foldl_emit_trace (node_array.dtor (nodes_ c1)) c1) as (Ht' & Hs' & _).
  eexists. split; [reflexivity|].
  split; [unfold get_state; rewrite Hs'; exact Hs|].
  split.
  - rewrite Ht', Ht, <- app_assoc. f_equal. f_equal.
    unfold node_array.dtor, node_array.delete_nodes_.
    rewrite Hn, length_fmap, destroy_down_reverse.
    assert ((length (nodes_ c) =? 0) = false) as -> by (apply Nat.eqb_neq; lia).
    reflexivity.
  - split; [|intros id; apply joined_slots_stop_trace].
    unfold stop_trace, stop_events.
    rewrite !List.filter_app.
    rewrite (filter_is_destroy_fmap ev_unpin), (filter_is_destroy_fmap ev_stop_context)
      by reflexivity.
    simpl. rewrite List.filter_app, filter_is_destroy_all_join_events. reflexivity.
Qed.

Lemma X11_witness :
  exists c',
    dtor (snd (start calm_host four_node_core)) = (Ok tt, c') /\
    List.filter is_destroy (trace_ c')
      = [ev_destroy 3; ev_destroy 2; ev_destroy 1; ev_destroy 0].
Proof.
  destruct (X11_destructor_joins_then_destroys (snd (start calm_host four_node_core)))
    as (c' & Hrun & _ & Ht & _); [vm_compute; lia | reflexivity |].
  exists c'. split; [exact Hrun|].
  rewrite Ht. reflexivity.
Defined.

(** ** A start on which every thread is launched *)

Lemma threads_from_cons slot p rest :
  threads_from slot (p :: rest) = mk_thread slot p :: threads_from (S slot) rest.
Proof.
  unfold threads_from. rewrite imap_cons, Nat.add_0_r. f_equal.
  apply imap_ext. intros i x _. simpl. f_equal. lia.
Qed.

Lemma launch_workers_calm h id : forall params slot c,
  (forall s, thread_ctor_throws h id s = None) ->
  exists c',
    launch_workers h id slot params c = (Ok tt, c') /\
    state_ c' = state_ c /\ joined_ c' = joined_ c /\
    nodes_ c'
      = alter (fun m => set_workers (workers_ m ++ threads_from slot params) m) id
          (nodes_ c).
Proof.
  intros params. induction params as [|p rest IH]; intros slot c Hcalm; simpl.
  - exists c. split; [reflexivity|]. split; [reflexivity|]. split; [reflexivity|].
    symmetry. apply list_alter_id. intros m. destruct m; simpl.
    unfold set_workers; simpl. rewrite app_nil_r. reflexivity.
  - rewrite Hcalm.
    destruct (IH (S slot)
                (emit (ev_launch id slot)
                   (set_nodes
                      (alter (fun n => set_workers (workers_ n ++ [mk_thread slot p]) n)
                         id (nodes_ c)) c)) Hcalm)
      as (c' & Hrun & Hs & Hj & Hn).
    exists c'. split; [exact Hrun|]. split; [exact Hs|]. split; [exact Hj|].
    rewrite Hn. simpl. rewrite list_alter_alter_eq.
    apply list_alter_ext; [|reflexivity].
    intros m _. rewrite threads_from_cons. destruct m; simpl.
    unfold set_workers; simpl. rewrite <- app_assoc. reflexivity.
Qed.

Lemma start_nodes_calm h : forall ids c,
  (forall id s, thread_ctor_throws h id s = None) ->
  NoDup ids ->
  (forall id, id ∈ ids -> id < length (nodes_ c)) ->
  exists c',
    start_nodes h ids c = (Ok tt, c') /\
    state_ c' = state_ c /\ joined_ c' = joined_ c /\
    forall i,
      nodes_ c' !! i
        = (fun n => if bool_decide (i ∈ ids) then started n else n) <$> nodes_ c !! i.
Proof.
  intros ids. induction ids as [|id rest IH]; intros c Hcalm Hnd Hin; simpl.
  - exists c. split; [reflexivity|]. split; [reflexivity|]. split; [reflexivity|].
    intros i. destruct (nodes_ c !! i); reflexivity.
  - apply list.NoDup_cons in Hnd as [Hnotin Hnd].
    destruct (lookup_lt_is_Some_2 (nodes_ c) id) as [n Hn];
      [apply Hin; left|].
    rewrite Hn.
    destruct (launch_workers_calm h id (worker_parameters_ n) 0
                (emit (ev_pin id) (set_nodes (alter (set_guard true) id (nodes_ c)) c))
                (Hcalm id))
      as (c2 & Hrun2 & Hs2 & Hj2 & Hn2).
    rewrite Hrun2.
    destruct (IH c2 Hcalm Hnd) as (c' & Hrun & Hs & Hj & Hnodes).
    { intros id' Hid'. rewrite Hn2. simpl. rewrite !length_alter.
      apply Hin. right. exact Hid'. }
    exists c'. split; [exact Hrun|].
    split; [rewrite Hs, Hs2; reflexivity|]. split; [rewrite Hj, Hj2; reflexivity|].
    intros i. rewrite Hnodes, Hn2. simpl. rewrite list_alter_alter_eq.
    destruct (decide (i = id)) as [->|Hne].
    + rewrite list_lookup_alter_eq, Hn. simpl.
      rewrite bool_decide_eq_false_2 by exact Hnotin.
      rewrite bool_decide_eq_true_2 by left. reflexivity.
    + rewrite list_lookup_alter_ne by congruence.
      destruct (nodes_ c !! i) as [m|]; [|reflexivity]. simpl. f_equal.
      rewrite (bool_decide_ext (i ∈ id :: rest) (i ∈ rest)); [reflexivity|].
      rewrite elem_of_cons. tauto.
Qed.

Lemma start_calm h (t : context_tree.t) c :
  context_tree.topological t ->
  linked t (nodes_ c) ->
  0 < length t ->
  (forall id slot, thread_ctor_throws h id slot = None) ->
  exists c',
    start h c = (Ok tt, c') /\
    state_ c' = running /\ joined_ c' = joined_ c /\
    nodes_ c' = started <$> nodes_ c /\
    linked t (nodes_ c').
Proof.
  intros Htopo Hlinked Hlen Hcalm.
  pose proof (linked_length _ _ Hlinked) as Hlenarr.
  assert (exists c',
            start h c = (Ok tt, c') /\ state_ c' = running /\ joined_ c' = joined_ c /\
            nodes_ c' = started <$> nodes_ c) as (c' & Hstart & Hs' & Hj' & Hn').
  { unfold start.
    assert (nodes_empty c = false) as Hne by (apply nodes_empty_false; lia).
    rewrite Hne.
    set (c2 := store_state starting _).
    unfold start_workers_.
    assert (nodes_empty c2 = false) as -> by exact Hne.
    destruct (order_nodes_ok t (nodes_ c) Htopo Hlinked Hlen)
      as (order & it & Hord & Hinv & Hlo).
    change (nodes_ c2) with (nodes_ c). rewrite Hord.
    destruct (start_nodes_calm h (reverse order) c2 Hcalm)
      as (c3 & Hrun & Hs & Hj & Hnodes).
    { rewrite reverse_Permutation, (order_permutation t Hlen order it Hinv Hlo).
      apply NoDup_seq. }
    { intros id Hid. rewrite elem_of_reverse in Hid.
      rewrite (order_permutation t Hlen order it Hinv Hlo) in Hid.
      apply elem_of_seq in Hid. change (nodes_ c2) with (nodes_ c). lia. }
    rewrite Hrun.
    eexists. split; [reflexivity|]. simpl.
    split; [reflexivity|]. split; [rewrite Hj; reflexivity|].
    apply list_eq. intros i. rewrite Hnodes, list_lookup_fmap.
    change (nodes_ c2) with (nodes_ c).
    destruct (nodes_ c !! i) as [n|] eqn:Hn; [|reflexivity]. simpl.
    rewrite bool_decide_eq_true_2; [reflexivity|].
    rewrite elem_of_reverse. eapply order_complete; eauto.
    apply lookup_lt_Some in Hn. lia. }
  exists c'. split; [exact Hstart|]. split; [exact Hs'|]. split; [exact Hj'|].
  split; [exact Hn'|].
  pose proof (start_keeps_linked h t c Hlinked) as Hkeeps.
  rewrite Hstart in Hkeeps. exact Hkeeps.
Qed.

Lemma started_iter k n :
  worker_parameters_ (Nat.iter k started n) = worker_parameters_ n /\
  work_guard_ (Nat.iter k started n) = (if k is 0 then work_guard_ n else true) /\
  length (workers_ (Nat.iter k started n))
    = length (workers_ n) + k * length (worker_parameters_ n).
Proof.
  induction k as [|k (IHp & IHg & IHw)]; simpl.
  - split; [reflexivity|]. split; [reflexivity|]. lia.
  - split; [exact IHp|]. split; [reflexivity|].
    rewrite length_app, IHw. unfold threads_from. rewrite length_imap, IHp. lia.
Qed.

Lemma starts_calm h (t : context_tree.t) k : forall c,
  context_tree.topological t ->
  linked t (nodes_ c) ->
  0 < length t ->
  (forall id slot, thread_ctor_throws h id slot = None) ->
  nodes_ (run_ops h (replicate k op_start) c) = Nat.iter k started <$> nodes_ c /\
  (0 < k -> state_ (run_ops h (replicate k op_start) c) = running).
Proof.
  induction k as [|k IH]; intros c Htopo Hlinked Hlen Hcalm.
  - simpl. split; [symmetry; apply list_fmap_id | lia].
  - destruct (start_calm h t c Htopo Hlinked Hlen Hcalm) as (c1 & Hrun & Hs & _ & Hn & Hl).
    simpl. rewrite Hrun.
    destruct (IH c1 Htopo Hl Hlen Hcalm) as (Hnodes & Hstate).
    split.
    + rewrite Hnodes, Hn, <- list_fmap_compose.
      apply list_fmap_ext. intros i n _. unfold compose. rewrite <- Nat.iter_succ_r. reflexivity.
    + intros _. destruct k; [exact Hs | apply Hstate; lia].
Qed.

(** X12. On a scheduler whose array is linked like a tree built by the
    tree builder, and on a host that can launch every thread, [start()]
    returns with the state [running], every node pinned, and every node
    holding, after the threads it held, exactly one new thread per worker
    slot, in the order of the slots and each with the parameters of its
    slot. *)
Theorem X12_start_launches_one_thread_per_slot
    (h : host) (t : context_tree.t) (c : async_core) :
  context_tree.topological t ->
  linked t (nodes_ c) ->
  0 < length t ->
  (forall id slot, thread_ctor_throws h id slot = None) ->
  exists c',
    start h c = (Ok tt, c') /\
    get_state c' = running /\
    joinable c' = negb (joined_ c) /\
    nodes_ c' = started <$> nodes_ c /\
    (forall id n, nodes_ c !! id = Some n ->
       exists n',
         nodes_ c' !! id = Some n' /\
         work_guard_ n' = true /\
         workers_ n' = workers_ n ++ imap mk_thread (worker_parameters_ n) /\
         pending c' id = pending c id ++ seq 0 (length (worker_parameters_ n))).
Proof.
  intros Htopo Hlinked Hlen Hcalm.
  destruct (start_calm h t c Htopo Hlinked Hlen Hcalm) as (c' & Hrun & Hs & Hj & Hn & _).
  exists c'. split; [exact Hrun|]. split; [exact Hs|].
  split; [unfold joinable; rewrite Hs, Hj; reflexivity|].
  split; [exact Hn|].
  intros id n Hid. exists (started n).
  split; [rewrite Hn, list_lookup_fmap, Hid; reflexivity|].
  split; [reflexivity|].
  split; [reflexivity|].
  unfold pending. rewrite Hn, list_lookup_fmap, Hid. simpl.
  rewrite fmap_app. f_equal. unfold threads_from.
  rewrite fmap_imap. simpl.
  rewrite (imap_ext _ (fun i _ => i)) by reflexivity.
  generalize (worker_parameters_ n). intros l.
  induction l as [|x l IH] using rev_ind; [reflexivity|].
  rewrite imap_app, length_app, IH. simpl. rewrite seq_app. simpl.
  rewrite Nat.add_0_r. reflexivity.
Qed.

Lemma X12_witness :
  exists c',
    start calm_host four_node_core = (Ok tt, c') /\
    get_state c' = running /\
    joinable c' = true /\
    pending c' 3 = [0; 1].
Proof.
  destruct (X12_start_launches_one_thread_per_slot calm_host four_node_tree four_node_core
              four_node_tree_topological four_node_core_linked)
    as (c' & Hrun & Hs & Hj & _ & Hnodes); [simpl; lia | reflexivity |].
  exists c'. split; [exact Hrun|]. split; [exact Hs|]. split; [exact Hj|].
  destruct (Hnodes 3 _ eq_refl) as (n' & _ & _ & _ & Hp). exact Hp.
Defined.

(** X13. [start()] does not look at the state: called [k] times in a row
    on such a scheduler it launches [k] threads for every worker slot, and
    all of them are held by the nodes. *)
Theorem X13_start_again_launches_again
    (h : host) (t : context_tree.t) (c : async_core) (k : nat) :
  context_tree.topological t ->
  linked t (nodes_ c) ->
  0 < length t ->
  (forall id slot, thread_ctor_throws h id slot = None) ->
  let c' := run_ops h (replicate k op_start) c in
  nodes_ c' = Nat.iter k started <$> nodes_ c /\
  (0 < k -> get_state c' = running) /\
  (forall id n, nodes_ c !! id = Some n ->
     exists n',
       nodes_ c' !! id = Some n' /\
       length (workers_ n') = length (workers_ n) + k * length (worker_parameters_ n)).
Proof.
  intros Htopo Hlinked Hlen Hcalm c'.
  destruct (starts_calm h t k c Htopo Hlinked Hlen Hcalm) as (Hn & Hs).
  split; [exact Hn|]. split; [exact Hs|].
  intros id n Hid. exists (Nat.iter k started n).
  split; [subst c'; rewrite Hn, list_lookup_fmap, Hid; reflexivity|].
  apply started_iter.
Qed.

Lemma X13_witness :
  let c' := run_ops calm_host [op_start; op_start] four_node_core in
  get_state c' = running /\
  exists n', nodes_ c' !! 3 = Some n' /\ length (workers_ n') = 4.
Proof.
  destruct (X13_start_again_launches_again calm_host four_node_tree four_node_core 2
              four_node_tree_topological four_node_core_linked)
    as (_ & Hs & Hnodes); [simpl; lia | reflexivity |].
  split; [apply Hs; lia|].
  destruct (Hnodes 3 _ eq_refl) as (n' & Hn' & Hl).
  exists n'. split; [exact Hn' | exact Hl].
Defined.

(** X14. Every tree the tree builder can produce makes a scheduler: on a
    host on which nothing fails the constructor returns, started unless the
    tree is empty, and node [id] of the array has the children of node [id]
    of the tree in the order in which they were added, as many of them as
    the child counter of the tree says (the capacity reserved for them),
    the worker records and the flag of the tree, its guard, and one thread
    per worker record. *)
Theorem X14_built_tree_makes_a_scheduler
    (calls : list tree_call) (h : host) (exception_handler : exception_handler_type) :
  (forall i, node_ctor_throws h i = None) ->
  (forall id slot, thread_ctor_throws h id slot = None) ->
  let t := build_tree calls in
  exists c,
    make h t exception_handler true = (Ok c, trace_ c) /\
    length (nodes_ c) = length t /\
    get_state c = (if length t =? 0 then idle else running) /\
    (forall id d, t !! id = Some d ->
       exists n,
         nodes_ c !! id = Some n /\
         children_ptrs_ n = children_of t id /\
         length (children_ptrs_ n) = context_tree.children_count_ d /\
         worker_parameters_ n = context_tree.worker_parameters_ d /\
         enabled_ n = context_tree.enabled_ d /\
         work_guard_ n = true /\
         workers_ n = imap mk_thread (context_tree.worker_parameters_ d)).
Proof.
  intros Hnodes Hthreads t.
  destruct (build_tree_well_formed calls) as (Htopo & Hcount & _). fold t in Htopo, Hcount.
  destruct (ctor_ok h t Htopo Hnodes) as (arr & Hctor & Hreal).
  unfold make. rewrite Hctor.
  set (c0 := {| state_ := idle; nodes_ := arr; exception_handler_ := exception_handler;
                joined_ := false; trace_ := ev_construct <$> seq 0 (length t) |}).
  pose proof Hreal as (Harr & Hreal').
  destruct (length t) as [|k] eqn:Hlen.
  - assert (start h c0 = (Ok tt, c0)) as ->.
    { apply start_empty. unfold nodes_empty. apply Nat.eqb_eq. exact Harr. }
    exists c0. split; [reflexivity|].
    split; [exact Harr|]. split; [reflexivity|].
    intros id d Hd. apply lookup_lt_Some in Hd. lia.
  - destruct (start_calm h t c0 Htopo (realizes_linked _ _ Hreal)) as
      (c' & Hrun & Hs & _ & Hn & _); [lia | exact Hthreads |].
    rewrite Hrun. exists c'. split; [reflexivity|].
    split; [rewrite Hn, length_fmap; exact Harr|].
    split; [exact Hs|].
    intros id d Hd.
    destruct (Hreal' id d Hd) as (n & Hn0 & Hc & Hp & He & Hw & Hg).
    exists (started n).
    split; [rewrite Hn, list_lookup_fmap; simpl; rewrite Hn0; reflexivity|].
    pose proof (Hcount _ _ Hd) as Hcnt. unfold children_of in *. rewrite Hlen in *.
    simpl. rewrite Hc, Hp, Hw.
    split; [reflexivity|]. split; [symmetry; exact Hcnt|].
    split; [reflexivity|]. split; [exact He|]. split; reflexivity.
Qed.

Lemma X14_witness :
  exists c,
    make calm_host (build_tree sample_calls) None true = (Ok c, trace_ c) /\
    length (nodes_ c) = 3 /\
    get_state c = running /\
    (children_ptrs_ <$> nodes_ c) = [[1]; [2]; []] /\
    (length <$> (workers_ <$> nodes_ c)) = [1; 3; 0].
Proof.
  destruct (X14_built_tree_makes_a_scheduler sample_calls calm_host None)
    as (c & Hmake & Hlen & Hs & Hnodes); [reflexivity | reflexivity |].
  exists c. split; [exact Hmake|]. split; [exact Hlen|]. split; [exact Hs|].
  destruct (Hnodes 0 _ eq_refl) as (n0 & H0 & Hc0 & _ & _ & _ & _ & Hw0).
  destruct (Hnodes 1 _ eq_refl) as (n1 & H1 & Hc1 & _ & _ & _ & _ & Hw1).
  destruct (Hnodes 2 _ eq_refl) as (n2 & H2 & Hc2 & _ & _ & _ & _ & Hw2).
  destruct (nodes_ c) as [|m0 [|m1 [|m2 [|m3 rest]]]]; try discriminate.
  simpl in H0, H1, H2. injection H0 as ->. injection H1 as ->. injection H2 as ->.
  simpl. rewrite Hc0, Hc1, Hc2, Hw0, Hw1, Hw2. split; reflexivity.
Defined.

(** ** The queues a worker collects *)

Section CollectExact.

Variable t : context_tree.t.
Variable arr : list node.
Hypothesis Htopo : context_tree.topological t.
Hypothesis Hlinked : linked t arr.
Variable n0 : nat.

Lemma collect_complete_pop popped p queue :
  collect_complete t n0 popped (p :: queue) ->
  collect_complete t n0 (popped ++ [p]) (queue ++ children_of t p).
Proof.
  intros (Hroot & Hclosed). split.
  - intros c Hc. specialize (Hroot c Hc).
    rewrite !elem_of_app, list_elem_of_singleton.
    rewrite elem_of_app, elem_of_cons in Hroot. tauto.
  - intros q c Hq Hc.
    rewrite elem_of_app, list_elem_of_singleton in Hq.
    rewrite !elem_of_app, list_elem_of_singleton.
    destruct Hq as [Hq | ->]; [|tauto].
    specialize (Hclosed q c Hq Hc).
    rewrite elem_of_app, elem_of_cons in Hclosed. tauto.
Qed.

Lemma filter_enabled_snoc popped p n :
  arr !! p = Some n ->
  List.filter (enabled_at arr) (popped ++ [p])
    = if enabled_ n then List.filter (enabled_at arr) popped ++ [p]
      else List.filter (enabled_at arr) popped.
Proof.
  intros Hn. rewrite List.filter_app. simpl.
  unfold enabled_at at 2. rewrite Hn. simpl.
  destruct (enabled_ n); [reflexivity | apply app_nil_r].
Qed.

(** The loop returns with the fuel it is given: it has popped a list of
    nodes closed under taking children, and kept the enabled ones. *)
Lemma collect_child_contexts_exact : forall fuel queue popped,
  collect_invariant t n0 popped queue ->
  collect_complete t n0 popped queue ->
  length t <= fuel + length popped ->
  exists popped',
    collect_child_contexts fuel arr queue (List.filter (enabled_at arr) popped)
      = Ok (List.filter (enabled_at arr) popped') /\
    collect_invariant t n0 popped' [] /\
    collect_complete t n0 popped' [].
Proof.
  induction fuel as [|fuel IH]; intros queue popped Hinv Hcomp Hfuel.
  - destruct queue as [|p queue].
    + exists popped. split; [reflexivity|]. split; assumption.
    + pose proof (collect_invariant_length t n0 _ _ Hinv) as Hlen. simpl in Hlen.
      destruct Hinv as (_ & Hall).
      destruct (Hall p) as (_ & H2 & _); [apply elem_of_app; right; left | lia].
  - destruct queue as [|p queue].
    + exists popped. split; [reflexivity|]. split; assumption.
    + simpl.
      assert (p < length t) as Hp.
      { destruct Hinv as (_ & Hall).
        destruct (Hall p) as (_ & H2 & _); [apply elem_of_app; right; left | exact H2]. }
      destruct (linked_children t arr Hlinked p Hp) as (n & Hn & Hc).
      rewrite Hn, Hc.
      pose proof (collect_invariant_length t n0 _ _ Hinv) as Hlen. simpl in Hlen.
      rewrite <- (filter_enabled_snoc popped p n Hn).
      apply IH.
      * apply collect_invariant_pop; assumption.
      * apply collect_complete_pop. exact Hcomp.
      * rewrite length_app. simpl. lia.
Qed.

Lemma popped_are_descendants popped :
  collect_invariant t n0 popped [] ->
  forall x, x ∈ popped -> descendant t n0 x.
Proof.
  intros (_ & Hall) x. induction x as [x IH] using lt_wf_ind. intros Hx.
  destruct (Hall x) as (Hlo & Hhi & Hpar); [rewrite app_nil_r; exact Hx|].
  destruct Hpar as [Hpar | Hpar].
  - rewrite <- Hpar. apply descendant_child; lia.
  - apply descendant_below; [lia | exact Hhi |].
    apply IH; [apply (parent_below t Htopo); lia | exact Hpar].
Qed.

Lemma descendants_are_popped popped :
  collect_complete t n0 popped [] ->
  forall a x, descendant t a x -> a = n0 -> x ∈ popped.
Proof.
  intros (Hroot & Hclosed) a x Hd. induction Hd as [d H0 Hd | a d H0 Hd Hup IH]; intros Ha.
  - specialize (Hroot d). rewrite app_nil_r in Hroot. apply Hroot.
    rewrite <- Ha. apply (child_of_parent t Htopo); assumption.
  - specialize (Hclosed (parent_of t d) d (IH Ha)). rewrite app_nil_r in Hclosed.
    apply Hclosed. apply (child_of_parent t Htopo); assumption.
Qed.

Lemma worker_get_child_contexts_exact n params :
  arr !! n0 = Some n ->
  exists children,
    worker_get_child_contexts_to_run_ arr n params = Ok children /\
    NoDup children /\
    ((children_poll_policy params =? poll_disabled)%Z = true -> children = []) /\
    ((children_poll_policy params =? poll_disabled)%Z = false ->
     forall x, x ∈ children <-> descendant t n0 x /\ enabled_at arr x = true).
Proof.
  intros Hn.
  assert (n0 < length t) as Hn0.
  { rewrite <- (linked_length t arr Hlinked). eapply lookup_lt_Some; eauto. }
  destruct (worker_get_child_contexts_ok t arr Htopo Hlinked n0 n params Hn0 Hn)
    as (children & Hrun & Hnd & _).
  exists children. split; [exact Hrun|]. split; [exact Hnd|].
  unfold worker_get_child_contexts_to_run_ in Hrun.
  destruct (children_poll_policy params =? poll_disabled)%Z; simpl in Hrun.
  - split; [intros _; congruence | discriminate].
  - split; [discriminate|]. intros _.
    destruct (linked_children t arr Hlinked n0 Hn0) as (n' & Hn' & Hc).
    assert (n' = n) as -> by congruence. rewrite Hc in Hrun.
    rewrite (linked_length t arr Hlinked) in Hrun.
    destruct (collect_child_contexts_exact (length t) (children_of t n0) [])
      as (popped & Hrun' & Hinv & Hcomp).
    + split; [apply NoDup_children_of|].
      intros x Hx. simpl in Hx.
      pose proof (children_of_above t Htopo _ _ Hx).
      apply elem_of_children_of in Hx. destruct Hx as (H1 & H2 & _). auto.
    + split; [intros c Hc'; exact Hc'|].
      intros p c Hp. apply elem_of_nil in Hp. contradiction.
    + simpl. lia.
    + simpl in Hrun'. rewrite Hrun' in Hrun. injection Hrun as <-.
      intros x. rewrite list_elem_of_In, List.filter_In, <- list_elem_of_In.
      split.
      * intros [Hx He]. split; [eapply popped_are_descendants; eauto | exact He].
      * intros [Hx He]. split; [eapply descendants_are_popped; eauto | exact He].
Qed.

End CollectExact.

(** X15. For the worker of a node of a scheduler made from a tree,
    [worker_get_child_contexts_to_run_] returns. With the children poll
    disabled it returns nothing. Otherwise it returns, each once, exactly
    the nodes below the worker's node that are enabled: a disabled node is
    left out, but the nodes below it are not. *)
Theorem X15_worker_collects_enabled_descendants
    (t : context_tree.t) (arr : list node) (n0 : nat) (n : node) (params : parameters) :
  context_tree.topological t ->
  linked t arr ->
  arr !! n0 = Some n ->
  exists children,
    worker_get_child_contexts_to_run_ arr n params = Ok children /\
    NoDup children /\
    (children_poll_policy params = poll_disabled -> children = []) /\
    (children_poll_policy params <> poll_disabled ->
     forall x, x ∈ children <-> descendant t n0 x /\ enabled_at arr x = true).
Proof.
  intros Htopo Hlinked Hn.
  destruct (worker_get_child_contexts_exact t arr Htopo Hlinked n0 n params Hn)
    as (children & Hrun & Hnd & Hoff & Hon).
  exists children. split; [exact Hrun|]. split; [exact Hnd|].
  split.
  - intros Hp. apply Hoff. apply Z.eqb_eq. exact Hp.
  - intros Hp. apply Hon. apply Z.eqb_neq. exact Hp.
Qed.

Lemma sample_nodes_linked : linked (build_tree sample_calls) sample_nodes.
Proof.
  destruct (ctor_ok calm_host (build_tree sample_calls)) as (arr & Hctor & Hreal);
    [apply build_tree_well_formed | reflexivity |].
  apply realizes_linked.
  replace sample_nodes with arr; [exact Hreal|].
  unfold sample_nodes. rewrite Hctor. reflexivity.
Qed.

Lemma X15_witness :
  exists n children,
    sample_nodes !! 0 = Some n /\
    worker_get_child_contexts_to_run_ sample_nodes n default_parameters = Ok children /\
    children = [2] /\
    enabled_at sample_nodes 1 = false /\
    (descendant (build_tree sample_calls) 0 2 /\ enabled_at sample_nodes 2 = true).
Proof.
  destruct (X15_worker_collects_enabled_descendants (build_tree sample_calls) sample_nodes
              0 _ default_parameters (proj1 (build_tree_well_formed sample_calls))
              sample_nodes_linked eq_refl)
    as (children & Hrun & _ & _ & Hon).
  eexists. exists children. split; [reflexivity|]. split; [exact Hrun|].
  assert (children = [2]) as Hc by (vm_compute in Hrun; congruence).
  split; [exact Hc|]. split; [reflexivity|].
  apply Hon; [discriminate|]. rewrite Hc. left.
Defined.

(** ** The polls of one pass *)

Section PollContexts.

Variable exception_handler : exception_handler_type.
Variable r : round.

Lemma poll_contexts_cons m child rest :
  worker_poll_contexts_ exception_handler r (child :: rest) m =
  match worker_poll_context_ exception_handler r child m with
  | (Ok n, a) =>
    match worker_poll_contexts_ exception_handler r rest m with
    | (Ok k, b) => (Ok (n + k), a ++ b)
    | (x, b) => (x, a ++ b)
    end
  | (x, a) => (x, a)
  end.
Proof. reflexivity. Qed.

Lemma poll_contexts_spec m : forall children,
  exists k,
    k <= length children /\
    List.filter is_poll_action (snd (worker_poll_contexts_ exception_handler r children m))
      = (fun c => act_poll c m) <$> take k children /\
    List.filter is_delay_action (snd (worker_poll_contexts_ exception_handler r children m))
      = [] /\
    (forall total,
       fst (worker_poll_contexts_ exception_handler r children m) = Ok total ->
       k = length children /\
       total = sum_list_with
                 (fun c => executed_by (fst (worker_poll_context_ exception_handler r c m)))
                 children) /\
    ((forall total,
        fst (worker_poll_contexts_ exception_handler r children m) <> Ok total) ->
     0 < k /\
     exists c,
       children !! (k - 1) = Some c /\
       fst (worker_poll_context_ exception_handler r c m)
         = fst (worker_poll_contexts_ exception_handler r children m)).
Proof.
  induction children as [|child rest IH].
  - exists 0. simpl. split; [lia|]. split; [reflexivity|]. split; [reflexivity|].
    split.
    + intros total H. injection H as <-. auto.
    + intros H. exfalso. apply (H 0). reflexivity.
  - destruct IH as (k & Hk & Hpolls & Hdelays & Hok & Hbad).
    rewrite poll_contexts_cons.
    pose proof (poll_context_polls exception_handler child r m) as Hp1.
    pose proof (poll_context_delays exception_handler child r m) as Hd1.
    destruct (worker_poll_context_ exception_handler r child m) as [x a] eqn:E.
    simpl in Hp1, Hd1.
    destruct x as [n|e| |].
    + destruct (worker_poll_contexts_ exception_handler r rest m) as [y b] eqn:E2.
      simpl in Hpolls, Hdelays, Hok, Hbad.
      assert (forall y',
                List.filter is_poll_action (snd (y', a ++ b))
                  = (fun c => act_poll c m) <$> take (S k) (child :: rest) /\
                List.filter is_delay_action (snd (y' : result nat, a ++ b)) = []) as Hboth.
      { intros y'. simpl. rewrite !List.filter_app, Hp1, Hd1, Hpolls, Hdelays.
        split; reflexivity. }
      exists (S k). split; [simpl; lia|].
      destruct y as [k2|e| |]; (split; [apply Hboth|]); (split; [apply Hboth|]); simpl.
      * split.
        -- intros total H. injection H as <-.
           destruct (Hok k2 eq_refl) as (-> & ->). split; [reflexivity|].
           simpl. rewrite ?E. reflexivity.
        -- intros H. exfalso. apply (H (n + k2)). reflexivity.
      * split; [discriminate|]. intros _. split; [lia|].
        destruct Hbad as (Hpos & c & Hc & Hf); [discriminate|].
        exists c. rewrite Nat.sub_0_r. split; [|exact Hf].
        destruct k; [lia|]. simpl in *. rewrite Nat.sub_0_r in Hc. exact Hc.
      * split; [discriminate|]. intros _. split; [lia|].
        destruct Hbad as (Hpos & c & Hc & Hf); [discriminate|].
        exists c. rewrite Nat.sub_0_r. split; [|exact Hf].
        destruct k; [lia|]. simpl in *. rewrite Nat.sub_0_r in Hc. exact Hc.
      * split; [discriminate|]. intros _. split; [lia|].
        destruct Hbad as (Hpos & c & Hc & Hf); [discriminate|].
        exists c. rewrite Nat.sub_0_r. split; [|exact Hf].
        destruct k; [lia|]. simpl in *. rewrite Nat.sub_0_r in Hc. exact Hc.
    + exists 1. simpl. split; [lia|]. split; [rewrite Hp1; reflexivity|].
      split; [exact Hd1|]. split; [discriminate|].
      intros _. split; [lia|]. exists child. split; [reflexivity|]. rewrite E. reflexivity.
    + exists 1. simpl. split; [lia|]. split; [rewrite Hp1; reflexivity|].
      split; [exact Hd1|]. split; [discriminate|].
      intros _. split; [lia|]. exists child. split; [reflexivity|]. rewrite E. reflexivity.
    + exists 1. simpl. split; [lia|]. split; [rewrite Hp1; reflexivity|].
      split; [exact Hd1|]. split; [discriminate|].
      intros _. split; [lia|]. exists child. split; [reflexivity|]. rewrite E. reflexivity.
Qed.

Lemma poll_self_and_children_actions self children_m children n a :
  poll_self_and_children exception_handler r self children_m children = (Ok n, a) ->
  List.filter is_poll_action a = pass_polls self children_m children /\
  List.filter is_delay_action a = [].
Proof.
  unfold poll_self_and_children, pass_polls. intros Hrun.
  assert (exists x a0,
            match self with
            | Some (s, m0) => worker_poll_context_ exception_handler r s m0
            | None => (Ok 0, [])
            end = (x, a0) /\
            List.filter is_poll_action a0
              = match self with Some (s, m0) => [act_poll s m0] | None => [] end /\
            List.filter is_delay_action a0 = []) as (x & a0 & E & Hp0 & Hd0).
  { destruct self as [[s m0]|].
    - pose proof (poll_context_polls exception_handler s r m0) as Hp.
      pose proof (poll_context_delays exception_handler s r m0) as Hd.
      destruct (worker_poll_context_ exception_handler r s m0) as [x a0].
      exists x, a0. auto.
    - exists (Ok 0), []. auto. }
  rewrite E in Hrun.
  destruct x as [n0|e| |]; try discriminate.
  destruct children_m as [m1|].
  - destruct (poll_contexts_spec m1 children) as (k & _ & Hp1 & Hd1 & Hok & _).
    destruct (worker_poll_contexts_ exception_handler r children m1) as [y b].
    simpl in Hp1, Hd1, Hok.
    destruct y as [k2|e| |]; try discriminate.
    injection Hrun as <- <-.
    destruct (Hok k2 eq_refl) as (-> & _).
    rewrite !List.filter_app, Hp0, Hd0, Hp1, Hd1, take_ge by lia.
    split; reflexivity.
  - injection Hrun as <- <-. rewrite app_nil_r. auto.
Qed.

End PollContexts.

(** X16. [worker_poll_contexts_] polls the children in the order of the
    vector, each once, until a call lets an exception out: when it returns,
    every child has been polled and the count is the sum of what the calls
    ran, a call whose exception went to the sink counting 0; when it does
    not, the child polled last is the one whose call did not return, and the
    children after it have not been polled. *)
Theorem X16_children_polled_in_order
    (exception_handler : exception_handler_type) (r : round) (children : list nat)
    (m : poll_method) :
  exists k,
    k <= length children /\
    List.filter is_poll_action (snd (worker_poll_contexts_ exception_handler r children m))
      = (fun c => act_poll c m) <$> take k children /\
    (forall total,
       fst (worker_poll_contexts_ exception_handler r children m) = Ok total ->
       k = length children /\
       total = sum_list_with
                 (fun c => executed_by (fst (worker_poll_context_ exception_handler r c m)))
                 children) /\
    ((forall total,
        fst (worker_poll_contexts_ exception_handler r children m) <> Ok total) ->
     0 < k /\
     exists c,
       children !! (k - 1) = Some c /\
       fst (worker_poll_context_ exception_handler r c m)
         = fst (worker_poll_contexts_ exception_handler r children m)).
Proof.
  destruct (poll_contexts_spec exception_handler r m children)
    as (k & Hk & Hp & _ & Hok & Hbad).
  exists k. auto.
Qed.

(** ** The loop over several queues *)

Section MultiQueue.

Variable exception_handler : exception_handler_type.
Variable params : parameters.
Variable self : option (nat * poll_method).
Variable children_m : option poll_method.
Variable children : list nat.

Lemma live_rounds_length rounds : length (live_rounds rounds) <= length rounds.
Proof.
  induction rounds as [|r rest IH]; simpl; [lia|].
  destruct (state_eqb (seen_state r) stopping); simpl; lia.
Qed.

Lemma multiple_loop_polls : forall rounds wait_rounds,
  (forall r, r ∈ live_rounds rounds ->
     exists n a,
       poll_self_and_children exception_handler r self children_m children = (Ok n, a)) ->
  List.filter is_poll_action
    (snd (worker_run_multiple_loop exception_handler params self children_m children
            wait_rounds rounds))
    = mjoin (replicate (length (live_rounds rounds)) (pass_polls self children_m children)) /\
  fst (worker_run_multiple_loop exception_handler params self children_m children
         wait_rounds rounds)
    = (if length (live_rounds rounds) <? length rounds then returned else still_running).
Proof.
  induction rounds as [|r rest IH]; intros wait_rounds Hlive; simpl.
  - split; reflexivity.
  - simpl in Hlive.
    destruct (state_eqb (seen_state r) stopping) eqn:Es; simpl.
    + split; reflexivity.
    + destruct (Hlive r) as (n & a & E); [left|].
      rewrite E.
      destruct (poll_self_and_children_actions _ _ _ _ _ _ _ E) as (Hp & _).
      set (w2 := if n =? 0 then _ else _).
      destruct (IH w2) as (IHp & IHo).
      { intros r' Hr'. apply Hlive. right. exact Hr'. }
      destruct (worker_run_multiple_loop exception_handler params self children_m children
                  w2 rest) as [o tr].
      simpl in *. rewrite !List.filter_app, Hp, IHp.
      split.
      * destruct (delay_rounds params <=? wait_rounds);
          [rewrite delay_polls|]; reflexivity.
      * rewrite IHo.
        pose proof (live_rounds_length rest).
        destruct (length (live_rounds rest) <? length rest) eqn:E1;
          destruct (S (length (live_rounds rest)) <? S (length rest)) eqn:E2;
          try reflexivity.
        -- apply Nat.ltb_lt in E1. apply Nat.ltb_ge in E2. lia.
        -- apply Nat.ltb_ge in E1. apply Nat.ltb_lt in E2. lia.
Qed.

Lemma delay_only_delays :
  List.filter is_delay_action (worker_delay_ params) = worker_delay_ params.
Proof. unfold worker_delay_. repeat case_match; reflexivity. Qed.

(** The delays of a worker that finds nothing to run. *)
Lemma multiple_loop_idle : forall rounds wait_rounds,
  1 <= delay_rounds params ->
  wait_rounds <= delay_rounds params ->
  (forall r, r ∈ live_rounds rounds ->
     exists a,
       poll_self_and_children exception_handler r self children_m children = (Ok 0, a)) ->
  length (List.filter is_delay_action
            (snd (worker_run_multiple_loop exception_handler params self children_m
                    children wait_rounds rounds)))
    = (length (live_rounds rounds) + wait_rounds - 1) / delay_rounds params
      * length (worker_delay_ params).
Proof.
  induction rounds as [|r rest IH]; intros wait_rounds Hd Hw Hlive; simpl.
  - rewrite Nat.div_small by lia. reflexivity.
  - simpl in Hlive.
    destruct (state_eqb (seen_state r) stopping) eqn:Es; simpl.
    + rewrite Nat.div_small by lia. reflexivity.
    + destruct (Hlive r) as (a & E); [left|].
      rewrite E.
      destruct (poll_self_and_children_actions _ _ _ _ _ _ _ E) as (_ & Hda).
      change (0 =? 0) with true. cbv iota.
      destruct (delay_rounds params <=? wait_rounds) eqn:Ed.
      * apply Nat.leb_le in Ed.
        specialize (IH 1 Hd Hd).
        destruct (worker_run_multiple_loop exception_handler params self children_m
                    children 1 rest) as [o tr].
        simpl in *. rewrite !List.filter_app, !length_app, Hda, delay_only_delays, IH.
        -- replace (length (live_rounds rest) + wait_rounds - 0)
             with (length (live_rounds rest) + 1 * delay_rounds params) by lia.
           rewrite Nat.div_add by lia.
           replace (length (live_rounds rest) + 1 - 1) with (length (live_rounds rest)) by lia.
           simpl. lia.
        -- intros r' Hr'. apply Hlive. right. exact Hr'.
      * apply Nat.leb_gt in Ed.
        specialize (IH (S wait_rounds) Hd).
        destruct (worker_run_multiple_loop exception_handler params self children_m
                    children (S wait_rounds) rest) as [o tr].
        simpl in *. rewrite !List.filter_app, !length_app, Hda, IH.
        -- simpl. f_equal. f_equal. lia.
        -- lia.
        -- intros r' Hr'. apply Hlive. right. exact Hr'.
Qed.

(** A worker that runs something in every pass never delays. *)
Lemma multiple_loop_busy : forall rounds wait_rounds,
  wait_rounds < delay_rounds params ->
  (forall r, r ∈ live_rounds rounds ->
     exists n a,
       poll_self_and_children exception_handler r self children_m children
         = (Ok (S n), a)) ->
  List.filter is_delay_action
    (snd (worker_run_multiple_loop exception_handler params self children_m children
            wait_rounds rounds))
    = [].
Proof.
  induction rounds as [|r rest IH]; intros wait_rounds Hw Hlive; simpl.
  - reflexivity.
  - simpl in Hlive.
    destruct (state_eqb (seen_state r) stopping) eqn:Es; simpl; [reflexivity|].
    destruct (Hlive r) as (n & a & E); [left|].
    rewrite E.
    destruct (poll_self_and_children_actions _ _ _ _ _ _ _ E) as (_ & Hda).
    assert ((delay_rounds params <=? wait_rounds) = false) as -> by (apply Nat.leb_gt; lia).
    change (S n =? 0) with false. cbv iota.
    specialize (IH wait_rounds Hw).
    destruct (worker_run_multiple_loop exception_handler params self children_m children
                wait_rounds rest) as [o tr].
    simpl in *. rewrite List.filter_app, Hda, IH; [reflexivity|].
    intros r' Hr'. apply Hlive. right. exact Hr'.
Qed.

End MultiQueue.

Lemma worker_run_multiple_unfold exception_handler params self_context_ptr
    child_context_ptrs rounds :
  worker_run_multiple_ exception_handler params self_context_ptr child_context_ptrs rounds
    = worker_run_multiple_loop exception_handler params
        (self_poll_method_of params self_context_ptr) (children_poll_method_of params)
        child_context_ptrs 0 rounds.
Proof. reflexivity. Qed.

(** X17. As long as no exception leaves a pass, [worker_run_multiple_]
    makes in every pass the same calls: the self poll, if the worker has
    one, then one poll of every child in the order of the vector; it makes
    one pass for every time it reads a state other than [stopping], and
    returns the first time it reads [stopping]. *)
Theorem X17_multi_queue_polls_every_queue_each_pass
    (exception_handler : exception_handler_type) (params : parameters)
    (self_context_ptr : option nat) (child_context_ptrs : list nat)
    (rounds : list round) :
  (forall r, r ∈ live_rounds rounds ->
     exists n a,
       poll_self_and_children exception_handler r
         (self_poll_method_of params self_context_ptr) (children_poll_method_of params)
         child_context_ptrs = (Ok n, a)) ->
  List.filter is_poll_action
    (snd (worker_run_multiple_ exception_handler params self_context_ptr
            child_context_ptrs rounds))
    = mjoin (replicate (length (live_rounds rounds))
               (pass_polls (self_poll_method_of params self_context_ptr)
                  (children_poll_method_of params) child_context_ptrs)) /\
  fst (worker_run_multiple_ exception_handler params self_context_ptr
         child_context_ptrs rounds)
    = (if length (live_rounds rounds) <? length rounds then returned else still_running).
Proof.
  intros Hlive. rewrite worker_run_multiple_unfold.
  apply multiple_loop_polls. exact Hlive.
Qed.

Lemma X17_witness :
  List.filter is_poll_action
    (snd (worker_run_multiple_ None default_parameters (Some 0) [1; 2]
            [busy_round running false; busy_round running false;
             busy_round stopping false]))
    = [act_poll 0 m_poll; act_poll 1 m_poll_one; act_poll 2 m_poll_one;
       act_poll 0 m_poll; act_poll 1 m_poll_one; act_poll 2 m_poll_one] /\
  fst (worker_run_multiple_ None default_parameters (Some 0) [1; 2]
         [busy_round running false; busy_round running false;
          busy_round stopping false])
    = returned.
Proof.
  apply (X17_multi_queue_polls_every_queue_each_pass None default_parameters (Some 0)
           [1; 2]
           [busy_round running false; busy_round running false;
            busy_round stopping false]).
  intros r Hr. simpl in Hr.
  apply elem_of_cons in Hr as [-> | Hr]; [eexists; eexists; reflexivity|].
  apply elem_of_cons in Hr as [-> | Hr]; [eexists; eexists; reflexivity|].
  apply elem_of_nil in Hr. contradiction.
Defined.

(** X18. The idle delay of [worker_run_multiple_], for a positive
    [delay_rounds]: a worker whose passes all run nothing calls
    [worker_delay_] before pass [delay_rounds + 1] and then before every
    [delay_rounds]-th pass after it, so that after [L] passes it has made
    [(L - 1) / delay_rounds] such calls; a worker whose passes all run
    something never delays. *)
Theorem X18_multi_queue_delays_after_idle_rounds
    (exception_handler : exception_handler_type) (params : parameters)
    (self_context_ptr : option nat) (child_context_ptrs : list nat)
    (rounds : list round) :
  1 <= delay_rounds params ->
  ((forall r, r ∈ live_rounds rounds ->
      exists a,
        poll_self_and_children exception_handler r
          (self_poll_method_of params self_context_ptr) (children_poll_method_of params)
          child_context_ptrs = (Ok 0, a)) ->
   length (List.filter is_delay_action
             (snd (worker_run_multiple_ exception_handler params self_context_ptr
                     child_context_ptrs rounds)))
     = (length (live_rounds rounds) - 1) / delay_rounds params
       * length (worker_delay_ params)) /\
  ((forall r, r ∈ live_rounds rounds ->
      exists n a,
        poll_self_and_children exception_handler r
          (self_poll_method_of params self_context_ptr) (children_poll_method_of params)
          child_context_ptrs = (Ok (S n), a)) ->
   List.filter is_delay_action
     (snd (worker_run_multiple_ exception_handler params self_context_ptr
             child_context_ptrs rounds))
     = []).
Proof.
  intros Hd. rewrite worker_run_multiple_unfold. split; intros Hlive.
  - rewrite multiple_loop_idle by (try exact Hlive; lia).
    rewrite Nat.add_0_r. reflexivity.
  - apply multiple_loop_busy; [lia | exact Hlive].
Qed.

Lemma X18_witness :
  List.filter is_delay_action
    (snd (worker_run_multiple_ None default_parameters (Some 0) [1; 2]
            [idle_round running; idle_round running; idle_round running;
             idle_round stopping]))
    = [act_yield; act_yield] /\
  List.filter is_delay_action
    (snd (worker_run_multiple_ None default_parameters (Some 0) [1; 2]
            [busy_round running false; busy_round running false;
             busy_round stopping false]))
    = [].
Proof.
  destruct (X18_multi_queue_delays_after_idle_rounds None default_parameters (Some 0)
              [1; 2]
              [busy_round running false; busy_round running false;
               busy_round stopping false]) as [_ Hbusy]; [simpl; lia|].
  split; [reflexivity|].
  apply Hbusy. intros r Hr. simpl in Hr.
  apply elem_of_cons in Hr as [-> | Hr]; [eexists; eexists; reflexivity|].
  apply elem_of_cons in Hr as [-> | Hr]; [eexists; eexists; reflexivity|].
  apply elem_of_nil in Hr. contradiction.
Defined.

Lemma poll_method_none v :
  worker_get_poll_method_ v = None <-> v = poll_disabled \/ is_poll v = false.
Proof.
  unfold worker_get_poll_method_, is_poll.
  destruct (v =? poll_disabled)%Z eqn:E0.
  - apply Z.eqb_eq in E0. tauto.
  - apply Z.eqb_neq in E0.
    destruct (v =? poll_one)%Z; [simpl; split; [discriminate | intros [?|?]; congruence]|].
    destruct (v =? poll_all)%Z; [simpl; split; [discriminate | intros [?|?]; congruence]|].
    destruct (v =? run_one)%Z; [simpl; split; [discriminate | intros [?|?]; congruence]|].
    simpl. tauto.
Qed.

(** X19. A poll policy outside the enumeration makes
    [worker_get_poll_method_] return the null pointer, as [disabled] does,
    and a delay policy outside the enumeration makes [worker_delay_] do
    nothing. For a record that went through [fixed_worker_parameters_] this
    cannot happen: the pointer is null exactly when the caller asked for
    [disabled], and [worker_delay_] does nothing exactly when the caller
    asked for [no_delay]. *)
Theorem X19_normalized_policies_are_honoured (p : parameters) :
  (forall v, is_poll v = false -> worker_get_poll_method_ v = None) /\
  (is_delay (delay_policy p) = false -> worker_delay_ p = []) /\
  (worker_get_poll_method_ (self_poll_policy (fixed_worker_parameters_ p)) = None
     <-> self_poll_policy p = poll_disabled) /\
  (worker_get_poll_method_ (children_poll_policy (fixed_worker_parameters_ p)) = None
     <-> children_poll_policy p = poll_disabled) /\
  (worker_delay_ (fixed_worker_parameters_ p) = [] <-> delay_policy p = no_delay).
Proof.
  split; [intros v Hv; apply poll_method_none; right; exact Hv|].
  split.
  { unfold worker_delay_, is_delay. intros H.
    destruct (delay_policy p =? no_delay)%Z; [reflexivity|].
    destruct (delay_policy p =? yield)%Z; [discriminate|].
    destruct (delay_policy p =? sleep)%Z; [discriminate|]. reflexivity. }
  split; [|split].
  - rewrite poll_method_none, fixed_self_poll.
    destruct (is_poll (self_poll_policy p)) eqn:E.
    + rewrite E. split; [intros [?|?]; [assumption|discriminate] | tauto].
    + split.
      * intros [H|H]; [discriminate H | discriminate H].
      * intros H. rewrite H in E. discriminate E.
  - rewrite poll_method_none, fixed_children_poll.
    destruct (is_poll (children_poll_policy p)) eqn:E.
    + rewrite E. split; [intros [?|?]; [assumption|discriminate] | tauto].
    + split.
      * intros [H|H]; [discriminate H | discriminate H].
      * intros H. rewrite H in E. discriminate E.
  - unfold worker_delay_. rewrite fixed_delay_policy, fixed_delay_value.
    unfold is_delay.
    destruct (delay_policy p =? no_delay)%Z eqn:E0; simpl.
    + apply Z.eqb_eq in E0. rewrite E0. simpl. tauto.
    + apply Z.eqb_neq in E0.
      destruct (delay_policy p =? yield)%Z eqn:E1; simpl.
      * apply Z.eqb_eq in E1. rewrite E1. simpl.
        split; [discriminate | intros H; congruence].
      * destruct (delay_policy p =? sleep)%Z eqn:E2; simpl.
        -- apply Z.eqb_eq in E2. rewrite E2. simpl.
           split; [discriminate | intros H; congruence].
        -- split; [discriminate | intros H; congruence].
Qed.

(** * The future, the promise and their shared state *)

Section FutureState.

Context {T : Type}.

Import future.

Lemma run_calls_ready (calls : list (call T)) : forall s : coroutine_future_state T,
  ready s = true ->
  let s' := foldl (fun s c => run_call c s) s calls in
  ready s' = true /\ value_ s' = value_ s /\ exception_ptr_ s' = exception_ptr_ s /\
  handlers_ s' = handlers_ s /\ posted_ s' = posted_ s ++ waiters calls.
Proof.
  induction calls as [|c calls IH]; intros s Hr; simpl.
  - rewrite app_nil_r. auto.
  - destruct c as [v|e|h|]; simpl.
    + unfold set_value. rewrite Hr. simpl. apply IH. exact Hr.
    + unfold set_exception. rewrite Hr. simpl. apply IH. exact Hr.
    + unfold async_wait. rewrite Hr.
      destruct (IH {| handlers_ := handlers_ s; ready_ := ready_ s; value_ := value_ s;
                      exception_ptr_ := exception_ptr_ s;
                      posted_ := posted_ s ++ [h] |} Hr)
        as (H1 & H2 & H3 & H4 & H5).
      simpl in *. rewrite H5, <- app_assoc. auto.
    + apply IH. exact Hr.
Qed.

Lemma run_calls_unset (calls : list (call T)) : forall s : coroutine_future_state T,
  ready s = false -> value_ s = None -> exception_ptr_ s = None ->
  let s' := foldl (fun s c => run_call c s) s calls in
  get s' = first_set calls /\
  (if ready s'
   then posted_ s' = posted_ s ++ handlers_ s ++ waiters calls /\ handlers_ s' = []
   else posted_ s' = posted_ s /\ handlers_ s' = handlers_ s ++ waiters calls /\
        value_ s' = None /\ exception_ptr_ s' = None).
Proof.
  induction calls as [|c calls IH]; intros s Hr Hv He; simpl.
  - unfold get, wait. unfold ready in Hr. rewrite Hr. unfold ready. rewrite Hr.
    rewrite app_nil_r. auto.
  - destruct c as [v|e|h|]; simpl.
    + unfold set_value. rewrite Hr. cbn [snd].
      set (s1 := notify_ready_ _).
      destruct (run_calls_ready calls s1 eq_refl) as (H1 & H2 & H3 & H4 & H5).
      set (s' := foldl _ s1 calls) in *.
      rewrite H1. unfold get, wait. change (ready_ s') with (ready s').
      rewrite H1, H3, H2, H4, H5. subst s1. simpl. rewrite He, <- app_assoc. auto.
    + unfold set_exception. rewrite Hr. cbn [snd].
      set (s1 := notify_ready_ _).
      destruct (run_calls_ready calls s1 eq_refl) as (H1 & H2 & H3 & H4 & H5).
      set (s' := foldl _ s1 calls) in *.
      rewrite H1. unfold get, wait. change (ready_ s') with (ready s').
      rewrite H1, H3, H2, H4, H5. subst s1. simpl. rewrite Hv, <- app_assoc.
      split; [destruct e; reflexivity | auto].
    + unfold async_wait. rewrite Hr.
      destruct (IH {| handlers_ := handlers_ s ++ [h]; ready_ := ready_ s;
                      value_ := value_ s; exception_ptr_ := exception_ptr_ s;
                      posted_ := posted_ s |} Hr Hv He) as (H1 & H2).
      split; [exact H1|]. simpl in H2. rewrite <- !app_assoc in H2. exact H2.
    + apply IH; assumption.
Qed.

End FutureState.

(** X20. Of the calls of [set_value] and [set_exception] on one shared
    state the first one wins: whatever calls are made on a state, [get()]
    answers by what the first setter stored (it waits when there was none),
    every setter called on a ready state throws
    [future_error(promise_already_satisfied)] and leaves the state as it is,
    and a setter called on a state that is not ready makes it ready with its
    value. *)
Theorem X20_first_setter_wins {T : Type} (calls : list (future.call T)) :
  future.get (future.run_calls calls) = future.first_set calls /\
  (future.ready (future.run_calls calls) = true ->
   forall v e,
     future.set_value v (future.run_calls calls)
       = (future.threw (future.future_error future.promise_already_satisfied),
          future.run_calls calls) /\
     future.set_exception e (future.run_calls calls)
       = (future.threw (future.future_error future.promise_already_satisfied),
          future.run_calls calls)) /\
  (future.ready (future.run_calls calls) = false ->
   future.get (future.run_calls calls) = future.blocks /\
   forall v,
     fst (future.set_value v (future.run_calls calls)) = future.done tt /\
     future.ready (snd (future.set_value v (future.run_calls calls))) = true /\
     future.get (snd (future.set_value v (future.run_calls calls))) = future.done v).
Proof.
  destruct (run_calls_unset calls future.make_state eq_refl eq_refl eq_refl) as (Hget & Hrest).
  fold (future.run_calls calls) in Hget, Hrest.
  split; [exact Hget|]. split.
  - intros Hr v e. unfold future.set_value, future.set_exception. rewrite Hr. auto.
  - intros Hr. rewrite Hr in Hrest. destruct Hrest as (_ & _ & Hv & He).
    split.
    + unfold future.get, future.wait. unfold future.ready in Hr. rewrite Hr. reflexivity.
    + intros v. unfold future.set_value. rewrite Hr. simpl.
      split; [reflexivity|]. split; [reflexivity|].
      unfold future.get. simpl. rewrite He. reflexivity.
Qed.

(** X21. A handler given to [async_wait] is posted exactly once, and not
    before the state is ready: whatever calls are made on a state, while it
    is not ready nothing has been posted and the handlers are queued in the
    order of their calls; once it is ready the handlers posted are all those
    given so far, in the order of their calls, and none is queued. *)
Theorem X21_waiters_posted_once_when_ready {T : Type} (calls : list (future.call T)) :
  if future.ready (future.run_calls calls)
  then future.posted_ (future.run_calls calls) = future.waiters calls /\
       future.handlers_ (future.run_calls calls) = []
  else future.posted_ (future.run_calls calls) = [] /\
       future.handlers_ (future.run_calls calls) = future.waiters calls.
Proof.
  destruct (run_calls_unset calls future.make_state eq_refl eq_refl eq_refl) as (_ & Hrest).
  fold (future.run_calls calls) in Hrest.
  destruct (future.ready (future.run_calls calls)).
  - exact Hrest.
  - destruct Hrest as (H1 & H2 & _). auto.
Qed.

(** X22. A promise and the futures got from it share one state: a future
    got from a new promise is valid and not ready, and its [get()] waits;
    once the promise (or the promise it was moved to) has set a value,
    every future got from it, before or after, is ready and its [get()]
    returns that value, also after a second [set_value], which throws
    [promise_already_satisfied]. A future made without a promise, and the
    promise and the future that were moved from, have no state: [valid()] is
    false and every other call throws [future_error(no_state)] and changes
    nothing. *)
Theorem X22_futures_share_the_state_of_their_promise
    {T : Type} (address : nat) (h : future.heap T) (v v' : T) (e : option exn)
    (handler : nat) :
  let p := fst (future.new_promise address h) in
  let h1 := snd (future.new_promise address h) in
  let f := future.get_future p in
  let h2 := snd (future.promise_set_value p v h1) in
  let h3 := snd (future.promise_set_value p v' h2) in
  let p0 := snd (future.move_promise p) in
  let f0 := snd (future.move_future f) in
  (future.future_valid f = true /\
   future.future_ready f h1 = future.done false /\
   future.future_get f h1 = future.blocks) /\
  (fst (future.promise_set_value p v h1) = future.done tt /\
   future.future_ready f h2 = future.done true /\
   future.future_get f h2 = future.done v /\
   future.future_get (future.get_future p) h2 = future.done v /\
   future.future_get (fst (future.move_future f)) h2 = future.done v /\
   future.future_get f (snd (future.promise_set_value (fst (future.move_promise p)) v h1))
     = future.done v) /\
  (fst (future.promise_set_value p v' h2)
     = future.threw (future.future_error future.promise_already_satisfied) /\
   fst (future.promise_set_exception p e h2)
     = future.threw (future.future_error future.promise_already_satisfied) /\
   future.future_get f h3 = future.done v) /\
  (future.future_valid future.new_future = false /\
   future.future_valid f0 = false /\
   future.future_valid (future.get_future p0) = false /\
   future.promise_set_value p0 v h1 = (future.threw (future.future_error future.no_state), h1) /\
   future.promise_set_exception p0 e h1
     = (future.threw (future.future_error future.no_state), h1) /\
   future.future_ready f0 h1 = future.threw (future.future_error future.no_state) /\
   future.future_get f0 h1 = future.threw (future.future_error future.no_state) /\
   future.future_wait f0 h1 = future.threw (future.future_error future.no_state) /\
   future.future_async_wait f0 handler h1
     = (future.threw (future.future_error future.no_state), h1)).
Proof.
  cbv zeta.
  unfold future.new_promise, future.get_future, future.move_promise, future.move_future,
    future.promise_set_value, future.promise_set_exception, future.future_valid,
    future.future_ready, future.future_get, future.future_wait, future.future_async_wait.
  unfold future.heap in *.
  simpl. repeat (rewrite fn_lookup_insert; simpl).
  repeat split.
Qed.

(** * The coroutine record *)

Section Coro.

Context {T : Type}.

Import coro.

Lemma coro_calls_segments : forall k (b : body T) w,
  k <= yields b ->
  coro_caller_ w = Some b ->
  exception_ptr_ w = None ->
  exists w',
    coro_calls k w = (call_returns, w') /\
    coro_caller_ w' = Some (rest_after k b) /\
    exception_ptr_ w' = None /\
    with_future_ w' = with_future_ w /\
    result_state_ w' = result_state_ w /\
    queue_ w' = queue_ w ++ posted_by k b.
Proof.
  induction k as [|k IH]; intros b w Hk Hb He.
  - exists w. simpl. rewrite app_nil_r. repeat split; try assumption; destruct b; assumption.
  - destruct b as [v|e|posts rest]; simpl in Hk; try lia.
    simpl. unfold coro_call. rewrite Hb. simpl. rewrite He.
    destruct (IH rest
                {| coro_caller_ := Some rest; exception_ptr_ := exception_ptr_ w;
                   with_future_ := with_future_ w; result_state_ := result_state_ w;
                   queue_ := queue_ w ++ posts |})
      as (w' & Hrun & H1 & H2 & H3 & H4 & H5); [lia | reflexivity | exact He |].
    exists w'. rewrite He in Hrun. split; [exact Hrun|].
    simpl in *. rewrite H5, <- app_assoc. auto.
Qed.

Lemma rest_after_yields (b : body T) :
  rest_after (yields b) b
    = match ending b with
      | inl v => body_return v
      | inr e => body_throw e
      end.
Proof. induction b as [v|e|posts rest IH]; simpl; auto. Qed.

Lemma coro_call_at_end w (e : T + exn) :
  coro_caller_ w = Some (match e with inl v => body_return v | inr x => body_throw x end) ->
  coro_call w = coro_ends w e.
Proof. intros H. unfold coro_call. rewrite H. destruct e; reflexivity. Qed.

Lemma coro_call_expired (w : world T) :
  coro_caller_ w = None -> coro_call w = (call_throws coroutine_expired, w).
Proof. intros H. unfold coro_call. rewrite H. reflexivity. Qed.

(** The function is run to its end by [yields fn + 1] calls. *)
Lemma coro_runs_to_end (with_future : bool) (fn : body T) (queue : list handler) :
  let w := coro_start (make_coro_data with_future fn queue) in
  exists w1,
    coro_calls (yields fn) w = (call_returns, w1) /\
    coro_call w1 = coro_ends w1 (ending fn) /\
    exception_ptr_ w1 = None /\ with_future_ w1 = with_future /\
    result_state_ w1 = future.make_state.
Proof.
  intros w.
  destruct (coro_calls_segments (yields fn) fn w) as (w1 & Hrun & Hc & He & Hf & Hs & _);
    [lia | reflexivity | reflexivity |].
  exists w1. split; [exact Hrun|].
  split; [apply coro_call_at_end; rewrite Hc, rest_after_yields; reflexivity|].
  auto.
Qed.

Lemma run_until_complete_ready fuel (w : world T) :
  future.ready (result_state_ w) = true -> run_until_complete fuel w = run_returns w.
Proof. intros H. destruct fuel; simpl; rewrite H; reflexivity. Qed.

Lemma run_until_complete_starves : forall fuel (w : world T),
  future.ready (result_state_ w) = false -> queue_ w = [] ->
  run_until_complete fuel w = run_out_of_fuel.
Proof.
  induction fuel as [|fuel IH]; intros w Hr Hq; simpl; rewrite Hr; [reflexivity|].
  unfold run_one_for. rewrite Hq. apply IH; assumption.
Qed.

Lemma run_until_complete_drives : forall (b : body T) (extra : nat),
  posts_its_handler b ->
  match ending b with inr e => is_std_exception e = true | inl _ => True end ->
  exists w',
    run_until_complete (2 * yields b + 1 + extra)
      {| coro_caller_ := Some b; exception_ptr_ := None; with_future_ := true;
         result_state_ := future.make_state; queue_ := [h_resume] |}
      = run_returns w' /\
    future.get (result_state_ w')
      = match ending b with
        | inl v => future.done v
        | inr e => future.threw (future.rethrown e)
        end /\
    queue_ w' = [] /\ coro_caller_ w' = None /\ exception_ptr_ w' = None.
Proof.
  induction b as [v|e|posts rest IH]; intros extra Hposts Hend.
  - simpl. eexists. split; [apply run_until_complete_ready; reflexivity|]. auto.
  - simpl in Hend. simpl. unfold run_one_for, coro_call, coro_ends, function_ends. simpl.
    rewrite Hend. simpl.
    eexists. split; [apply run_until_complete_ready; reflexivity|]. auto.
  - destruct Hposts as [-> Hposts].
    replace (2 * yields (body_yield [h_caller] rest) + 1 + extra)
      with (S (S (2 * yields rest + 1 + extra))) by (simpl; lia).
    destruct (IH extra Hposts Hend) as (w' & Hrun & Hrest).
    exists w'. split; [|exact Hrest].
    cbn [run_until_complete]. simpl. exact Hrun.
Qed.

End Coro.

(** X23. [spawn] runs nothing of the function: it keeps the whole of it
    in the record and posts one [primitive_caller]. Every [coro_call] then
    runs the function up to its next yield, and the call that runs it to its
    end returns when the function returns, throws the exception when the
    function throws a [std::exception], and terminates the program
    otherwise. After the end the record has no valid continuation, and every
    further [coro_call] throws [coroutine_expired] and changes nothing. *)
Theorem X23_spawn_runs_nothing_then_a_segment_per_call
    {T : Type} (fn : coro.body T) (queue : list coro.handler) :
  coro.coro_caller_ (coro.spawn fn queue) = Some fn /\
  coro.queue_ (coro.spawn fn queue) = queue ++ [coro.h_resume] /\
  (forall k, k <= coro.yields fn ->
     exists w,
       coro.coro_calls k (coro.spawn fn queue) = (coro.call_returns, w) /\
       coro.coro_caller_ w = Some (coro.rest_after k fn) /\
       coro.queue_ w = queue ++ [coro.h_resume] ++ coro.posted_by k fn) /\
  exists w1 w2,
    coro.coro_calls (coro.yields fn) (coro.spawn fn queue) = (coro.call_returns, w1) /\
    coro.coro_call w1 = (coro.last_call false (coro.ending fn), w2) /\
    (coro.last_call false (coro.ending fn) <> coro.call_terminates ->
     coro.coro_caller_ w2 = None /\
     coro.coro_call w2 = (coro.call_throws coroutine_expired, w2)).
Proof.
  split; [reflexivity|]. split; [reflexivity|]. split.
  - intros k Hk.
    destruct (coro_calls_segments k fn (coro.spawn fn queue) Hk eq_refl eq_refl)
      as (w & Hrun & Hc & _ & _ & _ & Hq).
    exists w. split; [exact Hrun|]. split; [exact Hc|].
    rewrite Hq. simpl. rewrite <- app_assoc. reflexivity.
  - destruct (coro_runs_to_end false fn queue) as (w1 & Hrun & Hend & He & Hf & Hs).
    exists w1. rewrite Hend.
    unfold coro.coro_ends, coro.function_ends. rewrite Hf, He.
    destruct (coro.ending fn) as [v|e]; simpl.
    + eexists. split; [exact Hrun|]. split; [reflexivity|].
      intros _. split; [reflexivity | apply coro_call_expired; reflexivity].
    + destruct (is_std_exception e) eqn:Estd.
      * eexists. split; [exact Hrun|]. split; [reflexivity|].
        intros _. split; [reflexivity | apply coro_call_expired; reflexivity].
      * eexists. split; [exact Hrun|]. split; [reflexivity|].
        intros H. exfalso. apply H. reflexivity.
Qed.

(** X24. The function given to [spawn_with_future] ends in the promise:
    the future is not ready while the function has not come to its end; the
    call that runs it to its end returns, also when the function throws a
    [std::exception], nothing is kept in the record, and the future is then
    ready with the value returned, or with the exception thrown, which
    [get()] rethrows. An exception that is not a [std::exception] leaves the
    future as it was and terminates the program. *)
Theorem X24_spawn_with_future_ends_in_the_promise
    {T : Type} (fn : coro.body T) (queue : list coro.handler) :
  future.ready (coro.result_state_ (coro.spawn_with_future fn queue)) = false /\
  coro.queue_ (coro.spawn_with_future fn queue) = queue ++ [coro.h_resume] /\
  exists w1 w2,
    coro.coro_calls (coro.yields fn) (coro.spawn_with_future fn queue)
      = (coro.call_returns, w1) /\
    future.ready (coro.result_state_ w1) = false /\
    coro.coro_call w1 = (coro.last_call true (coro.ending fn), w2) /\
    match coro.ending fn with
    | inl v =>
      future.get (coro.result_state_ w2) = future.done v /\
      coro.coro_caller_ w2 = None /\ coro.exception_ptr_ w2 = None
    | inr e =>
      if is_std_exception e then
        future.get (coro.result_state_ w2) = future.threw (future.rethrown e) /\
        coro.coro_caller_ w2 = None /\ coro.exception_ptr_ w2 = None
      else future.ready (coro.result_state_ w2) = false
    end.
Proof.
  split; [reflexivity|]. split; [reflexivity|].
  destruct (coro_runs_to_end true fn queue) as (w1 & Hrun & Hend & He & Hf & Hs).
  exists w1. rewrite Hend.
  unfold coro.coro_ends, coro.function_ends. rewrite Hf, He, Hs.
  destruct (coro.ending fn) as [v|e]; simpl.
  - eexists. split; [exact Hrun|]. split; [reflexivity|]. split; [reflexivity|]. auto.
  - destruct (is_std_exception e) eqn:Estd; simpl.
    + eexists. split; [exact Hrun|]. split; [reflexivity|]. split; [reflexivity|]. auto.
    + rewrite Estd. eexists. split; [exact Hrun|]. split; [reflexivity|].
      split; [reflexivity|]. rewrite Hs. reflexivity.
Qed.

(** X25. [run_until_complete] returns at once, running nothing, when the
    future is ready; with nothing posted and a future that is not ready it
    goes round for ever. For the coroutine of [spawn_with_future] on an
    io_context of its own, whose function posts the handler of each of its
    operations before it yields and does not end in an exception other than
    a [std::exception], it returns after two handlers for each yield and one
    more, with nothing left posted, and [get()] on the future then returns
    what the function returned or rethrows what it threw. *)
Theorem X25_run_until_complete_drives_the_coroutine
    {T : Type} (fn : coro.body T) (extra : nat) :
  coro.posts_its_handler fn ->
  match coro.ending fn with inr e => is_std_exception e = true | inl _ => True end ->
  (exists w,
     coro.run_until_complete (2 * coro.yields fn + 1 + extra)
       (coro.spawn_with_future fn []) = coro.run_returns w /\
     future.get (coro.result_state_ w)
       = match coro.ending fn with
         | inl v => future.done v
         | inr e => future.threw (future.rethrown e)
         end /\
     coro.queue_ w = []) /\
  (forall fuel w,
     future.ready (coro.result_state_ w) = true ->
     coro.run_until_complete (T := T) fuel w = coro.run_returns w) /\
  (forall fuel w,
     future.ready (coro.result_state_ w) = false -> coro.queue_ w = [] ->
     coro.run_until_complete (T := T) fuel w = coro.run_out_of_fuel).
Proof.
  intros Hposts Hend. split; [|split].
  - destruct (run_until_complete_drives fn extra Hposts Hend) as (w & Hrun & Hget & Hq & _).
    exists w. auto.
  - intros fuel w. apply run_until_complete_ready.
  - intros fuel w. apply run_until_complete_starves.
Qed.

Lemma X25_witness :
  (exists w,
     coro.run_until_complete 1 (coro.spawn_with_future (T := nat)
                                  (coro.body_throw (logic_error "As expected")) [])
       = coro.run_returns w /\
     future.get (coro.result_state_ w)
       = future.threw (future.rethrown (logic_error "As expected"))) /\
  (exists w,
     coro.run_until_complete 5
       (coro.spawn_with_future
          (coro.body_yield [coro.h_caller]
             (coro.body_yield [coro.h_caller] (coro.body_return 6))) [])
       = coro.run_returns w /\
     future.get (coro.result_state_ w) = future.done 6).
Proof.
  split.
  - destruct (X25_run_until_complete_drives_the_coroutine (T := nat)
                (coro.body_throw (logic_error "As expected")) 0 I eq_refl)
      as ((w & Hrun & Hget & _) & _).
    exists w. split; [exact Hrun | exact Hget].
  - destruct (X25_run_until_complete_drives_the_coroutine
                (coro.body_yield [coro.h_caller]
                   (coro.body_yield [coro.h_caller] (coro.body_return 6))) 0
                (conj eq_refl (conj eq_refl I)) I)
      as ((w & Hrun & Hget & _) & _).
    exists w. split; [exact Hrun | exact Hget].
Defined.

(** * The context group *)

Section ContextGroup.

Import context_group.



Lemma get_io_contexts_spec : forall n g,
  contexts_ g <> [] ->
  (index_ g + N.of_nat n <= size_max)%N ->
  exists l g',
    get_io_contexts n g = (l, g') /\
    length l = n /\
    contexts_ g' = contexts_ g /\
    forall k, k < n ->
      l !! k = contexts_ g
                 !! N.to_nat ((index_ g + N.of_nat k) mod N.of_nat (length (contexts_ g))).
Proof.
  induction n as [|n IH]; intros g Hne Hidx.
  - exists [], g. simpl. split; [reflexivity|]. split; [reflexivity|].
    split; [reflexivity|]. intros k Hk. lia.
  - simpl. unfold get_io_context.
    destruct (contexts_ g) as [|c0 cs] eqn:Ec; [congruence|].
    rewrite <- Ec in *. unfold fetch_add.
    assert (N.of_nat (length (contexts_ g)) <> 0%N) as Hlen.
    { rewrite Ec. simpl. lia. }
    assert (N.to_nat (index_ g mod N.of_nat (length (contexts_ g))) < length (contexts_ g))
      as Hin.
    { pose proof (N.mod_upper_bound (index_ g) _ Hlen). lia. }
    destruct (lookup_lt_is_Some_2 _ _ Hin) as [x Hx].
    unfold vector_at. rewrite Hx.
    set (g1 := {| index_ := (index_ g + 1) mod size_max; contexts_ := contexts_ g |}).
    destruct (IH g1) as (l & g' & Hrun & Hl & Hc & Hk).
    { simpl. rewrite Ec. discriminate. }
    { simpl. destruct n as [|n].
      - pose proof (N.mod_upper_bound (index_ g + 1) size_max). unfold size_max in *. lia.
      - rewrite N.mod_small by lia. lia. }
    rewrite Hrun. exists (x :: l), g'.
    split; [reflexivity|]. split; [simpl; lia|]. split; [exact Hc|].
    intros k Hlt. destruct k as [|k].
    + simpl. rewrite N.add_0_r. symmetry. exact Hx.
    + simpl. rewrite Hk by lia. simpl. f_equal. f_equal. f_equal.
      rewrite N.mod_small by lia. lia.
Qed.

End ContextGroup.


(** X27. [get_io_context] goes round the group: as long as the counter
    does not wrap, call number [k] (from 0) returns the io_context at
    position [(index + k) mod size], and the group stays as it is. On an
    empty group every call throws [out_of_range] and changes nothing. *)
Theorem X27_context_group_round_robin (g : context_group.t) (n : nat) :
  (context_group.contexts_ g = [] ->
   context_group.get_io_context g = (Throw (out_of_range "Empty context group"), g)) /\
  (context_group.contexts_ g <> [] ->
   (context_group.index_ g + N.of_nat n <= context_group.size_max)%N ->
   exists l g',
     context_group.get_io_contexts n g = (l, g') /\
     length l = n /\
     context_group.contexts_ g' = context_group.contexts_ g /\
     forall k, k < n ->
       l !! k = context_group.contexts_ g
                  !! N.to_nat ((context_group.index_ g + N.of_nat k)
                               mod N.of_nat (context_group.size g))).
Proof.
  split.
  - intros H. unfold context_group.get_io_context. rewrite H. reflexivity.
  - apply get_io_contexts_spec.
Qed.

Lemma X27_witness :
  context_group.get_io_context (context_group.ctor [])
    = (Throw (out_of_range "Empty context group"), context_group.ctor []) /\
  exists g',
    context_group.get_io_contexts 6 (context_group.ctor [10; 20; 30; 20])
      = ([10; 20; 30; 10; 20; 30], g').
Proof.
  split.
  - apply (X27_context_group_round_robin (context_group.ctor []) 0). reflexivity.
  - destruct (X27_context_group_round_robin (context_group.ctor [10; 20; 30; 20]) 6)
      as [_ H].
    destruct H as (l & g' & Hrun & _); [discriminate | vm_compute; discriminate |].
    exists g'. rewrite Hrun. f_equal.
    vm_compute in Hrun. congruence.
Defined.

(** * What a worker touches *)

Section WorkerQueues.

Variable exception_handler : exception_handler_type.
Variable params : parameters.

Lemma worker_regime_single self children context :
  worker_regime self children = single_queue context ->
  self = Some context \/ context ∈ children.
Proof.
  unfold worker_regime.
  destruct children as [|c1 [|c2 rest]]; destruct self as [s|]; simpl;
    intros H; try discriminate.
  - injection H as <-. left. reflexivity.
  - injection H as <-. right. left.
Qed.

Lemma worker_regime_multi_queues self children s cs :
  worker_regime self children = multi_queue s cs -> s = self /\ cs = children.
Proof.
  unfold worker_regime.
  destruct children as [|c1 [|c2 rest]]; destruct self as [s0|]; simpl;
    intros H; try discriminate; injection H as <- <-; auto.
Qed.

Lemma poll_self_and_children_prefix r self children_m children :
  List.filter is_poll_action
    (snd (poll_self_and_children exception_handler r self children_m children))
    `prefix_of` pass_polls self children_m children.
Proof.
  unfold poll_self_and_children, pass_polls.
  assert (exists x a0,
            match self with
            | Some (s, m0) => worker_poll_context_ exception_handler r s m0
            | None => (Ok 0, [])
            end = (x, a0) /\
            List.filter is_poll_action a0
              = match self with Some (s, m0) => [act_poll s m0] | None => [] end)
    as (x & a0 & E & Hp0).
  { destruct self as [[s m0]|].
    - pose proof (poll_context_polls exception_handler s r m0) as Hp.
      destruct (worker_poll_context_ exception_handler r s m0) as [x a0].
      exists x, a0. auto.
    - exists (Ok 0), []. auto. }
  rewrite E.
  destruct x as [n0|e| |]; simpl; try (rewrite Hp0; apply prefix_app_r; reflexivity).
  destruct children_m as [m1|]; simpl;
    [|rewrite Hp0; apply prefix_app_r; reflexivity].
  destruct (poll_contexts_spec exception_handler r m1 children) as (k & _ & Hp1 & _).
  destruct (worker_poll_contexts_ exception_handler r children m1) as [y b].
  simpl in Hp1.
  assert (List.filter is_poll_action (a0 ++ b)
            `prefix_of` match self with Some (s, m0) => [act_poll s m0] | None => [] end
                        ++ ((fun child => act_poll child m1) <$> children)) as Hpre.
  { rewrite List.filter_app, Hp0, Hp1. apply prefix_app.
    rewrite <- (take_drop k children) at 2. rewrite fmap_app.
    apply prefix_app_r. reflexivity. }
  destruct y; exact Hpre.
Qed.

Lemma multiple_loop_subset self children_m children : forall rounds wait_rounds a,
  a ∈ snd (worker_run_multiple_loop exception_handler params self children_m children
             wait_rounds rounds) ->
  is_poll_action a = true ->
  a ∈ pass_polls self children_m children.
Proof.
  induction rounds as [|r rest IH]; intros wait_rounds a Hin Hpoll; simpl in Hin.
  - apply elem_of_nil in Hin. contradiction.
  - destruct (state_eqb (seen_state r) stopping);
      [apply elem_of_nil in Hin; contradiction|].
    pose proof (poll_self_and_children_prefix r self children_m children) as Hpre.
    assert (forall l, a ∈ l -> List.filter is_poll_action l `prefix_of`
                                 pass_polls self children_m children ->
                      a ∈ pass_polls self children_m children) as Hsub.
    { intros l Hl Hp. eapply elem_of_prefix; [|exact Hp].
      rewrite list_elem_of_In, List.filter_In, <- list_elem_of_In. auto. }
    assert (a ∈ worker_delay_ params -> False) as Hnodelay.
    { intros Hd. pose proof (delay_polls params) as Hdp.
      assert (a ∈ List.filter is_poll_action (worker_delay_ params)) as Hf
        by (rewrite list_elem_of_In, List.filter_In, <- list_elem_of_In; auto).
      rewrite Hdp in Hf. apply elem_of_nil in Hf. exact Hf. }
    destruct (poll_self_and_children exception_handler r self children_m children)
      as [x pa].
    simpl in Hpre.
    destruct x as [executed|e| |].
    + destruct (worker_run_multiple_loop exception_handler params self children_m children
                  (if executed =? 0
                   then S (if delay_rounds params <=? wait_rounds then 0 else wait_rounds)
                   else if delay_rounds params <=? wait_rounds then 0 else wait_rounds)
                  rest) as [o tr] eqn:E.
      simpl in Hin. rewrite !elem_of_app in Hin.
      destruct Hin as [Hin | [Hin | Hin]].
      * destruct (delay_rounds params <=? wait_rounds);
          [exfalso; exact (Hnodelay Hin) | apply elem_of_nil in Hin; contradiction].
      * exact (Hsub pa Hin Hpre).
      * eapply IH; [|exact Hpoll]. rewrite E. exact Hin.
    + simpl in Hin. rewrite elem_of_app in Hin. destruct Hin as [Hin | Hin].
      * destruct (delay_rounds params <=? wait_rounds);
          [exfalso; exact (Hnodelay Hin) | apply elem_of_nil in Hin; contradiction].
      * exact (Hsub pa Hin Hpre).
    + simpl in Hin. rewrite elem_of_app in Hin. destruct Hin as [Hin | Hin].
      * destruct (delay_rounds params <=? wait_rounds);
          [exfalso; exact (Hnodelay Hin) | apply elem_of_nil in Hin; contradiction].
      * exact (Hsub pa Hin Hpre).
    + simpl in Hin. rewrite elem_of_app in Hin. destruct Hin as [Hin | Hin].
      * destruct (delay_rounds params <=? wait_rounds);
          [exfalso; exact (Hnodelay Hin) | apply elem_of_nil in Hin; contradiction].
      * exact (Hsub pa Hin Hpre).
Qed.

Lemma pass_polls_queues self_context_ptr children x m :
  act_poll x m ∈ pass_polls (self_poll_method_of params self_context_ptr)
                 (children_poll_method_of params) children ->
  self_context_ptr = Some x \/ x ∈ children.
Proof.
  unfold pass_polls, self_poll_method_of. rewrite elem_of_app. intros [H | H].
  - destruct self_context_ptr as [s|]; [|apply elem_of_nil in H; contradiction].
    destruct (worker_get_poll_method_ (self_poll_policy params)) as [m0|];
      [|apply elem_of_nil in H; contradiction].
    apply list_elem_of_singleton in H. injection H as -> _. left. reflexivity.
  - destruct (children_poll_method_of params) as [m1|];
      [|apply elem_of_nil in H; contradiction].
    apply list_elem_of_fmap in H as (c & Hc & Hin). injection Hc as -> _.
    right. exact Hin.
Qed.

(** The delays of a worker on one queue whose io_context is stopped after
    every pass. *)
Lemma single_loop_idle context : forall rounds wait_rounds,
  1 <= delay_rounds params ->
  wait_rounds <= delay_rounds params ->
  (forall r, r ∈ live_rounds rounds ->
     stopped_after r context = true /\
     exists k a, worker_poll_context_ exception_handler r context m_run = (Ok k, a)) ->
  length (List.filter is_delay_action
            (snd (worker_run_single_loop exception_handler params context
                    wait_rounds rounds)))
    = (length (live_rounds rounds) + wait_rounds - 1) / delay_rounds params
      * length (worker_delay_ params).
Proof.
  induction rounds as [|r rest IH]; intros wait_rounds Hd Hw Hlive.
  - simpl. rewrite Nat.div_small by lia. reflexivity.
  - simpl in Hlive. simpl live_rounds.
    destruct (state_eqb (seen_state r) stopping) eqn:Es.
    + simpl. rewrite Es. simpl. rewrite Nat.div_small by lia. reflexivity.
    + destruct (Hlive r) as (Hstopped & k & a & E); [left|].
      rewrite (single_loop_pass exception_handler params context wait_rounds r rest k a Es E).
      cbv zeta. rewrite Hstopped. cbn [snd].
      pose proof (poll_context_delays exception_handler context r m_run) as Hda.
      rewrite E in Hda. simpl in Hda.
      rewrite !List.filter_app, !length_app, Hda.
      destruct (delay_rounds params <=? wait_rounds) eqn:Ed.
      * apply Nat.leb_le in Ed.
        rewrite IH; [|exact Hd | exact Hd | intros r' Hr'; apply Hlive; right; exact Hr'].
        rewrite (delay_only_delays params). simpl.
        replace (length (live_rounds rest) + wait_rounds - 0)
          with (length (live_rounds rest) + 1 * delay_rounds params) by lia.
        rewrite Nat.div_add by lia.
        replace (length (live_rounds rest) + 1 - 1) with (length (live_rounds rest)) by lia.
        lia.
      * apply Nat.leb_gt in Ed.
        rewrite IH; [|exact Hd | lia | intros r' Hr'; apply Hlive; right; exact Hr'].
        simpl. f_equal. f_equal. lia.
Qed.

End WorkerQueues.

(** X28. A worker polls no io_context but its own and those below its
    node, and none that is disabled: whatever happens in the io_contexts
    and whenever the worker stops, every call it makes on an io_context is
    made on the io_context of an enabled node that is the worker's node or
    below it; on its own only if the self poll is not disabled and on the
    others only if the children poll is not disabled. *)
Theorem X28_worker_polls_only_its_enabled_subtree
    (t : context_tree.t) (c : async_core) (id : nat) (n : node) (params : parameters)
    (rounds : list round) (x : nat) (m : poll_method) :
  context_tree.topological t ->
  linked t (nodes_ c) ->
  nodes_ c !! id = Some n ->
  act_poll x m ∈ snd (worker_run_ c id params rounds) ->
  enabled_at (nodes_ c) x = true /\
  (x = id \/ descendant t id x) /\
  (x = id -> self_poll_policy params <> poll_disabled) /\
  (x <> id -> children_poll_policy params <> poll_disabled).
Proof.
  intros Htopo Hlinked Hn Hin.
  assert (id < length t) as Hid.
  { rewrite <- (linked_length t _ Hlinked). eapply lookup_lt_Some; eauto. }
  destruct (worker_get_child_contexts_exact t (nodes_ c) Htopo Hlinked id n params Hn)
    as (children & Hrun & _ & Hoff & Hon).
  destruct (worker_get_child_contexts_ok t (nodes_ c) Htopo Hlinked id n params Hid Hn)
    as (children' & Hrun' & _ & Habove).
  assert (children' = children) as -> by congruence.
  assert (worker_self_context id n params = Some x \/ x ∈ children) as Hfrom.
  { unfold worker_run_ in Hin. rewrite Hn, Hrun in Hin.
    destruct (worker_regime (worker_self_context id n params) children) as [ctx|s cs|] eqn:Er.
    - apply worker_regime_single in Er.
      destruct (single_loop_only_runs (exception_handler_ c) params ctx rounds 0)
        as (k & Hk & _).
      assert (act_poll x m ∈ replicate k (act_poll ctx m_run)) as Hrep.
      { rewrite <- Hk. rewrite list_elem_of_In, List.filter_In, <- list_elem_of_In.
        split; [exact Hin | reflexivity]. }
      apply elem_of_replicate in Hrep as [Heq _]. injection Heq as -> _. exact Er.
    - apply worker_regime_multi_queues in Er as [-> ->].
      rewrite worker_run_multiple_unfold in Hin.
      apply (pass_polls_queues params _ _ x m).
      eapply multiple_loop_subset; [exact Hin | reflexivity].
    - apply elem_of_nil in Hin. contradiction. }
  destruct Hfrom as [Hself | Hchild].
  - unfold worker_self_context in Hself.
    destruct (negb (self_poll_policy params =? poll_disabled)%Z) eqn:Ep; simpl in Hself;
      [|discriminate].
    destruct (enabled_ n) eqn:Ee; [|discriminate].
    injection Hself as <-.
    split; [unfold enabled_at; rewrite Hn; exact Ee|].
    split; [left; reflexivity|].
    split; [|intros H; congruence].
    intros _ Heq. rewrite Heq in Ep. discriminate.
  - assert ((children_poll_policy params =? poll_disabled)%Z = false) as Hp.
    { destruct (children_poll_policy params =? poll_disabled)%Z eqn:E; [|reflexivity].
      rewrite (Hoff eq_refl) in Hchild. apply elem_of_nil in Hchild. contradiction. }
    destruct (proj1 (Hon Hp x) Hchild) as [Hdesc Hen].
    split; [exact Hen|]. split; [right; exact Hdesc|].
    split.
    + intros ->. destruct (Habove id Hchild). lia.
    + intros _ Heq. rewrite Heq in Hp. discriminate.
Qed.

Lemma X28_witness :
  (forall x m,
     act_poll x m ∈ snd (worker_run_ four_node_core 1 default_parameters
                           [busy_round running false; busy_round stopping false]) ->
     x = 1 \/ descendant four_node_tree 1 x) /\
  snd (worker_run_ four_node_core 1 default_parameters
         [busy_round running false; busy_round stopping false])
    = [act_poll 1 m_poll; act_poll 2 m_poll_one].
Proof.
  split; [|reflexivity].
  intros x m Hin.
  destruct (X28_worker_polls_only_its_enabled_subtree four_node_tree four_node_core 1 _
              default_parameters
              [busy_round running false; busy_round stopping false] x m
              four_node_tree_topological four_node_core_linked eq_refl Hin)
    as (_ & H & _).
  exact H.
Defined.

(** X29. The idle delay of [worker_run_single_], for a positive
    [delay_rounds]: a worker whose io_context is stopped after every pass
    calls [worker_delay_] before pass [delay_rounds + 1] and then before
    every [delay_rounds]-th pass after it, so that after [L] passes it has
    made [(L - 1) / delay_rounds] such calls. It makes a pass, and a call of
    [run()], every time it reads a state other than [stopping], also on a
    stopped io_context. *)
Theorem X29_single_queue_delays_on_a_stopped_context
    (exception_handler : exception_handler_type) (params : parameters) (context : nat)
    (rounds : list round) :
  1 <= delay_rounds params ->
  (forall r, r ∈ live_rounds rounds ->
     stopped_after r context = true /\
     exists k a, worker_poll_context_ exception_handler r context m_run = (Ok k, a)) ->
  length (List.filter is_delay_action
            (snd (worker_run_single_ exception_handler params context rounds)))
    = (length (live_rounds rounds) - 1) / delay_rounds params
      * length (worker_delay_ params) /\
  List.filter is_poll_action
    (snd (worker_run_single_ exception_handler params context rounds))
    = replicate (length (live_rounds rounds)) (act_poll context m_run).
Proof.
  intros Hd Hlive. unfold worker_run_single_. split.
  - rewrite single_loop_idle by (try exact Hlive; lia).
    rewrite Nat.add_0_r. reflexivity.
  - apply single_loop_until_stopping.
    intros r Hr. destruct (Hlive r Hr) as (_ & H). exact H.
Qed.

Lemma X29_witness :
  List.filter is_delay_action
    (snd (worker_run_single_ None default_parameters 0
            [busy_round running true; busy_round running true; busy_round running true;
             busy_round stopping true]))
    = [act_yield; act_yield].
Proof.
  pose proof (X29_single_queue_delays_on_a_stopped_context None default_parameters 0
                [busy_round running true; busy_round running true;
                 busy_round running true; busy_round stopping true]) as H.
  destruct H as [Hlen _]; [simpl; lia | |reflexivity].
  intros r Hr. simpl in Hr.
  apply elem_of_cons in Hr as [-> | Hr]; [split; [reflexivity | eexists; eexists; reflexivity]|].
  apply elem_of_cons in Hr as [-> | Hr]; [split; [reflexivity | eexists; eexists; reflexivity]|].
  apply elem_of_cons in Hr as [-> | Hr]; [split; [reflexivity | eexists; eexists; reflexivity]|].
  apply elem_of_nil in Hr. contradiction.
Defined.

(** ** The idle counter in closed form *)

Section IdleCounter.

Variable params : parameters.
Hypothesis delay_rounds_positive : 1 <= delay_rounds params.

Lemma idle_passes_S (idle : list bool) (k : nat) (b : bool) :
  idle !! k = Some b ->
  idle_passes idle (S k) = idle_passes idle k + (if b then 1 else 0).
Proof.
  intros H. unfold idle_passes.
  rewrite (take_S_r _ _ _ H), List.filter_app, length_app.
  destruct b; reflexivity.
Qed.

Lemma idle_passes_0 (idle : list bool) : idle_passes idle 0 = 0.
Proof. unfold idle_passes. rewrite take_0. reflexivity. Qed.

Lemma wait_rounds_at_0 (idle : list bool) : wait_rounds_at (delay_rounds params) idle 0 = 0.
Proof.
  unfold wait_rounds_at. simpl. rewrite idle_passes_0.
  apply Nat.mod_small. lia.
Qed.

Lemma delay_due_leb (idle : list bool) (k : nat) :
  (delay_rounds params <=? wait_rounds_at (delay_rounds params) idle k)
    = delay_due (delay_rounds params) idle k.
Proof.
  unfold wait_rounds_at.
  destruct (delay_due (delay_rounds params) idle k).
  - apply Nat.leb_le. lia.
  - apply Nat.leb_gt. apply Nat.mod_upper_bound. lia.
Qed.

Lemma pass_delay_at (idle : list bool) (k : nat) :
  pass_delay params (wait_rounds_at (delay_rounds params) idle k)
    = if delay_due (delay_rounds params) idle k then worker_delay_ params else [].
Proof. unfold pass_delay. rewrite delay_due_leb. reflexivity. Qed.

(** The counter of the loop is the closed form, pass after pass. *)
Lemma next_wait_rounds_at (idle : list bool) (k : nat) (b : bool) :
  idle !! k = Some b ->
  next_wait_rounds params (wait_rounds_at (delay_rounds params) idle k) b
    = wait_rounds_at (delay_rounds params) idle (S k).
Proof.
  intros Hb. unfold next_wait_rounds. rewrite delay_due_leb.
  assert ((if delay_due (delay_rounds params) idle k then 0
           else wait_rounds_at (delay_rounds params) idle k)
          = idle_passes idle k mod delay_rounds params) as ->.
  { unfold wait_rounds_at.
    destruct (delay_due (delay_rounds params) idle k) eqn:Hdue; [|reflexivity].
    destruct k as [|j]; [discriminate Hdue|].
    simpl in Hdue. apply andb_true_iff in Hdue as [_ Hmod].
    apply Nat.eqb_eq in Hmod. symmetry. exact Hmod. }
  unfold wait_rounds_at. cbn [delay_due]. rewrite Hb. simpl.
  rewrite (idle_passes_S idle k b Hb).
  pose proof (Nat.mod_upper_bound (idle_passes idle k) (delay_rounds params)
                ltac:(lia)) as Hq.
  destruct b; simpl.
  - rewrite <- Nat.Div0.add_mod_idemp_l.
    generalize dependent (idle_passes idle k mod delay_rounds params). intros q Hq.
    destruct (decide (q + 1 = delay_rounds params)) as [Hfull | Hnot].
    + rewrite Hfull, Nat.Div0.mod_same. simpl. lia.
    + rewrite Nat.mod_small by lia.
      destruct (q + 1 =? 0) eqn:Hz; [apply Nat.eqb_eq in Hz; lia | lia].
  - rewrite Nat.add_0_r. reflexivity.
Qed.

End IdleCounter.

(** One pass of each loop, with the counter made explicit. *)
Lemma single_loop_step exception_handler params context wait_rounds r rest n a :
  state_eqb (seen_state r) stopping = false ->
  worker_poll_context_ exception_handler r context m_run = (Ok n, a) ->
  worker_run_single_loop exception_handler params context wait_rounds (r :: rest)
    = (fst (worker_run_single_loop exception_handler params context
              (next_wait_rounds params wait_rounds (stopped_after r context)) rest),
       pass_delay params wait_rounds ++ a ++
       snd (worker_run_single_loop exception_handler params context
              (next_wait_rounds params wait_rounds (stopped_after r context)) rest)).
Proof.
  intros Hs Hp. cbn [worker_run_single_loop]. rewrite Hs, Hp.
  unfold next_wait_rounds, pass_delay.
  destruct (worker_run_single_loop _ _ _ _ rest) as [o tr]. reflexivity.
Qed.

Lemma single_loop_ends exception_handler params context wait_rounds r rest e a :
  state_eqb (seen_state r) stopping = false ->
  worker_poll_context_ exception_handler r context m_run = (Throw e, a) ->
  worker_run_single_loop exception_handler params context wait_rounds (r :: rest)
    = (terminated e, pass_delay params wait_rounds ++ a).
Proof. intros Hs Hp. cbn [worker_run_single_loop]. rewrite Hs, Hp. reflexivity. Qed.

Lemma multiple_loop_step exception_handler params self children_m children
    wait_rounds r rest n a :
  state_eqb (seen_state r) stopping = false ->
  poll_self_and_children exception_handler r self children_m children = (Ok n, a) ->
  worker_run_multiple_loop exception_handler params self children_m children
      wait_rounds (r :: rest)
    = (fst (worker_run_multiple_loop exception_handler params self children_m children
              (next_wait_rounds params wait_rounds (n =? 0)) rest),
       pass_delay params wait_rounds ++ a ++
       snd (worker_run_multiple_loop exception_handler params self children_m children
              (next_wait_rounds params wait_rounds (n =? 0)) rest)).
Proof.
  intros Hs Hp. cbn [worker_run_multiple_loop]. rewrite Hs, Hp.
  unfold next_wait_rounds, pass_delay.
  destruct (worker_run_multiple_loop _ _ _ _ _ _ rest) as [o tr]. reflexivity.
Qed.

Lemma multiple_loop_ends exception_handler params self children_m children
    wait_rounds r rest e a :
  state_eqb (seen_state r) stopping = false ->
  poll_self_and_children exception_handler r self children_m children = (Throw e, a) ->
  worker_run_multiple_loop exception_handler params self children_m children
      wait_rounds (r :: rest)
    = (terminated e, pass_delay params wait_rounds ++ a).
Proof. intros Hs Hp. cbn [worker_run_multiple_loop]. rewrite Hs, Hp. reflexivity. Qed.

Lemma loop_stops_single exception_handler params context wait_rounds r rest :
  state_eqb (seen_state r) stopping = true ->
  worker_run_single_loop exception_handler params context wait_rounds (r :: rest)
    = (returned, []).
Proof. intros Hs. cbn [worker_run_single_loop]. rewrite Hs. reflexivity. Qed.

Lemma loop_stops_multiple exception_handler params self children_m children
    wait_rounds r rest :
  state_eqb (seen_state r) stopping = true ->
  worker_run_multiple_loop exception_handler params self children_m children
      wait_rounds (r :: rest)
    = (returned, []).
Proof. intros Hs. cbn [worker_run_multiple_loop]. rewrite Hs. reflexivity. Qed.

Lemma live_rounds_cons r rest :
  live_rounds (r :: rest)
    = if state_eqb (seen_state r) stopping then [] else r :: live_rounds rest.
Proof. reflexivity. Qed.

(** The loop of [worker_run_single_] in closed form, as long as no call
    ends the worker. *)
Lemma single_loop_trace exception_handler params context :
  1 <= delay_rounds params ->
  forall rounds idle k,
  drop k idle = single_idle context <$> live_rounds rounds ->
  (forall r, r ∈ live_rounds rounds ->
     exists n a, worker_poll_context_ exception_handler r context m_run = (Ok n, a)) ->
  snd (worker_run_single_loop exception_handler params context
         (wait_rounds_at (delay_rounds params) idle k) rounds)
    = mjoin (imap (fun i r =>
                     (if delay_due (delay_rounds params) idle (k + i)
                      then worker_delay_ params else [])
                     ++ single_polls exception_handler context r)
                  (live_rounds rounds)).
Proof.
  intros HD. induction rounds as [|r rest IH]; intros idle k Hidle Hok.
  - reflexivity.
  - rewrite live_rounds_cons in *.
    destruct (state_eqb (seen_state r) stopping) eqn:Hs.
    { rewrite loop_stops_single by exact Hs. reflexivity. }
    destruct (Hok r ltac:(left)) as (n & a & Hp).
    rewrite fmap_cons in Hidle.
    assert (idle !! k = Some (single_idle context r)) as Hk.
    { rewrite <- (Nat.add_0_r k), <- lookup_drop, Hidle. reflexivity. }
    assert (drop (S k) idle = single_idle context <$> live_rounds rest) as Hrest.
    { rewrite <- (Nat.add_1_r k), <- drop_drop, Hidle. reflexivity. }
    rewrite (single_loop_step _ _ _ _ _ _ _ _ Hs Hp).
    change (stopped_after r context) with (single_idle context r).
    rewrite (next_wait_rounds_at params HD idle k _ Hk), (pass_delay_at params HD).
    cbn [snd]. rewrite (IH idle (S k) Hrest).
    + rewrite imap_cons. cbn [mjoin list_join]. rewrite Nat.add_0_r.
      unfold single_polls at 2. rewrite Hp. cbn [snd].
      rewrite <- app_assoc. f_equal. f_equal. f_equal.
      apply imap_ext. intros i x _. simpl. rewrite Nat.add_succ_r. reflexivity.
    + intros r' Hr'. apply Hok. right. exact Hr'.
Qed.

(** The loop of [worker_run_multiple_] in closed form. *)
Lemma multiple_loop_trace exception_handler params self children_m children :
  1 <= delay_rounds params ->
  forall rounds idle k,
  drop k idle = multiple_idle exception_handler self children_m children
                  <$> live_rounds rounds ->
  (forall r, r ∈ live_rounds rounds ->
     exists n a,
       poll_self_and_children exception_handler r self children_m children = (Ok n, a)) ->
  snd (worker_run_multiple_loop exception_handler params self children_m children
         (wait_rounds_at (delay_rounds params) idle k) rounds)
    = mjoin (imap (fun i r =>
                     (if delay_due (delay_rounds params) idle (k + i)
                      then worker_delay_ params else [])
                     ++ multiple_polls exception_handler self children_m children r)
                  (live_rounds rounds)).
Proof.
  intros HD. induction rounds as [|r rest IH]; intros idle k Hidle Hok.
  - reflexivity.
  - rewrite live_rounds_cons in *.
    destruct (state_eqb (seen_state r) stopping) eqn:Hs.
    { rewrite loop_stops_multiple by exact Hs. reflexivity. }
    destruct (Hok r ltac:(left)) as (n & a & Hp).
    rewrite fmap_cons in Hidle.
    assert (idle !! k = Some (n =? 0)) as Hk.
    { rewrite <- (Nat.add_0_r k), <- lookup_drop, Hidle. cbn [lookup list_lookup].
      unfold multiple_idle. rewrite Hp. reflexivity. }
    assert (drop (S k) idle
            = multiple_idle exception_handler self children_m children
                <$> live_rounds rest) as Hrest.
    { rewrite <- (Nat.add_1_r k), <- drop_drop, Hidle. reflexivity. }
    rewrite (multiple_loop_step _ _ _ _ _ _ _ _ _ _ Hs Hp).
    rewrite (next_wait_rounds_at params HD idle k _ Hk), (pass_delay_at params HD).
    cbn [snd]. rewrite (IH idle (S k) Hrest).
    + rewrite imap_cons. cbn [mjoin list_join]. rewrite Nat.add_0_r.
      unfold multiple_polls at 2. rewrite Hp. cbn [snd].
      rewrite <- app_assoc. f_equal. f_equal. f_equal.
      apply imap_ext. intros i x _. simpl. rewrite Nat.add_succ_r. reflexivity.
    + intros r' Hr'. apply Hok. right. exact Hr'.
Qed.

Lemma single_queue_trace exception_handler params context rounds :
  1 <= delay_rounds params ->
  (forall r, r ∈ live_rounds rounds ->
     exists n a, worker_poll_context_ exception_handler r context m_run = (Ok n, a)) ->
  snd (worker_run_single_ exception_handler params context rounds)
    = passes_trace params (single_idle context <$> live_rounds rounds)
        (single_polls exception_handler context <$> live_rounds rounds).
Proof.
  intros HD Hok. unfold worker_run_single_.
  pose proof (single_loop_trace exception_handler params context HD rounds
                (single_idle context <$> live_rounds rounds) 0 eq_refl Hok) as H.
  rewrite (wait_rounds_at_0 params HD) in H. rewrite H.
  unfold passes_trace. rewrite imap_fmap. reflexivity.
Qed.

Lemma multi_queue_trace exception_handler params self children rounds :
  1 <= delay_rounds params ->
  (forall r, r ∈ live_rounds rounds ->
     exists n a,
       poll_self_and_children exception_handler r (self_poll_method_of params self)
         (children_poll_method_of params) children = (Ok n, a)) ->
  snd (worker_run_multiple_ exception_handler params self children rounds)
    = passes_trace params
        (multiple_idle exception_handler (self_poll_method_of params self)
           (children_poll_method_of params) children <$> live_rounds rounds)
        (multiple_polls exception_handler (self_poll_method_of params self)
           (children_poll_method_of params) children <$> live_rounds rounds).
Proof.
  intros HD Hok. rewrite worker_run_multiple_unfold.
  pose proof (multiple_loop_trace exception_handler params
                (self_poll_method_of params self) (children_poll_method_of params)
                children HD rounds
                (multiple_idle exception_handler (self_poll_method_of params self)
                   (children_poll_method_of params) children <$> live_rounds rounds)
                0 eq_refl Hok) as H.
  rewrite (wait_rounds_at_0 params HD) in H. rewrite H.
  unfold passes_trace. rewrite imap_fmap. reflexivity.
Qed.

(** C3, as amended. The worker of a node of a scheduler linked like a
    tree finds its child queues, and then:
    - with its own queue and no child queue, or with no queue of its own and
      exactly one child queue, it runs the single-queue loop on that queue,
      which calls nothing but [run] on it, once per pass until the pass in
      which it reads [stopping], where it returns; as long as no call ends
      the worker its trace is, pass after pass, the call of [run], with
      [worker_delay_] before it exactly when the pass before found the
      io_context stopped and made the number of such passes a multiple of
      [delay_rounds]; what [run] returned does not count;
    - with any other set of queues that is not empty it runs the multi-queue
      loop, which in every pass polls its own queue, if it has one, and then
      every child queue, until the pass in which it reads [stopping]; its
      trace is, pass after pass, these calls, with [worker_delay_] before
      them exactly when the pass before executed nothing and made the number
      of such passes a multiple of [delay_rounds];
    - with no queue at all it returns at once. *)
Theorem C3_worker_regimes
    (t : context_tree.t) (c : async_core) (id : nat) (n : node)
    (params : parameters) (rounds : list round) :
  context_tree.topological t ->
  linked t (nodes_ c) ->
  nodes_ c !! id = Some n ->
  exists children,
    worker_get_child_contexts_to_run_ (nodes_ c) n params = Ok children /\
    let self := worker_self_context id n params in
    let live := live_rounds rounds in
    (forall context,
       (self = Some context /\ children = []) \/ (self = None /\ children = [context]) ->
       worker_run_ c id params rounds
         = worker_run_single_ (exception_handler_ c) params context rounds /\
       (exists k,
          List.filter is_poll_action (snd (worker_run_ c id params rounds))
            = replicate k (act_poll context m_run) /\
          k <= length live) /\
       ((forall r, r ∈ live ->
           exists k a,
             worker_poll_context_ (exception_handler_ c) r context m_run = (Ok k, a)) ->
        List.filter is_poll_action (snd (worker_run_ c id params rounds))
          = replicate (length live) (act_poll context m_run) /\
        fst (worker_run_ c id params rounds)
          = (if length live <? length rounds then returned else still_running) /\
        (1 <= delay_rounds params ->
         snd (worker_run_ c id params rounds)
           = passes_trace params (single_idle context <$> live)
               (single_polls (exception_handler_ c) context <$> live))) /\
       (0 < delay_rounds params ->
        (forall r, r ∈ rounds -> stopped_after r context = false) ->
        List.filter is_delay_action (snd (worker_run_ c id params rounds)) = [])) /\
    ((self <> None \/ children <> []) ->
     ~ (exists context, (self = Some context /\ children = []) \/
                        (self = None /\ children = [context])) ->
     let self_m := self_poll_method_of params self in
     let children_m := children_poll_method_of params in
     worker_run_ c id params rounds
       = worker_run_multiple_ (exception_handler_ c) params self children rounds /\
     ((forall r, r ∈ live ->
         exists k a,
           poll_self_and_children (exception_handler_ c) r self_m children_m children
             = (Ok k, a)) ->
      List.filter is_poll_action (snd (worker_run_ c id params rounds))
        = mjoin (replicate (length live) (pass_polls self_m children_m children)) /\
      fst (worker_run_ c id params rounds)
        = (if length live <? length rounds then returned else still_running) /\
      (1 <= delay_rounds params ->
       snd (worker_run_ c id params rounds)
         = passes_trace params
             (multiple_idle (exception_handler_ c) self_m children_m children <$> live)
             (multiple_polls (exception_handler_ c) self_m children_m children <$> live)))) /\
    (self = None -> children = [] -> worker_run_ c id params rounds = (returned, [])).
Proof.
  intros Htopo Hlinked Hn.
  assert (id < length t) as Hid.
  { rewrite <- (linked_length t (nodes_ c) Hlinked). eapply lookup_lt_Some; eauto. }
  destruct (worker_get_child_contexts_ok t (nodes_ c) Htopo Hlinked id n params Hid Hn)
    as (children & Hchildren & _ & _).
  exists children. split; [exact Hchildren|].
  intros self live. split; [|split].
  - intros context Hsingle.
    assert (worker_run_ c id params rounds
            = worker_run_single_ (exception_handler_ c) params context rounds) as Hrun.
    { unfold worker_run_. rewrite Hn, Hchildren. fold self.
      destruct Hsingle as [[-> ->] | [-> ->]]; reflexivity. }
    rewrite Hrun.
    split; [reflexivity|]. split; [apply single_loop_only_runs|].
    split.
    + intros Hok.
      destruct (single_loop_until_stopping (exception_handler_ c) params context
                  rounds 0 Hok) as (Hpolls & Hout).
      split; [exact Hpolls|]. split; [exact Hout|].
      intros HD. apply single_queue_trace; assumption.
    + intros Hd. apply single_loop_no_delay. exact Hd.
  - intros Hnonempty Hnot self_m children_m.
    assert (worker_run_ c id params rounds
            = worker_run_multiple_ (exception_handler_ c) params self children rounds)
      as Hrun.
    { unfold worker_run_. rewrite Hn, Hchildren. fold self.
      rewrite (worker_regime_multi self children Hnonempty Hnot). reflexivity. }
    rewrite Hrun. split; [reflexivity|].
    intros Hok.
    destruct (multiple_loop_polls (exception_handler_ c) params self_m children_m
                children rounds 0 Hok) as (Hpolls & Hout).
    split; [exact Hpolls|]. split; [exact Hout|].
    intros HD. apply multi_queue_trace; assumption.
  - intros Hself Hnone. unfold worker_run_. rewrite Hn, Hchildren. fold self.
    rewrite Hself, Hnone. reflexivity.
Qed.

Lemma C3_witness :
  worker_run_ four_node_core 2 default_parameters
      [round_running running 5 true; round_running running 5 true;
       round_running running 0 false; round_running stopping 0 false]
    = (returned,
       [act_poll 2 m_run; act_yield; act_poll 2 m_run; act_yield; act_poll 2 m_run]) /\
  worker_run_ four_node_core 1 default_parameters
      [round_running running 0 false; round_running running 0 false;
       round_running running 1 false; round_running running 0 false;
       round_running stopping 0 false]
    = (returned,
       [act_poll 1 m_poll; act_poll 2 m_poll_one;
        act_yield; act_poll 1 m_poll; act_poll 2 m_poll_one;
        act_yield; act_poll 1 m_poll; act_poll 2 m_poll_one;
        act_poll 1 m_poll; act_poll 2 m_poll_one]).
Proof.
  split.
  - destruct (C3_worker_regimes four_node_tree four_node_core 2
                {| children_ptrs_ := []; workers_ := []; work_guard_ := false;
                   worker_parameters_ := [default_parameters];
                   enabled_ := true; io_stopped_ := false |}
                default_parameters
                [round_running running 5 true; round_running running 5 true;
                 round_running running 0 false; round_running stopping 0 false]
                four_node_tree_topological four_node_core_linked eq_refl)
      as (children & Hc & Hsingle & _ & _).
    injection Hc as <-.
    destruct (Hsingle 2 (or_introl (conj eq_refl eq_refl))) as (_ & _ & Hok & _).
    destruct Hok as (_ & Hout & Htrace).
    { intros r Hr. apply list_elem_of_In in Hr. simpl in Hr.
      destruct Hr as [<- | [<- | [<- | []]]]; eexists; eexists; reflexivity. }
    rewrite (surjective_pairing (worker_run_ _ _ _ _)), Hout, (Htrace (le_n 1)).
    reflexivity.
  - destruct (C3_worker_regimes four_node_tree four_node_core 1
                {| children_ptrs_ := [2]; workers_ := []; work_guard_ := false;
                   worker_parameters_ := [default_parameters];
                   enabled_ := true; io_stopped_ := false |}
                default_parameters
                [round_running running 0 false; round_running running 0 false;
                 round_running running 1 false; round_running running 0 false;
                 round_running stopping 0 false]
                four_node_tree_topological four_node_core_linked eq_refl)
      as (children & Hc & _ & Hmulti & _).
    injection Hc as <-.
    destruct Hmulti as (_ & Hok).
    { left. discriminate. }
    { intros (context & [[_ H] | [H _]]); discriminate H. }
    destruct Hok as (_ & Hout & Htrace).
    { intros r Hr. apply list_elem_of_In in Hr. simpl in Hr.
      destruct Hr as [<- | [<- | [<- | [<- | []]]]]; eexists; eexists; reflexivity. }
    rewrite (surjective_pairing (worker_run_ _ _ _ _)), Hout, (Htrace (le_n 1)).
    reflexivity.
Defined.

(** C3, as stated, fails for the delay of the single-queue loop. The
    worker of node 2 has its own queue and no other, and [delay_rounds] is 1.
    Three calls of [run] that each count 0 (the task threw and the exception
    was dropped) on an io_context that is not stopped have no delay between
    them; three calls that ran five handlers each and left the io_context
    stopped have one before the second and before the third. *)
Lemma C3_counterexample :
  let threw := round_throwing (std_exception "boom") in
  let ran := round_running running 5 true in
  worker_poll_context_ (exception_handler_ four_node_core) threw 2 m_run
    = (Ok 0, [act_poll 2 m_run]) /\
  worker_run_ four_node_core 2 default_parameters [threw; threw; threw]
    = (still_running, [act_poll 2 m_run; act_poll 2 m_run; act_poll 2 m_run]) /\
  worker_poll_context_ (exception_handler_ four_node_core) ran 2 m_run
    = (Ok 5, [act_poll 2 m_run]) /\
  worker_run_ four_node_core 2 default_parameters [ran; ran; ran]
    = (still_running,
       [act_poll 2 m_run; act_yield; act_poll 2 m_run; act_yield; act_poll 2 m_run]).
Proof. repeat split. Qed.

(** ** An exception in the middle of a pass *)

Section ExceptionInAPass.

Variable exception_handler : exception_handler_type.
Variable r : round.
Variable m : poll_method.

(** The children after one whose call returned are polled. *)
Lemma poll_contexts_goes_on context n acts later : forall earlier k1 a1,
  worker_poll_context_ exception_handler r context m = (Ok n, acts) ->
  worker_poll_contexts_ exception_handler r earlier m = (Ok k1, a1) ->
  worker_poll_contexts_ exception_handler r (earlier ++ context :: later) m
    = (match fst (worker_poll_contexts_ exception_handler r later m) with
       | Ok k2 => Ok (k1 + n + k2)
       | x => x
       end,
       a1 ++ acts ++ snd (worker_poll_contexts_ exception_handler r later m)).
Proof.
  induction earlier as [|c1 earlier IH]; intros k1 a1 Hcall Hearlier.
  - simpl in Hearlier. injection Hearlier as <- <-.
    rewrite app_nil_l, poll_contexts_cons, Hcall.
    destruct (worker_poll_contexts_ exception_handler r later m) as [[k2|e| |] b];
      reflexivity.
  - rewrite poll_contexts_cons in Hearlier.
    destruct (worker_poll_context_ exception_handler r c1 m) as [[n1|e| |] x1] eqn:E1;
      try discriminate Hearlier.
    destruct (worker_poll_contexts_ exception_handler r earlier m) as [[kb|e| |] ab] eqn:E2;
      try discriminate Hearlier.
    injection Hearlier as <- <-.
    rewrite <- app_comm_cons, poll_contexts_cons, E1, (IH kb ab Hcall eq_refl).
    destruct (worker_poll_contexts_ exception_handler r later m) as [[k2|e| |] b];
      cbn [fst snd]; rewrite <- ?app_assoc; try reflexivity.
    f_equal. f_equal. lia.
Qed.

(** The children after one whose call threw are not. *)
Lemma poll_contexts_ends context e acts later : forall earlier k1 a1,
  worker_poll_context_ exception_handler r context m = (Throw e, acts) ->
  worker_poll_contexts_ exception_handler r earlier m = (Ok k1, a1) ->
  worker_poll_contexts_ exception_handler r (earlier ++ context :: later) m
    = (Throw e, a1 ++ acts).
Proof.
  induction earlier as [|c1 earlier IH]; intros k1 a1 Hcall Hearlier.
  - simpl in Hearlier. injection Hearlier as <- <-.
    rewrite app_nil_l, poll_contexts_cons, Hcall.
    reflexivity.
  - rewrite poll_contexts_cons in Hearlier.
    destruct (worker_poll_context_ exception_handler r c1 m) as [[n1|e1| |] x1] eqn:E1;
      try discriminate Hearlier.
    destruct (worker_poll_contexts_ exception_handler r earlier m) as [[kb|e1| |] ab] eqn:E2;
      try discriminate Hearlier.
    injection Hearlier as <- <-.
    rewrite <- app_comm_cons, poll_contexts_cons, E1, (IH kb ab Hcall eq_refl).
    rewrite <- app_assoc. reflexivity.
Qed.

(** A pass is its two halves. *)
Lemma poll_self_and_children_halves self children_m children :
  poll_self_and_children exception_handler r self children_m children
    = match poll_self exception_handler r self with
      | (Ok n, a) =>
        match poll_children exception_handler r children_m children with
        | (Ok k, b) => (Ok (n + k), a ++ b)
        | (y, b) => (y, a ++ b)
        end
      | (x, a) => (x, a)
      end.
Proof.
  unfold poll_self_and_children, poll_self, poll_children.
  destruct (match self with
            | Some (s, m0) => worker_poll_context_ exception_handler r s m0
            | None => (Ok 0, [])
            end) as [[n|e| |] a]; try reflexivity.
  destruct children_m as [m1|]; [reflexivity|].
  rewrite Nat.add_0_r, app_nil_r. reflexivity.
Qed.

End ExceptionInAPass.

(** C7, as amended. A task lets an exception escape from a call of a
    member function of the io_context, made by a worker in a pass of its
    loop.
    - The exception is derived from [std::exception] and the sink returns,
      or there is no sink: the sink, if there is one, is called with the
      exception, the call counts 0 handlers, and the worker goes on. In the
      single-queue loop the next pass follows. Among the children of a pass
      of the multi-queue loop the ones after it are polled as if it had
      returned 0, and the pass is completed and followed by the next one,
      be the call the self poll or the poll of a child.
    - The sink throws, or the exception is not derived from
      [std::exception]: what was thrown leaves the thread function. Nothing
      more is polled in the pass and there is no other pass, be the call the
      one of the single-queue loop, the self poll or the poll of a child. *)
Theorem C7_task_exception_policy
    (exception_handler : exception_handler_type) (params : parameters)
    (r : round) (rest : list round) (context : nat) (m : poll_method) (e : exn) :
  poll_outcome r context m = Throw e ->
  state_eqb (seen_state r) stopping = false ->
  let goes_on := fun acts : list action =>
    worker_poll_context_ exception_handler r context m = (Ok 0, acts) /\
    (m = m_run -> forall wait_rounds,
       worker_run_single_loop exception_handler params context wait_rounds (r :: rest)
         = (fst (worker_run_single_loop exception_handler params context
                   (next_wait_rounds params wait_rounds (stopped_after r context)) rest),
            pass_delay params wait_rounds ++ acts ++
            snd (worker_run_single_loop exception_handler params context
                   (next_wait_rounds params wait_rounds (stopped_after r context))
                   rest))) /\
    (forall earlier later k1 a1,
       worker_poll_contexts_ exception_handler r earlier m = (Ok k1, a1) ->
       worker_poll_contexts_ exception_handler r (earlier ++ context :: later) m
         = (match fst (worker_poll_contexts_ exception_handler r later m) with
            | Ok k2 => Ok (k1 + k2)
            | x => x
            end,
            a1 ++ acts ++ snd (worker_poll_contexts_ exception_handler r later m))) /\
    (forall children_m children wait_rounds k b,
       poll_children exception_handler r children_m children = (Ok k, b) ->
       worker_run_multiple_loop exception_handler params (Some (context, m)) children_m
           children wait_rounds (r :: rest)
         = (fst (worker_run_multiple_loop exception_handler params (Some (context, m))
                   children_m children
                   (next_wait_rounds params wait_rounds (k =? 0)) rest),
            pass_delay params wait_rounds ++ acts ++ b ++
            snd (worker_run_multiple_loop exception_handler params (Some (context, m))
                   children_m children
                   (next_wait_rounds params wait_rounds (k =? 0)) rest))) /\
    (forall self earlier later wait_rounds k0 a0 k1 a1 k2 a2,
       poll_self exception_handler r self = (Ok k0, a0) ->
       worker_poll_contexts_ exception_handler r earlier m = (Ok k1, a1) ->
       worker_poll_contexts_ exception_handler r later m = (Ok k2, a2) ->
       worker_run_multiple_loop exception_handler params self (Some m)
           (earlier ++ context :: later) wait_rounds (r :: rest)
         = (fst (worker_run_multiple_loop exception_handler params self (Some m)
                   (earlier ++ context :: later)
                   (next_wait_rounds params wait_rounds (k0 + (k1 + k2) =? 0)) rest),
            pass_delay params wait_rounds ++ a0 ++ a1 ++ acts ++ a2 ++
            snd (worker_run_multiple_loop exception_handler params self (Some m)
                   (earlier ++ context :: later)
                   (next_wait_rounds params wait_rounds (k0 + (k1 + k2) =? 0)) rest))) in
  let ends_with := fun (e' : exn) (acts : list action) =>
    worker_poll_context_ exception_handler r context m = (Throw e', acts) /\
    (m = m_run -> forall wait_rounds,
       worker_run_single_loop exception_handler params context wait_rounds (r :: rest)
         = (terminated e', pass_delay params wait_rounds ++ acts)) /\
    (forall earlier later k1 a1,
       worker_poll_contexts_ exception_handler r earlier m = (Ok k1, a1) ->
       worker_poll_contexts_ exception_handler r (earlier ++ context :: later) m
         = (Throw e', a1 ++ acts)) /\
    (forall children_m children wait_rounds,
       worker_run_multiple_loop exception_handler params (Some (context, m)) children_m
           children wait_rounds (r :: rest)
         = (terminated e', pass_delay params wait_rounds ++ acts)) /\
    (forall self earlier later wait_rounds k0 a0 k1 a1,
       poll_self exception_handler r self = (Ok k0, a0) ->
       worker_poll_contexts_ exception_handler r earlier m = (Ok k1, a1) ->
       worker_run_multiple_loop exception_handler params self (Some m)
           (earlier ++ context :: later) wait_rounds (r :: rest)
         = (terminated e', pass_delay params wait_rounds ++ a0 ++ a1 ++ acts)) in
  (is_std_exception e = true ->
     forall handler, exception_handler = Some handler ->
       (handler e = None -> goes_on [act_poll context m; act_sink e]) /\
       (forall e', handler e = Some e' ->
          ends_with e' [act_poll context m; act_sink e])) /\
  (is_std_exception e = true -> exception_handler = None ->
     goes_on [act_poll context m]) /\
  (is_std_exception e = false -> ends_with e [act_poll context m]).
Proof.
  intros Hp Hs goes_on ends_with.
  assert (forall acts,
            worker_poll_context_ exception_handler r context m = (Ok 0, acts) ->
            goes_on acts) as Hgoes.
  { intros acts Hcall. unfold goes_on. split; [exact Hcall|]. split; [|split; [|split]].
    - intros -> wait_rounds. apply (single_loop_step _ _ _ _ _ _ 0 acts Hs Hcall).
    - intros earlier later k1 a1 Hearlier.
      rewrite (poll_contexts_goes_on _ _ _ _ _ _ later earlier k1 a1 Hcall Hearlier).
      destruct (worker_poll_contexts_ exception_handler r later m) as [[k2|e0| |] b];
        cbn [fst snd]; try reflexivity.
      rewrite Nat.add_0_r. reflexivity.
    - intros children_m children wait_rounds k b Hchildren.
      rewrite (multiple_loop_step _ _ _ _ _ wait_rounds r rest k (acts ++ b) Hs).
      + rewrite <- !app_assoc. reflexivity.
      + rewrite poll_self_and_children_halves. unfold poll_self.
        rewrite Hcall, Hchildren. reflexivity.
    - intros self earlier later wait_rounds k0 a0 k1 a1 k2 a2 Hself Hearlier Hlater.
      rewrite (multiple_loop_step _ _ _ _ _ wait_rounds r rest (k0 + (k1 + k2))
                 (a0 ++ a1 ++ acts ++ a2) Hs).
      + rewrite <- !app_assoc. reflexivity.
      + rewrite poll_self_and_children_halves, Hself. unfold poll_children.
        rewrite (poll_contexts_goes_on _ _ _ _ _ _ later earlier k1 a1 Hcall Hearlier).
        rewrite Hlater. cbn [fst snd]. rewrite Nat.add_0_r. reflexivity. }
  assert (forall e' acts,
            worker_poll_context_ exception_handler r context m = (Throw e', acts) ->
            ends_with e' acts) as Hends.
  { intros e' acts Hcall. unfold ends_with. split; [exact Hcall|].
    split; [|split; [|split]].
    - intros -> wait_rounds. apply single_loop_ends; assumption.
    - intros earlier later k1 a1 Hearlier.
      apply (poll_contexts_ends _ _ _ _ _ _ later earlier k1 a1 Hcall Hearlier).
    - intros children_m children wait_rounds.
      apply multiple_loop_ends; [exact Hs|].
      rewrite poll_self_and_children_halves. unfold poll_self. rewrite Hcall. reflexivity.
    - intros self earlier later wait_rounds k0 a0 k1 a1 Hself Hearlier.
      rewrite (multiple_loop_ends _ _ _ _ _ wait_rounds r rest e' (a0 ++ a1 ++ acts) Hs).
      + reflexivity.
      + rewrite poll_self_and_children_halves, Hself. unfold poll_children.
        rewrite (poll_contexts_ends _ _ _ _ _ _ later earlier k1 a1 Hcall Hearlier).
        reflexivity. }
  split; [|split].
  - intros Hstd handler Hh. split.
    + intros He. apply Hgoes. eapply poll_context_sink_returns; eauto.
    + intros e' He. apply Hends. eapply poll_context_sink_throws; eauto.
  - intros Hstd Hh. apply Hgoes. apply (poll_context_no_sink _ _ _ _ e); assumption.
  - intros Hstd. apply Hends. apply poll_context_foreign; assumption.
Qed.

Lemma C7_witness :
  worker_poll_context_ quiet_sink (round_throwing (std_exception "boom")) 2 m_poll_one
    = (Ok 0, [act_poll 2 m_poll_one; act_sink (std_exception "boom")]) /\
  worker_run_multiple_loop quiet_sink default_parameters (Some (0, m_poll))
      (Some m_poll_one) [2; 3] 0
      [round_throwing (std_exception "boom"); round_throwing (std_exception "boom")]
    = (still_running,
       [act_poll 0 m_poll; act_sink (std_exception "boom");
        act_poll 2 m_poll_one; act_sink (std_exception "boom");
        act_poll 3 m_poll_one; act_sink (std_exception "boom");
        act_yield;
        act_poll 0 m_poll; act_sink (std_exception "boom");
        act_poll 2 m_poll_one; act_sink (std_exception "boom");
        act_poll 3 m_poll_one; act_sink (std_exception "boom")]).
Proof.
  pose proof (C7_task_exception_policy quiet_sink default_parameters
                (round_throwing (std_exception "boom"))
                [round_throwing (std_exception "boom")] 2 m_poll_one
                (std_exception "boom") eq_refl eq_refl) as H.
  cbv zeta in H. destruct H as (H & _ & _).
  destruct (H eq_refl (fun _ => None) eq_refl) as (H1 & _).
  destruct (H1 eq_refl) as (Hcall & _ & _ & _ & Hchild).
  split; [exact Hcall|].
  etransitivity.
  - exact (Hchild (Some (0, m_poll)) [] [3] 0 0
             [act_poll 0 m_poll; act_sink (std_exception "boom")] 0 [] 0
             [act_poll 3 m_poll_one; act_sink (std_exception "boom")]
             eq_refl eq_refl eq_refl).
  - reflexivity.
Defined.

(** ** [join()] and the threads it waits for *)

Lemma live_rounds_all rounds :
  (forall r, r ∈ rounds -> seen_state r <> stopping) -> live_rounds rounds = rounds.
Proof.
  induction rounds as [|r rest IH]; intros Hlive; [reflexivity|].
  rewrite live_rounds_cons.
  assert (state_eqb (seen_state r) stopping = false) as ->.
  { pose proof (Hlive r ltac:(left)) as H. destruct (seen_state r); try reflexivity.
    contradiction. }
  rewrite IH; [reflexivity|]. intros r' Hr'. apply Hlive. right. exact Hr'.
Qed.

Section CallsThatReturn.

Variable exception_handler : exception_handler_type.
Variable r : round.
Hypothesis calls_return : forall x m, exists k, poll_outcome r x m = Ok k.

Lemma poll_context_call_returns x m :
  exists k a, worker_poll_context_ exception_handler r x m = (Ok k, a).
Proof.
  destruct (calls_return x m) as [k Hk].
  exists k, [act_poll x m]. apply poll_context_returns. exact Hk.
Qed.

Lemma poll_contexts_calls_return m : forall children,
  exists k a, worker_poll_contexts_ exception_handler r children m = (Ok k, a).
Proof.
  induction children as [|child children IH].
  - exists 0, []. reflexivity.
  - destruct (poll_context_call_returns child m) as (k1 & a1 & H1).
    destruct IH as (k2 & a2 & H2).
    exists (k1 + k2), (a1 ++ a2). rewrite poll_contexts_cons, H1, H2. reflexivity.
Qed.

Lemma poll_self_and_children_calls_return self children_m children :
  exists k a,
    poll_self_and_children exception_handler r self children_m children = (Ok k, a).
Proof.
  rewrite poll_self_and_children_halves.
  assert (exists k0 a0, poll_self exception_handler r self = (Ok k0, a0))
    as (k0 & a0 & ->).
  { destruct self as [[s m0]|]; [apply poll_context_call_returns|].
    exists 0, []. reflexivity. }
  assert (exists k1 a1, poll_children exception_handler r children_m children = (Ok k1, a1))
    as (k1 & a1 & ->).
  { destruct children_m as [m1|]; [apply poll_contexts_calls_return|].
    exists 0, []. reflexivity. }
  eexists. eexists. reflexivity.
Qed.

End CallsThatReturn.

(** A worker with a queue is in its loop for as long as it does not read
    [stopping] and its calls return. *)
Lemma worker_stays_in_its_loop c id params rounds :
  fst (worker_run_ c id params []) = still_running ->
  (forall r, r ∈ rounds ->
     seen_state r <> stopping /\ forall x m, exists k, poll_outcome r x m = Ok k) ->
  fst (worker_run_ c id params rounds) = still_running.
Proof.
  intros Hloop Hrounds.
  assert (live_rounds rounds = rounds) as Hlive.
  { apply live_rounds_all. intros r Hr. apply (Hrounds r Hr). }
  unfold worker_run_ in *.
  destruct (nodes_ c !! id) as [n|]; [|discriminate Hloop].
  destruct (worker_get_child_contexts_to_run_ (nodes_ c) n params) as [children|e| |];
    try discriminate Hloop.
  destruct (worker_regime (worker_self_context id n params) children)
    as [context|self children'|]; [| |discriminate Hloop].
  - destruct (single_loop_until_stopping (exception_handler_ c) params context rounds 0)
      as (_ & Hout).
    { rewrite Hlive. intros r Hr. apply poll_context_call_returns. apply (Hrounds r Hr). }
    unfold worker_run_single_. rewrite Hout, Hlive, Nat.ltb_irrefl. reflexivity.
  - rewrite worker_run_multiple_unfold.
    destruct (multiple_loop_polls (exception_handler_ c) params
                (self_poll_method_of params self) (children_poll_method_of params)
                children' rounds 0) as (_ & Hout).
    { rewrite Hlive. intros r Hr. apply poll_self_and_children_calls_return.
      apply (Hrounds r Hr). }
    rewrite Hout, Hlive, Nat.ltb_irrefl. reflexivity.
Qed.

Lemma forallb_imap_false {A} (f : nat -> A -> bool) (l : list A) :
  forallb (fun b : bool => b) (imap f l) = false <->
  exists i x, l !! i = Some x /\ f i x = false.
Proof.
  revert f. induction l as [|y l IH]; intros f.
  - simpl. split; [discriminate|]. intros (i & x & H & _). rewrite lookup_nil in H.
    discriminate H.
  - rewrite imap_cons. cbn [forallb]. rewrite andb_false_iff, IH. split.
    + intros [H | (i & x & Hi & Hx)].
      * exists 0, y. split; [reflexivity | exact H].
      * exists (S i), x. split; [exact Hi | exact Hx].
    + intros (i & x & Hi & Hx). destruct i as [|i].
      * injection Hi as <-. left. exact Hx.
      * right. exists i, x. split; [exact Hi | exact Hx].
Qed.

Lemma threads_have_returned_false c :
  threads_have_returned c = false <->
  exists id n w,
    nodes_ c !! id = Some n /\ w ∈ workers_ n /\ returns_at_once c id w = false.
Proof.
  unfold threads_have_returned. rewrite forallb_imap_false. split.
  - intros (id & n & Hn & Hw). exists id, n.
    destruct (forallb (returns_at_once c id) (workers_ n)) eqn:E; [discriminate Hw|].
    apply Bool.not_true_iff_false in E. rewrite forallb_forall in E.
    destruct (Exists_dec (fun w => returns_at_once c id w = false) (workers_ n))
      as [Hex | Hnone].
    { intros w. destruct (returns_at_once c id w); [right; discriminate | left; reflexivity]. }
    + apply Exists_exists in Hex as (w & Hin & Hw'). exists w.
      split; [exact Hn|]. split; [apply list_elem_of_In; exact Hin | exact Hw'].
    + exfalso. apply E. intros w Hin.
      destruct (returns_at_once c id w) eqn:Ew; [reflexivity|].
      exfalso. apply Hnone. apply Exists_exists. exists w. auto.
  - intros (id & n & w & Hn & Hin & Hw). exists id, n. split; [exact Hn|].
    apply Bool.not_true_iff_false. rewrite forallb_forall. intros Hall.
    apply list_elem_of_In in Hin. rewrite (Hall w Hin) in Hw. discriminate Hw.
Qed.

(** X10. [join()] throws [invalid_argument] and changes nothing when
    [joinable()] does not hold. On a joinable scheduler whose threads have
    all returned, which a worker without queue does at once, it joins the
    threads every node holds and stores [idle], leaving the guards and the
    io_contexts as they are. On a joinable scheduler that holds a thread
    which has not returned, the call does not return: a worker with a queue
    is in its loop for as long as it reads a state other than [stopping]
    and its calls return, and nothing in [join()] stores [stopping]. *)
Theorem X10_join_waits_for_the_threads (c : async_core) :
  (joinable c = false ->
   join c = (Throw (invalid_argument "Core is not joinable"), c)) /\
  (joinable c = true -> threads_have_returned c = true ->
   exists c',
     join c = (Ok tt, c') /\
     get_state c' = idle /\
     joinable c' = false /\
     nodes_ c' = set_workers [] <$> nodes_ c /\
     trace_ c' = trace_ c ++ [ev_lock join_mutex_] ++ all_join_events (nodes_ c)
                   ++ [ev_state running idle; ev_unlock join_mutex_] /\
     (forall id, pending c' id = [] /\
                 joined_slots id (all_join_events (nodes_ c)) = pending c id)) /\
  (joinable c = true -> threads_have_returned c = false -> join c = (OutOfFuel, c)) /\
  (threads_have_returned c = false <->
   exists id n w,
     nodes_ c !! id = Some n /\ w ∈ workers_ n /\ returns_at_once c id w = false) /\
  (forall id params rounds,
     fst (worker_run_ c id params []) = still_running ->
     (forall r, r ∈ rounds ->
        seen_state r <> stopping /\ forall x m, exists k, poll_outcome r x m = Ok k) ->
     fst (worker_run_ c id params rounds) = still_running).
Proof.
  split; [|split; [|split; [|split]]].
  - unfold joinable, join. intros Hnot.
    destruct (state_eqb (state_ c) running) eqn:Es; simpl in *; [|reflexivity].
    destruct (joined_ c) eqn:Hj; [|discriminate Hnot]. simpl.
    rewrite join_workers_busy by exact Hj. reflexivity.
  - unfold joinable, join. intros Hable Hdone.
    destruct (state_eqb (state_ c) running) eqn:Es; simpl in *; [|discriminate Hable].
    destruct (joined_ c) eqn:Hj; [discriminate Hable|]. simpl.
    rewrite Hdone. simpl.
    assert (state_ c = running) as Hs
      by (destruct (state_ c); try discriminate; reflexivity).
    destruct (join_workers_spec c Hj) as (c' & Hrun & Hs' & _ & _ & Hn & Ht).
    rewrite Hrun. exists c'. split; [reflexivity|]. split; [exact Hs'|].
    split; [rewrite Hs'; reflexivity|]. split; [exact Hn|].
    split; [rewrite Ht, Hs; reflexivity|].
    intros id. split.
    + unfold pending. rewrite Hn, list_lookup_fmap.
      destruct (nodes_ c !! id); reflexivity.
    + apply joined_slots_all_join_events.
  - unfold joinable, join. intros Hable Hlive.
    destruct (state_eqb (state_ c) running) eqn:Es; simpl in *; [|discriminate Hable].
    destruct (joined_ c) eqn:Hj; [discriminate Hable|]. simpl.
    rewrite Hlive. reflexivity.
  - apply threads_have_returned_false.
  - intros id params rounds. apply worker_stays_in_its_loop.
Qed.

Lemma X10_witness :
  let done := snd (start calm_host disabled_root) in
  let busy := snd (start calm_host four_node_core) in
  (pending done 0 = [0] /\
   exists c', join done = (Ok tt, c') /\ get_state c' = idle /\ pending c' 0 = []) /\
  (pending busy 2 = [0] /\ join busy = (OutOfFuel, busy)).
Proof.
  intros done busy. split.
  - destruct (X10_join_waits_for_the_threads done) as (_ & Hdone & _).
    destruct (Hdone eq_refl eq_refl) as (c' & Hjoin & Hs & _ & _ & _ & Hp).
    split; [reflexivity|]. exists c'. split; [exact Hjoin|]. split; [exact Hs|].
    apply (Hp 0).
  - destruct (X10_join_waits_for_the_threads busy) as (_ & _ & Hbusy & _).
    split; [reflexivity|]. apply Hbusy; reflexivity.
Defined.

(** ** A constructor left by the exception of [start()] *)

Lemma reverse_seq_S k : reverse (seq 0 (S k)) = k :: reverse (seq 0 k).
Proof. rewrite seq_S, reverse_app. reflexivity. Qed.

Lemma destroy_unjoined_all (arr : list node) : forall k,
  k <= length arr ->
  (forall j n, j < k -> arr !! j = Some n -> workers_ n = []) ->
  destroy_unjoined k arr = (true, ev_destroy <$> reverse (seq 0 k)).
Proof.
  induction k as [|k IH]; intros Hk Hnone; [reflexivity|].
  cbn [destroy_unjoined].
  destruct (lookup_lt_is_Some_2 arr k ltac:(lia)) as [n Hn].
  rewrite Hn. cbn [fmap option_fmap option_map].
  rewrite (Hnone k n ltac:(lia) Hn), IH; [|lia|].
  - rewrite reverse_seq_S, fmap_cons. reflexivity.
  - intros j n' Hj. apply Hnone. lia.
Qed.

Lemma destroy_unjoined_stops (arr : list node) k n : forall m,
  k < m -> m <= length arr ->
  arr !! k = Some n -> workers_ n <> [] ->
  (forall j n', k < j -> j < m -> arr !! j = Some n' -> workers_ n' = []) ->
  destroy_unjoined m arr
    = (false,
       (ev_destroy <$> reverse (seq (S k) (m - S k))) ++ [ev_destroy k; ev_terminate]).
Proof.
  intros m Hkm. induction Hkm as [|m Hkm IH]; intros Hm Hn Hheld Hnone.
  - cbn [destroy_unjoined]. rewrite Hn. cbn [fmap option_fmap option_map].
    rewrite Nat.sub_diag. destruct (workers_ n); [contradiction | reflexivity].
  - cbn [destroy_unjoined].
    destruct (lookup_lt_is_Some_2 arr m ltac:(lia)) as [n' Hn'].
    rewrite Hn'. cbn [fmap option_fmap option_map].
    rewrite (Hnone m n' ltac:(lia) ltac:(lia) Hn'), IH; try assumption; [|lia|].
    + replace (S m - S k) with (S (m - S k)) by lia.
      rewrite seq_S, reverse_app, fmap_app.
      replace (S k + (m - S k)) with m by lia. reflexivity.
    + intros j n'' Hj Hjm. apply Hnone; lia.
Qed.

(** X30. When [start()] throws inside the constructor, the destructor of
    the scheduler is not run, and nothing stops or joins the threads
    launched before the failure. If no node holds a thread, the nodes are
    destroyed from the last one down to node 0, the storage is freed and the
    exception reaches the caller. If a node holds a thread, the nodes after
    the last such node are destroyed and the destruction of that node ends
    the program: the constructor does not return. *)
Theorem X30_constructor_left_by_start
    (h : host) (t : context_tree.t) (exception_handler : exception_handler_type)
    (arr : list node) (log : list event) (e : exn) (c1 : async_core) :
  node_array.ctor h t = (Ok arr, log) ->
  start h {| state_ := idle; nodes_ := arr; exception_handler_ := exception_handler;
             joined_ := false; trace_ := log |} = (Throw e, c1) ->
  get_state c1 = idle /\
  (Forall (fun n => workers_ n = []) (nodes_ c1) ->
   make h t exception_handler true
     = (Throw e,
        trace_ c1 ++ (ev_destroy <$> reverse (seq 0 (length (nodes_ c1))))
          ++ [ev_free_storage])) /\
  (forall k n,
     nodes_ c1 !! k = Some n -> workers_ n <> [] ->
     (forall j n', k < j -> nodes_ c1 !! j = Some n' -> workers_ n' = []) ->
     make h t exception_handler true
       = (OutOfFuel,
          trace_ c1
            ++ (ev_destroy <$> reverse (seq (S k) (length (nodes_ c1) - S k)))
            ++ [ev_destroy k; ev_terminate])).
Proof.
  intros Hctor Hstart.
  split; [|split].
  - destruct (nodes_empty {| state_ := idle; nodes_ := arr;
                             exception_handler_ := exception_handler;
                             joined_ := false; trace_ := log |}) eqn:E.
    { rewrite start_empty in Hstart by exact E. discriminate Hstart. }
    destruct (start_transitions h _ E) as (r & c' & evs0 & Hrun & _ & _ & Hr).
    rewrite Hstart in Hrun. injection Hrun as <- <-.
    destruct Hr as [Hs _]. exact Hs.
  - intros Hnone. unfold make. rewrite Hctor, Hstart.
    rewrite destroy_unjoined_all; [reflexivity | lia |].
    intros j n _ Hn. rewrite list.Forall_forall in Hnone.
    apply Hnone. eapply list_elem_of_lookup_2. exact Hn.
  - intros k n Hn Hheld Hafter. unfold make. rewrite Hctor, Hstart.
    rewrite (destroy_unjoined_stops (nodes_ c1) k n); try assumption.
    + reflexivity.
    + eapply lookup_lt_Some. exact Hn.
    + lia.
    + intros j n' Hj _. apply Hafter. exact Hj.
Qed.

Lemma X30_witness :
  make first_thread_failing_host four_node_tree None true
    = (Throw (system_error 11),
       [ev_construct 0; ev_construct 1; ev_construct 2; ev_construct 3;
        ev_lock stop_mutex_; ev_lock join_mutex_; ev_unlock join_mutex_;
        ev_state idle starting; ev_pin 2; ev_state starting idle; ev_unlock stop_mutex_;
        ev_destroy 3; ev_destroy 2; ev_destroy 1; ev_destroy 0; ev_free_storage]) /\
  make thread_failing_host four_node_tree None true
    = (OutOfFuel,
       [ev_construct 0; ev_construct 1; ev_construct 2; ev_construct 3;
        ev_lock stop_mutex_; ev_lock join_mutex_; ev_unlock join_mutex_;
        ev_state idle starting; ev_pin 2; ev_launch 2 0; ev_pin 3; ev_launch 3 0;
        ev_launch 3 1; ev_pin 1; ev_state starting idle; ev_unlock stop_mutex_;
        ev_destroy 3; ev_terminate]).
Proof.
  split.
  - assert (start first_thread_failing_host four_node_core
            = (Throw (system_error 11),
               snd (start first_thread_failing_host four_node_core)))
      as Hstart by (vm_compute; reflexivity).
    destruct (X30_constructor_left_by_start first_thread_failing_host four_node_tree
                None (nodes_ four_node_core) (trace_ four_node_core) (system_error 11)
                (snd (start first_thread_failing_host four_node_core))
                eq_refl Hstart) as (_ & Hthrow & _).
    rewrite Hthrow; [vm_compute; reflexivity|].
    vm_compute. repeat constructor.
  - assert (start thread_failing_host four_node_core
            = (Throw (system_error 11), snd (start thread_failing_host four_node_core)))
      as Hstart by (vm_compute; reflexivity).
    destruct (X30_constructor_left_by_start thread_failing_host four_node_tree
                None (nodes_ four_node_core) (trace_ four_node_core) (system_error 11)
                (snd (start thread_failing_host four_node_core))
                eq_refl Hstart) as (_ & _ & Hends).
    rewrite (Hends 3 (mk_rt_node [] [mk_thread 0 default_parameters;
                                     mk_thread 1 default_parameters]
                        true [default_parameters; default_parameters] true false)).
    + vm_compute. reflexivity.
    + vm_compute. reflexivity.
    + discriminate.
    + intros j n' Hj Hn'. apply lookup_lt_Some in Hn'.
      assert (length (nodes_ (snd (start thread_failing_host four_node_core))) = 4) as Hlen
        by (vm_compute; reflexivity).
      lia.
Defined.
